(** * hexrec: record model, per-format records and the block bridge

    A shallow embedding of [hexrec/records.py] and of the record formats
    [hexrec/formats/intel.py], [hexrec/formats/motorola.py] and
    [hexrec/formats/mos.py].

    Python [int] is [Z]; [bytes] is [list byte]; [str] is [list ascii];
    a raised exception is the [Raise] branch of [result]; a generator is
    the list of the records it yields (or the exception that ends it). *)

From Stdlib Require Import ZArith List Bool Ascii String Lia Arith.
From Stdlib Require Import Strings.Byte DecimalString Sorted.
Import ListNotations.

Local Open Scope string_scope.
Local Open Scope list_scope.
Local Open Scope Z_scope.

(** ** Exceptions and the error monad *)

Inductive exn : Type :=
| ValueError (msg : string)
| StructError
| AssertionError
| TypeError
| IndexError
| BinasciiError.

Inductive result (A : Type) : Type :=
| Ok (a : A)
| Raise (e : exn).

Arguments Ok {A} a.
Arguments Raise {A} e.

Definition bind {A B : Type} (c : result A) (k : A -> result B) : result B :=
  match c with
  | Ok a => k a
  | Raise e => Raise e
  end.

Declare Scope result_scope.
Delimit Scope result_scope with result.

Notation "x <- c ;; k" := (bind c (fun x => k))
  (at level 61, c at next level, right associativity) : result_scope.
Notation "c ;; k" := (bind c (fun _ => k))
  (at level 61, right associativity) : result_scope.

Local Open Scope result_scope.

(** [if not cond: raise e] *)
Definition unless (cond : bool) (e : exn) : result unit :=
  if cond then Ok tt else Raise e.

Fixpoint mapM {A B : Type} (f : A -> result B) (l : list A) : result (list B) :=
  match l with
  | [] => Ok []
  | x :: xs => y <- f x ;; ys <- mapM f xs ;; Ok (y :: ys)
  end.

Definition is_ok {A : Type} (c : result A) : bool :=
  match c with Ok _ => true | Raise _ => false end.

(** ** Bytes and integers *)

Definition byte_val (b : byte) : Z := Z.of_N (Byte.to_N b).

Definition len {A : Type} (l : list A) : Z := Z.of_nat (List.length l).

(** Python slices [v[:n]], [v[n:]] and [v[i:j]]: a negative index counts
    from the end, and indices are clipped to the sequence. *)
Definition norm_index {A : Type} (v : list A) (i : Z) : nat :=
  Z.to_nat (Z.min (len v) (if i <? 0 then Z.max 0 (i + len v) else i)).

Definition take {A : Type} (n : Z) (v : list A) : list A :=
  firstn (norm_index v n) v.

Definition drop {A : Type} (n : Z) (v : list A) : list A :=
  skipn (norm_index v n) v.

Definition slice {A : Type} (i j : Z) (v : list A) : list A :=
  firstn (norm_index v j - norm_index v i) (skipn (norm_index v i) v).

(** Python's chained comparisons. *)
Definition between (lo x hi : Z) : bool := (lo <=? x) && (x <=? hi).
Definition within (lo x hi : Z) : bool := (lo <=? x) && (x <? hi).

(** Indexing of a Python tuple: negative indices count from the end. *)
Definition tuple_get {A : Type} (t : list A) (i : Z) : result A :=
  let j := if i <? 0 then i + len t else i in
  if j <? 0 then Raise IndexError
  else match nth_error t (Z.to_nat j) with
       | Some x => Ok x
       | None => Raise IndexError
       end.

(** ** Helpers of [hexrec/utils.py] *)

(** Modelled from the spec: [utils.sum_bytes] is not among the sources; the
    checksum formulas of the spec use it as the sum of the byte values. *)
Definition sum_bytes (d : list byte) : Z :=
  fold_right (fun b acc => byte_val b + acc) 0 d.

(** Modelled from the spec: [utils.do_overlap] is not among the sources; it is
    the "overlap test" of the interval utilities, on half-open ranges given in
    either orientation. *)
Definition do_overlap (start1 endex1 start2 endex2 : Z) : bool :=
  let s1 := Z.min start1 endex1 in
  let e1 := Z.max start1 endex1 in
  let s2 := Z.min start2 endex2 in
  let e2 := Z.max start2 endex2 in
  (s2 <? e1) && (s1 <? e2).

(** Modelled from the spec: [utils.chop] is not among the sources.  The
    [split] methods call it as [chop(data, columns, align_base)] to "iterate
    fixed-size (optionally address-aligned) chunks": windows of [window]
    items, the first one shortened so that, counted from [align_base], the
    later ones start on a multiple of [window]. *)
Fixpoint chop_from {A : Type} (fuel : nat) (vector : list A) (window : Z)
  : list (list A) :=
  match fuel with
  | O => []
  | S fuel' =>
      match vector with
      | [] => []
      | _ :: _ => take window vector :: chop_from fuel' (drop window vector) window
      end
  end.

Definition chop {A : Type} (vector : list A) (window align_base : Z)
  : result (list (list A)) :=
  unless (0 <? window) (ValueError "non-positive window") ;;
  if align_base =? 0 then
    Ok (chop_from (List.length vector) vector window)
  else
    let offset := (- align_base) mod window in
    Ok (take offset vector
          :: chop_from (List.length vector) (drop offset vector) window).

(** ** The record entity ([records.Record]) *)

Record record : Type := mkRecord {
  address : Z;
  tag : option Z;
  data : list byte;
  count : Z;
  checksum : option Z
}.

(** The [checksum] argument of the constructors: [Ellipsis] computes it,
    anything else ([None] or an integer) is stored. *)
Inductive checksum_arg : Type :=
| Ellipsis
| Stored (c : option Z).

(** [Record.__eq__] *)
Definition option_Z_eqb (a b : option Z) : bool :=
  match a, b with
  | Some x, Some y => x =? y
  | None, None => true
  | _, _ => false
  end.

Definition bytes_eqb (a b : list byte) : bool :=
  if list_eq_dec Byte.byte_eq_dec a b then true else false.

Definition Record_eq (self other : record) : bool :=
  (address self =? address other)
  && option_Z_eqb (tag self) (tag other)
  && bytes_eqb (data self) (data other).

(** [Record.overlaps] *)
Definition overlaps (self other : record) : bool :=
  do_overlap (address self) (address self + len (data self))
             (address other) (address other + len (data other)).

(** [Record.__init__]: the count is updated first, then the checksum is
    computed or stored. *)
Definition Record_init
  (compute_count : record -> result Z)
  (compute_checksum : record -> result Z)
  (address : Z) (tag : option Z) (data : list byte) (cks : checksum_arg)
  : result record :=
  let self := mkRecord address tag data 0 None in
  c <- compute_count self ;;
  let self := mkRecord address tag data c None in
  match cks with
  | Ellipsis =>
      s <- compute_checksum self ;;
      Ok (mkRecord address tag data c (Some s))
  | Stored s => Ok (mkRecord address tag data c s)
  end.

(** [Record._get_checksum] *)
Definition get_checksum (compute_checksum : record -> result Z) (self : record)
  : result Z :=
  match checksum self with
  | None => compute_checksum self
  | Some s => Ok s
  end.

(** [Record.check] of the base class; [t] is the tag, an integer there. *)
Definition Record_check (compute_checksum : record -> result Z) (self : record)
  : result unit :=
  unless (0 <=? address self) (ValueError "address overflow") ;;
  match tag self with
  | None => Raise TypeError
  | Some t =>
      unless (between 0 t 255) (ValueError "tag overflow") ;;
      unless (between 0 (count self) 255) (ValueError "count overflow") ;;
      match checksum self with
      | None => Ok tt
      | Some s =>
          unless (between 0 s 255) (ValueError "checksum overflow") ;;
          c <- compute_checksum self ;;
          unless (s =? c) (ValueError "checksum error")
      end
  end.

(** [Record.check_sequence] of the base class, as a loop over the records
    carrying [last] and [record_endex]. *)
Fixpoint check_sequence_loop
  (check : record -> result unit) (is_data : record -> bool)
  (records : list record) (last : option record) (record_endex : Z)
  : result unit :=
  match records with
  | [] => Ok tt
  | r :: rest =>
      check r ;;
      last' <- (if is_data r then
                  match last with
                  | Some l =>
                      unless (negb (overlaps r l))
                             (ValueError "overlapping records") ;;
                      unless (negb (address r <? record_endex))
                             (ValueError "unsorted records") ;;
                      Ok (Some r)
                  | None => Ok (Some r)
                  end
                else Ok last) ;;
      check_sequence_loop check is_data rest last' (address r + len (data r))
  end.

Definition Record_check_sequence
  (check : record -> result unit) (is_data : record -> bool)
  (records : list record) : result unit :=
  check_sequence_loop check is_data records None 0.

(** ** Text fields: Python's formatting and parsing of integers *)

Definition text : Type := list ascii.

Definition lit (s : string) : text := list_ascii_of_string s.

Definition code (c : ascii) : Z := Z.of_nat (nat_of_ascii c).

Definition hex_upper (d : Z) : ascii :=
  nth (Z.to_nat d) (lit "0123456789ABCDEF") "0"%char.

Definition hex_value (c : ascii) : option Z :=
  let n := code c in
  if between 48 n 57 then Some (n - 48)
  else if between 65 n 70 then Some (n - 55)
  else if between 97 n 102 then Some (n - 87)
  else None.

Definition is_hex (c : ascii) : bool :=
  match hex_value c with Some _ => true | None => false end.

Definition is_digit (c : ascii) : bool := between 48 (code c) 57.

(** The [k] low hexadecimal digits of [n], most significant first. *)
Fixpoint hex_fixed (k : nat) (n : Z) : text :=
  match k with
  | O => []
  | S k' => hex_fixed k' (n / 16) ++ [hex_upper (n mod 16)]
  end.

(** Number of hexadecimal digits of [n >= 0]. *)
Definition hex_width (n : Z) : nat :=
  if n =? 0 then 1%nat else Z.to_nat (Z.log2 n / 4 + 1).

(** [f'{n:0wX}']: upper-case digits, zero-padded to [w] characters, more
    when [n] needs them; the sign counts in the width. *)
Definition format_X (w : nat) (n : Z) : text :=
  if n <? 0 then
    "-"%char :: hex_fixed (Nat.max (w - 1) (hex_width (- n))) (- n)
  else hex_fixed (Nat.max w (hex_width n)) n.

(** [f'{n:d}'] *)
Definition format_d (n : Z) : text :=
  lit (DecimalString.NilZero.string_of_int (Z.to_int n)).

(** The [ValueError] of an enumeration lookup: [f'{value!r} is not a valid
    Tag'], for an integer or [None]. *)
Definition not_a_valid_tag (value : option Z) : exn :=
  ValueError
    (String.append
       match value with
       | Some v => DecimalString.NilZero.string_of_int (Z.to_int v)
       | None => "None"
       end
       " is not a valid Tag").

(** [int(s, 16)] on the strings the regular expressions let through (hex
    digits only); anything else is a [ValueError]. *)
Definition int16_step (acc : result Z) (c : ascii) : result Z :=
  a <- acc ;;
  match hex_value c with
  | Some d => Ok (16 * a + d)
  | None => Raise (ValueError "invalid literal for int()")
  end.

Definition int16 (s : text) : result Z :=
  match s with
  | [] => Raise (ValueError "invalid literal for int()")
  | _ => fold_left int16_step s (Ok 0)
  end.

(** [str.strip()]: the whitespace characters of the Latin-1 range. *)
Definition is_space (c : ascii) : bool :=
  existsb (Z.eqb (code c)) [9; 10; 11; 12; 13; 28; 29; 30; 31; 32; 133; 160].

Fixpoint lstrip (s : text) : text :=
  match s with
  | [] => []
  | c :: rest => if is_space c then lstrip rest else s
  end.

Definition strip (s : text) : text := rev (lstrip (rev (lstrip s))).

Definition byte_of_Z (z : Z) : byte :=
  match Byte.of_N (Z.to_N z) with
  | Some b => b
  | None => x00
  end.

(** [struct.pack] and [struct.unpack] of one unsigned integer of [n] bytes,
    most significant byte first; out of range is [struct.error]. *)
Fixpoint be_bytes (n : nat) (v : Z) : list byte :=
  match n with
  | O => []
  | S k => be_bytes k (v / 256) ++ [byte_of_Z (v mod 256)]
  end.

Definition pack_be (n : nat) (v : Z) : result (list byte) :=
  unless (within 0 v (256 ^ Z.of_nat n)) StructError ;;
  Ok (be_bytes n v).

Definition unpack_be (n : nat) (d : list byte) : result Z :=
  unless (Nat.eqb (List.length d) n) StructError ;;
  Ok (fold_left (fun acc b => 256 * acc + byte_val b) d 0).

(** Modelled from the spec: [utils.hexlify] is not among the sources; the
    record lines carry the data as "fixed-width hex fields, upper-case hex
    digits, no extraneous whitespace", two digits per byte. *)
Definition hexlify (d : list byte) : text :=
  flat_map (fun b => hex_fixed 2 (byte_val b)) d.

(** Modelled from the spec: [utils.unhexlify] is not among the sources; the
    inverse of [hexlify], reading digits of either case, two per byte. *)
Fixpoint unhexlify (s : text) : result (list byte) :=
  match s with
  | [] => Ok []
  | [_] => Raise BinasciiError
  | a :: b :: rest =>
      match hex_value a, hex_value b with
      | Some x, Some y =>
          d <- unhexlify rest ;;
          Ok (byte_of_Z (16 * x + y) :: d)
      | _, _ => Raise BinasciiError
      end
  end.

(** ** MOS Technology records ([formats/mos.py]) *)

Module Mos.

(** [Record.compute_count] is inherited: [len(self.data)]. *)
Definition compute_count (self : record) : result Z := Ok (len (data self)).

Definition is_data (self : record) : bool := 0 <? count self.

Definition compute_checksum (self : record) : Z :=
  if negb (count self =? 0) then
    Z.land (count self
            + Z.shiftr (address self) 16
            + Z.land (address self) 255
            + sum_bytes (data self)) 65535
  else address self.

Definition init (address : Z) (tag : option Z) (data : list byte)
  (cks : checksum_arg) : result record :=
  Record_init compute_count (fun r => Ok (compute_checksum r))
              address tag data cks.

Definition check (self : record) : result unit :=
  unless (within 0 (address self) (2 ^ 16)) (ValueError "address overflow") ;;
  unless (match tag self with None => true | Some _ => false end)
         (ValueError "wrong tag") ;;
  unless (within 0 (count self) (2 ^ 8)) (ValueError "count overflow") ;;
  unless (count self =? len (data self)) (ValueError "count error") ;;
  match checksum self with
  | None => Ok tt
  | Some s =>
      unless (within 0 s (2 ^ 16)) (ValueError "checksum overflow") ;;
      unless (s =? compute_checksum self) (ValueError "checksum error")
  end.

Definition build_data (address : Z) (data : list byte) : result record :=
  init address None data Ellipsis.

Definition build_terminator (record_count : Z) : result record :=
  init record_count None [] (Stored (Some record_count)).

(** [Record.__str__] *)
Definition marshal (self : record) : result text :=
  s <- get_checksum (fun r => Ok (compute_checksum r)) self ;;
  Ok (lit ";"
        ++ format_X 2 (count self)
        ++ format_X 4 (address self)
        ++ hexlify (data self)
        ++ format_X 4 s).

(** The loop of [split]: [offset] and [record_count] are its variables. *)
Fixpoint split_loop (chunks : list (list byte)) (offset record_count : Z)
  : result (list record * Z) :=
  match chunks with
  | [] => Ok ([], record_count)
  | chunk :: rest =>
      r <- build_data offset chunk ;;
      k <- split_loop rest (offset + len chunk) (record_count + 1) ;;
      Ok (r :: fst k, snd k)
  end.

Definition split (data : list byte) (address columns : Z)
  (align standalone : bool) : result (list record) :=
  unless (within 0 address (2 ^ 16)) (ValueError "address overflow") ;;
  unless (between 0 (address + len data) (2 ^ 16))
         (ValueError "size overflow") ;;
  unless ((0 <? columns) && (columns <? 2 ^ 8))
         (ValueError "column overflow") ;;
  let align_base := if align then address mod columns else 0 in
  chunks <- chop data columns align_base ;;
  k <- split_loop chunks address 0 ;;
  if standalone then
    t <- build_terminator (snd k) ;;
    Ok (fst k ++ [t])
  else Ok (fst k).

(** [REGEX]: [;], two digits of count, four of address, up to 255 pairs
    of data and four digits of checksum. *)
Definition regex_match (line : text) : option (text * text * text * text) :=
  match line with
  | c :: rest =>
      let n := len rest in
      if (code c =? 59) && forallb is_hex rest
         && (10 <=? n) && (n mod 2 =? 0) && ((n - 10) / 2 <=? 255)
      then Some (slice 0 2 rest, slice 2 6 rest,
                 slice 6 (n - 4) rest, slice (n - 4) n rest)
      else None
  | [] => None
  end.

Definition parse_record (line : text) : result record :=
  match regex_match (strip line) with
  | None => Raise (ValueError "regex error")
  | Some (g_count, g_address, g_data, g_checksum) =>
      address <- int16 g_address ;;
      count <- int16 g_count ;;
      data <- unhexlify g_data ;;
      checksum <- int16 g_checksum ;;
      unless (count =? len data) (ValueError "count error") ;;
      init address None data (Stored (Some checksum))
  end.

Definition build_standalone (data_records : list record)
  : result (list record) :=
  t <- build_terminator (len data_records) ;;
  Ok (data_records ++ [t]).

Definition check_sequence (records : list record) : result unit :=
  Record_check_sequence check is_data records ;;
  unless (negb (len records <? 1)) (ValueError "missing terminator") ;;
  let record_count := len records - 1 in
  record <- tuple_get records (-1) ;;
  unless (negb (negb (address record =? record_count)
                || negb (option_Z_eqb (checksum record)
                                      (Some record_count))))
         (ValueError "wrong terminator").

End Mos.

(** ** Intel HEX records ([formats/intel.py]) *)

Module Intel.

Definition DATA : Z := 0.
Definition END_OF_FILE : Z := 1.
Definition EXTENDED_SEGMENT_ADDRESS : Z := 2.
Definition START_SEGMENT_ADDRESS : Z := 3.
Definition EXTENDED_LINEAR_ADDRESS : Z := 4.
Definition START_LINEAR_ADDRESS : Z := 5.

(** [Tag(value)]: the member of the enumeration with that value. *)
Definition TAG_TYPE (value : option Z) : result Z :=
  match value with
  | Some v => if between 0 v 5 then Ok v else Raise (not_a_valid_tag value)
  | None => Raise (not_a_valid_tag value)
  end.

Definition is_data (self : record) : bool :=
  option_Z_eqb (tag self) (Some DATA).

Definition compute_count (self : record) : result Z := Ok (len (data self)).

(** [struct.pack('H', offset)] is in host byte order; only the sum of its
    two bytes is used. *)
Definition compute_checksum (self : record) : result Z :=
  let offset := Z.land (address self) 65535 in
  match tag self with
  | None => Raise TypeError
  | Some t =>
      p <- pack_be 2 offset ;;
      let checksum :=
        count self + sum_bytes (rev p) + t + sum_bytes (data self) in
      Ok (Z.land (256 - Z.land checksum 255) 255)
  end.

Definition init (address : Z) (tag : option Z) (data : list byte)
  (cks : checksum_arg) : result record :=
  unless (within 0 address (2 ^ 32)) (ValueError "address overflow") ;;
  unless (between 0 (address + len data) (2 ^ 32))
         (ValueError "size overflow") ;;
  t <- TAG_TYPE tag ;;
  Record_init compute_count compute_checksum address (Some t) data cks.

Definition check (self : record) : result unit :=
  Record_check compute_checksum self ;;
  c <- compute_count self ;;
  unless (count self =? c) (ValueError "count error") ;;
  TAG_TYPE (tag self) ;;
  Ok tt.

(** [Record.__str__] *)
Definition marshal (self : record) : result text :=
  check self ;;
  match tag self with
  | None => Raise TypeError
  | Some t =>
      s <- get_checksum compute_checksum self ;;
      Ok (lit ":"
            ++ format_X 2 (len (data self))
            ++ format_X 4 (Z.land (address self) 65535)
            ++ format_X 2 t
            ++ hexlify (data self)
            ++ format_X 2 s)
  end.

Definition build_data (address : Z) (data : list byte) : result record :=
  init address (Some DATA) data Ellipsis.

Definition build_extended_segment_address (address : Z) : result record :=
  unless (within 0 address (2 ^ 32)) (ValueError "address overflow") ;;
  let segment := Z.shiftr address (16 + 4) in
  d <- pack_be 2 segment ;;
  init 0 (Some EXTENDED_SEGMENT_ADDRESS) d Ellipsis.

Definition build_start_segment_address (address : Z) : result record :=
  unless (within 0 address (2 ^ 32)) (ValueError "address overflow") ;;
  d <- pack_be 4 address ;;
  init 0 (Some START_SEGMENT_ADDRESS) d Ellipsis.

Definition build_end_of_file : result record :=
  init 0 (Some END_OF_FILE) [] Ellipsis.

Definition build_extended_linear_address (address : Z) : result record :=
  unless (within 0 address (2 ^ 32)) (ValueError "address overflow") ;;
  let segment := Z.shiftr address 16 in
  d <- pack_be 2 segment ;;
  init 0 (Some EXTENDED_LINEAR_ADDRESS) d Ellipsis.

Definition build_start_linear_address (address : Z) : result record :=
  unless (within 0 address (2 ^ 32)) (ValueError "address overflow") ;;
  d <- pack_be 4 address ;;
  init 0 (Some START_LINEAR_ADDRESS) d Ellipsis.

(** [REGEX]: [:], two digits of count, four of offset, two of tag, up to
    255 pairs of data and two digits of checksum. *)
Definition regex_match (line : text)
  : option (text * text * text * text * text) :=
  match line with
  | c :: rest =>
      let n := len rest in
      if (code c =? 58) && forallb is_hex rest
         && (10 <=? n) && (n mod 2 =? 0) && ((n - 10) / 2 <=? 255)
      then Some (slice 0 2 rest, slice 2 6 rest, slice 6 8 rest,
                 slice 8 (n - 2) rest, slice (n - 2) n rest)
      else None
  | [] => None
  end.

Definition parse_record (line : text) : result record :=
  match regex_match (strip line) with
  | None => Raise (ValueError "regex error")
  | Some (g_count, g_offset, g_tag, g_data, g_checksum) =>
      offset <- int16 g_offset ;;
      t <- int16 g_tag ;;
      tag <- TAG_TYPE (Some t) ;;
      count <- int16 g_count ;;
      data <- unhexlify g_data ;;
      checksum <- int16 g_checksum ;;
      unless (count =? len data) (ValueError "count error") ;;
      init offset (Some tag) data (Stored (Some checksum))
  end.

Definition terminate (start : Z) : result (list record) :=
  r1 <- build_extended_linear_address 0 ;;
  r2 <- build_start_linear_address start ;;
  r3 <- build_end_of_file ;;
  Ok [r1; r2; r3].

(** The loop of [split] over the chunks; [address] and [address_old] are
    its variables. *)
Fixpoint split_loop (chunks : list (list byte)) (address address_old : Z)
  : result (list record) :=
  match chunks with
  | [] => Ok []
  | chunk :: rest =>
      let length := len chunk in
      let endex := address + length in
      let overflow := Z.land endex 65535 in
      if negb (overflow =? 0)
         && negb (Z.land (Z.lxor address endex) 4294901760 =? 0)
      then
        let pivot := length - overflow in
        r1 <- build_data address (take pivot chunk) ;;
        let address := address + pivot in
        r2 <- build_extended_linear_address address ;;
        r3 <- build_data address (drop pivot chunk) ;;
        let address_old := address in
        let address := address + overflow in
        rs <- split_loop rest address address_old ;;
        Ok (r1 :: r2 :: r3 :: rs)
      else
        ela <- (if negb (Z.land (Z.lxor address address_old) 4294901760 =? 0)
                then e <- build_extended_linear_address address ;; Ok [e]
                else Ok []) ;;
        r <- build_data address chunk ;;
        rs <- split_loop rest (address + length) address ;;
        Ok (ela ++ r :: rs)
  end.

Definition split (data : list byte) (address columns : Z)
  (align standalone : bool) (start : option Z) : result (list record) :=
  unless (within 0 address (2 ^ 32)) (ValueError "address overflow") ;;
  unless (between 0 (address + len data) (2 ^ 32))
         (ValueError "size overflow") ;;
  unless ((0 <? columns) && (columns <? 255))
         (ValueError "column overflow") ;;
  let start := match start with None => address | Some s => s end in
  let align_base := if align then address mod columns else 0 in
  chunks <- chop data columns align_base ;;
  rs <- split_loop chunks address 0 ;;
  if standalone then
    t <- terminate start ;;
    Ok (rs ++ t)
  else Ok rs.

Definition build_standalone (data_records : list record) (start : option Z)
  : result (list record) :=
  start <- match start with
           | Some s => Ok s
           | None =>
               match data_records with
               | [] => Ok 0
               | r :: rs =>
                   Ok (fold_left Z.min (map address rs) (address r))
               end
           end ;;
  t <- terminate start ;;
  Ok (data_records ++ t).

(** [readdress] rewrites the addresses in place: the result is the new
    content of the list. *)
Fixpoint readdress_loop (records : list record) (base : Z)
  : result (list record) :=
  match records with
  | [] => Ok []
  | r :: rest =>
      ab <- (if option_Z_eqb (tag r) (Some EXTENDED_SEGMENT_ADDRESS) then
               v <- unpack_be 2 (data r) ;;
               let base := Z.shiftl v 4 in Ok (base, base)
             else if option_Z_eqb (tag r) (Some EXTENDED_LINEAR_ADDRESS) then
               v <- unpack_be 2 (data r) ;;
               let base := Z.shiftl v 16 in Ok (base, base)
             else Ok (base + address r, base)) ;;
      rs <- readdress_loop rest (snd ab) ;;
      Ok (mkRecord (fst ab) (tag r) (data r) (count r) (checksum r) :: rs)
  end.

Definition readdress (records : list record) : result (list record) :=
  readdress_loop records 0.

End Intel.

(** ** Motorola S-records ([formats/motorola.py]) *)

Module Motorola.

Definition HEADER : Z := 0.
Definition DATA_16 : Z := 1.
Definition DATA_24 : Z := 2.
Definition DATA_32 : Z := 3.
Definition RESERVED : Z := 4.
Definition COUNT_16 : Z := 5.
Definition COUNT_24 : Z := 6.
Definition START_32 : Z := 7.
Definition START_24 : Z := 8.
Definition START_16 : Z := 9.

(** [Tag(value)]: the member of the enumeration with that value. *)
Definition TAG_TYPE (value : option Z) : result Z :=
  match value with
  | Some v => if between 0 v 9 then Ok v else Raise (not_a_valid_tag value)
  | None => Raise (not_a_valid_tag value)
  end.

Definition TAG_TO_ADDRESS_LENGTH : list (option Z) :=
  [Some 2; Some 2; Some 3; Some 4; None; None; None; Some 4; Some 3; Some 2].

Definition MATCHING_TAG : list (option Z) :=
  [None; None; None; None; None; None; None; Some 3; Some 2; Some 1].

Definition or_zero (o : option Z) : Z :=
  match o with Some v => v | None => 0 end.

Definition is_data (self : record) : bool :=
  match tag self with
  | Some t => (t =? DATA_16) || (t =? DATA_24) || (t =? DATA_32)
  | None => false
  end.

Definition compute_count (self : record) : result Z :=
  match tag self with
  | None => Raise TypeError
  | Some t =>
      al <- tuple_get TAG_TO_ADDRESS_LENGTH t ;;
      Ok (or_zero al + len (data self) + 1)
  end.

(** [struct.pack('BL', count, address)] in the host's layout: one byte,
    the padding of an [unsigned long] and its eight bytes, lowest first. *)
Definition pack_BL (count address : Z) : result (list byte) :=
  b <- pack_be 1 count ;;
  l <- pack_be 8 address ;;
  Ok (b ++ repeat x00 7 ++ rev l).

Definition compute_checksum (self : record) : result Z :=
  p <- pack_BL (count self) (address self) ;;
  let checksum := sum_bytes p + sum_bytes (data self) in
  Ok (Z.lxor (Z.land checksum 255) 255).

Definition init (address : Z) (tag : option Z) (data : list byte)
  (cks : checksum_arg) : result record :=
  t <- TAG_TYPE tag ;;
  Record_init compute_count compute_checksum address (Some t) data cks.

Definition check (self : record) : result unit :=
  Record_check compute_checksum self ;;
  t <- TAG_TYPE (tag self) ;;
  unless (negb (existsb (Z.eqb t) [0; 4; 5; 6] && negb (address self =? 0)))
         (ValueError "address error") ;;
  c <- compute_count self ;;
  unless (count self =? c) (ValueError "count error").

(** [Record.__str__] *)
Definition marshal (self : record) : result text :=
  check self ;;
  match tag self with
  | None => Raise TypeError
  | Some t =>
      let tag_text := lit "S" ++ format_d t in
      address_length <- tuple_get TAG_TO_ADDRESS_LENGTH t ;;
      let '(address_text, count_text) :=
        match address_length with
        | None => ([], format_X 2 (len (data self) + 1))
        | Some al =>
            (drop (2 * (4 - al)) (format_X 8 (address self)),
             format_X 2 (al + len (data self) + 1))
        end in
      s <- get_checksum compute_checksum self ;;
      Ok (tag_text ++ count_text ++ address_text
            ++ hexlify (data self) ++ format_X 2 s)
  end.

Definition fit_data_tag (endex : Z) : result Z :=
  if negb (between 0 endex (2 ^ 32)) then Raise (ValueError "address overflow")
  else if endex <=? 2 ^ 16 then Ok DATA_16
  else if endex <=? 2 ^ 24 then Ok DATA_24
  else Ok DATA_32.

Definition fit_count_tag (record_count : Z) : result Z :=
  if negb (within 0 record_count (2 ^ 24)) then
    Raise (ValueError "count overflow")
  else if record_count <? 2 ^ 16 then Ok COUNT_16
  else Ok COUNT_24.

Definition build_header (data : list byte) : result record :=
  init 0 (Some 0) data Ellipsis.

Definition build_data (address : Z) (data : list byte) (tag : option Z)
  : result record :=
  t <- match tag with
       | None => fit_data_tag (address + len data)
       | Some t => Ok t
       end ;;
  unless (existsb (Z.eqb t) [1; 2; 3]) (ValueError "tag error") ;;
  init address (Some t) data Ellipsis.

(** [tuple.index(value)] *)
Fixpoint tuple_index (t : list (option Z)) (value : Z) (i : Z) : result Z :=
  match t with
  | [] => Raise (ValueError "tuple.index(x): x not in tuple")
  | x :: rest =>
      if option_Z_eqb x (Some value) then Ok i
      else tuple_index rest value (i + 1)
  end.

Definition build_terminator (start : Z) (last_data_tag : Z)
  : result record :=
  tag_index <- tuple_index MATCHING_TAG last_data_tag 0 ;;
  init start (Some tag_index) [] Ellipsis.

Definition build_count (record_count : Z) : result record :=
  t <- fit_count_tag record_count ;;
  count_data <- pack_be 4 record_count ;;
  init 0 (Some t) (drop (7 - t) count_data) Ellipsis.

(** [REGEX]: [S], one decimal digit and 4 to 140 pairs of hex digits. *)
Definition regex_match (line : text) : bool :=
  match line with
  | s :: t :: rest =>
      let n := len rest in
      (code s =? 83) && is_digit t && forallb is_hex rest
      && (n mod 2 =? 0) && (4 <=? n / 2) && (n / 2 <=? 140)
  | _ => false
  end.

Definition parse_record (line : text) : result record :=
  let line := strip line in
  unless (regex_match line) (ValueError "regex error") ;;
  let tag := code (nth 1 line "0"%char) - 48 in
  count <- int16 (slice 2 4 line) ;;
  unless (2 * count =? len line - (2 + 2)) AssertionError ;;
  al <- tuple_get TAG_TO_ADDRESS_LENGTH tag ;;
  let address_length := or_zero al in
  address <- int16 ("0"%char :: slice 4 (4 + 2 * address_length) line) ;;
  data <- unhexlify (slice (4 + 2 * address_length) (-2) line) ;;
  checksum <- int16 (drop (-2) line) ;;
  init address (Some tag) data (Stored (Some checksum)).

(** The loop of [split]; [address] and [count] are its variables. *)
Fixpoint split_loop (chunks : list (list byte)) (address : Z) (tag : Z)
  (count : Z) : result (list record * Z) :=
  match chunks with
  | [] => Ok ([], count)
  | chunk :: rest =>
      r <- build_data address chunk (Some tag) ;;
      k <- split_loop rest (address + len chunk) tag (count + 1) ;;
      Ok (r :: fst k, snd k)
  end.

Definition split (data : list byte) (address columns : Z)
  (align standalone : bool) (start : option Z) (tag : option Z)
  (header : list byte) : result (list record) :=
  unless (within 0 address (2 ^ 32)) (ValueError "address overflow") ;;
  unless (between 0 (address + len data) (2 ^ 32))
         (ValueError "size overflow") ;;
  unless ((0 <? columns) && (columns <? 128))
         (ValueError "column overflow") ;;
  let start := match start with None => address | Some s => s end in
  tag <- match tag with
         | None => fit_data_tag (address + len data)
         | Some t => Ok t
         end ;;
  h <- (if standalone then r <- build_header header ;; Ok [r] else Ok []) ;;
  let skip := if align then address mod columns else 0 in
  chunks <- chop data columns skip ;;
  k <- split_loop chunks address tag 0 ;;
  if standalone then
    c <- build_count (snd k) ;;
    t <- build_terminator start tag ;;
    Ok (h ++ fst k ++ [c; t])
  else Ok (h ++ fst k).

(** [build_standalone] with [tag] and [start] as given or derived from the
    data records ([max] of the tags, [min] of the addresses). *)
Definition build_standalone (data_records : list record)
  (start_arg : option Z) (tag_arg : option Z) (header : list byte)
  : result (list record) :=
  filler <- build_data 0 [] None ;;
  let data_records' :=
    match tag_arg, data_records with
    | None, [] => [filler]
    | _, _ => data_records
    end in
  tags <- mapM (fun r => match tag r with
                         | Some t => Ok t
                         | None => Raise TypeError
                         end) data_records' ;;
  let tag0 := match tag_arg with
              | Some t => t
              | None => fold_left Z.max tags (hd 0 tags)
              end in
  h <- build_header header ;;
  let tag1 := fold_left Z.max tags tag0 in
  c <- build_count (len data_records') ;;
  let start1 := match start_arg with
                | Some s => s
                | None =>
                    match data_records' with
                    | [] => address filler
                    | r :: rs => fold_left Z.min (map address rs) (address r)
                    end
                end in
  t <- build_terminator start1 tag1 ;;
  Ok (h :: data_records' ++ [c; t]).

End Motorola.

(** ** Blocks ([hexrec/blocks.py]) *)

(** A block: a start address and the bytes from there on. *)
Abbreviation block := (Z * list byte)%type.

Definition block_start (b : block) : Z := fst b.
Definition block_endex (b : block) : Z := fst b + len (snd b).

(** The byte a block list holds at an address: that of the first block
    covering it. *)
Fixpoint byte_at (blocks : list block) (a : Z) : option byte :=
  match blocks with
  | [] => None
  | (s, items) :: rest =>
      if (s <=? a) && (a <? s + len items)
      then nth_error items (Z.to_nat (a - s))
      else byte_at rest a
  end.

(** Modelled from the spec: [blocks.py] is not among the sources.  The
    interval utilities are a "merge-with-precedence over an ordered list of
    (start, bytes) tuples".  [clear] empties the range [start, endex) of a
    block list: every block keeps what it has before [start] and from
    [endex] on. *)
Fixpoint clear (blocks : list block) (start endex : Z) : list block :=
  match blocks with
  | [] => []
  | (s, items) :: rest =>
      let e := s + len items in
      let before :=
        if s <? start then [(s, take (Z.min e start - s) items)] else [] in
      let after :=
        if endex <? e
        then [(Z.max s endex, drop (Z.max s endex - s) items)] else [] in
      before ++ after ++ clear rest start endex
  end.

(** Modelled from the spec: insertion of a block at its place in a list
    "sorted by start address". *)
Fixpoint insert_block (b : block) (blocks : list block) : list block :=
  match blocks with
  | [] => [b]
  | x :: rest =>
      if fst b <? fst x then b :: x :: rest else x :: insert_block b rest
  end.

(** Modelled from the spec: writing a block over a block list; "later
    sequences overwrite earlier ones on overlap".  A block is a "non-empty
    run of known bytes": an empty one writes nothing. *)
Definition write (blocks : list block) (b : block) : list block :=
  match snd b with
  | [] => blocks
  | _ :: _ => insert_block b (clear blocks (fst b) (block_endex b))
  end.

(** Modelled from the spec: [blocks.union] of a vector of block sequences, the "union of
    all (start,end) coverage intervals across all inputs preserving
    later-wins precedence at the byte level", the sequences taken in their
    priority order. *)
Definition union (blocks_vector : list (list block)) : list block :=
  fold_left (fun acc blocks => fold_left write blocks acc) blocks_vector [].

(** Modelled from the spec: [blocks.merge(blocks)] joins the blocks that
    touch, to "collapse into the minimal sorted block set". *)
Fixpoint merge (blocks : list block) : list block :=
  match blocks with
  | [] => []
  | (s, items) :: rest =>
      match merge rest with
      | (s', items') :: rest' =>
          if s + len items =? s' then (s, items ++ items') :: rest'
          else (s, items) :: (s', items') :: rest'
      | [] => [(s, items)]
      end
  end.

(** ** Record types and the functions of [records.py] over them *)

(** What a [Record] subclass provides to the module-level functions; the
    keyword arguments they do not pass keep their defaults. *)
Class RecordType : Type := {
  rt_is_data : record -> bool;
  rt_check : record -> result unit;
  rt_marshal : record -> result text;
  rt_parse_record : text -> result record;
  rt_split : list byte -> Z -> Z -> bool -> bool -> result (list record);
  rt_build_standalone : list record -> result (list record)
}.

#[export] Instance IntelRecord : RecordType := {
  rt_is_data := Intel.is_data;
  rt_check := Intel.check;
  rt_marshal := Intel.marshal;
  rt_parse_record := Intel.parse_record;
  rt_split := fun data address columns align standalone =>
                Intel.split data address columns align standalone None;
  rt_build_standalone := fun data_records =>
                           Intel.build_standalone data_records None
}.

#[export] Instance MotorolaRecord : RecordType := {
  rt_is_data := Motorola.is_data;
  rt_check := Motorola.check;
  rt_marshal := Motorola.marshal;
  rt_parse_record := Motorola.parse_record;
  rt_split := fun data address columns align standalone =>
                Motorola.split data address columns align standalone
                               None None [];
  rt_build_standalone := fun data_records =>
                           Motorola.build_standalone data_records
                                                     None None []
}.

#[export] Instance MosRecord : RecordType := {
  rt_is_data := Mos.is_data;
  rt_check := Mos.check;
  rt_marshal := Mos.marshal;
  rt_parse_record := Mos.parse_record;
  rt_split := Mos.split;
  rt_build_standalone := Mos.build_standalone
}.

Inductive Format : Type := IntelHex | MotorolaSrec | MosTech.

Definition record_type (f : Format) : RecordType :=
  match f with
  | IntelHex => IntelRecord
  | MotorolaSrec => MotorolaRecord
  | MosTech => MosRecord
  end.

(** The default [columns], [align] and [standalone] of every [split]. *)
Definition default_columns : Z := 16.

Definition block_of (r : record) : block := (address r, data r).

Section Records.

Context {T : RecordType}.

Definition get_data_records (records : list record) : list record :=
  filter rt_is_data records.

Definition records_to_blocks (records : list record) : list block :=
  let blocks := map block_of (get_data_records records) in
  merge (union [blocks]).

(** [blocks_to_records] with no [split_args] and [split_kwargs]:
    [split(items, address=start, standalone=False)] for each block. *)
Fixpoint split_blocks (blocks : list block) : result (list record) :=
  match blocks with
  | [] => Ok []
  | (start, items) :: rest =>
      records <- rt_split items start default_columns true false ;;
      more <- split_blocks rest ;;
      Ok (records ++ more)
  end.

Definition blocks_to_records (blocks : list block) : result (list record) :=
  data_records <- split_blocks blocks ;;
  rt_build_standalone data_records.

End Records.

(** The blocks [merge_records] computes from the vector of sequences. *)
Definition merged_blocks (data_records : list (list record)) : list block :=
  merge (union (map (map block_of) data_records)).

(** [merge_records] with the output type given ([T]) and no further
    arguments. *)
Definition merge_records {T : RecordType} (data_records : list (list record))
  : result (list record) :=
  blocks_to_records (merged_blocks data_records).

Definition convert_records {Tin Tout : RecordType} (records : list record)
  : result (list record) :=
  let records := filter (@rt_is_data Tin) records in
  @merge_records Tout [records].

(** ** Statements of the specification, for comparison with the code *)

(** The checksum of a MOS data record as the specification words it:
    count, high byte and low byte of the 16-bit address, and the data
    bytes, summed modulo 2^16. *)
Definition documented_mos_checksum (self : record) : Z :=
  (count self
   + Z.land (Z.shiftr (address self) 8) 255
   + Z.land (address self) 255
   + sum_bytes (data self)) mod 2 ^ 16.

(** The bound on [columns] the specification gives for each format. *)
Definition documented_columns_bound (f : Format) : Z :=
  match f with
  | IntelHex => 255
  | MotorolaSrec => 128
  | MosTech => 128
  end.

(** A MOS sequence as the specification words it: non-empty, ending in a
    terminator ([count == 0]), the only one, whose address and checksum
    are the number of records before it. *)
Definition documented_mos_sequence (records : list record) : bool :=
  match rev records with
  | [] => false
  | t :: body =>
      (count t =? 0)
      && forallb (fun r => negb (count r =? 0)) body
      && (address t =? len body)
      && option_Z_eqb (checksum t) (Some (len body))
  end.

(** The 64 KiB page of an address: its bits above the low sixteen. *)
Definition page (a : Z) : Z := Z.shiftr a 16.

(** A sequence of blocks is sorted and non-overlapping from [lo] on: every
    block starts at or after the end of the one before it. *)
Fixpoint ordered_from (lo : Z) (blocks : list block) : Prop :=
  match blocks with
  | [] => True
  | b :: rest => lo <= block_start b /\ ordered_from (block_endex b) rest
  end.

Definition sorted_nonoverlapping (blocks : list block) : Prop :=
  exists lo, ordered_from lo blocks.


(** The byte a record holds at an address. *)
Definition record_byte (r : record) (a : Z) : option byte :=
  if (address r <=? a) && (a <? address r + len (data r))
  then nth_error (data r) (Z.to_nat (a - address r))
  else None.


(** The blocks of consecutive pieces laid out from an address on. *)
Fixpoint chain (a : Z) (pieces : list (list byte)) : list block :=
  match pieces with
  | [] => []
  | p :: ps => (a, p) :: chain (a + len p) ps
  end.

(** A record keeps its data within one 64 KiB page: all its bytes have
    addresses with the same high bits. *)
Definition within_page (r : record) : Prop :=
  forall i j,
    0 <= i < len (data r) -> 0 <= j < len (data r) ->
    page (address r + i) = page (address r + j).

(** The address width of a format, in bits. *)
Definition address_bits (f : Format) : Z :=
  match f with
  | IntelHex => 32
  | MotorolaSrec => 32
  | MosTech => 16
  end.

(** The byte that the last block of a list of writes covering an address
    holds there. *)
Fixpoint last_writer (writes : list block) (a : Z) : option byte :=
  match writes with
  | [] => None
  | (s, items) :: rest =>
      match last_writer rest a with
      | Some v => Some v
      | None =>
          if (s <=? a) && (a <? s + len items)
          then nth_error items (Z.to_nat (a - s))
          else None
      end
  end.

(** A block list as [union] keeps it: blocks that are not empty, each one
    starting at or after the end of the one before it. *)
Fixpoint tidy_from (lo : Z) (blocks : list block) : Prop :=
  match blocks with
  | [] => True
  | (s, items) :: rest =>
      lo <= s /\ items <> [] /\ tidy_from (s + len items) rest
  end.

(** A block list as [merge] leaves it: as above, and no block touches the
    one before it. *)
Fixpoint apart_from (lo : Z) (blocks : list block) : Prop :=
  match blocks with
  | [] => True
  | (s, items) :: rest =>
      lo < s /\ items <> [] /\ apart_from (s + len items) rest
  end.

(** One block lies wholly before another. *)
Definition block_lt (b1 b2 : block) : Prop :=
  block_start b1 < block_start b2 /\ block_endex b1 <= block_start b2.

(** The number of address bytes of a Motorola record, by its tag. *)
Definition motorola_address_length (r : record) : Z :=
  match tag r with
  | Some t =>
      match tuple_get Motorola.TAG_TO_ADDRESS_LENGTH t with
      | Ok al => Motorola.or_zero al
      | Raise _ => 0
      end
  | None => 0
  end.

(** The records a line can carry back: every MOS record; an Intel record
    with a 16-bit address (a line has the low sixteen bits only); a Motorola
    record whose address fits the address bytes of its tag and whose address
    and data bytes are between 2 and 138 (a line has 4 to 140 byte pairs). *)
Definition fits_line (f : Format) (r : record) : Prop :=
  match f with
  | MosTech => True
  | IntelHex => address r < 2 ^ 16
  | MotorolaSrec =>
      address r < 2 ^ (8 * motorola_address_length r)
      /\ 2 <= motorola_address_length r + len (data r) <= 138
  end.

(** A layout: chains of pieces, each with the address it starts at; the
    blocks of its pieces, and the blocks of its chains joined. *)
Definition chains (layout : list (Z * list (list byte))) : list block :=
  flat_map (fun l => chain (fst l) (snd l)) layout.

Definition joined (layout : list (Z * list (list byte))) : list block :=
  map (fun l => (fst l, List.concat (snd l))) layout.


(** ** Further functions of [records.py] and of the formats *)

(** [record.checksum = c]: the record with its [checksum] field assigned. *)
Definition with_checksum (r : record) (c : option Z) : record :=
  mkRecord (address r) (tag r) (data r) (count r) c.

(** [compute_checksum] of each record type. *)
Definition compute_checksum (f : Format) (self : record) : result Z :=
  match f with
  | IntelHex => Intel.compute_checksum self
  | MotorolaSrec => Motorola.compute_checksum self
  | MosTech => Ok (Mos.compute_checksum self)
  end.

(** [find_corrupted_records]: the loop over [enumerate(records)]; only a
    [ValueError] of [check()] is caught. *)
Fixpoint find_corrupted_loop (check : record -> result unit)
  (records : list record) (index : Z) : result (list Z) :=
  match records with
  | [] => Ok []
  | record :: rest =>
      match check record with
      | Ok _ => find_corrupted_loop check rest (index + 1)
      | Raise (ValueError _) =>
          corrupted <- find_corrupted_loop check rest (index + 1) ;;
          Ok (index :: corrupted)
      | Raise e => Raise e
      end
  end.

Definition find_corrupted_records {T : RecordType} (records : list record)
  : result (list Z) :=
  find_corrupted_loop rt_check records 0.

(** [Record.check_sequence] of each record type: Intel inherits that of the
    base class. *)
Definition intel_check_sequence (records : list record) : result unit :=
  Record_check_sequence Intel.check Intel.is_data records.

(** [Record.unmarshal] *)
Definition unmarshal {T : RecordType} (data : text) : result record :=
  rt_parse_record data.

(** [Record.LINE_SEP] *)
Definition LINE_SEP : text := ["010"%char].

(** The lines that iterating over a text stream yields, the stream given
    as the text it delivers (a file opened in text mode has its line ends
    as line feeds by then, see [universal_newlines]): each line up to and
    including its line feed, and what follows the last line feed, if
    anything. *)
Fixpoint stream_lines (stream : text) : list text :=
  match stream with
  | [] => []
  | c :: rest =>
      if code c =? 10 then [c] :: stream_lines rest
      else match stream_lines rest with
           | [] => [[c]]
           | line :: lines => (c :: line) :: lines
           end
  end.

(** [Record.write_records]: what the stream holds after the writes. *)
Fixpoint write_records {T : RecordType} (records : list record)
  : result text :=
  match records with
  | [] => Ok []
  | record :: rest =>
      line <- rt_marshal record ;;
      more <- write_records rest ;;
      Ok (line ++ LINE_SEP ++ more)
  end.

(** [Record.read_records] of a text stream. *)
Definition read_records {T : RecordType} (stream : text)
  : result (list record) :=
  mapM unmarshal (stream_lines stream).

(** [Record.readdress] of each record type, as the new content of the list:
    only Intel overrides the base method, which does nothing. *)
Definition readdress (f : Format) (records : list record)
  : result (list record) :=
  match f with
  | IntelHex => Intel.readdress records
  | MotorolaSrec => Ok records
  | MosTech => Ok records
  end.

(** [Record.read_blocks] *)
Definition read_blocks (f : Format) (stream : text) : result (list block) :=
  records <- @read_records (record_type f) stream ;;
  records <- readdress f records ;;
  Ok (@records_to_blocks (record_type f) records).

(** [Record.write_blocks] with no further arguments. *)
Definition write_blocks (f : Format) (blocks : list block) : result text :=
  records <- @blocks_to_records (record_type f) blocks ;;
  @write_records (record_type f) records.

(** [struct.unpack('>BH', data)] *)
Definition unpack_BH (d : list byte) : result (Z * Z) :=
  match d with
  | [u; h; l] => Ok (byte_val u, 256 * byte_val h + byte_val l)
  | _ => Raise StructError
  end.

(** Modelled from the spec: [utils.expmsg] is not among the sources; of the
    message it builds from the actual and the expected value, the label is
    kept. *)
Definition expmsg (msg : string) : string := msg.

(** The first loop of Motorola's [check_sequence], over the iterator [it]:
    it ends at the end of the sequence or at the first record that is no
    header, data or count record, and returns that record (if any), the
    rest of the iterator and [first_tag], [header_found] and
    [count_found]. *)
Fixpoint motorola_scan (it : list record) (first_tag : option Z)
  (data_count : Z) (header_found count_found : bool)
  : result (option record * list record * option Z * bool * bool) :=
  match it with
  | [] => Ok (None, [], first_tag, header_found, count_found)
  | record :: it' =>
      match tag record with
      | None => Raise TypeError
      | Some record_tag =>
          if record_tag =? 0 then
            if header_found then Raise (ValueError "header error")
            else motorola_scan it' first_tag data_count true count_found
          else if existsb (Z.eqb record_tag) [1; 2; 3] then
            match first_tag with
            | None =>
                motorola_scan it' (Some record_tag) (data_count + 1)
                              header_found count_found
            | Some ft =>
                if negb (record_tag =? ft)
                then Raise (ValueError (expmsg "tag error"))
                else motorola_scan it' first_tag (data_count + 1)
                                   header_found count_found
            end
          else if record_tag =? 5 then
            if count_found then Raise (ValueError "misplaced count")
            else
              expected_count <- unpack_be 2 (data record) ;;
              if negb (expected_count =? data_count)
              then Raise (ValueError (expmsg "record count error"))
              else motorola_scan it' first_tag data_count header_found true
          else if record_tag =? 6 then
            if count_found then Raise (ValueError "misplaced count")
            else
              uh <- unpack_BH (data record) ;;
              let expected_count := Z.lor (Z.shiftl (fst uh) 16) (snd uh) in
              if negb (expected_count =? data_count)
              then Raise (ValueError (expmsg "record count error"))
              else motorola_scan it' first_tag data_count header_found true
          else Ok (Some record, it', first_tag, header_found, count_found)
      end
  end.

(** Motorola's [Record.check_sequence]. *)
Definition motorola_check_sequence (records : list record) : result unit :=
  Record_check_sequence Motorola.check Motorola.is_data records ;;
  st <- motorola_scan records None 0 false false ;;
  let '(record, it, first_tag, header_found, count_found) := st in
  unless count_found (ValueError "missing count") ;;
  unless header_found (ValueError "missing header") ;;
  match record with
  | None => Raise (ValueError "missing start")
  | Some record =>
      match tag record with
      | None => Raise (ValueError "tag error")
      | Some t =>
          unless (existsb (Z.eqb t) [7; 8; 9]) (ValueError "tag error") ;;
          matching_tag <- tuple_get Motorola.MATCHING_TAG t ;;
          unless (option_Z_eqb first_tag matching_tag)
                 (ValueError (expmsg "matching tag error")) ;;
          match it with
          | [] => Ok tt
          | _ :: _ => Raise (ValueError "sequence length error")
          end
      end
  end.

(** [check_sequence] of each record type. *)
Definition check_sequence (f : Format) (records : list record)
  : result unit :=
  match f with
  | IntelHex => intel_check_sequence records
  | MotorolaSrec => motorola_check_sequence records
  | MosTech => Mos.check_sequence records
  end.

(** ** Properties of sequences, for the statements below *)

(** What the base [check_sequence] tests between neighbours: a data record
    that comes after some data record starts at or after the end of the
    record just before it.  [seen] tells whether a data record came before,
    [record_endex] is the end of the record just before. *)
Fixpoint neighbours_sorted (is_data : record -> bool) (seen : bool)
  (record_endex : Z) (records : list record) : Prop :=
  match records with
  | [] => True
  | r :: rest =>
      (is_data r = true -> seen = true -> record_endex <= address r)
      /\ neighbours_sorted is_data (seen || is_data r)
                           (address r + len (data r)) rest
  end.

(** What the base [check_sequence] requires of a sequence, record by
    record: every record passes [check]; a data record does not overlap
    the nearest data record before it; and a data record that has a data
    record somewhere before it starts at or after the end of the record
    just before it, whatever that record is. *)
Definition sequence_conditions (check : record -> result unit)
  (is_data : record -> bool) (records : list record) : Prop :=
  Forall (fun r => check r = Ok tt) records
  /\ (forall pre l mid r post,
         records = pre ++ l :: mid ++ r :: post ->
         is_data l = true ->
         forallb (fun x => negb (is_data x)) mid = true ->
         is_data r = true ->
         overlaps r l = false)
  /\ (forall pre p r post,
         records = pre ++ p :: r :: post ->
         is_data r = true ->
         existsb is_data (pre ++ [p]) = true ->
         address p + len (data p) <= address r).


(** [record.address = a]: the record with its [address] field assigned. *)
Definition with_address (r : record) (a : Z) : record :=
  mkRecord a (tag r) (data r) (count r) (checksum r).

(** An Intel record that sets the addressing base: an extended segment
    address or an extended linear address record. *)
Definition sets_base (r : record) : bool :=
  option_Z_eqb (tag r) (Some Intel.EXTENDED_SEGMENT_ADDRESS)
  || option_Z_eqb (tag r) (Some Intel.EXTENDED_LINEAR_ADDRESS).

(** What the line of an Intel record keeps of it: the low sixteen bits of
    the address, the tag and the data. *)
Definition line_image (r' r : record) : Prop :=
  address r' = address r mod 65536 /\ tag r' = tag r /\ data r' = data r.

(** A record whose tag is one of [tags]. *)
Definition tag_in (tags : list Z) (r : record) : bool :=
  match tag r with
  | Some t => existsb (Z.eqb t) tags
  | None => false
  end.

(** The number that the data of a Motorola count record stand for, as
    [check_sequence] unpacks them: two bytes for tag 5, three otherwise. *)
Definition count_value (r : record) : result Z :=
  if option_Z_eqb (tag r) (Some 5) then unpack_be 2 (data r)
  else
    uh <- unpack_BH (data r) ;;
    Ok (Z.lor (Z.shiftl (fst uh) 16) (snd uh)).

(** What a file opened for reading in text mode delivers: the text of the
    file with every line end (carriage return and line feed, or either of
    them alone) as one line feed. *)
Fixpoint universal_newlines (file : text) : text :=
  match file with
  | [] => []
  | c :: rest =>
      if code c =? 13 then
        match rest with
        | c' :: rest' =>
            if code c' =? 10 then "010"%char :: universal_newlines rest'
            else "010"%char :: universal_newlines rest
        | [] => ["010"%char]
        end
      else c :: universal_newlines rest
  end.

(** [save_chunk] and [load_blocks] of [records.py], on the text of the
    file: [save_chunk] returns what it writes, with the line separator as
    one line feed; [load_blocks] opens the file in text mode and reads the
    blocks from that stream. *)
Definition save_chunk (f : Format) (chunk : list byte) (address : Z)
  : result text :=
  write_blocks f [(address, chunk)].

Definition load_blocks (f : Format) (file : text) : result (list block) :=
  read_blocks f (universal_newlines file).


(** * Properties *)

(** ** Record equality *)

Lemma option_Z_eqb_eq (a b : option Z) : option_Z_eqb a b = true <-> a = b.
Proof.
  destruct a as [x|], b as [y|]; simpl; split; intro H;
    try discriminate; try reflexivity.
  - apply Z.eqb_eq in H. now subst.
  - injection H as ->. apply Z.eqb_refl.
Qed.

Lemma bytes_eqb_eq (a b : list byte) : bytes_eqb a b = true <-> a = b.
Proof.
  unfold bytes_eqb. destruct (list_eq_dec Byte.byte_eq_dec a b); split;
    intro H; try discriminate; auto; contradiction.
Qed.

Lemma Record_eq_fields (r1 r2 : record) :
  address r1 = address r2 -> tag r1 = tag r2 -> data r1 = data r2 ->
  Record_eq r1 r2 = true.
Proof.
  intros Ha Ht Hd. unfold Record_eq.
  rewrite (proj2 (Z.eqb_eq _ _) Ha), (proj2 (option_Z_eqb_eq _ _) Ht),
    (proj2 (bytes_eqb_eq _ _) Hd). reflexivity.
Qed.



(** ** MOS checksum *)

(** C4: for the data record [build_data(0x1234, b'Hello, World!')] the code
    returns 0x04AA, the sum without the high address byte, where the
    documented formula gives 0x04BC. *)
Theorem mos_checksum_drops_high_byte :
  exists r,
    Mos.build_data 4660 (list_byte_of_string "Hello, World!") = Ok r
    /\ 0 < count r
    /\ Mos.check r = Ok tt
    /\ Mos.compute_checksum r = 1194
    /\ documented_mos_checksum r = 1212.
Proof.
  eexists. split; [reflexivity|]. vm_compute. repeat split; congruence.
Qed.

(** ** The bound on [columns] *)

(** C6: the bounds in the code are not the documented ones: Intel refuses
    255 columns and Motorola 128, and MOS takes more than 128. *)
Theorem split_columns_bounds :
  Intel.split [x41] 0 (documented_columns_bound IntelHex) true true None
    = Raise (ValueError "column overflow")
  /\ Motorola.split [x41] 0 (documented_columns_bound MotorolaSrec)
                    true true None None []
     = Raise (ValueError "column overflow")
  /\ (exists r t,
        Mos.split (repeat x41 129) 0 (documented_columns_bound MosTech + 1)
                  true true = Ok [r; t]
        /\ len (data r) = 129).
Proof.
  split; [reflexivity|]. split; [reflexivity|].
  do 2 eexists. split; reflexivity.
Qed.

(** ** Intel: the extended linear address at the 64 KiB crossing *)

(** C9: [split(b'A'*32, address=0x0FFF8)] with 16 columns yields an
    EXTENDED_LINEAR_ADDRESS record (for segment 1) right between the data
    record that ends at 0x10000 and the data record that starts there. *)
Theorem intel_split_crossing :
  exists pre r1 ela r2 post,
    Intel.split (repeat "A"%byte 32) 65528 16 true true None
      = Ok (pre ++ r1 :: ela :: r2 :: post)
    /\ Intel.is_data r1 = true
    /\ address r1 + len (data r1) = 65536
    /\ tag ela = Some Intel.EXTENDED_LINEAR_ADDRESS
    /\ data ela = [x00; x01]
    /\ Intel.is_data r2 = true
    /\ address r2 = 65536.
Proof.
  exists []. do 4 eexists. split; [vm_compute; reflexivity|].
  repeat split.
Qed.


(** ** What [check] enforces on the address *)

Lemma unless_ok (b : bool) (e : exn) : unless b e = Ok tt <-> b = true.
Proof. destruct b; simpl; split; congruence. Qed.

Lemma bind_ok {A B : Type} (c : result A) (k : A -> result B) (y : B) :
  bind c k = Ok y -> exists x, c = Ok x /\ k x = Ok y.
Proof. destruct c as [x|e]; cbn; [eauto|discriminate]. Qed.

Lemma unless_bind_ok {B : Type} (b : bool) (e : exn) (k : result B) (y : B) :
  (unless b e ;; k) = Ok y -> b = true /\ k = Ok y.
Proof. destruct b; cbn; [auto|discriminate]. Qed.

Lemma between_spec (lo x hi : Z) : between lo x hi = true <-> lo <= x <= hi.
Proof. unfold between. rewrite andb_true_iff, !Z.leb_le. tauto. Qed.

Lemma within_spec (lo x hi : Z) : within lo x hi = true <-> lo <= x < hi.
Proof. unfold within. rewrite andb_true_iff, Z.leb_le, Z.ltb_lt. tauto. Qed.

Lemma Record_check_negative (cc : record -> result Z) (r : record) :
  address r < 0 -> Record_check cc r = Raise (ValueError "address overflow").
Proof.
  intro H. unfold Record_check.
  replace (0 <=? address r) with false by (symmetry; apply Z.leb_gt; lia).
  reflexivity.
Qed.

(** ** MOS: [check_sequence] *)

Lemma len_app {A : Type} (l1 l2 : list A) : len (l1 ++ l2) = len l1 + len l2.
Proof. unfold len. rewrite length_app. lia. Qed.

Lemma len_nonneg {A : Type} (l : list A) : 0 <= len l.
Proof. unfold len. lia. Qed.

Lemma len_cons {A : Type} (x : A) (l : list A) : len (x :: l) = 1 + len l.
Proof. unfold len. rewrite length_cons. lia. Qed.

Lemma len_nil {A : Type} : len (@nil A) = 0.
Proof. reflexivity. Qed.

Lemma tuple_get_last {A : Type} (body : list A) (t : A) :
  tuple_get (body ++ [t]) (-1) = Ok t.
Proof.
  unfold tuple_get. change (-1 <? 0) with true. cbv iota.
  rewrite len_app, len_cons, len_nil.
  pose proof (len_nonneg body).
  replace (-1 + (len body + (1 + 0)) <? 0) with false
    by (symmetry; apply Z.ltb_ge; lia).
  replace (Z.to_nat (-1 + (len body + (1 + 0)))) with (List.length body)
    by (unfold len; lia).
  rewrite nth_error_app2 by lia. now rewrite Nat.sub_diag.
Qed.

Lemma list_snoc_cases {A : Type} (l : list A) :
  l = [] \/ exists body t, l = body ++ [t].
Proof.
  destruct l as [|x l] using rev_ind; [now left|right; eauto].
Qed.


(** Decides the integer tests of the goal that [lia] settles. *)
Ltac ztest :=
  repeat match goal with
    | |- context [?x <=? ?y] => rewrite (proj2 (Z.leb_le x y)) by lia
    | |- context [?x <=? ?y] => rewrite (proj2 (Z.leb_gt x y)) by lia
    | |- context [?x <? ?y] => rewrite (proj2 (Z.ltb_lt x y)) by lia
    | |- context [?x <? ?y] => rewrite (proj2 (Z.ltb_ge x y)) by lia
    | |- context [?x =? ?y] => rewrite (proj2 (Z.eqb_eq x y)) by lia
    | |- context [?x =? ?y] => rewrite (proj2 (Z.eqb_neq x y)) by lia
    end.



(** ** Slices and [chop] *)

Lemma norm_index_nonneg {A : Type} (v : list A) (n : Z) :
  0 <= n -> norm_index v n = Nat.min (List.length v) (Z.to_nat n).
Proof.
  intro H. unfold norm_index, len.
  replace (n <? 0) with false by (symmetry; apply Z.ltb_ge; lia). lia.
Qed.

Lemma take_nonneg {A : Type} (v : list A) (n : Z) :
  0 <= n -> take n v = firstn (Z.to_nat n) v.
Proof.
  intro H. unfold take. rewrite norm_index_nonneg by assumption.
  destruct (Nat.le_ge_cases (List.length v) (Z.to_nat n)) as [L|L].
  - rewrite Nat.min_l by assumption. now rewrite !firstn_all2 by lia.
  - now rewrite Nat.min_r by assumption.
Qed.

Lemma drop_nonneg {A : Type} (v : list A) (n : Z) :
  0 <= n -> drop n v = skipn (Z.to_nat n) v.
Proof.
  intro H. unfold drop. rewrite norm_index_nonneg by assumption.
  destruct (Nat.le_ge_cases (List.length v) (Z.to_nat n)) as [L|L].
  - rewrite Nat.min_l by assumption. now rewrite !skipn_all2 by lia.
  - now rewrite Nat.min_r by assumption.
Qed.

Lemma take_drop {A : Type} (v : list A) (n : Z) : take n v ++ drop n v = v.
Proof. apply firstn_skipn. Qed.

Lemma len_take {A : Type} (v : list A) (n : Z) :
  0 <= n -> len (take n v) = Z.min n (len v).
Proof.
  intro H. rewrite take_nonneg by assumption. unfold len.
  rewrite length_firstn. lia.
Qed.

Lemma len_drop {A : Type} (v : list A) (n : Z) :
  0 <= n -> len (drop n v) = Z.max 0 (len v - n).
Proof.
  intro H. rewrite drop_nonneg by assumption. unfold len.
  rewrite length_skipn. lia.
Qed.

Lemma len_zero_nil {A : Type} (v : list A) : len v = 0 <-> v = [].
Proof.
  unfold len. destruct v; simpl; split; intro H; try reflexivity;
    try discriminate; lia.
Qed.

Lemma len_pos {A : Type} (v : list A) : v <> [] <-> 0 < len v.
Proof.
  pose proof (len_nonneg v). pose proof (len_zero_nil v).
  split; intro K.
  - destruct (Z.eq_dec (len v) 0) as [E|E]; [|lia]. tauto.
  - intros ->. unfold len in K. simpl in K. lia.
Qed.

Lemma len_concat_cons {A : Type} (c : list A) (cs : list (list A)) :
  len (List.concat (c :: cs)) = len c + len (List.concat cs).
Proof. simpl. apply len_app. Qed.

Section Chop.

Context {A : Type}.

Lemma chop_from_concat (w : Z) :
  0 < w ->
  forall (fuel : nat) (v : list A),
    (List.length v <= fuel)%nat -> List.concat (chop_from fuel v w) = v.
Proof.
  intros Hw fuel. induction fuel as [|fuel IH]; intros v Hl.
  - destruct v; [reflexivity|simpl in Hl; lia].
  - destruct v as [|x v]; [reflexivity|].
    cbn [chop_from List.concat]. rewrite IH; [apply take_drop|].
    rewrite drop_nonneg by lia. rewrite length_skipn.
    simpl List.length in *. lia.
Qed.

Lemma chop_from_bounded (w : Z) :
  0 < w ->
  forall (fuel : nat) (v : list A),
    Forall (fun c => 0 < len c <= w) (chop_from fuel v w).
Proof.
  intros Hw fuel. induction fuel as [|fuel IH]; intros v; [constructor|].
  destruct v as [|x v]; [constructor|].
  cbn [chop_from]. constructor; [|apply IH].
  rewrite len_take by lia. rewrite len_cons. pose proof (len_nonneg v). lia.
Qed.

(** The number of windows: the length divided by the window, rounded up. *)
Lemma chop_from_count (w : Z) :
  0 < w ->
  forall (fuel : nat) (v : list A),
    (List.length v <= fuel)%nat ->
    len (chop_from fuel v w) = (len v + w - 1) / w.
Proof.
  intros Hw fuel. induction fuel as [|fuel IH]; intros v Hl.
  - destruct v; [|simpl in Hl; lia]. cbn [chop_from]. rewrite (@len_nil A), (@len_nil (list A)).
    symmetry. apply Z.div_small. lia.
  - destruct v as [|x v].
    + cbn [chop_from]. rewrite (@len_nil A), (@len_nil (list A)). symmetry. apply Z.div_small. lia.
    + cbn [chop_from]. rewrite len_cons. rewrite IH.
      * rewrite len_drop by lia. set (n := len (x :: v)).
        assert (0 < n) by (subst n; rewrite len_cons;
                           pose proof (len_nonneg v); lia).
        destruct (Z.le_gt_cases w n) as [L|L].
        -- rewrite Z.max_r by lia.
           replace (n + w - 1) with (n - w + w - 1 + 1 * w) by lia.
           rewrite Z.div_add by lia. lia.
        -- rewrite Z.max_l by lia.
           replace ((0 + w - 1) / w) with 0 by (symmetry; apply Z.div_small; lia).
           replace (n + w - 1) with (n - 1 + 1 * w) by lia.
           rewrite Z.div_add by lia. rewrite Z.div_small by lia. lia.
      * rewrite drop_nonneg by lia. rewrite length_skipn.
        simpl List.length in *. lia.
Qed.

(** [chop] as the [split] methods call it: a positive window and an
    alignment base below it. *)
Lemma chop_split (v : list A) (w ab : Z) :
  0 < w -> 0 <= ab < w ->
  exists chunks,
    chop v w ab = Ok chunks
    /\ List.concat chunks = v
    /\ Forall (fun c => len c <= w) chunks
    /\ Forall (fun c => c <> []) (tl chunks)
    /\ (v <> [] -> Forall (fun c => c <> []) chunks)
    /\ (v <> [] -> len chunks = (ab + len v + w - 1) / w).
Proof.
  intros Hw Hab. unfold chop.
  replace (0 <? w) with true by (symmetry; apply Z.ltb_lt; lia).
  cbn [unless bind].
  assert (Hne : forall fuel u,
             Forall (fun c : list A => c <> []) (chop_from fuel u w)).
  { intros fuel u. eapply Forall_impl; [|apply (chop_from_bounded w Hw)].
    intros c Hc. cbv beta in *. apply len_pos. lia. }
  assert (Hle : forall fuel u,
             Forall (fun c : list A => len c <= w) (chop_from fuel u w)).
  { intros fuel u. eapply Forall_impl; [|apply (chop_from_bounded w Hw)].
    intros c Hc. cbv beta in *. lia. }
  destruct (ab =? 0) eqn:E.
  - apply Z.eqb_eq in E. subst ab. eexists. split; [reflexivity|].
    split; [now apply chop_from_concat|].
    split; [apply Hle|]. split.
    + destruct (chop_from (List.length v) v w) eqn:K; [constructor|].
      pose proof (Hne (List.length v) v) as F. rewrite K in F.
      now inversion F.
    + split; [intros _; apply Hne|].
      intros _. rewrite chop_from_count by (assumption || lia).
      now rewrite Z.add_0_l.
  - apply Z.eqb_neq in E.
    assert (Hoff : (- ab) mod w = w - ab).
    { symmetry. apply (Z.mod_unique_pos _ _ (-1)); lia. }
    rewrite Hoff. eexists. split; [reflexivity|].
    assert (Hd : (List.length (drop (w - ab) v) <= List.length v)%nat).
    { rewrite drop_nonneg by lia. rewrite length_skipn. lia. }
    split.
    + cbn [List.concat].
      rewrite (chop_from_concat w Hw _ _ Hd). apply take_drop.
    + split; [constructor; [rewrite len_take by lia; lia|apply Hle]|].
      split; [apply Hne|]. split.
      * intro Hv. constructor; [|apply Hne].
        apply len_pos. rewrite len_take by lia. apply len_pos in Hv. lia.
      * intro Hv. rewrite len_cons.
        assert (Hc : forall fuel u, (List.length u <= fuel)%nat ->
                       len (chop_from fuel u w) = (len u + w - 1) / w)
          by (intros; now apply chop_from_count).
        rewrite Hc by exact Hd. rewrite len_drop by lia.
        apply len_pos in Hv.
        destruct (Z.le_gt_cases (w - ab) (len v)) as [L|L].
        -- rewrite Z.max_r by lia.
           replace (ab + len v + w - 1)
             with (len v - (w - ab) + w - 1 + 1 * w) by lia.
           rewrite Z.div_add by lia. lia.
        -- rewrite Z.max_l by lia.
           replace ((0 + w - 1) / w) with 0
             by (symmetry; apply Z.div_small; lia).
           replace (ab + len v + w - 1) with (ab + len v - 1 + 1 * w) by lia.
           rewrite Z.div_add by lia. rewrite Z.div_small by lia. lia.
Qed.

End Chop.


(** ** Pages and masks *)

Lemma land_ffff (a : Z) : Z.land a 65535 = a mod 65536.
Proof. change 65535 with (Z.ones 16). now rewrite Z.land_ones by lia. Qed.

Lemma page_div (a : Z) : page a = a / 65536.
Proof. unfold page. now rewrite Z.shiftr_div_pow2 by lia. Qed.

Lemma land_high_mask (x : Z) :
  Z.land x 4294901760 = Z.shiftl (Z.land (Z.shiftr x 16) 65535) 16.
Proof.
  change 4294901760 with (Z.shiftl 65535 16).
  apply Z.bits_inj'. intros n Hn.
  rewrite Z.land_spec.
  destruct (Z.lt_ge_cases n 16) as [L|L].
  - rewrite !Z.shiftl_spec_low by assumption. apply andb_false_r.
  - rewrite !Z.shiftl_spec by assumption.
    rewrite Z.land_spec, Z.shiftr_spec by lia.
    now replace (n - 16 + 16) with n by lia.
Qed.

Lemma land_lxor_distr (x y m : Z) :
  Z.land (Z.lxor x y) m = Z.lxor (Z.land x m) (Z.land y m).
Proof.
  apply Z.bits_inj'. intros n _.
  rewrite Z.land_spec, !Z.lxor_spec, !Z.land_spec.
  destruct (Z.testbit x n), (Z.testbit y n), (Z.testbit m n); reflexivity.
Qed.

(** The test [(a ^ b) & 0xFFFF0000] of [split] compares the pages of [a]
    and [b], as far as sixteen bits tell them apart. *)
Lemma mask_pages (a b : Z) :
  Z.land (Z.lxor a b) 4294901760 = 0
  <-> (a / 65536) mod 65536 = (b / 65536) mod 65536.
Proof.
  rewrite land_high_mask, Z.shiftl_eq_0_iff by lia.
  rewrite Z.shiftr_lxor, land_lxor_distr, Z.lxor_eq_0_iff.
  rewrite !land_ffff, !Z.shiftr_div_pow2 by lia. reflexivity.
Qed.

Lemma mask_pagesb (a b : Z) :
  (Z.land (Z.lxor a b) 4294901760 =? 0)
  = ((a / 65536) mod 65536 =? (b / 65536) mod 65536).
Proof.
  apply eq_true_iff_eq. rewrite !Z.eqb_eq. apply mask_pages.
Qed.

Lemma cross_arith (a L : Z) :
  0 <= a -> 0 <= L <= 65536 -> a + L <= 2 ^ 32 ->
  (a + L) mod 65536 <> 0 ->
  (a / 65536) mod 65536 <> ((a + L) / 65536) mod 65536 ->
  let pivot := L - (a + L) mod 65536 in
  0 < pivot < L
  /\ a / 65536 = (a + pivot - 1) / 65536
  /\ (a + pivot) / 65536 = (a + L - 1) / 65536
  /\ a + pivot < 2 ^ 32.
Proof.
  intros Ha HL He Hov Hpg pivot. subst pivot.
  change (2 ^ 32) with 4294967296 in *.
  Z.div_mod_to_equations. lia.
Qed.

Lemma same_arith (a L : Z) :
  0 <= a -> 0 < L <= 65536 -> a + L <= 2 ^ 32 ->
  (a + L) mod 65536 = 0
  \/ (a / 65536) mod 65536 = ((a + L) / 65536) mod 65536 ->
  a / 65536 = (a + L - 1) / 65536.
Proof.
  intros Ha HL He H.
  change (2 ^ 32) with 4294967296 in *.
  Z.div_mod_to_equations. lia.
Qed.

Lemma within_page_intro (a : Z) (t : option Z) (d : list byte) (c : Z)
  (s : option Z) :
  (d <> [] -> a / 65536 = (a + len d - 1) / 65536) ->
  within_page (mkRecord a t d c s).
Proof.
  intros H i j Hi Hj. cbn [address data] in *.
  assert (Hd : d <> []) by (apply len_pos; lia).
  specialize (H Hd). rewrite !page_div.
  assert (K : forall k, 0 <= k < len d -> (a + k) / 65536 = a / 65536).
  { intros k Hk.
    pose proof (Z.div_le_mono a (a + k) 65536 ltac:(lia) ltac:(lia)).
    pose proof (Z.div_le_mono (a + k) (a + len d - 1) 65536
                  ltac:(lia) ltac:(lia)).
    lia. }
  now rewrite !K.
Qed.

(** ** Intel: the records [split] builds *)

Lemma intel_init_ok (a t : Z) (d : list byte) :
  0 <= a < 2 ^ 32 -> a + len d <= 2 ^ 32 -> 0 <= t <= 5 ->
  exists s,
    Intel.init a (Some t) d Ellipsis
    = Ok (mkRecord a (Some t) d (len d) (Some s)).
Proof.
  intros Ha Hd Ht. unfold Intel.init, within, between.
  pose proof (len_nonneg d).
  replace (0 <=? a) with true by (symmetry; apply Z.leb_le; lia).
  replace (a <? 2 ^ 32) with true by (symmetry; apply Z.ltb_lt; lia).
  replace (0 <=? a + len d) with true by (symmetry; apply Z.leb_le; lia).
  replace (a + len d <=? 2 ^ 32) with true by (symmetry; apply Z.leb_le; lia).
  cbn [andb unless bind]. unfold Intel.TAG_TYPE, between.
  replace (0 <=? t) with true by (symmetry; apply Z.leb_le; lia).
  replace (t <=? 5) with true by (symmetry; apply Z.leb_le; lia).
  cbn [andb bind]. unfold Record_init, Intel.compute_count.
  cbn [bind]. unfold Intel.compute_checksum. cbn [address tag data count].
  unfold pack_be, within. rewrite land_ffff.
  pose proof (Z.mod_pos_bound a 65536 ltac:(lia)).
  replace (0 <=? a mod 65536) with true by (symmetry; apply Z.leb_le; lia).
  replace (a mod 65536 <? 256 ^ Z.of_nat 2) with true
    by (symmetry; apply Z.ltb_lt; change (256 ^ Z.of_nat 2) with 65536; lia).
  cbn [andb unless bind]. eexists. reflexivity.
Qed.

Lemma intel_build_data_ok (a : Z) (d : list byte) :
  0 <= a < 2 ^ 32 -> a + len d <= 2 ^ 32 ->
  exists s,
    Intel.build_data a d = Ok (mkRecord a (Some 0) d (len d) (Some s)).
Proof.
  intros Ha Hd. unfold Intel.build_data, Intel.DATA.
  apply intel_init_ok; lia.
Qed.

Lemma intel_build_ela_ok (a : Z) :
  0 <= a < 2 ^ 32 ->
  exists d s,
    Intel.build_extended_linear_address a
    = Ok (mkRecord 0 (Some 4) d 2 (Some s)).
Proof.
  intros Ha. unfold Intel.build_extended_linear_address, within.
  replace (0 <=? a) with true by (symmetry; apply Z.leb_le; lia).
  replace (a <? 2 ^ 32) with true by (symmetry; apply Z.ltb_lt; lia).
  cbn [andb unless bind]. unfold pack_be, within.
  rewrite Z.shiftr_div_pow2 by lia.
  change (2 ^ 16) with 65536. change (2 ^ 32) with 4294967296 in Ha.
  assert (0 <= a / 65536 < 65536)
    by (split; [apply Z.div_pos; lia|apply Z.div_lt_upper_bound; lia]).
  replace (0 <=? a / 65536) with true by (symmetry; apply Z.leb_le; lia).
  replace (a / 65536 <? 256 ^ Z.of_nat 2) with true
    by (symmetry; apply Z.ltb_lt; change (256 ^ Z.of_nat 2) with 65536; lia).
  cbn [andb unless bind].
  destruct (intel_init_ok 0 4 (be_bytes 2 (a / 65536))) as [s Hs];
    [change (2 ^ 32) with 4294967296; lia
    |change (len (be_bytes 2 (a / 65536))) with
        (len (be_bytes 1 (a / 65536 / 256) ++ [byte_of_Z ((a / 65536) mod 256)]));
     rewrite len_app; change (2 ^ 32) with 4294967296;
     cbn; lia
    |lia|].
  unfold Intel.EXTENDED_LINEAR_ADDRESS. rewrite Hs.
  do 2 eexists. f_equal.
Qed.

Lemma intel_is_data_mk (a t : Z) (d : list byte) (c : Z) (s : option Z) :
  Intel.is_data (mkRecord a (Some t) d c s) = (t =? 0).
Proof. reflexivity. Qed.

(** The loop of [split]: it succeeds, its data records are the chunks, cut
    at the page boundaries and laid out from the address on, and each of
    its data records stays within one page. *)
Lemma intel_split_loop_ok (chunks : list (list byte)) :
  forall (a old : Z),
    0 <= a -> (chunks <> [] -> a < 2 ^ 32) ->
    a + len (List.concat chunks) <= 2 ^ 32 ->
    Forall (fun c => len c <= 65536) chunks ->
    Forall (fun c => c <> []) (tl chunks) ->
    exists out pieces,
      Intel.split_loop chunks a old = Ok out
      /\ map block_of (filter Intel.is_data out) = chain a pieces
      /\ List.concat pieces = List.concat chunks
      /\ (Forall (fun c => c <> []) chunks -> Forall (fun p => p <> []) pieces)
      /\ Forall (fun r => Intel.is_data r = true -> within_page r) out.
Proof.
  induction chunks as [|c rest IH]; intros a old Ha Ha32 Hend Hlen Hne.
  - exists [], []. repeat split; constructor.
  - specialize (Ha32 ltac:(discriminate)).
    rewrite len_concat_cons in Hend.
    pose proof (len_nonneg c) as Hc0.
    pose proof (len_nonneg (List.concat rest)) as Hr0.
    inversion Hlen as [|? ? Hc Hrest]; subst.
    assert (Hnext : rest <> [] -> a + len c < 2 ^ 32).
    { destruct rest as [|c' rest']; [congruence|intros _].
      cbn [tl] in Hne. inversion Hne as [|? ? Hc' _]; subst.
      apply len_pos in Hc'. rewrite len_concat_cons in Hend.
      pose proof (len_nonneg (List.concat rest')). lia. }
    assert (Hne' : Forall (fun c => c <> []) (tl rest)).
    { destruct rest as [|c' rest']; [constructor|].
      cbn [tl] in *. now inversion Hne. }
    cbn [Intel.split_loop]. rewrite land_ffff, !mask_pagesb.
    destruct (negb ((a + len c) mod 65536 =? 0)
              && negb ((a / 65536) mod 65536
                       =? ((a + len c) / 65536) mod 65536)) eqn:Hcross.
    + apply andb_true_iff in Hcross. destruct Hcross as [H1 H2].
      apply negb_true_iff, Z.eqb_neq in H1.
      apply negb_true_iff, Z.eqb_neq in H2.
      destruct (cross_arith a (len c) Ha ltac:(lia) ltac:(lia) H1 H2)
        as (Hp & Hpg1 & Hpg2 & Hp32).
      set (pivot := len c - (a + len c) mod 65536) in *.
      assert (Hlt : len (take pivot c) = pivot)
        by (rewrite len_take by lia; lia).
      assert (Hld : len (drop pivot c) = len c - pivot)
        by (rewrite len_drop by lia; lia).
      destruct (intel_build_data_ok a (take pivot c)) as [s1 E1]; [lia|lia|].
      destruct (intel_build_ela_ok (a + pivot)) as (d2 & s2 & E2); [lia|].
      destruct (intel_build_data_ok (a + pivot) (drop pivot c)) as [s3 E3];
        [lia|lia|].
      destruct (IH (a + pivot + (a + len c) mod 65536) (a + pivot))
        as (out & pieces & Eo & Eb & Ec & En & Ep);
        [lia|intro K; specialize (Hnext K); lia|lia|assumption|assumption|].
      rewrite E1, E2, E3, Eo. cbn [bind].
      eexists. exists (take pivot c :: drop pivot c :: pieces).
      split; [reflexivity|].
      split.
      { cbn [filter]. rewrite !intel_is_data_mk.
        cbn [Z.eqb map chain block_of address data]. rewrite Eb, Hlt.
        rewrite Hld.
        now replace (a + pivot + (len c - pivot))
          with (a + pivot + (a + len c) mod 65536) by lia. }
      split.
      { cbn [List.concat]. rewrite Ec, app_assoc. now rewrite take_drop. }
      split.
      { intro F. inversion F as [|? ? _ Fr]; subst.
        constructor; [apply len_pos; lia|].
        constructor; [apply len_pos; lia|]. now apply En. }
      constructor.
      { intros _. apply within_page_intro. intros _. rewrite Hlt.
        exact Hpg1. }
      constructor; [discriminate|].
      constructor; [|exact Ep].
      intros _. apply within_page_intro. intros _. rewrite Hld.
      replace (a + pivot + (len c - pivot) - 1) with (a + len c - 1) by lia.
      exact Hpg2.
    + assert (Hsame : c <> [] -> a / 65536 = (a + len c - 1) / 65536).
      { intro Hcn. apply len_pos in Hcn.
        apply same_arith; [lia|lia|lia|].
        apply andb_false_iff in Hcross.
        destruct Hcross as [H1|H2].
        - left. apply negb_false_iff in H1. now apply Z.eqb_eq.
        - right. apply negb_false_iff in H2. now apply Z.eqb_eq. }
      destruct (intel_build_data_ok a c) as [s1 E1]; [lia|lia|].
      destruct (IH (a + len c) a)
        as (out & pieces & Eo & Eb & Ec & En & Ep);
        [lia|assumption|lia|assumption|assumption|].
      rewrite E1, Eo.
      destruct (negb ((a / 65536) mod 65536 =? (old / 65536) mod 65536)).
      * destruct (intel_build_ela_ok a) as (d2 & s2 & E2); [lia|].
        rewrite E2. cbn [bind app].
        eexists. exists (c :: pieces). split; [reflexivity|].
        split.
        { cbn [filter]. rewrite !intel_is_data_mk.
          cbn [Z.eqb map chain block_of address data]. now rewrite Eb. }
        split; [cbn [List.concat]; now rewrite Ec|].
        split.
        { intro F. inversion F; subst. constructor; [assumption|].
          now apply En. }
        constructor; [discriminate|].
        constructor; [|exact Ep].
        intros _. now apply within_page_intro.
      * cbn [bind app].
        eexists. exists (c :: pieces). split; [reflexivity|].
        split.
        { cbn [filter]. rewrite !intel_is_data_mk.
          cbn [Z.eqb map chain block_of address data]. now rewrite Eb. }
        split; [cbn [List.concat]; now rewrite Ec|].
        split.
        { intro F. inversion F; subst. constructor; [assumption|].
          now apply En. }
        constructor; [|exact Ep].
        intros _. now apply within_page_intro.
Qed.

Lemma len_be_bytes (n : nat) (v : Z) : len (be_bytes n v) = Z.of_nat n.
Proof.
  revert v. induction n as [|n IH]; intro v; [reflexivity|].
  cbn [be_bytes]. rewrite len_app, IH, len_cons, (@len_nil byte). lia.
Qed.

Lemma intel_terminate_ok (start : Z) :
  0 <= start < 2 ^ 32 ->
  exists r1 r2 r3,
    Intel.terminate start = Ok [r1; r2; r3]
    /\ Intel.is_data r1 = false
    /\ Intel.is_data r2 = false
    /\ Intel.is_data r3 = false.
Proof.
  intro Hs. unfold Intel.terminate.
  destruct (intel_build_ela_ok 0) as (d1 & s1 & E1);
    [change (2 ^ 32) with 4294967296; lia|].
  rewrite E1. cbn [bind].
  unfold Intel.build_start_linear_address, within, pack_be, within.
  replace (0 <=? start) with true by (symmetry; apply Z.leb_le; lia).
  replace (start <? 2 ^ 32) with true by (symmetry; apply Z.ltb_lt; lia).
  replace (start <? 256 ^ Z.of_nat 4) with true
    by (symmetry; apply Z.ltb_lt; change (256 ^ Z.of_nat 4) with (2 ^ 32); lia).
  cbn [andb unless bind]. unfold Intel.START_LINEAR_ADDRESS.
  destruct (intel_init_ok 0 5 (be_bytes 4 start)) as [s2 E2];
    [change (2 ^ 32) with 4294967296; lia
    |rewrite len_be_bytes; change (2 ^ 32) with 4294967296; lia
    |lia|].
  rewrite E2. cbn [bind].
  do 3 eexists. split; [reflexivity|]. repeat split.
Qed.

(** C10: under the preconditions of [split] (address and size within 32
    bits, 0 < columns < 255, and a start address, when one is given, within
    32 bits) the generator runs to its end, and every DATA record it yields
    lies within one 64 KiB page: all its bytes, so its first and its last
    one, have the same high sixteen address bits. *)
Theorem intel_split_within_page
  (d : list byte) (a columns : Z) (align standalone : bool)
  (start : option Z) :
  0 <= a < 2 ^ 32 ->
  a + len d <= 2 ^ 32 ->
  0 < columns < 255 ->
  match start with Some s => 0 <= s < 2 ^ 32 | None => True end ->
  exists out,
    Intel.split d a columns align standalone start = Ok out
    /\ Forall (fun r => Intel.is_data r = true -> within_page r) out
    /\ Forall (fun r =>
                 Intel.is_data r = true -> data r <> [] ->
                 page (address r)
                 = page (address r + len (data r) - 1)) out.
Proof.
  intros Ha Hd Hc Hs.
  assert (Hfl : forall out,
             Forall (fun r => Intel.is_data r = true -> within_page r) out ->
             Forall (fun r =>
                       Intel.is_data r = true -> data r <> [] ->
                       page (address r)
                       = page (address r + len (data r) - 1)) out).
  { intros out F. eapply Forall_impl; [|exact F].
    intros r Hr Hdat Hne. cbv beta in Hr. specialize (Hr Hdat).
    apply len_pos in Hne.
    specialize (Hr 0 (len (data r) - 1) ltac:(lia) ltac:(lia)).
    rewrite Z.add_0_r in Hr. rewrite Hr. f_equal. lia. }
  unfold Intel.split, within, between.
  pose proof (len_nonneg d).
  replace (0 <=? a) with true by (symmetry; apply Z.leb_le; lia).
  replace (a <? 2 ^ 32) with true by (symmetry; apply Z.ltb_lt; lia).
  replace (0 <=? a + len d) with true
    by (symmetry; apply Z.leb_le; lia).
  replace (a + len d <=? 2 ^ 32) with true
    by (symmetry; apply Z.leb_le; lia).
  replace (0 <? columns) with true by (symmetry; apply Z.ltb_lt; lia).
  replace (columns <? 255) with true by (symmetry; apply Z.ltb_lt; lia).
  cbn [andb unless bind].
  destruct (chop_split d columns (if align then a mod columns else 0))
    as (chunks & Ech & Hcat & Hle & Hne & _); [lia| |].
  { destruct align; [apply Z.mod_pos_bound|]; lia. }
  rewrite Ech. cbn [bind].
  destruct (intel_split_loop_ok chunks a 0)
    as (rs & pieces & Ers & _ & _ & _ & Hpg);
    [lia|lia|rewrite Hcat; lia| |exact Hne|].
  { eapply Forall_impl; [|exact Hle]. intros c K. cbv beta in K. lia. }
  rewrite Ers. cbn [bind].
  destruct standalone.
  - destruct (intel_terminate_ok
                (match start with Some s => s | None => a end))
      as (r1 & r2 & r3 & Et & N1 & N2 & N3);
      [destruct start; lia|].
    rewrite Et. cbn [bind]. eexists. split; [reflexivity|].
    assert (F : Forall (fun r => Intel.is_data r = true -> within_page r)
                       (rs ++ [r1; r2; r3])).
    { apply Forall_app. split; [exact Hpg|].
      repeat constructor; congruence. }
    split; [exact F|now apply Hfl].
  - eexists. split; [reflexivity|]. split; [exact Hpg|now apply Hfl].
Qed.

Lemma intel_split_within_page_witness :
  exists out,
    Intel.split (repeat "A"%byte 32) 65528 16 false true None = Ok out
    /\ Forall (fun r => Intel.is_data r = true -> within_page r) out
    /\ Forall (fun r =>
                 Intel.is_data r = true -> data r <> [] ->
                 page (address r)
                 = page (address r + len (data r) - 1)) out.
Proof.
  apply (intel_split_within_page (repeat "A"%byte 32) 65528 16 false true None).
  - vm_compute. split; [discriminate|reflexivity].
  - vm_compute. discriminate.
  - lia.
  - exact I.
Defined.



(** ** The merge of blocks: last writer wins *)

Lemma merge_cons (s : Z) (items : list byte) (rest : list block) :
  merge ((s, items) :: rest)
  = match merge rest with
    | (s', items') :: rest' =>
        if s + len items =? s' then (s, items ++ items') :: rest'
        else (s, items) :: (s', items') :: rest'
    | [] => [(s, items)]
    end.
Proof. reflexivity. Qed.


Lemma nth_error_in_range {A : Type} (l : list A) (k : Z) :
  0 <= k < len l -> exists x, nth_error l (Z.to_nat k) = Some x.
Proof.
  intro H. destruct (nth_error l (Z.to_nat k)) eqn:E; [eauto|].
  apply nth_error_None in E. unfold len in H. lia.
Qed.

Lemma nth_error_take {A : Type} (l : list A) (n k : Z) :
  0 <= k < n ->
  nth_error (take n l) (Z.to_nat k) = nth_error l (Z.to_nat k).
Proof.
  intro H. rewrite take_nonneg by lia. rewrite nth_error_firstn.
  now replace (Z.to_nat k <? Z.to_nat n)%nat with true
    by (symmetry; apply Nat.ltb_lt; lia).
Qed.

Lemma nth_error_drop {A : Type} (l : list A) (n k : Z) :
  0 <= n -> 0 <= k ->
  nth_error (drop n l) (Z.to_nat k) = nth_error l (Z.to_nat (n + k)).
Proof.
  intros Hn Hk. rewrite drop_nonneg by lia. rewrite nth_error_skipn.
  f_equal. lia.
Qed.

Lemma byte_at_cons (s : Z) (items : list byte) (rest : list block) (a : Z) :
  byte_at ((s, items) :: rest) a
  = if (s <=? a) && (a <? s + len items)
    then nth_error items (Z.to_nat (a - s))
    else byte_at rest a.
Proof. reflexivity. Qed.

Lemma byte_at_app (xs ys : list block) (a : Z) :
  byte_at (xs ++ ys) a
  = match byte_at xs a with Some v => Some v | None => byte_at ys a end.
Proof.
  induction xs as [|[s items] xs IH]; [reflexivity|].
  cbn [app]. rewrite !byte_at_cons.
  destruct ((s <=? a) && (a <? s + len items)) eqn:E; [|exact IH].
  apply andb_true_iff in E. destruct E as [E1 E2].
  apply Z.leb_le in E1. apply Z.ltb_lt in E2.
  destruct (nth_error_in_range items (a - s)) as [x Hx]; [lia|].
  now rewrite Hx.
Qed.

(** [clear] empties the range and keeps the bytes around it. *)
Lemma byte_at_clear (blocks : list block) (s e a : Z) :
  s <= e ->
  byte_at (clear blocks s e) a
  = if (s <=? a) && (a <? e) then None else byte_at blocks a.
Proof.
  intro Hse. induction blocks as [|[bs items] rest IH].
  - cbn. now destruct ((s <=? a) && (a <? e)).
  - cbn [clear]. rewrite !byte_at_app, IH, byte_at_cons.
    pose proof (len_nonneg items) as Hl.
    match goal with
    | |- context [byte_at (if bs <? s then ?x else ?y) a] =>
        assert (Hbefore :
                  byte_at (if bs <? s then x else y) a
                  = if (bs <=? a) && (a <? Z.min (bs + len items) s)
                    then nth_error items (Z.to_nat (a - bs)) else None)
    end.
    { destruct (bs <? s) eqn:E.
      - apply Z.ltb_lt in E. rewrite byte_at_cons. cbn [byte_at].
        rewrite len_take by lia.
        replace (bs + Z.min (Z.min (bs + len items) s - bs) (len items))
          with (Z.min (bs + len items) s) by lia.
        destruct ((bs <=? a) && (a <? Z.min (bs + len items) s)) eqn:K;
          [|reflexivity].
        apply andb_true_iff in K. destruct K as [K1 K2].
        apply Z.leb_le in K1. apply Z.ltb_lt in K2.
        apply nth_error_take. lia.
      - apply Z.ltb_ge in E. cbn [byte_at].
        destruct ((bs <=? a) && (a <? Z.min (bs + len items) s)) eqn:K;
          [|reflexivity].
        apply andb_true_iff in K. destruct K as [K1 K2].
        apply Z.leb_le in K1. apply Z.ltb_lt in K2. lia. }
    match goal with
    | |- context [byte_at (if e <? bs + len items then ?x else ?y) a] =>
        assert (Hafter :
                  byte_at (if e <? bs + len items then x else y) a
                  = if (Z.max bs e <=? a) && (a <? bs + len items)
                    then nth_error items (Z.to_nat (a - bs)) else None)
    end.
    { destruct (e <? bs + len items) eqn:E.
      - apply Z.ltb_lt in E. rewrite byte_at_cons. cbn [byte_at].
        rewrite len_drop by lia.
        replace (Z.max bs e + Z.max 0 (len items - (Z.max bs e - bs)))
          with (bs + len items) by lia.
        destruct ((Z.max bs e <=? a) && (a <? bs + len items)) eqn:K;
          [|reflexivity].
        apply andb_true_iff in K. destruct K as [K1 K2].
        apply Z.leb_le in K1. apply Z.ltb_lt in K2.
        rewrite nth_error_drop by lia. f_equal. lia.
      - apply Z.ltb_ge in E. cbn [byte_at].
        destruct ((Z.max bs e <=? a) && (a <? bs + len items)) eqn:K;
          [|reflexivity].
        apply andb_true_iff in K. destruct K as [K1 K2].
        apply Z.leb_le in K1. apply Z.ltb_lt in K2. lia. }
    rewrite Hbefore, Hafter. clear Hbefore Hafter IH.
    destruct (Z.le_gt_cases s a) as [L1|L1];
      destruct (Z.lt_ge_cases a e) as [L2|L2];
      destruct (Z.le_gt_cases bs a) as [L3|L3];
      destruct (Z.lt_ge_cases a (bs + len items)) as [L4|L4];
      ztest; cbn [andb]; try reflexivity; try lia.
    all: destruct (nth_error_in_range items (a - bs)) as [x Hx]; [lia|].
    all: now rewrite Hx.
Qed.

Lemma tidy_from_weaken (blocks : list block) (lo lo' : Z) :
  lo' <= lo -> tidy_from lo blocks -> tidy_from lo' blocks.
Proof.
  destruct blocks as [|[s items] rest]; [trivial|].
  cbn [tidy_from]. intros H (H1 & H2 & H3). repeat split; [lia|assumption..].
Qed.

Lemma tidy_from_uncovered (blocks : list block) :
  forall lo a, tidy_from lo blocks -> a < lo -> byte_at blocks a = None.
Proof.
  induction blocks as [|[s items] rest IH]; intros lo a H Ha; [reflexivity|].
  cbn [tidy_from] in H. destruct H as (H1 & H2 & H3).
  rewrite byte_at_cons. ztest. cbn [andb].
  apply (IH (s + len items)); [assumption|].
  pose proof (len_nonneg items). lia.
Qed.

Lemma tidy_clear (blocks : list block) (s e : Z) :
  s <= e ->
  forall lo, tidy_from lo blocks -> tidy_from lo (clear blocks s e).
Proof.
  intro Hse. induction blocks as [|[bs items] rest IH]; intros lo H;
    [exact I|].
  cbn [tidy_from] in H. destruct H as (H1 & H2 & H3).
  apply len_pos in H2 as Hl.
  specialize (IH _ H3).
  cbn [clear].
  destruct (bs <? s) eqn:E1; destruct (e <? bs + len items) eqn:E2;
    cbn [app tidy_from];
    try apply Z.ltb_lt in E1; try apply Z.ltb_ge in E1;
    try apply Z.ltb_lt in E2; try apply Z.ltb_ge in E2.
  - repeat split; try lia.
    + apply len_pos. rewrite len_take by lia. lia.
    + rewrite len_take by lia. lia.
    + apply len_pos. rewrite len_drop by lia. lia.
    + rewrite len_drop by lia.
      replace (Z.max bs e + Z.max 0 (len items - (Z.max bs e - bs)))
        with (bs + len items) by lia.
      exact IH.
  - repeat split; try lia.
    + apply len_pos. rewrite len_take by lia. lia.
    + rewrite len_take by lia.
      eapply tidy_from_weaken; [|exact IH]. lia.
  - repeat split; try lia.
    + apply len_pos. rewrite len_drop by lia. lia.
    + rewrite len_drop by lia.
      replace (Z.max bs e + Z.max 0 (len items - (Z.max bs e - bs)))
        with (bs + len items) by lia.
      exact IH.
  - eapply tidy_from_weaken; [|exact IH]. lia.
Qed.

(** Insertion of a block into a tidy list that leaves its range free. *)
Lemma byte_at_insert (s : Z) (items : list byte) (blocks : list block) (a : Z) :
  (forall x, s <= x < s + len items -> byte_at blocks x = None) ->
  byte_at (insert_block (s, items) blocks) a
  = if (s <=? a) && (a <? s + len items)
    then nth_error items (Z.to_nat (a - s))
    else byte_at blocks a.
Proof.
  induction blocks as [|[bs bitems] rest IH]; intro Hfree; [reflexivity|].
  cbn [insert_block fst]. destruct (s <? bs); [reflexivity|].
  rewrite byte_at_cons.
  destruct ((bs <=? a) && (a <? bs + len bitems)) eqn:E.
  - rewrite byte_at_cons, E.
    destruct ((s <=? a) && (a <? s + len items)) eqn:K; [|reflexivity].
    apply andb_true_iff in K. destruct K as [K1 K2].
    apply Z.leb_le in K1. apply Z.ltb_lt in K2.
    specialize (Hfree a ltac:(lia)). rewrite byte_at_cons, E in Hfree.
    apply andb_true_iff in E. destruct E as [E1 E2].
    apply Z.leb_le in E1. apply Z.ltb_lt in E2.
    destruct (nth_error_in_range bitems (a - bs)) as [x Hx]; [lia|].
    congruence.
  - rewrite IH, byte_at_cons, E; [reflexivity|].
    intros x Hx. specialize (Hfree x Hx). rewrite byte_at_cons in Hfree.
    destruct ((bs <=? x) && (x <? bs + len bitems)) eqn:K; [|exact Hfree].
    apply andb_true_iff in K. destruct K as [K1 K2].
    apply Z.leb_le in K1. apply Z.ltb_lt in K2.
    destruct (nth_error_in_range bitems (x - bs)) as [y Hy]; [lia|].
    congruence.
Qed.

Lemma tidy_insert (s : Z) (items : list byte) (blocks : list block) :
  items <> [] ->
  (forall x, s <= x < s + len items -> byte_at blocks x = None) ->
  forall lo, tidy_from lo blocks ->
             tidy_from (Z.min lo s) (insert_block (s, items) blocks).
Proof.
  intros Hne. apply len_pos in Hne as Hl.
  induction blocks as [|[bs bitems] rest IH]; intros Hfree lo H.
  - cbn. repeat split; [lia|assumption].
  - cbn [tidy_from] in H. destruct H as (H1 & H2 & H3).
    apply len_pos in H2 as Hbl.
    assert (Hcov : forall x, bs <= x < bs + len bitems ->
                             ~ (s <= x < s + len items)).
    { intros x Hx Hs. specialize (Hfree x Hs). rewrite byte_at_cons in Hfree.
      revert Hfree. ztest. cbn [andb].
      destruct (nth_error_in_range bitems (x - bs)) as [y Hy]; [lia|].
      congruence. }
    cbn [insert_block fst]. destruct (s <? bs) eqn:E.
    + apply Z.ltb_lt in E. cbn [tidy_from].
      repeat split; try assumption; try lia.
      destruct (Z.le_gt_cases (s + len items) bs) as [L|L]; [exact L|].
      exfalso. apply (Hcov bs); lia.
    + apply Z.ltb_ge in E. cbn [tidy_from].
      repeat split; try assumption; try lia.
      assert (Hend : bs + len bitems <= s).
      { destruct (Z.le_gt_cases (bs + len bitems) s) as [L|L]; [exact L|].
        exfalso. apply (Hcov s); lia. }
      replace (bs + len bitems) with (Z.min (bs + len bitems) s) by lia.
      apply IH; [|assumption].
      intros x Hx. specialize (Hfree x Hx). rewrite byte_at_cons in Hfree.
      destruct ((bs <=? x) && (x <? bs + len bitems)) eqn:K; [|exact Hfree].
      apply andb_true_iff in K. destruct K as [K1 K2].
      apply Z.leb_le in K1. apply Z.ltb_lt in K2. lia.
Qed.

(** [write]: the block takes its range, the rest is kept. *)
Lemma write_spec (blocks : list block) (s : Z) (items : list byte) (lo : Z) :
  tidy_from lo blocks ->
  tidy_from (Z.min lo s) (write blocks (s, items))
  /\ forall a,
       byte_at (write blocks (s, items)) a
       = if (s <=? a) && (a <? s + len items)
         then nth_error items (Z.to_nat (a - s))
         else byte_at blocks a.
Proof.
  intro H. unfold write, block_endex. cbn [fst snd].
  destruct items as [|x items'] eqn:Ei.
  - split; [eapply tidy_from_weaken; [|exact H]; lia|].
    intro a. rewrite (@len_nil byte).
    destruct ((s <=? a) && (a <? s + 0)) eqn:K; [|reflexivity].
    apply andb_true_iff in K. destruct K as [K1 K2].
    apply Z.leb_le in K1. apply Z.ltb_lt in K2. lia.
  - rewrite <- Ei. assert (Hne : items <> []) by (rewrite Ei; discriminate).
    pose proof (len_nonneg items) as Hl.
    assert (Hfree : forall y, s <= y < s + len items ->
                      byte_at (clear blocks s (s + len items)) y = None).
    { intros y Hy. rewrite byte_at_clear by lia. ztest. reflexivity. }
    split.
    + apply tidy_insert; [assumption|assumption|].
      apply tidy_clear; [lia|assumption].
    + intro a. rewrite byte_at_insert by assumption.
      rewrite byte_at_clear by lia.
      now destruct ((s <=? a) && (a <? s + len items)).
Qed.

Lemma fold_write_spec (writes : list block) :
  forall acc lo,
    tidy_from lo acc ->
    (exists lo', tidy_from lo' (fold_left write writes acc))
    /\ forall a,
         byte_at (fold_left write writes acc) a
         = match last_writer writes a with
           | Some v => Some v
           | None => byte_at acc a
           end.
Proof.
  induction writes as [|[s items] ws IH]; intros acc lo H.
  - split; [now exists lo|reflexivity].
  - cbn [fold_left]. destruct (write_spec acc s items lo H) as [Ht Hb].
    destruct (IH _ _ Ht) as [Ht' Hb']. split; [exact Ht'|].
    intro a. rewrite Hb', Hb. cbn [last_writer].
    destruct (last_writer ws a); [reflexivity|].
    destruct ((s <=? a) && (a <? s + len items)) eqn:K; [|reflexivity].
    apply andb_true_iff in K. destruct K as [K1 K2].
    apply Z.leb_le in K1. apply Z.ltb_lt in K2.
    destruct (nth_error_in_range items (a - s)) as [x Hx]; [lia|].
    now rewrite Hx.
Qed.

Lemma union_concat (blocks_vector : list (list block)) :
  union blocks_vector = fold_left write (List.concat blocks_vector) [].
Proof.
  unfold union. generalize (@nil block) as acc.
  induction blocks_vector as [|b bv IH]; intro acc; [reflexivity|].
  cbn [fold_left List.concat]. now rewrite IH, fold_left_app.
Qed.

Lemma byte_at_merge (blocks : list block) (a : Z) :
  byte_at (merge blocks) a = byte_at blocks a.
Proof.
  induction blocks as [|[s items] rest IH]; [reflexivity|].
  rewrite merge_cons, byte_at_cons, <- IH.
  destruct (merge rest) as [|[s' items'] rest']; [reflexivity|].
  destruct (s + len items =? s') eqn:E; [|reflexivity].
  apply Z.eqb_eq in E. subst s'. rewrite !byte_at_cons, len_app.
  pose proof (len_nonneg items). pose proof (len_nonneg items').
  destruct (Z.le_gt_cases s a) as [L1|L1];
    destruct (Z.lt_ge_cases a (s + len items)) as [L2|L2];
    destruct (Z.lt_ge_cases a (s + len items + len items')) as [L3|L3];
    ztest; cbn [andb]; try reflexivity; try lia.
  - apply nth_error_app1. unfold len in *. lia.
  - rewrite nth_error_app2 by (unfold len in *; lia).
    f_equal. unfold len. lia.
Qed.

Lemma merge_apart (blocks : list block) :
  forall lo, tidy_from lo blocks -> apart_from (lo - 1) (merge blocks).
Proof.
  induction blocks as [|[s items] rest IH]; intros lo H; [exact I|].
  cbn [tidy_from] in H. destruct H as (H1 & H2 & H3).
  specialize (IH _ H3). rewrite merge_cons.
  destruct (merge rest) as [|[s' items'] rest'].
  - cbn. repeat split; [lia|assumption].
  - cbn [apart_from] in IH. destruct IH as (I1 & I2 & I3).
    destruct (s + len items =? s') eqn:E.
    + apply Z.eqb_eq in E. cbn [apart_from]. repeat split; [lia| |].
      * destruct items; [congruence|discriminate].
      * now rewrite len_app, Z.add_assoc, E.
    + apply Z.eqb_neq in E. cbn [apart_from].
      repeat split; try assumption; lia.
Qed.

Lemma apart_from_lower (blocks : list block) :
  forall lo b, apart_from lo blocks -> In b blocks ->
               lo < block_start b /\ snd b <> [].
Proof.
  induction blocks as [|[s items] rest IH]; intros lo b H Hin; [easy|].
  cbn [apart_from] in H. destruct H as (H1 & H2 & H3).
  destruct Hin as [<-|Hin]; [now split|].
  destruct (IH _ _ H3 Hin) as [K1 K2]. split; [|assumption].
  pose proof (len_nonneg items). lia.
Qed.

Lemma apart_sorted (blocks : list block) :
  forall lo, apart_from lo blocks ->
             StronglySorted block_lt blocks
             /\ Forall (fun b => snd b <> []) blocks.
Proof.
  induction blocks as [|[s items] rest IH]; intros lo H;
    [split; constructor|].
  cbn [apart_from] in H. destruct H as (H1 & H2 & H3).
  destruct (IH _ H3) as [S F]. split; [|now constructor].
  constructor; [assumption|].
  apply Forall_forall. intros b Hb.
  destruct (apart_from_lower _ _ _ H3 Hb) as [K _].
  unfold block_lt, block_start, block_endex in *. cbn [fst snd].
  pose proof (len_nonneg items). lia.
Qed.

(** The blocks of [merge(union(...))]: at every address the byte of the
    last write that covers it, in blocks that are sorted and apart. *)
Lemma merge_union_spec (blocks_vector : list (list block)) :
  (forall a, byte_at (merge (union blocks_vector)) a
             = last_writer (List.concat blocks_vector) a)
  /\ StronglySorted block_lt (merge (union blocks_vector))
  /\ Forall (fun b => snd b <> []) (merge (union blocks_vector)).
Proof.
  rewrite union_concat.
  destruct (fold_write_spec (List.concat blocks_vector) [] 0 I)
    as [[lo Ht] Hb].
  split.
  - intro a. rewrite byte_at_merge, Hb.
    now destruct (last_writer (List.concat blocks_vector) a).
  - apply (apart_sorted _ (lo - 1)). now apply merge_apart.
Qed.








(** ** Writing at the end: [union] of one tidy sequence *)

Lemma clear_before (acc : list block) (s e : Z) :
  Forall (fun b => block_endex b <= s /\ snd b <> []) acc -> s <= e ->
  clear acc s e = acc.
Proof.
  intros H Hse. induction acc as [|[bs items] rest IH]; [reflexivity|].
  inversion H as [|? ? [Hb Hn] Hr]; subst.
  unfold block_endex in Hb. cbn [fst snd] in Hb, Hn. apply len_pos in Hn.
  cbn [clear]. ztest. rewrite (IH Hr). cbn [app]. f_equal. f_equal.
  rewrite Z.min_l by lia. rewrite take_nonneg by lia.
  apply firstn_all2. unfold len. lia.
Qed.

Lemma insert_end (acc : list block) (s : Z) (p : list byte) :
  Forall (fun b => block_endex b <= s /\ snd b <> []) acc ->
  insert_block (s, p) acc = acc ++ [(s, p)].
Proof.
  intro H. induction acc as [|[bs items] rest IH]; [reflexivity|].
  inversion H as [|? ? [Hb Hn] Hr]; subst.
  unfold block_endex in Hb. cbn [fst snd] in Hb, Hn. apply len_pos in Hn.
  cbn [insert_block fst]. ztest. now rewrite (IH Hr).
Qed.

Lemma fold_write_tidy (blocks : list block) :
  forall acc lo,
    Forall (fun b => block_endex b <= lo /\ snd b <> []) acc ->
    tidy_from lo blocks ->
    fold_left write blocks acc = acc ++ blocks.
Proof.
  induction blocks as [|[s p] rest IH]; intros acc lo Hacc Ht.
  - cbn. now rewrite app_nil_r.
  - cbn [tidy_from] in Ht. destruct Ht as (H1 & H2 & H3).
    assert (Hacc' : Forall (fun b => block_endex b <= s /\ snd b <> []) acc).
    { eapply Forall_impl; [|exact Hacc]. intros b [K1 K2]. split; [lia|easy]. }
    cbn [fold_left]. unfold write at 2. cbn [fst snd].
    destruct p as [|x p'] eqn:Ep; [congruence|]. rewrite <- Ep in *.
    pose proof (len_nonneg p) as Hl.
    unfold block_endex. cbn [fst snd].
    rewrite clear_before by (assumption || lia). rewrite insert_end by assumption.
    rewrite (IH _ (s + len p)); [now rewrite <- app_assoc| |assumption].
    apply Forall_app. split.
    + eapply Forall_impl; [|exact Hacc']. intros b [K1 K2].
      split; [lia|easy].
    + constructor; [|constructor]. unfold block_endex. cbn [fst snd].
      split; [lia|assumption].
Qed.

Lemma union_tidy (blocks : list block) (lo : Z) :
  tidy_from lo blocks -> union [blocks] = blocks.
Proof.
  intro H. unfold union. cbn [fold_left].
  now rewrite (fold_write_tidy blocks [] lo) by (constructor || assumption).
Qed.

Lemma tidy_chain_app (ps : list (list byte)) :
  forall a lo rest,
    lo <= a -> Forall (fun p => p <> []) ps ->
    tidy_from (a + len (List.concat ps)) rest ->
    tidy_from lo (chain a ps ++ rest).
Proof.
  induction ps as [|p ps IH]; intros a lo rest Hlo Hne Hr.
  - cbn [chain app List.concat] in *. rewrite (@len_nil byte), Z.add_0_r in Hr.
    eapply tidy_from_weaken; [|exact Hr]. exact Hlo.
  - inversion Hne as [|? ? Hp Hps]; subst. cbn [chain app tidy_from].
    split; [exact Hlo|]. split; [exact Hp|].
    apply IH; [lia|assumption|].
    now rewrite len_concat_cons, Z.add_assoc in Hr.
Qed.

Lemma chains_tidy (layout : list (Z * list (list byte))) :
  forall lo,
    apart_from lo (joined layout) ->
    Forall (fun l => Forall (fun p => p <> []) (snd l)) layout ->
    tidy_from lo (chains layout).
Proof.
  induction layout as [|[a ps] rest IH]; intros lo Ha Hne; [exact I|].
  cbn [joined map apart_from fst snd] in Ha. destruct Ha as (H1 & H2 & H3).
  inversion Hne as [|? ? Hp Hr]; subst. cbn [snd] in Hp.
  unfold chains. cbn [flat_map fst snd].
  apply tidy_chain_app; [lia|assumption|].
  apply IH; [|assumption].
  exact H3.
Qed.

(** [merge] joins each chain and keeps apart what is apart. *)
Lemma merge_chain_app (ps : list (list byte)) :
  forall a p rest,
    (forall s' items' rest',
        merge rest = (s', items') :: rest' ->
        a + len (List.concat (p :: ps)) <> s') ->
    merge (chain a (p :: ps) ++ rest)
    = (a, List.concat (p :: ps)) :: merge rest.
Proof.
  induction ps as [|q ps IH]; intros a p rest Hgap.
  - cbn [chain app]. rewrite merge_cons. cbn [List.concat] in *.
    rewrite app_nil_r in *.
    destruct (merge rest) as [|[s' items'] rest'] eqn:E; [reflexivity|].
    specialize (Hgap s' items' rest' eq_refl).
    now replace (a + len p =? s') with false
      by (symmetry; apply Z.eqb_neq; exact Hgap).
  - change (chain a (p :: q :: ps) ++ rest)
      with ((a, p) :: (chain (a + len p) (q :: ps) ++ rest)).
    rewrite merge_cons, IH.
    + rewrite Z.eqb_refl. reflexivity.
    + intros s' items' rest' E. specialize (Hgap s' items' rest' E).
      rewrite len_concat_cons in Hgap. lia.
Qed.

Lemma merge_chain (ps : list (list byte)) :
  forall a p, merge (chain a (p :: ps)) = [(a, List.concat (p :: ps))].
Proof.
  intros a p. rewrite <- (app_nil_r (chain a (p :: ps))).
  rewrite merge_chain_app; [reflexivity|]. intros s' items' rest' E.
  discriminate.
Qed.

Lemma merge_chains (layout : list (Z * list (list byte))) :
  forall lo,
    apart_from lo (joined layout) ->
    merge (chains layout) = joined layout.
Proof.
  induction layout as [|[a ps] rest IH]; intros lo Ha; [reflexivity|].
  cbn [joined map apart_from fst snd] in Ha. destruct Ha as (H1 & H2 & H3).
  fold (joined rest) in H3.
  unfold chains. cbn [flat_map fst snd]. fold (chains rest).
  destruct ps as [|p ps]; [cbn in H2; congruence|].
  rewrite merge_chain_app.
  - rewrite (IH _ H3). reflexivity.
  - intros s' items' rest' E. rewrite (IH _ H3) in E.
    destruct rest as [|[a' ps'] rest'']; [discriminate|].
    cbn [joined map fst snd] in E. injection E as <- _ _.
    cbn [joined map apart_from fst snd] in H3. lia.
Qed.

(** The data records of a sequence are chains of non-empty pieces, whose
    joined blocks are apart: [records_to_blocks] gives the joined blocks. *)
Lemma records_to_blocks_chains {T : RecordType} (records : list record)
  (layout : list (Z * list (list byte))) (lo : Z) :
  map block_of (filter rt_is_data records) = chains layout ->
  apart_from lo (joined layout) ->
  Forall (fun l => Forall (fun p => p <> []) (snd l)) layout ->
  records_to_blocks records = joined layout.
Proof.
  intros Hmap Ha Hne. unfold records_to_blocks, get_data_records.
  rewrite Hmap, (union_tidy _ lo) by now apply chains_tidy.
  now apply (merge_chains layout lo).
Qed.

Lemma records_to_blocks_chain {T : RecordType} (records : list record)
  (a : Z) (pieces : list (list byte)) (d : list byte) :
  map block_of (filter rt_is_data records) = chain a pieces ->
  List.concat pieces = d -> d <> [] ->
  Forall (fun p => p <> []) pieces ->
  records_to_blocks records = [(a, d)].
Proof.
  intros Hmap Hcat Hd Hne.
  rewrite (records_to_blocks_chains records [(a, pieces)] (a - 1)).
  - cbn. now rewrite Hcat.
  - cbn. now rewrite app_nil_r.
  - cbn. rewrite Hcat. repeat split; [lia|assumption].
  - now constructor.
Qed.


(** ** Intel: [split] of a non-empty buffer *)

Lemma intel_split_ok (d : list byte) (a columns : Z) (align standalone : bool) :
  d <> [] -> 0 <= a -> a + len d <= 2 ^ 32 -> 0 < columns < 255 ->
  exists out pieces,
    Intel.split d a columns align standalone None = Ok out
    /\ map block_of (filter Intel.is_data out) = chain a pieces
    /\ List.concat pieces = d
    /\ Forall (fun p => p <> []) pieces.
Proof.
  intros Hd Ha He Hc. apply len_pos in Hd as Hl.
  unfold Intel.split, within, between. ztest. cbn [andb unless bind].
  destruct (chop_split d columns (if align then a mod columns else 0))
    as (chunks & Ech & Hcat & Hle & Hne1 & Hne & _); [lia| |].
  { destruct align; [apply Z.mod_pos_bound|]; lia. }
  specialize (Hne Hd). rewrite Ech. cbn [bind].
  destruct (intel_split_loop_ok chunks a 0)
    as (rs & pieces & Ers & Hmap & Hpc & Hpn & _);
    [lia|lia|rewrite Hcat; lia| |exact Hne1|].
  { eapply Forall_impl; [|exact Hle]. intros c K. cbv beta in K. lia. }
  rewrite Ers. cbn [bind]. destruct standalone.
  - destruct (intel_terminate_ok a) as (r1 & r2 & r3 & Et & N1 & N2 & N3);
      [lia|].
    rewrite Et. cbn [bind]. eexists. exists pieces.
    split; [reflexivity|].
    rewrite filter_app. cbn [filter]. rewrite N1, N2, N3, app_nil_r.
    split; [exact Hmap|]. split; [congruence|auto].
  - eexists. exists pieces. split; [reflexivity|].
    split; [exact Hmap|]. split; [congruence|auto].
Qed.

(** ** MOS: the records [split] builds *)

Lemma mos_split_loop_ok (chunks : list (list byte)) :
  forall a n,
    exists out,
      Mos.split_loop chunks a n = Ok (out, n + len chunks)
      /\ (Forall (fun c => c <> []) chunks ->
          map block_of (filter Mos.is_data out) = chain a chunks).
Proof.
  induction chunks as [|c rest IH]; intros a n.
  - exists []. split; [cbn; now rewrite Z.add_0_r|reflexivity].
  - destruct (IH (a + len c) (n + 1)) as (out & E & H).
    cbn [Mos.split_loop]. rewrite E.
    change (Mos.build_data a c)
      with (Ok (mkRecord a None c (len c)
                  (Some (Mos.compute_checksum (mkRecord a None c (len c) None))))).
    cbn [bind fst snd]. eexists. split.
    + rewrite len_cons. f_equal. f_equal. lia.
    + intro F. inversion F as [|? ? Hc Hr]; subst.
      apply len_pos in Hc. cbn [filter]. unfold Mos.is_data at 1.
      cbn [count]. ztest. cbn [map chain block_of address data].
      now rewrite H.
Qed.

Lemma mos_split_ok (d : list byte) (a columns : Z) (align standalone : bool) :
  d <> [] -> 0 <= a -> a + len d <= 2 ^ 16 -> 0 < columns < 2 ^ 8 ->
  exists out pieces,
    Mos.split d a columns align standalone = Ok out
    /\ map block_of (filter Mos.is_data out) = chain a pieces
    /\ List.concat pieces = d
    /\ Forall (fun p => p <> []) pieces.
Proof.
  intros Hd Ha He Hc. apply len_pos in Hd as Hl.
  unfold Mos.split, within, between. ztest. cbn [andb unless bind].
  destruct (chop_split d columns (if align then a mod columns else 0))
    as (chunks & Ech & Hcat & _ & _ & Hne & _); [lia| |].
  { destruct align; [apply Z.mod_pos_bound|]; lia. }
  specialize (Hne Hd). rewrite Ech. cbn [bind].
  destruct (mos_split_loop_ok chunks a 0) as (out & E & H).
  rewrite E. cbn [bind fst snd]. specialize (H Hne).
  destruct standalone.
  - change (Mos.build_terminator (0 + len chunks))
      with (Ok (mkRecord (0 + len chunks) None [] 0 (Some (0 + len chunks)))).
    cbn [bind]. eexists. exists chunks. split; [reflexivity|].
    rewrite filter_app. cbn [filter]. unfold Mos.is_data at 2. cbn [count].
    cbn [Z.ltb Z.compare]. rewrite app_nil_r. auto.
  - eexists. exists chunks. split; [reflexivity|]. auto.
Qed.

(** ** Motorola: the records [split] builds *)

Lemma motorola_init_ok (a t : Z) (d : list byte) :
  0 <= a < 2 ^ 64 -> 0 <= t <= 9 -> len d <= 250 ->
  exists al s,
    tuple_get Motorola.TAG_TO_ADDRESS_LENGTH t = Ok al
    /\ 0 <= Motorola.or_zero al <= 4
    /\ Motorola.init a (Some t) d Ellipsis
       = Ok (mkRecord a (Some t) d (Motorola.or_zero al + len d + 1) (Some s)).
Proof.
  intros Ha Ht Hd. pose proof (len_nonneg d).
  assert (Hal : exists al,
             tuple_get Motorola.TAG_TO_ADDRESS_LENGTH t = Ok al
             /\ 0 <= Motorola.or_zero al <= 4).
  { assert (K : t = 0 \/ t = 1 \/ t = 2 \/ t = 3 \/ t = 4 \/ t = 5 \/ t = 6
                \/ t = 7 \/ t = 8 \/ t = 9) by lia.
    repeat (destruct K as [->|K]; [eexists; split; [reflexivity|cbn; lia]|]).
    subst. eexists; split; [reflexivity|cbn; lia]. }
  destruct Hal as (al & Eal & Hal). exists al.
  unfold Motorola.init, Motorola.TAG_TYPE, between. ztest.
  cbn [andb bind]. unfold Record_init, Motorola.compute_count.
  cbn [tag data]. rewrite Eal. cbn [bind].
  unfold Motorola.compute_checksum, Motorola.pack_BL, pack_be, within.
  cbn [count address].
  change (256 ^ Z.of_nat 1) with 256. change (256 ^ Z.of_nat 8) with (2 ^ 64).
  ztest. cbn [andb unless bind]. eexists. repeat split; lia.
Qed.

Lemma motorola_is_data_mk (a t : Z) (d : list byte) (c : Z) (s : option Z) :
  Motorola.is_data (mkRecord a (Some t) d c s)
  = ((t =? 1) || (t =? 2) || (t =? 3)).
Proof. reflexivity. Qed.

Lemma motorola_split_loop_ok (t : Z) (chunks : list (list byte)) :
  1 <= t <= 3 ->
  forall a n,
    0 <= a -> a + len (List.concat chunks) <= 2 ^ 32 ->
    Forall (fun c => len c <= 250) chunks ->
    exists out,
      Motorola.split_loop chunks a t n = Ok (out, n + len chunks)
      /\ map block_of (filter Motorola.is_data out) = chain a chunks.
Proof.
  intro Ht. induction chunks as [|c rest IH]; intros a n Ha He Hl.
  - exists []. split; [cbn; now rewrite Z.add_0_r|reflexivity].
  - rewrite len_concat_cons in He. inversion Hl as [|? ? Hc Hr]; subst.
    pose proof (len_nonneg c). pose proof (len_nonneg (List.concat rest)).
    destruct (IH (a + len c) (n + 1)) as (out & E & Hout);
      [lia|lia|assumption|].
    destruct (motorola_init_ok a t c) as (al & s & _ & _ & Ei); [lia|lia|lia|].
    cbn [Motorola.split_loop]. unfold Motorola.build_data. cbn [bind].
    replace (existsb (Z.eqb t) [1; 2; 3]) with true
      by (symmetry; cbn [existsb]; apply orb_true_iff;
          destruct (Z.eq_dec t 1) as [->|]; [now left|right];
          apply orb_true_iff;
          destruct (Z.eq_dec t 2) as [->|]; [now left|right];
          apply orb_true_iff; left; apply Z.eqb_eq; lia).
    cbn [unless bind]. rewrite Ei, E. cbn [bind fst snd].
    eexists. split.
    + rewrite len_cons. f_equal. f_equal. lia.
    + cbn [filter]. rewrite motorola_is_data_mk.
      replace ((t =? 1) || (t =? 2) || (t =? 3)) with true
        by (symmetry; destruct (Z.eq_dec t 1) as [->|]; [reflexivity|];
            destruct (Z.eq_dec t 2) as [->|]; [reflexivity|];
            replace t with 3 by lia; reflexivity).
      cbn [map chain block_of address data]. now rewrite Hout.
Qed.

Lemma motorola_fit_data_tag_ok (endex : Z) :
  0 <= endex <= 2 ^ 32 ->
  exists t, Motorola.fit_data_tag endex = Ok t /\ 1 <= t <= 3.
Proof.
  intro H. unfold Motorola.fit_data_tag, between. ztest. cbn [andb negb].
  destruct (endex <=? 2 ^ 16); [exists 1; split; [reflexivity|lia]|].
  destruct (endex <=? 2 ^ 24); [exists 2; split; [reflexivity|lia]|].
  exists 3; split; [reflexivity|lia].
Qed.

Lemma motorola_build_count_ok (n : Z) :
  0 <= n < 2 ^ 24 ->
  exists r, Motorola.build_count n = Ok r /\ Motorola.is_data r = false.
Proof.
  intro H. unfold Motorola.build_count, Motorola.fit_count_tag, within.
  ztest. cbn [andb negb]. unfold pack_be, within.
  change (256 ^ Z.of_nat 4) with (2 ^ 32).
  destruct (n <? 2 ^ 16); cbn [bind]; ztest; cbn [andb unless bind].
  - destruct (motorola_init_ok 0 5 (drop (7 - Motorola.COUNT_16) (be_bytes 4 n)))
      as (al & s & _ & _ & E); [lia|lia| |].
    { rewrite len_drop by (unfold Motorola.COUNT_16; lia).
      rewrite len_be_bytes. unfold Motorola.COUNT_16. lia. }
    unfold Motorola.COUNT_16 in *. rewrite E. eexists. split; reflexivity.
  - destruct (motorola_init_ok 0 6 (drop (7 - Motorola.COUNT_24) (be_bytes 4 n)))
      as (al & s & _ & _ & E); [lia|lia| |].
    { rewrite len_drop by (unfold Motorola.COUNT_24; lia).
      rewrite len_be_bytes. unfold Motorola.COUNT_24. lia. }
    unfold Motorola.COUNT_24 in *. rewrite E. eexists. split; reflexivity.
Qed.

Lemma motorola_build_count_overflow (n : Z) :
  2 ^ 24 <= n ->
  Motorola.build_count n = Raise (ValueError "count overflow").
Proof.
  intro H. unfold Motorola.build_count, Motorola.fit_count_tag, within.
  ztest. now rewrite andb_false_r.
Qed.

Lemma motorola_build_terminator_ok (start t : Z) :
  0 <= start < 2 ^ 32 -> 1 <= t <= 3 ->
  exists r, Motorola.build_terminator start t = Ok r
            /\ Motorola.is_data r = false.
Proof.
  intros Hs Ht. unfold Motorola.build_terminator.
  assert (K : t = 1 \/ t = 2 \/ t = 3) by lia.
  destruct K as [->|[->| ->]]; cbn [Motorola.tuple_index Motorola.MATCHING_TAG
                                     option_Z_eqb Z.eqb Z.add Pos.eqb bind].
  - destruct (motorola_init_ok start 9 []) as (al & s & _ & _ & E);
      [lia|lia|cbn; lia|].
    cbn in E |- *. rewrite E. eexists. split; reflexivity.
  - destruct (motorola_init_ok start 8 []) as (al & s & _ & _ & E);
      [lia|lia|cbn; lia|].
    cbn in E |- *. rewrite E. eexists. split; reflexivity.
  - destruct (motorola_init_ok start 7 []) as (al & s & _ & _ & E);
      [lia|lia|cbn; lia|].
    cbn in E |- *. rewrite E. eexists. split; reflexivity.
Qed.

(** [split] of Motorola, standalone: it succeeds when the number of data
    records fits a count record, and raises a count overflow otherwise. *)
Lemma motorola_split_cases (d : list byte) (a columns : Z) (align : bool) :
  d <> [] -> 0 <= a -> a + len d <= 2 ^ 32 -> 0 < columns < 128 ->
  let n := ((if align then a mod columns else 0) + len d + columns - 1)
           / columns in
  (n < 2 ^ 24 ->
   exists out pieces,
     Motorola.split d a columns align true None None [] = Ok out
     /\ map block_of (filter Motorola.is_data out) = chain a pieces
     /\ List.concat pieces = d
     /\ Forall (fun p => p <> []) pieces)
  /\ (2 ^ 24 <= n ->
      Motorola.split d a columns align true None None []
      = Raise (ValueError "count overflow")).
Proof.
  intros Hd Ha He Hc n. apply len_pos in Hd as Hl.
  assert (Hn0 : 0 <= n).
  { subst n. apply Z.div_pos; [|lia].
    destruct align; [pose proof (Z.mod_pos_bound a columns)|]; lia. }
  destruct (motorola_fit_data_tag_ok (a + len d)) as (t & Et & Ht); [lia|].
  destruct (chop_split d columns (if align then a mod columns else 0))
    as (chunks & Ech & Hcat & Hle & _ & Hne & Hcnt); [lia| |].
  { destruct align; [apply Z.mod_pos_bound|]; lia. }
  specialize (Hne Hd). specialize (Hcnt Hd). fold n in Hcnt.
  destruct (motorola_split_loop_ok t chunks Ht a 0)
    as (out & Eo & Ho); [lia|rewrite Hcat; lia| |].
  { eapply Forall_impl; [|exact Hle]. intros c K. cbv beta in K. lia. }
  assert (Esplit :
            Motorola.split d a columns align true None None []
            = (c <- Motorola.build_count n ;;
               e <- Motorola.build_terminator a t ;;
               h <- Motorola.build_header [] ;;
               Ok ([h] ++ out ++ [c; e]))).
  { unfold Motorola.split, within, between. ztest. cbn [andb unless bind].
    rewrite Et. cbn [bind].
    change (Motorola.build_header [])
      with (Ok (mkRecord 0 (Some 0) [] 3 (Some 252))).
    cbn [bind]. rewrite Ech. cbn [bind]. rewrite Eo. cbn [bind fst snd].
    rewrite Z.add_0_l, Hcnt.
    destruct (Motorola.build_count n); [|reflexivity]. cbn [bind].
    destruct (Motorola.build_terminator a t); reflexivity. }
  rewrite Esplit. split.
  - intro Hn.
    destruct (motorola_build_count_ok n) as (rc & Ec & Nc); [lia|].
    destruct (motorola_build_terminator_ok a t) as (rt & Er & Nt); [lia|lia|].
    rewrite Ec, Er.
    change (Motorola.build_header [])
      with (Ok (mkRecord 0 (Some 0) [] 3 (Some 252))).
    cbn [bind]. eexists. exists chunks. split; [reflexivity|].
    split; [|auto].
    cbn [app filter]. rewrite motorola_is_data_mk. cbn [Z.eqb orb].
    rewrite filter_app. cbn [filter]. rewrite Nc, Nt.
    now rewrite app_nil_r.
  - intro Hn. now rewrite motorola_build_count_overflow by assumption.
Qed.

(** [split] of Motorola without the framing records. *)
Lemma motorola_split_plain (d : list byte) (a columns : Z) (align : bool) :
  d <> [] -> 0 <= a -> a + len d <= 2 ^ 32 -> 0 < columns < 128 ->
  exists out,
    Motorola.split d a columns align false None None [] = Ok out
    /\ exists pieces,
         map block_of (filter Motorola.is_data out) = chain a pieces
         /\ List.concat pieces = d
         /\ Forall (fun p => p <> []) pieces.
Proof.
  intros Hd Ha He Hc. apply len_pos in Hd as Hl.
  destruct (motorola_fit_data_tag_ok (a + len d)) as (t & Et & Ht); [lia|].
  destruct (chop_split d columns (if align then a mod columns else 0))
    as (chunks & Ech & Hcat & Hle & _ & Hne & _); [lia| |].
  { destruct align; [apply Z.mod_pos_bound|]; lia. }
  specialize (Hne Hd).
  destruct (motorola_split_loop_ok t chunks Ht a 0)
    as (out & Eo & Ho); [lia|rewrite Hcat; lia| |].
  { eapply Forall_impl; [|exact Hle]. intros c K. cbv beta in K. lia. }
  unfold Motorola.split, within, between. ztest. cbn [andb unless bind].
  rewrite Et. cbn [bind]. rewrite Ech. cbn [bind]. rewrite Eo.
  cbn [bind fst snd app]. eexists. split; [reflexivity|].
  exists chunks. auto.
Qed.

(** ** [split] and back to blocks *)

(** C2 (amended): for each of the three record formats, every non-empty
    buffer [d] and every address [a] with [a + len(d)] within the address
    width of the format, [records_to_blocks(list(split(d, address=a)))] is
    [[(a, d)]], provided that for Motorola the data records, 16 bytes each
    from the aligned address on, are fewer than 2^24. *)
Theorem split_records_to_blocks (f : Format) (d : list byte) (a : Z) :
  d <> [] -> 0 <= a -> a + len d <= 2 ^ address_bits f ->
  (f = MotorolaSrec -> (a mod 16 + len d + 15) / 16 < 2 ^ 24) ->
  exists records,
    @rt_split (record_type f) d a default_columns true true = Ok records
    /\ @records_to_blocks (record_type f) records = [(a, d)].
Proof.
  intros Hd Ha He Hm. apply len_pos in Hd as Hl.
  destruct f; cbn [record_type rt_split IntelRecord MotorolaRecord MosRecord
                   address_bits] in *; unfold default_columns.
  - (* Intel *)
    destruct (intel_split_ok d a 16 true true Hd Ha He ltac:(lia))
      as (out & pieces & Es & Hmap & Hcat & Hne).
    exists out. split; [exact Es|].
    now apply (@records_to_blocks_chain IntelRecord out a pieces d).
  - (* Motorola *)
    destruct (motorola_split_cases d a 16 true Hd Ha He ltac:(lia))
      as [Hok _].
    destruct Hok as (out & pieces & Es & Hmap & Hcat & Hne).
    { replace (a mod 16 + len d + 16 - 1) with (a mod 16 + len d + 15) by lia.
      now apply Hm. }
    exists out. split; [exact Es|].
    now apply (@records_to_blocks_chain MotorolaRecord out a pieces d).
  - (* MOS *)
    destruct (mos_split_ok d a 16 true true Hd Ha He ltac:(lia))
      as (out & pieces & Es & Hmap & Hcat & Hne).
    exists out. split; [exact Es|].
    now apply (@records_to_blocks_chain MosRecord out a pieces d).
Qed.

Lemma split_records_to_blocks_witness :
  exists records,
    @rt_split (record_type MotorolaSrec)
              (list_byte_of_string "Hello, World!") 65530
              default_columns true true = Ok records
    /\ @records_to_blocks (record_type MotorolaSrec) records
       = [(65530, list_byte_of_string "Hello, World!")].
Proof.
  apply (split_records_to_blocks MotorolaSrec
           (list_byte_of_string "Hello, World!") 65530).
  - discriminate.
  - lia.
  - vm_compute. discriminate.
  - intros _. vm_compute. reflexivity.
Defined.

Lemma len_repeat {A : Type} (x : A) (n : nat) : len (repeat x n) = Z.of_nat n.
Proof. unfold len. now rewrite repeat_length. Qed.

(** C2 (counterexample): a buffer of 2^28 bytes at address 0 is within the
    32 bits of Motorola, but its [split] needs 2^24 data records and ends
    in a count overflow: there is no record list to fold back. *)
Lemma motorola_split_count_overflow :
  repeat x00 (Z.to_nat (2 ^ 28)) <> []
  /\ 0 + len (repeat x00 (Z.to_nat (2 ^ 28))) <= 2 ^ address_bits MotorolaSrec
  /\ @rt_split (record_type MotorolaSrec) (repeat x00 (Z.to_nat (2 ^ 28))) 0
               default_columns true true
     = Raise (ValueError "count overflow").
Proof.
  assert (Hlen : len (repeat x00 (Z.to_nat (2 ^ 28))) = 2 ^ 28)
    by (rewrite len_repeat; apply Z2Nat.id; lia).
  generalize dependent (repeat x00 (Z.to_nat (2 ^ 28))). intros d Hlen.
  assert (Hd : d <> []) by (apply len_pos; lia).
  split; [exact Hd|]. split; [cbn [address_bits]; lia|].
  cbn [record_type rt_split MotorolaRecord]. unfold default_columns.
  destruct (motorola_split_cases d 0 16 true Hd ltac:(lia) ltac:(lia)
              ltac:(lia)) as [_ Hov].
  apply Hov. rewrite Hlen. vm_compute. discriminate.
Qed.


(** ** From blocks to records and back *)

Lemma Record_init_fields (cc cs : record -> result Z) (a : Z) (t : option Z)
  (d : list byte) (c : checksum_arg) (r : record) :
  Record_init cc cs a t d c = Ok r ->
  address r = a /\ tag r = t /\ data r = d.
Proof.
  unfold Record_init. intro H. apply bind_ok in H. destruct H as (x & _ & H).
  destruct c as [|s].
  - apply bind_ok in H. destruct H as (s & _ & H). injection H as <-. auto.
  - injection H as <-. auto.
Qed.

Lemma intel_init_tag (a t : Z) (d : list byte) (c : checksum_arg) (r : record) :
  Intel.init a (Some t) d c = Ok r -> tag r = Some t.
Proof.
  unfold Intel.init. intro H.
  apply unless_bind_ok in H. destruct H as [_ H].
  apply unless_bind_ok in H. destruct H as [_ H].
  apply bind_ok in H. destruct H as (t' & Ht & H).
  unfold Intel.TAG_TYPE in Ht. destruct (between 0 t 5); [|discriminate].
  injection Ht as <-. now apply Record_init_fields in H.
Qed.

Lemma motorola_init_tag (a t : Z) (d : list byte) (c : checksum_arg)
  (r : record) :
  Motorola.init a (Some t) d c = Ok r -> tag r = Some t.
Proof.
  unfold Motorola.init. intro H.
  apply bind_ok in H. destruct H as (t' & Ht & H).
  unfold Motorola.TAG_TYPE in Ht. destruct (between 0 t 9); [|discriminate].
  injection Ht as <-. now apply Record_init_fields in H.
Qed.

Lemma intel_terminate_inv (start : Z) (t : list record) :
  Intel.terminate start = Ok t ->
  Forall (fun r => Intel.is_data r = false) t.
Proof.
  unfold Intel.terminate. intro H.
  apply bind_ok in H. destruct H as (r1 & H1 & H).
  apply bind_ok in H. destruct H as (r2 & H2 & H).
  apply bind_ok in H. destruct H as (r3 & H3 & H). injection H as <-.
  unfold Intel.build_extended_linear_address in H1.
  apply unless_bind_ok in H1. destruct H1 as [_ H1].
  apply bind_ok in H1. destruct H1 as (d1 & _ & H1).
  apply intel_init_tag in H1.
  unfold Intel.build_start_linear_address in H2.
  apply unless_bind_ok in H2. destruct H2 as [_ H2].
  apply bind_ok in H2. destruct H2 as (d2 & _ & H2).
  apply intel_init_tag in H2.
  apply intel_init_tag in H3.
  repeat constructor; unfold Intel.is_data;
    [rewrite H1|rewrite H2|rewrite H3]; reflexivity.
Qed.

Lemma motorola_build_count_inv (n : Z) (c : record) :
  Motorola.build_count n = Ok c -> Motorola.is_data c = false.
Proof.
  unfold Motorola.build_count. intro H.
  apply bind_ok in H. destruct H as (t & Ht & H).
  apply bind_ok in H. destruct H as (d & _ & H).
  apply motorola_init_tag in H. unfold Motorola.is_data. rewrite H.
  unfold Motorola.fit_count_tag in Ht.
  destruct (negb (within 0 n (2 ^ 24))); [discriminate|].
  destruct (n <? 2 ^ 16); injection Ht as <-; reflexivity.
Qed.

Lemma motorola_build_terminator_inv (start tg : Z) (r : record) :
  Motorola.build_terminator start tg = Ok r -> Motorola.is_data r = false.
Proof.
  unfold Motorola.build_terminator. intro H.
  apply bind_ok in H. destruct H as (i & Hi & H).
  apply motorola_init_tag in H. unfold Motorola.is_data. rewrite H.
  cbn [Motorola.tuple_index Motorola.MATCHING_TAG option_Z_eqb] in Hi.
  destruct (3 =? tg); [injection Hi as <-; reflexivity|].
  destruct (2 =? tg); [injection Hi as <-; reflexivity|].
  destruct (1 =? tg); [injection Hi as <-; reflexivity|discriminate].
Qed.

(** The framing records [build_standalone] adds carry no block. *)
Lemma build_standalone_blocks (f : Format) (recs out : list record) :
  @rt_build_standalone (record_type f) recs = Ok out ->
  @records_to_blocks (record_type f) out
  = @records_to_blocks (record_type f) recs.
Proof.
  destruct f; cbn [record_type rt_build_standalone IntelRecord MotorolaRecord
                   MosRecord]; intro H;
    unfold records_to_blocks, get_data_records;
    cbn [rt_is_data IntelRecord MotorolaRecord MosRecord].
  - unfold Intel.build_standalone in H.
    apply bind_ok in H. destruct H as (start & _ & H).
    apply bind_ok in H. destruct H as (t & Ht & H). injection H as <-.
    apply intel_terminate_inv in Ht. rewrite filter_app.
    replace (filter Intel.is_data t) with (@nil record);
      [now rewrite app_nil_r|].
    symmetry. induction Ht as [|r t Hr Ht IH]; [reflexivity|].
    cbn [filter]. now rewrite Hr.
  - unfold Motorola.build_standalone in H.
    change (Motorola.build_data 0 [] None)
      with (Ok (mkRecord 0 (Some 1) [] 3 (Some 252))) in H.
    cbn [bind] in H.
    apply bind_ok in H. destruct H as (tags & _ & H).
    apply bind_ok in H. destruct H as (h & Hh & H).
    apply bind_ok in H. destruct H as (c & Hc & H).
    apply bind_ok in H. destruct H as (t & Ht & H). injection H as <-.
    apply motorola_build_count_inv in Hc.
    apply motorola_build_terminator_inv in Ht.
    unfold Motorola.build_header in Hh. apply motorola_init_tag in Hh.
    cbn [filter]. unfold Motorola.is_data at 1. rewrite Hh.
    cbn [Z.eqb orb]. rewrite filter_app. cbn [filter]. rewrite Hc, Ht.
    rewrite app_nil_r. destruct recs as [|r recs]; reflexivity.
  - unfold Mos.build_standalone in H.
    apply bind_ok in H. destruct H as (t & Ht & H). injection H as <-.
    change (Mos.build_terminator (len recs))
      with (Ok (mkRecord (len recs) None [] 0 (Some (len recs)))) in Ht.
    injection Ht as <-. rewrite filter_app. cbn [filter].
    unfold Mos.is_data at 2. cbn [count Z.ltb Z.compare].
    now rewrite app_nil_r.
Qed.

(** When [split] goes through for a non-empty block, its data records are a
    chain of non-empty pieces of the block. *)
Lemma split_data_chain (f : Format) (d : list byte) (a : Z)
  (recs : list record) :
  d <> [] ->
  @rt_split (record_type f) d a default_columns true false = Ok recs ->
  exists pieces,
    map block_of (filter (@rt_is_data (record_type f)) recs) = chain a pieces
    /\ List.concat pieces = d
    /\ Forall (fun p => p <> []) pieces.
Proof.
  intros Hd H. unfold default_columns in H.
  destruct f; cbn [record_type rt_split rt_is_data IntelRecord MotorolaRecord
                   MosRecord] in *.
  - assert (Hpre : 0 <= a /\ a + len d <= 2 ^ 32).
    { unfold Intel.split in H.
      apply unless_bind_ok in H. destruct H as [H1 H].
      apply unless_bind_ok in H. destruct H as [H2 _].
      apply within_spec in H1. apply between_spec in H2. lia. }
    destruct (intel_split_ok d a 16 true false Hd (proj1 Hpre) (proj2 Hpre)
                ltac:(lia)) as (out & pieces & Es & K).
    rewrite Es in H. injection H as <-. now exists pieces.
  - assert (Hpre : 0 <= a /\ a + len d <= 2 ^ 32).
    { unfold Motorola.split in H.
      apply unless_bind_ok in H. destruct H as [H1 H].
      apply unless_bind_ok in H. destruct H as [H2 _].
      apply within_spec in H1. apply between_spec in H2. lia. }
    destruct (motorola_split_plain d a 16 true Hd (proj1 Hpre) (proj2 Hpre)
                ltac:(lia)) as (out & Es & K).
    rewrite Es in H. injection H as <-. exact K.
  - assert (Hpre : 0 <= a /\ a + len d <= 2 ^ 16).
    { unfold Mos.split in H.
      apply unless_bind_ok in H. destruct H as [H1 H].
      apply unless_bind_ok in H. destruct H as [H2 _].
      apply within_spec in H1. apply between_spec in H2. lia. }
    destruct (mos_split_ok d a 16 true false Hd (proj1 Hpre) (proj2 Hpre)
                ltac:(lia)) as (out & pieces & Es & K).
    rewrite Es in H. injection H as <-. now exists pieces.
Qed.

Lemma split_blocks_chains (f : Format) (blocks : list block) :
  Forall (fun b => snd b <> []) blocks ->
  forall recs,
    @split_blocks (record_type f) blocks = Ok recs ->
    exists layout,
      map block_of (filter (@rt_is_data (record_type f)) recs) = chains layout
      /\ joined layout = blocks
      /\ Forall (fun l => Forall (fun p => p <> []) (snd l)) layout.
Proof.
  induction blocks as [|[start items] rest IH]; intros Hne recs H.
  - injection H as <-. exists []. repeat split. constructor.
  - inversion Hne as [|? ? Hi Hr]; subst. cbn [snd] in Hi.
    cbn [split_blocks] in H.
    apply bind_ok in H. destruct H as (records & Hs & H).
    apply bind_ok in H. destruct H as (more & Hm & H). injection H as <-.
    destruct (split_data_chain f items start records Hi Hs)
      as (pieces & Hmap & Hcat & Hp).
    destruct (IH Hr more Hm) as (layout & Lmap & Ljoin & Lne).
    exists ((start, pieces) :: layout). split; [|split].
    + rewrite filter_app, map_app, Hmap, Lmap. reflexivity.
    + cbn [joined map fst snd]. fold (joined layout).
      now rewrite Hcat, Ljoin.
    + now constructor.
Qed.

(** The blocks of the records that [merge_records] returns are the merged
    blocks. *)
Lemma merge_records_blocks (f : Format) (data_records : list (list record))
  (out : list record) :
  @merge_records (record_type f) data_records = Ok out ->
  @records_to_blocks (record_type f) out = merged_blocks data_records.
Proof.
  unfold merge_records, blocks_to_records. intro H.
  apply bind_ok in H. destruct H as (recs & Hs & Hb).
  rewrite (build_standalone_blocks f recs out Hb).
  destruct (merge_union_spec (map (map block_of) data_records))
    as (_ & _ & Hne).
  fold (merged_blocks data_records) in Hne.
  destruct (split_blocks_chains f _ Hne recs Hs) as (layout & Lmap & Ljoin & Lne).
  rewrite <- Ljoin.
  assert (Hap : exists lo, apart_from lo (joined layout)).
  { rewrite Ljoin. unfold merged_blocks. rewrite union_concat.
    destruct (fold_write_spec
                (List.concat (map (map block_of) data_records)) [] 0 I)
      as [[lo Ht] _].
    exists (lo - 1). now apply merge_apart. }
  destruct Hap as [lo Hap].
  now apply (@records_to_blocks_chains (record_type f) recs layout lo).
Qed.


(** ** Hexadecimal text *)

Lemma hex_upper_facts (d : Z) :
  0 <= d < 16 ->
  hex_value (hex_upper d) = Some d
  /\ is_hex (hex_upper d) = true
  /\ is_space (hex_upper d) = false.
Proof.
  intro H.
  assert (K : d = 0 \/ d = 1 \/ d = 2 \/ d = 3 \/ d = 4 \/ d = 5 \/ d = 6
              \/ d = 7 \/ d = 8 \/ d = 9 \/ d = 10 \/ d = 11 \/ d = 12
              \/ d = 13 \/ d = 14 \/ d = 15) by lia.
  repeat (destruct K as [->|K]; [repeat split|]).
  subst. repeat split.
Qed.

Lemma mod16_range (n : Z) : 0 <= n mod 16 < 16.
Proof. apply Z.mod_pos_bound. lia. Qed.

Lemma len_hex_fixed (k : nat) (n : Z) : len (hex_fixed k n) = Z.of_nat k.
Proof.
  revert n. induction k as [|k IH]; intro n; [reflexivity|].
  cbn [hex_fixed]. rewrite len_app, IH, len_cons, (@len_nil ascii). lia.
Qed.

Lemma hex_fixed_all_hex (k : nat) (n : Z) :
  forallb is_hex (hex_fixed k n) = true.
Proof.
  revert n. induction k as [|k IH]; intro n; [reflexivity|].
  cbn [hex_fixed]. rewrite forallb_app, IH. cbn [forallb andb].
  destruct (hex_upper_facts (n mod 16) (mod16_range n)) as (_ & -> & _).
  reflexivity.
Qed.

Lemma hex_fixed_app (j k : nat) (n : Z) :
  hex_fixed (j + k) n
  = hex_fixed j (n / 16 ^ Z.of_nat k) ++ hex_fixed k n.
Proof.
  revert n. induction k as [|k IH]; intro n.
  - rewrite Nat.add_0_r. cbn [hex_fixed]. rewrite app_nil_r.
    change (16 ^ Z.of_nat 0) with 1. now rewrite Z.div_1_r.
  - rewrite Nat.add_succ_r. cbn [hex_fixed]. rewrite IH, <- app_assoc.
    f_equal. f_equal. rewrite Z.div_div by lia. f_equal.
    rewrite Nat2Z.inj_succ, Z.pow_succ_r by lia. reflexivity.
Qed.

Lemma int16_fold_fixed (k : nat) :
  forall (n acc : Z),
    fold_left int16_step (hex_fixed k n) (Ok acc)
    = Ok (acc * 16 ^ Z.of_nat k + n mod 16 ^ Z.of_nat k).
Proof.
  induction k as [|k IH]; intros n acc.
  - cbn [hex_fixed fold_left]. change (16 ^ Z.of_nat 0) with 1.
    rewrite Z.mod_1_r. f_equal. lia.
  - cbn [hex_fixed]. rewrite fold_left_app, IH. cbn [fold_left].
    unfold int16_step at 1. cbn [bind].
    destruct (hex_upper_facts (n mod 16) (mod16_range n)) as (-> & _ & _).
    f_equal. rewrite Nat2Z.inj_succ, Z.pow_succ_r by lia.
    rewrite (Z.rem_mul_r n 16 (16 ^ Z.of_nat k)) by lia. ring.
Qed.

Lemma int16_fixed (k : nat) (n : Z) :
  (0 < k)%nat -> 0 <= n < 16 ^ Z.of_nat k ->
  int16 (hex_fixed k n) = Ok n.
Proof.
  intros Hk Hn. unfold int16.
  destruct (hex_fixed k n) eqn:E.
  - apply (f_equal len) in E. rewrite len_hex_fixed, (@len_nil ascii) in E. lia.
  - rewrite <- E. rewrite int16_fold_fixed. f_equal. rewrite Z.mod_small by lia. lia.
Qed.

Lemma int16_zero_fixed (k : nat) (n : Z) :
  0 <= n < 16 ^ Z.of_nat k ->
  int16 ("0"%char :: hex_fixed k n) = Ok n.
Proof.
  intro Hn. unfold int16.
  change (fold_left int16_step ("0"%char :: hex_fixed k n) (Ok 0))
    with (fold_left int16_step (hex_fixed k n) (Ok 0)).
  rewrite int16_fold_fixed. f_equal. rewrite Z.mod_small by lia. lia.
Qed.

Lemma format_X_fixed (w : nat) (n : Z) :
  (0 < w)%nat -> 0 <= n < 16 ^ Z.of_nat w -> format_X w n = hex_fixed w n.
Proof.
  intros Hw Hn. unfold format_X. ztest. f_equal.
  unfold hex_width. destruct (n =? 0) eqn:E; [lia|].
  apply Z.eqb_neq in E.
  assert (Z.log2 n < 4 * Z.of_nat w).
  { apply Z.log2_lt_pow2; [lia|].
    rewrite Z.pow_mul_r by lia. exact (proj2 Hn). }
  pose proof (Z.log2_nonneg n).
  assert (Z.log2 n / 4 < Z.of_nat w)
    by (apply Z.div_lt_upper_bound; lia).
  pose proof (Z.div_pos (Z.log2 n) 4 ltac:(lia) ltac:(lia)). lia.
Qed.

Lemma byte_val_range (b : byte) : 0 <= byte_val b < 256.
Proof.
  unfold byte_val. pose proof (Byte.to_N_bounded b). lia.
Qed.

Lemma byte_of_val (b : byte) : byte_of_Z (byte_val b) = b.
Proof.
  unfold byte_of_Z, byte_val. rewrite N2Z.id. now rewrite Byte.of_to_N.
Qed.

Lemma len_hexlify (d : list byte) : len (hexlify d) = 2 * len d.
Proof.
  induction d as [|b d IH]; [reflexivity|].
  unfold hexlify in *. cbn [flat_map]. rewrite len_app, IH, len_hex_fixed.
  rewrite len_cons. lia.
Qed.

Lemma hexlify_all_hex (d : list byte) : forallb is_hex (hexlify d) = true.
Proof.
  induction d as [|b d IH]; [reflexivity|].
  unfold hexlify in *. cbn [flat_map].
  now rewrite forallb_app, IH, hex_fixed_all_hex.
Qed.

Lemma hexlify_cons (b : byte) (d : list byte) :
  hexlify (b :: d)
  = hex_upper ((byte_val b / 16) mod 16)
      :: hex_upper (byte_val b mod 16) :: hexlify d.
Proof. reflexivity. Qed.

Lemma unhexlify_hexlify (d : list byte) : unhexlify (hexlify d) = Ok d.
Proof.
  induction d as [|b d IH]; [reflexivity|].
  rewrite hexlify_cons. cbn [unhexlify].
  destruct (hex_upper_facts ((byte_val b / 16) mod 16) (mod16_range _))
    as (-> & _ & _).
  destruct (hex_upper_facts (byte_val b mod 16) (mod16_range _))
    as (-> & _ & _).
  rewrite IH. cbn [bind]. f_equal. f_equal.
  pose proof (byte_val_range b) as R.
  replace (16 * ((byte_val b / 16) mod 16) + byte_val b mod 16)
    with (byte_val b); [apply byte_of_val|].
  rewrite (Z.mod_small (byte_val b / 16))
    by (split; [apply Z.div_pos; lia|apply Z.div_lt_upper_bound; lia]).
  apply Z.div_mod. lia.
Qed.


(** ** Lines: [strip] and slices *)

Lemma strip_id (c h : ascii) (mid : text) :
  is_space c = false -> is_space h = false ->
  strip (c :: mid ++ [h]) = c :: mid ++ [h].
Proof.
  intros Hc Hh. unfold strip. cbn [lstrip]. rewrite Hc.
  change (c :: mid ++ [h]) with ((c :: mid) ++ [h]).
  rewrite rev_app_distr. cbn [rev app lstrip]. rewrite Hh.
  change (h :: rev mid ++ [c]) with ([h] ++ rev (c :: mid)).
  rewrite rev_app_distr, rev_involutive. reflexivity.
Qed.

Lemma strip_hex_line (c : ascii) (pre : text) (k : nat) (n : Z) :
  is_space c = false ->
  strip (c :: pre ++ hex_fixed (S k) n) = c :: pre ++ hex_fixed (S k) n.
Proof.
  intro Hc. cbn [hex_fixed]. rewrite app_assoc. apply strip_id; [exact Hc|].
  now destruct (hex_upper_facts (n mod 16) (mod16_range n)) as (_ & _ & ->).
Qed.

Lemma norm_index_in {A : Type} (v : list A) (i : Z) :
  0 <= i <= len v -> norm_index v i = Z.to_nat i.
Proof.
  intro H. rewrite norm_index_nonneg by lia. unfold len in H. lia.
Qed.

Lemma norm_index_neg {A : Type} (v : list A) (i : Z) :
  - len v <= i < 0 -> norm_index v i = Z.to_nat (len v + i).
Proof.
  intro H. unfold norm_index. ztest. f_equal. lia.
Qed.

Lemma firstn_length_app {A : Type} (x y : list A) :
  firstn (List.length x) (x ++ y) = x.
Proof.
  rewrite firstn_app, Nat.sub_diag, firstn_all. cbn. apply app_nil_r.
Qed.

Lemma skipn_length_app {A : Type} (x y : list A) :
  skipn (List.length x) (x ++ y) = y.
Proof.
  rewrite skipn_app, Nat.sub_diag, skipn_all. reflexivity.
Qed.

(** The slice that cuts one field out of a line. *)
Lemma slice_field {A : Type} (pre x post v : list A) (i j : Z) :
  v = pre ++ x ++ post -> i = len pre -> j = len pre + len x ->
  slice i j v = x.
Proof.
  intros -> -> ->. unfold slice.
  pose proof (len_nonneg pre). pose proof (len_nonneg x).
  pose proof (len_nonneg post).
  rewrite !norm_index_in by (rewrite !len_app; lia).
  replace (Z.to_nat (len pre)) with (List.length pre) by (unfold len; lia).
  replace (Z.to_nat (len pre + len x) - List.length pre)%nat
    with (List.length x) by (unfold len; lia).
  now rewrite skipn_length_app, firstn_length_app.
Qed.

Lemma slice_field_neg {A : Type} (pre x post v : list A) (i j : Z) :
  v = pre ++ x ++ post -> i = len pre -> j = - len post -> j < 0 ->
  slice i j v = x.
Proof.
  intros -> -> -> Hj. unfold slice.
  pose proof (len_nonneg pre). pose proof (len_nonneg x).
  rewrite (norm_index_in _ (len pre)) by (rewrite !len_app; lia).
  rewrite norm_index_neg by (rewrite !len_app; lia).
  replace (Z.to_nat (len pre)) with (List.length pre) by (unfold len; lia).
  replace (Z.to_nat (len (pre ++ x ++ post) + - len post) - List.length pre)%nat
    with (List.length x) by (rewrite !len_app; unfold len; lia).
  now rewrite skipn_length_app, firstn_length_app.
Qed.

Lemma drop_field_neg {A : Type} (pre post v : list A) (j : Z) :
  v = pre ++ post -> j = - len post -> j < 0 -> drop j v = post.
Proof.
  intros -> -> Hj. unfold drop. pose proof (len_nonneg pre).
  rewrite norm_index_neg by (rewrite !len_app; lia).
  replace (Z.to_nat (len (pre ++ post) + - len post))
    with (List.length pre) by (rewrite !len_app; unfold len; lia).
  apply skipn_length_app.
Qed.

(** ** From a passed [check] to the fields of the record *)

Lemma land_255_range (x : Z) : 0 <= Z.land x 255 <= 255.
Proof.
  change 255 with (Z.ones 8). rewrite Z.land_ones by lia.
  change (Z.ones 8) with 255. change (2 ^ 8) with 256.
  pose proof (Z.mod_pos_bound x 256 ltac:(lia)). lia.
Qed.

Lemma lxor_255_range (x : Z) : 0 <= x <= 255 -> 0 <= Z.lxor x 255 <= 255.
Proof.
  intro H. assert (N : 0 <= Z.lxor x 255) by (apply Z.lxor_nonneg; lia).
  split; [exact N|].
  destruct (Z.eq_dec (Z.lxor x 255) 0) as [->|Hz]; [lia|].
  assert (L : Z.log2 (Z.lxor x 255) < 8).
  { eapply Z.le_lt_trans; [apply Z.log2_lxor; lia|].
    apply Z.max_lub_lt.
    - destruct (Z.eq_dec x 0) as [->|]; [cbn; lia|].
      apply Z.log2_lt_pow2; lia.
    - cbn. lia. }
  apply Z.log2_lt_pow2 in L; lia.
Qed.

(** ** MOS: round trip of a line *)

Lemma mos_check_facts (r : record) :
  Mos.check r = Ok tt ->
  0 <= address r < 2 ^ 16
  /\ tag r = None
  /\ count r = len (data r)
  /\ len (data r) < 256
  /\ exists s,
       get_checksum (fun r => Ok (Mos.compute_checksum r)) r = Ok s
       /\ 0 <= s < 2 ^ 16.
Proof.
  unfold Mos.check. intro H.
  apply unless_bind_ok in H. destruct H as [Ha H]. apply within_spec in Ha.
  apply unless_bind_ok in H. destruct H as [Ht H].
  apply unless_bind_ok in H. destruct H as [Hc H]. apply within_spec in Hc.
  apply unless_bind_ok in H. destruct H as [Hl H]. apply Z.eqb_eq in Hl.
  split; [exact Ha|]. split; [now destruct (tag r)|].
  split; [exact Hl|]. split; [change (2 ^ 8) with 256 in Hc; lia|].
  unfold get_checksum. destruct (checksum r) as [s|].
  - apply unless_bind_ok in H. destruct H as [Hs _]. apply within_spec in Hs.
    now exists s.
  - eexists. split; [reflexivity|]. unfold Mos.compute_checksum.
    destruct (negb (count r =? 0)); [|exact Ha].
    change 65535 with (Z.ones 16). rewrite Z.land_ones by lia.
    apply Z.mod_pos_bound. reflexivity.
Qed.

Lemma mos_regex_fields (f1 f2 f3 f4 : text) (m : Z) :
  len f1 = 2 -> len f2 = 4 -> len f3 = 2 * m -> 0 <= m <= 255 ->
  len f4 = 4 ->
  forallb is_hex (f1 ++ f2 ++ f3 ++ f4) = true ->
  Mos.regex_match (";"%char :: f1 ++ f2 ++ f3 ++ f4) = Some (f1, f2, f3, f4).
Proof.
  intros H1 H2 H3 Hm H4 Hhex. unfold Mos.regex_match.
  set (rest := f1 ++ f2 ++ f3 ++ f4) in *.
  assert (Hn : len rest = 2 * m + 10)
    by (subst rest; rewrite !len_app; lia).
  rewrite Hhex, Hn.
  change (code ";"%char =? 59) with true.
  replace ((2 * m + 10) mod 2) with 0 by (Z.div_mod_to_equations; lia).
  replace ((2 * m + 10 - 10) / 2) with m by (Z.div_mod_to_equations; lia).
  ztest. cbn [andb].
  rewrite (slice_field [] f1 (f2 ++ f3 ++ f4) rest 0 2)
    by (reflexivity || (rewrite ?(@len_nil ascii); lia)).
  rewrite (slice_field f1 f2 (f3 ++ f4) rest 2 6) by (reflexivity || lia).
  rewrite (slice_field (f1 ++ f2) f3 f4 rest 6 (2 * m + 10 - 4))
    by ((subst rest; now rewrite <- !app_assoc) || (rewrite ?len_app; lia)).
  rewrite (slice_field (f1 ++ f2 ++ f3) f4 [] rest (2 * m + 10 - 4)
                       (2 * m + 10))
    by ((subst rest; now rewrite <- !app_assoc, app_nil_r)
        || (rewrite ?len_app; lia)).
  reflexivity.
Qed.

Lemma mos_roundtrip (r : record) :
  Mos.check r = Ok tt ->
  exists line r',
    Mos.marshal r = Ok line
    /\ Mos.parse_record line = Ok r'
    /\ address r' = address r /\ tag r' = tag r /\ data r' = data r.
Proof.
  intro H. destruct (mos_check_facts r H) as (Ha & Ht & Hc & Hl & s & Es & Hs).
  pose proof (len_nonneg (data r)) as Hd.
  unfold Mos.marshal. rewrite Es. cbn [bind].
  rewrite Hc.
  rewrite (format_X_fixed 2 (len (data r)))
    by (lia || (change (16 ^ Z.of_nat 2) with 256; lia)).
  rewrite !(format_X_fixed 4)
    by (lia || (change (16 ^ Z.of_nat 4) with (2 ^ 16); lia)).
  eexists. eexists. split; [reflexivity|].
  unfold Mos.parse_record. change (lit ";") with [";"%char]. cbn [app].
  rewrite (app_assoc (hex_fixed 2 _)), (app_assoc (_ ++ _)).
  rewrite strip_hex_line by reflexivity. rewrite <- !app_assoc.
  rewrite (mos_regex_fields _ _ _ _ (len (data r)));
    [|apply len_hex_fixed|apply len_hex_fixed|apply len_hexlify|lia
     |apply len_hex_fixed
     |now rewrite !forallb_app, !hex_fixed_all_hex, hexlify_all_hex].
  rewrite !int16_fixed
    by (lia || (change (16 ^ Z.of_nat 2) with 256; lia)
        || (change (16 ^ Z.of_nat 4) with (2 ^ 16); lia)).
  cbn [bind]. rewrite unhexlify_hexlify. cbn [bind].
  rewrite Z.eqb_refl. cbn [unless bind].
  unfold Mos.init, Record_init, Mos.compute_count. cbn [bind].
  split; [reflexivity|]. cbn [address tag data]. now rewrite Ht.
Qed.

(** ** Intel: round trip of a line *)

Lemma intel_compute_checksum_range (r : record) (t : Z) :
  tag r = Some t ->
  exists s, Intel.compute_checksum r = Ok s /\ 0 <= s <= 255.
Proof.
  intro Ht. unfold Intel.compute_checksum. rewrite Ht.
  unfold pack_be, within. rewrite land_ffff.
  pose proof (Z.mod_pos_bound (address r) 65536 ltac:(lia)).
  change (256 ^ Z.of_nat 2) with 65536. ztest. cbn [andb unless bind].
  eexists. split; [reflexivity|]. apply land_255_range.
Qed.

Lemma intel_check_facts (r : record) :
  Intel.check r = Ok tt ->
  0 <= address r
  /\ exists t,
       tag r = Some t /\ 0 <= t <= 5
       /\ len (data r) <= 255
       /\ exists s,
            get_checksum Intel.compute_checksum r = Ok s /\ 0 <= s <= 255.
Proof.
  unfold Intel.check. intro H.
  apply bind_ok in H. destruct H as ([] & Hb & H).
  apply bind_ok in H. destruct H as (c & Hc & H).
  unfold Intel.compute_count in Hc. injection Hc as <-.
  apply unless_bind_ok in H. destruct H as [Hl H]. apply Z.eqb_eq in Hl.
  apply bind_ok in H. destruct H as (t' & Ht' & _).
  unfold Record_check in Hb.
  apply unless_bind_ok in Hb. destruct Hb as [Ha Hb]. apply Z.leb_le in Ha.
  split; [exact Ha|].
  destruct (tag r) as [t|] eqn:Et; [|discriminate]. exists t.
  split; [reflexivity|].
  unfold Intel.TAG_TYPE in Ht'.
  destruct (between 0 t 5) eqn:Bt; [|discriminate]. apply between_spec in Bt.
  split; [exact Bt|].
  apply unless_bind_ok in Hb. destruct Hb as [_ Hb].
  apply unless_bind_ok in Hb. destruct Hb as [Hcnt Hb].
  apply between_spec in Hcnt. split; [lia|].
  unfold get_checksum. destruct (checksum r) as [s|].
  - apply unless_bind_ok in Hb. destruct Hb as [Hs _].
    apply between_spec in Hs. now exists s.
  - now apply (intel_compute_checksum_range r t).
Qed.

Lemma intel_regex_fields (f1 f2 f3 f4 f5 : text) (m : Z) :
  len f1 = 2 -> len f2 = 4 -> len f3 = 2 -> len f4 = 2 * m ->
  0 <= m <= 255 -> len f5 = 2 ->
  forallb is_hex (f1 ++ f2 ++ f3 ++ f4 ++ f5) = true ->
  Intel.regex_match (":"%char :: f1 ++ f2 ++ f3 ++ f4 ++ f5)
  = Some (f1, f2, f3, f4, f5).
Proof.
  intros H1 H2 H3 H4 Hm H5 Hhex. unfold Intel.regex_match.
  set (rest := f1 ++ f2 ++ f3 ++ f4 ++ f5) in *.
  assert (Hn : len rest = 2 * m + 10)
    by (subst rest; rewrite !len_app; lia).
  rewrite Hhex, Hn.
  change (code ":"%char =? 58) with true.
  replace ((2 * m + 10) mod 2) with 0 by (Z.div_mod_to_equations; lia).
  replace ((2 * m + 10 - 10) / 2) with m by (Z.div_mod_to_equations; lia).
  ztest. cbn [andb].
  rewrite (slice_field [] f1 (f2 ++ f3 ++ f4 ++ f5) rest 0 2)
    by (reflexivity || (rewrite ?(@len_nil ascii); lia)).
  rewrite (slice_field f1 f2 (f3 ++ f4 ++ f5) rest 2 6)
    by (reflexivity || lia).
  rewrite (slice_field (f1 ++ f2) f3 (f4 ++ f5) rest 6 8)
    by ((subst rest; now rewrite <- !app_assoc) || (rewrite ?len_app; lia)).
  rewrite (slice_field (f1 ++ f2 ++ f3) f4 f5 rest 8 (2 * m + 10 - 2))
    by ((subst rest; now rewrite <- !app_assoc) || (rewrite ?len_app; lia)).
  rewrite (slice_field (f1 ++ f2 ++ f3 ++ f4) f5 [] rest (2 * m + 10 - 2)
                       (2 * m + 10))
    by ((subst rest; now rewrite <- !app_assoc, app_nil_r)
        || (rewrite ?len_app; lia)).
  reflexivity.
Qed.

Lemma intel_tag_type_ok (t : Z) :
  0 <= t <= 5 -> Intel.TAG_TYPE (Some t) = Ok t.
Proof.
  intro H. unfold Intel.TAG_TYPE.
  now rewrite (proj2 (between_spec 0 t 5) H).
Qed.

(** The parsed record has the low sixteen bits of the address. *)
Lemma intel_roundtrip (r : record) :
  Intel.check r = Ok tt ->
  exists line r',
    Intel.marshal r = Ok line
    /\ Intel.parse_record line = Ok r'
    /\ address r' = address r mod 2 ^ 16
    /\ tag r' = tag r /\ data r' = data r.
Proof.
  intro H.
  destruct (intel_check_facts r H) as (Ha & t & Et & Ht & Hl & s & Es & Hs).
  pose proof (len_nonneg (data r)) as Hd.
  pose proof (Z.mod_pos_bound (address r) 65536 ltac:(lia)) as Hm.
  unfold Intel.marshal. rewrite H, Et. cbn [bind]. rewrite Es. cbn [bind].
  rewrite land_ffff.
  rewrite !(format_X_fixed 2)
    by (lia || (change (16 ^ Z.of_nat 2) with 256; lia)).
  rewrite (format_X_fixed 4)
    by (lia || (change (16 ^ Z.of_nat 4) with 65536; lia)).
  eexists. eexists. split; [reflexivity|].
  unfold Intel.parse_record. change (lit ":") with [":"%char]. cbn [app].
  rewrite (app_assoc (hex_fixed 2 _)), (app_assoc (_ ++ _)),
    (app_assoc ((_ ++ _) ++ _)).
  rewrite strip_hex_line by reflexivity. rewrite <- !app_assoc.
  rewrite (intel_regex_fields _ _ _ _ _ (len (data r)));
    [|apply len_hex_fixed|apply len_hex_fixed|apply len_hex_fixed
     |apply len_hexlify|lia|apply len_hex_fixed
     |now rewrite !forallb_app, !hex_fixed_all_hex, hexlify_all_hex].
  rewrite !int16_fixed
    by (lia || (change (16 ^ Z.of_nat 2) with 256; lia)
        || (change (16 ^ Z.of_nat 4) with 65536; lia)).
  cbn [bind]. rewrite intel_tag_type_ok by exact Ht. cbn [bind].
  rewrite unhexlify_hexlify. cbn [bind].
  rewrite Z.eqb_refl. cbn [unless bind].
  unfold Intel.init, within, between.
  change (2 ^ 32) with 4294967296. ztest. cbn [andb unless bind].
  rewrite intel_tag_type_ok by exact Ht. cbn [bind].
  unfold Record_init, Intel.compute_count. cbn [bind].
  split; [reflexivity|]. cbn [address tag data]. repeat split.
Qed.

(** ** Motorola: round trip of a line *)

Lemma motorola_tag_facts (t : Z) :
  0 <= t <= 9 ->
  exists al c,
    tuple_get Motorola.TAG_TO_ADDRESS_LENGTH t = Ok al
    /\ (al = None \/ al = Some 2 \/ al = Some 3 \/ al = Some 4)
    /\ format_d t = [c]
    /\ code c - 48 = t
    /\ is_digit c = true.
Proof.
  intro H.
  assert (K : t = 0 \/ t = 1 \/ t = 2 \/ t = 3 \/ t = 4 \/ t = 5 \/ t = 6
              \/ t = 7 \/ t = 8 \/ t = 9) by lia.
  repeat (destruct K as [->|K];
          [do 2 eexists; split; [reflexivity|]; split; [tauto|];
           split; [reflexivity|]; split; reflexivity|]).
  subst. do 2 eexists. split; [reflexivity|]. split; [tauto|].
  split; [reflexivity|]. split; reflexivity.
Qed.

Lemma length_hex_fixed (k : nat) (n : Z) : List.length (hex_fixed k n) = k.
Proof. pose proof (len_hex_fixed k n) as H. unfold len in H. lia. Qed.

Lemma drop_hex_fixed (j k : nat) (n : Z) :
  drop (Z.of_nat j) (hex_fixed (j + k) n) = hex_fixed k n.
Proof.
  rewrite hex_fixed_app, drop_nonneg by lia. rewrite Nat2Z.id.
  rewrite <- (length_hex_fixed j (n / 16 ^ Z.of_nat k)) at 1.
  apply skipn_length_app.
Qed.

Lemma motorola_address_text (al : option Z) (a : Z) :
  al = None \/ al = Some 2 \/ al = Some 3 \/ al = Some 4 ->
  0 <= a < 2 ^ (8 * Motorola.or_zero al) ->
  match al with
  | None => []
  | Some x => drop (2 * (4 - x)) (format_X 8 a)
  end = hex_fixed (Z.to_nat (2 * Motorola.or_zero al)) a
  /\ 16 ^ Z.of_nat (Z.to_nat (2 * Motorola.or_zero al))
     = 2 ^ (8 * Motorola.or_zero al).
Proof.
  intros [->|[->|[->| ->]]] Ha; cbn [Motorola.or_zero] in *.
  - split; reflexivity.
  - rewrite format_X_fixed
      by (lia || (change (16 ^ Z.of_nat 8) with 4294967296;
                  change (2 ^ (8 * 2)) with 65536 in Ha; lia)).
    split; [apply (drop_hex_fixed 4 4)|reflexivity].
  - rewrite format_X_fixed
      by (lia || (change (16 ^ Z.of_nat 8) with 4294967296;
                  change (2 ^ (8 * 3)) with 16777216 in Ha; lia)).
    split; [apply (drop_hex_fixed 2 6)|reflexivity].
  - rewrite format_X_fixed
      by (lia || (change (16 ^ Z.of_nat 8) with 4294967296;
                  change (2 ^ (8 * 4)) with 4294967296 in Ha; lia)).
    split; [apply (drop_hex_fixed 0 8)|reflexivity].
Qed.

Lemma motorola_tag_type_ok (t : Z) :
  0 <= t <= 9 -> Motorola.TAG_TYPE (Some t) = Ok t.
Proof.
  intro H. unfold Motorola.TAG_TYPE.
  now rewrite (proj2 (between_spec 0 t 9) H).
Qed.

Lemma motorola_check_facts (r : record) :
  Motorola.check r = Ok tt ->
  0 <= address r
  /\ exists t al,
       tag r = Some t /\ 0 <= t <= 9
       /\ tuple_get Motorola.TAG_TO_ADDRESS_LENGTH t = Ok al
       /\ count r = Motorola.or_zero al + len (data r) + 1
       /\ 0 <= count r <= 255
       /\ match checksum r with
          | Some s => 0 <= s <= 255
          | None => True
          end.
Proof.
  unfold Motorola.check. intro H.
  apply bind_ok in H. destruct H as ([] & Hb & H).
  apply bind_ok in H. destruct H as (t' & Ht' & H).
  apply unless_bind_ok in H. destruct H as [_ H].
  apply bind_ok in H. destruct H as (c & Hc & H).
  apply unless_ok in H. apply Z.eqb_eq in H.
  unfold Record_check in Hb.
  apply unless_bind_ok in Hb. destruct Hb as [Ha Hb]. apply Z.leb_le in Ha.
  split; [exact Ha|].
  destruct (tag r) as [t|] eqn:Et; [|discriminate].
  unfold Motorola.TAG_TYPE in Ht'.
  destruct (between 0 t 9) eqn:Bt; [|discriminate]. apply between_spec in Bt.
  unfold Motorola.compute_count in Hc. rewrite Et in Hc.
  apply bind_ok in Hc. destruct Hc as (al & Eal & Hc). injection Hc as <-.
  exists t, al. split; [reflexivity|]. split; [exact Bt|].
  split; [exact Eal|]. split; [exact H|].
  apply unless_bind_ok in Hb. destruct Hb as [_ Hb].
  apply unless_bind_ok in Hb. destruct Hb as [Hcnt Hb].
  apply between_spec in Hcnt. split; [exact Hcnt|].
  destruct (checksum r) as [s|]; [|exact I].
  apply unless_bind_ok in Hb. destruct Hb as [Hs _].
  now apply between_spec in Hs.
Qed.

Lemma motorola_get_checksum_ok (r : record) :
  0 <= count r <= 255 -> 0 <= address r < 2 ^ 64 ->
  match checksum r with Some s => 0 <= s <= 255 | None => True end ->
  exists s,
    get_checksum Motorola.compute_checksum r = Ok s /\ 0 <= s <= 255.
Proof.
  intros Hc Ha Hs. unfold get_checksum.
  destruct (checksum r) as [s|]; [now exists s|].
  unfold Motorola.compute_checksum, Motorola.pack_BL, pack_be, within.
  change (256 ^ Z.of_nat 1) with 256. change (256 ^ Z.of_nat 8) with (2 ^ 64).
  ztest. cbn [andb unless bind]. eexists. split; [reflexivity|].
  apply lxor_255_range. apply land_255_range.
Qed.

Lemma motorola_roundtrip (r : record) :
  Motorola.check r = Ok tt ->
  address r < 2 ^ (8 * motorola_address_length r) ->
  2 <= motorola_address_length r + len (data r) <= 138 ->
  exists line r',
    Motorola.marshal r = Ok line
    /\ Motorola.parse_record line = Ok r'
    /\ address r' = address r /\ tag r' = tag r /\ data r' = data r.
Proof.
  intros H Haddr Hlen.
  destruct (motorola_check_facts r H)
    as (Ha & t & al & Et & Ht & Eal & Hcnt & Hc & Hs).
  unfold motorola_address_length in *. rewrite Et, Eal in *.
  destruct (motorola_tag_facts t Ht) as (al' & c & Eal' & Hal & Ed & Hcode & Hdig).
  rewrite Eal in Eal'. injection Eal' as <-.
  set (n := Motorola.or_zero al) in *.
  assert (Hn : n = 0 \/ n = 2 \/ n = 3 \/ n = 4)
    by (subst n; destruct Hal as [->|[->|[->| ->]]]; cbn; lia).
  assert (Hpow : 2 ^ (8 * n) <= 2 ^ 32)
    by (destruct Hn as [->|[->|[->| ->]]]; cbn; lia).
  destruct (motorola_address_text al (address r) Hal ltac:(fold n; lia))
    as [Etext Epow].
  fold n in Etext, Epow. set (w := Z.to_nat (2 * n)) in *.
  destruct (motorola_get_checksum_ok r Hc
              ltac:(change (2 ^ 64) with 18446744073709551616;
                    change (2 ^ 32) with 4294967296 in Hpow; lia) Hs)
    as (s & Es & Hsr).
  pose proof (len_nonneg (data r)) as Hd.
  (* the line *)
  assert (Em : Motorola.marshal r
               = Ok ("S"%char :: c
                       :: hex_fixed 2 (n + len (data r) + 1)
                       ++ hex_fixed w (address r)
                       ++ hexlify (data r) ++ hex_fixed 2 s)).
  { unfold Motorola.marshal. rewrite H, Et. cbn [bind].
    rewrite Eal. cbn [bind]. rewrite Es, Ed. cbn [bind].
    change (lit "S") with ["S"%char]. cbn [app].
    rewrite <- Etext.
    destruct Hal as [->|[->|[->| ->]]]; subst n; cbn [Motorola.or_zero] in *;
      rewrite !(format_X_fixed 2)
        by (lia || (change (16 ^ Z.of_nat 2) with 256; lia));
      reflexivity. }
  rewrite Em. eexists. eexists. split; [reflexivity|].
  (* back *)
  set (f1 := hex_fixed 2 (n + len (data r) + 1)).
  set (f2 := hex_fixed w (address r)).
  set (f3 := hexlify (data r)).
  set (f4 := hex_fixed 2 s).
  assert (L1 : len f1 = 2) by apply len_hex_fixed.
  assert (L2 : len f2 = 2 * n)
    by (subst f2 w; rewrite len_hex_fixed; lia).
  assert (L3 : len f3 = 2 * len (data r)) by apply len_hexlify.
  assert (L4 : len f4 = 2) by apply len_hex_fixed.
  set (line := "S"%char :: c :: f1 ++ f2 ++ f3 ++ f4).
  assert (Estrip : strip line = line).
  { subst line f4.
    rewrite (app_assoc f2), (app_assoc f1), app_comm_cons.
    now rewrite strip_hex_line by reflexivity. }
  unfold Motorola.parse_record. rewrite Estrip.
  assert (Hline : len line = 2 * (n + len (data r) + 1) + 4)
    by (subst line; rewrite !len_cons, !len_app; lia).
  assert (Ereg : Motorola.regex_match line = true).
  { subst line. unfold Motorola.regex_match.
    assert (Hr : len (f1 ++ f2 ++ f3 ++ f4) = 2 * (n + len (data r) + 2))
      by (rewrite !len_app; lia).
    rewrite Hr. change (code "S"%char =? 83) with true. rewrite Hdig.
    replace (forallb is_hex (f1 ++ f2 ++ f3 ++ f4)) with true
      by (symmetry; subst f1 f2 f3 f4;
          now rewrite !forallb_app, !hex_fixed_all_hex, hexlify_all_hex).
    replace (2 * (n + len (data r) + 2) mod 2) with 0
      by (Z.div_mod_to_equations; lia).
    replace (2 * (n + len (data r) + 2) / 2) with (n + len (data r) + 2)
      by (Z.div_mod_to_equations; lia).
    ztest. reflexivity. }
  rewrite Ereg. cbn [unless bind].
  rewrite (slice_field ["S"%char; c] f1 (f2 ++ f3 ++ f4) line 2 4)
    by (reflexivity || (rewrite ?len_cons, ?(@len_nil ascii); lia)).
  subst f1. rewrite int16_fixed
    by (lia || (change (16 ^ Z.of_nat 2) with 256; lia)).
  set (f1 := hex_fixed 2 (n + len (data r) + 1)) in *.
  cbn [bind]. rewrite Hline.
  replace (2 * (n + len (data r) + 1) =? 2 * (n + len (data r) + 1) + 4 - (2 + 2))
    with true by (symmetry; apply Z.eqb_eq; lia).
  cbn [unless bind].
  change (nth 1 line "0"%char) with c. rewrite Hcode, Eal. cbn [bind].
  fold n.
  rewrite (slice_field ("S"%char :: c :: f1) f2 (f3 ++ f4) line 4 (4 + 2 * n))
    by ((subst line; cbn [app]; reflexivity)
        || (rewrite ?len_cons; lia)).
  subst f2. rewrite int16_zero_fixed by (rewrite Epow; lia).
  set (f2 := hex_fixed w (address r)) in *. cbn [bind].
  rewrite (slice_field_neg ("S"%char :: c :: f1 ++ f2) f3 f4 line
                           (4 + 2 * n) (-2))
    by ((subst line; cbn [app]; now rewrite <- !app_assoc)
        || (rewrite ?len_cons, ?len_app; lia)).
  subst f3. rewrite unhexlify_hexlify. cbn [bind].
  set (f3 := hexlify (data r)) in *.
  rewrite (drop_field_neg ("S"%char :: c :: f1 ++ f2 ++ f3) f4 line (-2))
    by ((subst line; cbn [app]; now rewrite <- !app_assoc) || lia).
  subst f4. rewrite int16_fixed
    by (lia || (change (16 ^ Z.of_nat 2) with 256; lia)).
  cbn [bind]. unfold Motorola.init.
  rewrite motorola_tag_type_ok by exact Ht. cbn [bind].
  unfold Record_init, Motorola.compute_count. cbn [tag data].
  rewrite Eal. cbn [bind]. split; [reflexivity|].
  cbn [address tag data]. repeat split.
Qed.


(** ** Round trip of a record through its line *)

(** C3 (amended): in each of the three formats, a record that passes
    [check()] and that a line can carry (every MOS record; an Intel record
    with an address below 2^16; a Motorola record whose address fits the
    address bytes of its tag, with 2 to 138 address and data bytes) is
    marshalled to a line that [parse_record] reads back as an equal
    record. *)
Theorem marshal_parse_round_trip (f : Format) (r : record) :
  @rt_check (record_type f) r = Ok tt ->
  fits_line f r ->
  exists line r',
    @rt_marshal (record_type f) r = Ok line
    /\ @rt_parse_record (record_type f) line = Ok r'
    /\ Record_eq r' r = true.
Proof.
  intros Hc Hf.
  destruct f; cbn [record_type rt_check rt_marshal rt_parse_record
                   IntelRecord MotorolaRecord MosRecord fits_line] in *.
  - destruct (intel_roundtrip r Hc) as (line & r' & Em & Ep & Ea & Et & Ed).
    exists line, r'. split; [exact Em|]. split; [exact Ep|].
    apply Record_eq_fields; [|assumption..].
    rewrite Ea. apply Z.mod_small.
    destruct (intel_check_facts r Hc) as (Ha & _). lia.
  - destruct Hf as [Hf1 Hf2].
    destruct (motorola_roundtrip r Hc Hf1 Hf2)
      as (line & r' & Em & Ep & Ea & Et & Ed).
    exists line, r'. split; [exact Em|]. split; [exact Ep|].
    now apply Record_eq_fields.
  - destruct (mos_roundtrip r Hc) as (line & r' & Em & Ep & Ea & Et & Ed).
    exists line, r'. split; [exact Em|]. split; [exact Ep|].
    now apply Record_eq_fields.
Qed.

Lemma marshal_parse_round_trip_witness :
  exists line r',
    @rt_marshal (record_type MotorolaSrec)
                (mkRecord 4660 (Some 1) (list_byte_of_string "Hello, World!")
                          16 (Some 64)) = Ok line
    /\ @rt_parse_record (record_type MotorolaSrec) line = Ok r'
    /\ Record_eq r' (mkRecord 4660 (Some 1)
                              (list_byte_of_string "Hello, World!")
                              16 (Some 64)) = true.
Proof.
  apply (marshal_parse_round_trip MotorolaSrec).
  - reflexivity.
  - vm_compute. repeat split; congruence.
Defined.

(** C3 (counterexample): records that pass [check()] and do not come back:
    the Intel data record at 0x10000 is read back at address 0; the
    Motorola DATA_16 record at 0x12345 is read back at 0x2345; the line of
    a Motorola record with 200 data bytes is refused by [parse_record]. *)
Lemma round_trip_fails :
  (exists r line r',
      Intel.build_data 65536 [x41] = Ok r
      /\ Intel.check r = Ok tt
      /\ Intel.marshal r = Ok line
      /\ Intel.parse_record line = Ok r'
      /\ address r' = 0
      /\ Record_eq r' r = false)
  /\ (exists r line r',
         Motorola.build_data 74565 [x41] (Some Motorola.DATA_16) = Ok r
         /\ Motorola.check r = Ok tt
         /\ Motorola.marshal r = Ok line
         /\ Motorola.parse_record line = Ok r'
         /\ address r' = 9029
         /\ Record_eq r' r = false)
  /\ (exists r,
         Motorola.build_data 0 (repeat x00 200) None = Ok r
         /\ Motorola.check r = Ok tt
         /\ is_ok (Motorola.marshal r) = true
         /\ (line <- Motorola.marshal r ;; Motorola.parse_record line)
            = Raise (ValueError "regex error")).
Proof.
  split; [|split].
  - do 3 eexists. split; [reflexivity|]. split; [reflexivity|].
    split; [reflexivity|]. split; [vm_compute; reflexivity|].
    split; reflexivity.
  - do 3 eexists. split; [reflexivity|]. split; [reflexivity|].
    split; [reflexivity|]. split; [vm_compute; reflexivity|].
    split; reflexivity.
  - exists (mkRecord 0 (Some 1) (repeat x00 200) 203 (Some 52)).
    repeat split; vm_compute; reflexivity.
Qed.


(** ** Stored checksums and [check()] *)

Lemma land_65535_range (x : Z) : 0 <= Z.land x 65535 < 65536.
Proof.
  rewrite land_ffff. apply Z.mod_pos_bound. lia.
Qed.

Lemma motorola_compute_checksum_range (r : record) (s : Z) :
  Motorola.compute_checksum r = Ok s -> 0 <= s <= 255.
Proof.
  unfold Motorola.compute_checksum. intro H.
  apply bind_ok in H. destruct H as (p & _ & H). injection H as <-.
  apply lxor_255_range, land_255_range.
Qed.

Lemma mos_compute_with_checksum (r : record) (c : option Z) :
  Mos.compute_checksum (with_checksum r c) = Mos.compute_checksum r.
Proof. reflexivity. Qed.

Lemma intel_compute_with_checksum (r : record) (c : option Z) :
  Intel.compute_checksum (with_checksum r c) = Intel.compute_checksum r.
Proof. reflexivity. Qed.

Lemma motorola_compute_with_checksum (r : record) (c : option Z) :
  Motorola.compute_checksum (with_checksum r c) = Motorola.compute_checksum r.
Proof. reflexivity. Qed.

Lemma motorola_count_with_checksum (r : record) (c : option Z) :
  Motorola.compute_count (with_checksum r c) = Motorola.compute_count r.
Proof. reflexivity. Qed.

Lemma check_checksum_mos (r : record) (s : Z) :
  Mos.check (with_checksum r None) = Ok tt ->
  (Mos.check (with_checksum r (Some s)) = Ok tt
   <-> Mos.compute_checksum r = s).
Proof.
  unfold Mos.check. cbn [with_checksum address tag count data checksum].
  intro H.
  apply unless_bind_ok in H. destruct H as [Ha H]. rewrite Ha.
  apply unless_bind_ok in H. destruct H as [Ht H]. rewrite Ht.
  apply unless_bind_ok in H. destruct H as [Hc H]. rewrite Hc.
  apply unless_bind_ok in H. destruct H as [Hl _]. rewrite Hl.
  cbn [unless bind]. rewrite mos_compute_with_checksum.
  apply within_spec in Ha.
  assert (R : 0 <= Mos.compute_checksum r < 2 ^ 16).
  { unfold Mos.compute_checksum. destruct (negb (count r =? 0)).
    - change (2 ^ 16) with 65536. apply land_65535_range.
    - exact Ha. }
  split.
  - intro K. apply unless_bind_ok in K. destruct K as [_ K].
    apply unless_ok in K. apply Z.eqb_eq in K. congruence.
  - intros <-. unfold within. ztest. reflexivity.
Qed.

Lemma check_checksum_intel (r : record) (s : Z) :
  Intel.check (with_checksum r None) = Ok tt ->
  (Intel.check (with_checksum r (Some s)) = Ok tt
   <-> Intel.compute_checksum r = Ok s).
Proof.
  unfold Intel.check, Record_check, Intel.compute_count.
  cbn [with_checksum address tag count data checksum].
  intro H.
  apply bind_ok in H. destruct H as ([] & H1 & H).
  apply unless_bind_ok in H1. destruct H1 as [Ha H1]. rewrite Ha.
  destruct (tag r) as [t|] eqn:Et; [|discriminate].
  apply unless_bind_ok in H1. destruct H1 as [Hr H1]. rewrite Hr.
  apply unless_bind_ok in H1. destruct H1 as [Hc _]. rewrite Hc.
  cbn [unless bind] in H |- *. rewrite intel_compute_with_checksum.
  destruct (intel_compute_checksum_range r t Et) as (c & Ec & Rc).
  rewrite Ec. cbn [bind]. rewrite H. split.
  - intro K. apply bind_ok in K. destruct K as ([] & K & _).
    apply unless_bind_ok in K. destruct K as [_ K].
    apply unless_ok in K. apply Z.eqb_eq in K. congruence.
  - intro K. injection K as <-. unfold between. ztest. reflexivity.
Qed.

Lemma check_checksum_motorola (r : record) (s : Z) :
  Motorola.check (with_checksum r None) = Ok tt ->
  (Motorola.check (with_checksum r (Some s)) = Ok tt
   <-> Motorola.compute_checksum r = Ok s).
Proof.
  unfold Motorola.check, Record_check.
  cbn [with_checksum address tag count data checksum].
  intro H.
  apply bind_ok in H. destruct H as ([] & H1 & H).
  apply unless_bind_ok in H1. destruct H1 as [Ha H1]. rewrite Ha.
  destruct (tag r) as [t|] eqn:Et; [|discriminate].
  apply unless_bind_ok in H1. destruct H1 as [Hr H1]. rewrite Hr.
  apply unless_bind_ok in H1. destruct H1 as [Hc _]. rewrite Hc.
  cbn [unless bind] in H |- *.
  rewrite motorola_compute_with_checksum.
  rewrite motorola_count_with_checksum in H |- *.
  split.
  - intro K. apply bind_ok in K. destruct K as ([] & K & _).
    apply unless_bind_ok in K. destruct K as [_ K].
    apply bind_ok in K. destruct K as (c & Ec & K).
    apply unless_ok in K. apply Z.eqb_eq in K. congruence.
  - intro K. rewrite K. cbn [bind].
    apply motorola_compute_checksum_range in K.
    unfold between. ztest. cbn [andb unless bind]. exact H.
Qed.

(** X1: a record that is valid without a stored checksum is valid with
    the stored checksum [s] exactly when [s] is what [compute_checksum]
    returns: [check()] lets no other checksum through. *)
Theorem check_checksum_iff (f : Format) (r : record) (s : Z) :
  @rt_check (record_type f) (with_checksum r None) = Ok tt ->
  (@rt_check (record_type f) (with_checksum r (Some s)) = Ok tt
   <-> compute_checksum f r = Ok s).
Proof.
  destruct f; cbn [record_type rt_check IntelRecord MotorolaRecord MosRecord
                   compute_checksum].
  - apply check_checksum_intel.
  - apply check_checksum_motorola.
  - intro H. rewrite (check_checksum_mos r s H).
    split; [congruence|intro K; now injection K].
Qed.

Lemma check_checksum_iff_witness :
  @rt_check (record_type MotorolaSrec)
    (with_checksum (mkRecord 4660 (Some 1) (list_byte_of_string "Hello, World!")
                      16 None) (Some 64)) = Ok tt.
Proof.
  apply (check_checksum_iff MotorolaSrec
           (mkRecord 4660 (Some 1) (list_byte_of_string "Hello, World!")
              16 None) 64); reflexivity.
Defined.

(** ** [find_corrupted_records] *)

Lemma find_corrupted_loop_spec (check : record -> result unit)
  (records : list record) :
  forall (index : Z) (corrupted : list Z),
    find_corrupted_loop check records index = Ok corrupted ->
    (forall i,
        In i corrupted
        <-> exists r msg,
              index <= i
              /\ nth_error records (Z.to_nat (i - index)) = Some r
              /\ check r = Raise (ValueError msg))
    /\ StronglySorted Z.lt corrupted
    /\ Forall (fun i => index <= i) corrupted.
Proof.
  induction records as [|r rest IH]; intros index corrupted H.
  - injection H as <-. split; [|split; constructor].
    intro i. split; [intros []|].
    intros (r & msg & _ & K & _). now destruct (Z.to_nat (i - index)).
  - cbn [find_corrupted_loop] in H.
    assert (Hnth : forall i, index < i ->
               nth_error (r :: rest) (Z.to_nat (i - index))
               = nth_error rest (Z.to_nat (i - (index + 1)))).
    { intros i Hi. replace (Z.to_nat (i - index))
        with (S (Z.to_nat (i - (index + 1)))) by lia. reflexivity. }
    destruct (check r) as [[]|e] eqn:Ec.
    + destruct (IH _ _ H) as (Hin & Hs & Hlo). split; [|split].
      * intro i. rewrite Hin. split.
        -- intros (x & msg & Hi & Hn & Hx). exists x, msg.
           split; [lia|]. split; [|exact Hx]. rewrite Hnth by lia. exact Hn.
        -- intros (x & msg & Hi & Hn & Hx).
           destruct (Z.eq_dec i index) as [->|Hne].
           ++ rewrite Z.sub_diag in Hn. cbn in Hn. injection Hn as <-.
              congruence.
           ++ exists x, msg. split; [lia|]. split; [|exact Hx].
              rewrite <- Hnth by lia. exact Hn.
      * exact Hs.
      * eapply Forall_impl; [|exact Hlo]. intros i K. cbv beta in K. lia.
    + destruct e as [msg| | | | |]; try discriminate.
      apply bind_ok in H. destruct H as (more & Hm & H). injection H as <-.
      destruct (IH _ _ Hm) as (Hin & Hs & Hlo). split; [|split].
      * intro i. cbn [In]. rewrite Hin. split.
        -- intros [<-|(x & m & Hi & Hn & Hx)].
           ++ exists r, msg. rewrite Z.sub_diag. split; [lia|].
              split; [reflexivity|exact Ec].
           ++ exists x, m. split; [lia|]. split; [|exact Hx].
              rewrite Hnth by lia. exact Hn.
        -- intros (x & m & Hi & Hn & Hx).
           destruct (Z.eq_dec i index) as [->|Hne]; [now left|right].
           exists x, m. split; [lia|]. split; [|exact Hx].
           rewrite <- Hnth by lia. exact Hn.
      * constructor; [exact Hs|].
        eapply Forall_impl; [|exact Hlo]. intros i K. cbv beta in K. lia.
      * constructor; [lia|].
        eapply Forall_impl; [|exact Hlo]. intros i K. cbv beta in K. lia.
Qed.

(** X2: when [find_corrupted_records] returns, its list holds, in
    ascending order and once each, exactly the indices of the records
    whose [check()] raises a [ValueError]; in particular it is empty
    exactly when no record does. *)
Theorem find_corrupted_records_indices (f : Format) (records : list record)
  (corrupted : list Z) :
  @find_corrupted_records (record_type f) records = Ok corrupted ->
  (forall i,
      In i corrupted
      <-> exists r msg,
            0 <= i
            /\ nth_error records (Z.to_nat i) = Some r
            /\ @rt_check (record_type f) r = Raise (ValueError msg))
  /\ StronglySorted Z.lt corrupted.
Proof.
  unfold find_corrupted_records. intro H.
  destruct (find_corrupted_loop_spec _ _ _ _ H) as (Hin & Hs & _).
  split; [|exact Hs]. intro i. rewrite Hin.
  now rewrite Z.sub_0_r.
Qed.

Lemma find_corrupted_records_indices_witness :
  (forall i,
      In i [1]
      <-> exists r msg,
            0 <= i
            /\ nth_error
                 [mkRecord 0 None [] 0 (Some 0); mkRecord 0 None [] 0 (Some 7)]
                 (Z.to_nat i) = Some r
            /\ @rt_check (record_type MosTech) r = Raise (ValueError msg))
  /\ StronglySorted Z.lt [1].
Proof.
  apply (find_corrupted_records_indices MosTech
           [mkRecord 0 None [] 0 (Some 0); mkRecord 0 None [] 0 (Some 7)] [1]).
  reflexivity.
Defined.

(** Every exception of the MOS [check()] is a [ValueError]. *)
Lemma mos_check_value_error (r : record) :
  Mos.check r = Ok tt \/ exists msg, Mos.check r = Raise (ValueError msg).
Proof.
  unfold Mos.check.
  repeat match goal with
         | |- context [unless ?b ?e] =>
             destruct b; cbn [unless bind]; [|right; eexists; reflexivity]
         end.
  destruct (checksum r) as [s|]; [|now left].
  repeat match goal with
         | |- context [unless ?b ?e] =>
             destruct b; cbn [unless bind]; [|right; eexists; reflexivity]
         end.
  now left.
Qed.

(** X3: on MOS records [find_corrupted_records] never raises: it returns
    a list for every sequence, and the empty list exactly for the
    sequences whose records all pass [check()]. *)
Theorem mos_find_corrupted_records_total (records : list record) :
  exists corrupted,
    @find_corrupted_records MosRecord records = Ok corrupted
    /\ (corrupted = [] <-> Forall (fun r => Mos.check r = Ok tt) records).
Proof.
  unfold find_corrupted_records. cbn [rt_check MosRecord].
  generalize 0 as index.
  induction records as [|r rest IH]; intro index.
  - exists []. split; [reflexivity|]. split; [constructor|reflexivity].
  - destruct (IH (index + 1)) as (more & E & Hm).
    cbn [find_corrupted_loop]. rewrite E.
    destruct (mos_check_value_error r) as [K|[msg K]]; rewrite K.
    + exists more. split; [reflexivity|]. rewrite Hm. split.
      * intro F. now constructor.
      * intro F. now inversion F.
    + cbn [bind]. eexists. split; [reflexivity|]. split; [discriminate|].
      intro F. inversion F as [|? ? Hr _]. congruence.
Qed.

(** ** What [check_sequence] accepts *)

Section CheckSequence.

Variable check : record -> result unit.
Variable is_data : record -> bool.

Lemma check_sequence_loop_ok (records : list record) :
  forall (last : option record) (record_endex : Z),
    check_sequence_loop check is_data records last record_endex = Ok tt ->
    Forall (fun r => check r = Ok tt) records
    /\ neighbours_sorted is_data
         (match last with Some _ => true | None => false end)
         record_endex records.
Proof.
  induction records as [|r rest IH]; intros last e H.
  - split; constructor.
  - cbn [check_sequence_loop] in H.
    apply bind_ok in H. destruct H as ([] & Hc & H).
    apply bind_ok in H. destruct H as (last' & Hl & H).
    destruct (IH _ _ H) as [F N]. split; [now constructor|].
    cbn [neighbours_sorted]. destruct (is_data r) eqn:Ed.
    + destruct last as [l|].
      * apply unless_bind_ok in Hl. destruct Hl as [_ Hl].
        apply unless_bind_ok in Hl. destruct Hl as [Hs Hl].
        injection Hl as <-. split; [|exact N].
        intros _ _. apply negb_true_iff, Z.ltb_ge in Hs. exact Hs.
      * injection Hl as <-. split; [discriminate|exact N].
    + injection Hl as <-. split; [discriminate|].
      now rewrite orb_false_r.
Qed.

Lemma neighbours_sorted_pair (pre : list record) (r1 r2 : record)
  (post : list record) :
  forall (seen : bool) (e : Z),
    neighbours_sorted is_data seen e (pre ++ r1 :: r2 :: post) ->
    is_data r2 = true ->
    seen || existsb is_data (pre ++ [r1]) = true ->
    address r1 + len (data r1) <= address r2.
Proof.
  induction pre as [|p pre IH]; intros seen e N H2 Hs.
  - cbn [app neighbours_sorted] in N. destruct N as (_ & N2 & _).
    apply N2; [exact H2|]. cbn [app existsb] in Hs.
    now rewrite orb_false_r in Hs.
  - cbn [app neighbours_sorted] in N. destruct N as (_ & N).
    apply (IH _ _ N H2). cbn [app existsb] in Hs.
    now rewrite orb_assoc in Hs.
Qed.

Lemma neighbours_sorted_run (mid post : list record) :
  forall (e : Z),
    neighbours_sorted is_data true e (mid ++ post) ->
    forallb is_data mid = true ->
    ordered_from e (map block_of mid).
Proof.
  induction mid as [|r mid IH]; intros e N F; [exact I|].
  cbn [forallb] in F. apply andb_true_iff in F. destruct F as [Fr F].
  cbn [app neighbours_sorted] in N. destruct N as (N1 & N).
  cbn [map ordered_from]. unfold block_start, block_endex, block_of at 1 2 3.
  cbn [fst snd]. split; [now apply N1|]. now apply IH.
Qed.

Lemma neighbours_sorted_segment (pre mid post : list record) :
  forall (seen : bool) (e : Z),
    neighbours_sorted is_data seen e (pre ++ mid ++ post) ->
    forallb is_data mid = true ->
    sorted_nonoverlapping (map block_of mid).
Proof.
  induction pre as [|p pre IH]; intros seen e N F.
  - destruct mid as [|r mid]; [now exists 0|].
    cbn [forallb] in F. apply andb_true_iff in F. destruct F as [Fr F].
    cbn [app neighbours_sorted] in N. destruct N as (_ & N).
    rewrite Fr, orb_true_r in N. exists (address r).
    cbn [map ordered_from]. unfold block_start, block_endex, block_of at 1 2 3.
    cbn [fst snd]. split; [lia|].
    now apply (neighbours_sorted_run mid post).
  - cbn [app neighbours_sorted] in N. destruct N as (_ & N).
    now apply (IH _ _ N).
Qed.

End CheckSequence.

Lemma check_sequence_base (f : Format) (records : list record) :
  check_sequence f records = Ok tt ->
  Record_check_sequence (@rt_check (record_type f))
                        (@rt_is_data (record_type f)) records = Ok tt.
Proof.
  destruct f; cbn [check_sequence record_type rt_check rt_is_data
                   IntelRecord MotorolaRecord MosRecord].
  - trivial.
  - unfold motorola_check_sequence. intro H.
    apply bind_ok in H. destruct H as ([] & H & _). exact H.
  - unfold Mos.check_sequence. intro H.
    apply bind_ok in H. destruct H as ([] & H & _). exact H.
Qed.

(** X4: a sequence that [check_sequence] accepts, in any of the three
    formats, has only records that pass [check()]; a data record that comes
    after some data record starts at or after the end of the record just
    before it; and every run of consecutive data records is sorted by
    address and non-overlapping. *)
Theorem check_sequence_accepts_sorted (f : Format) (records : list record) :
  check_sequence f records = Ok tt ->
  Forall (fun r => @rt_check (record_type f) r = Ok tt) records
  /\ (forall pre r1 r2 post,
         records = pre ++ r1 :: r2 :: post ->
         @rt_is_data (record_type f) r2 = true ->
         existsb (@rt_is_data (record_type f)) (pre ++ [r1]) = true ->
         address r1 + len (data r1) <= address r2)
  /\ (forall pre mid post,
         records = pre ++ mid ++ post ->
         forallb (@rt_is_data (record_type f)) mid = true ->
         sorted_nonoverlapping (map block_of mid)).
Proof.
  intro H. apply check_sequence_base in H.
  unfold Record_check_sequence in H.
  apply check_sequence_loop_ok in H. destruct H as [F N].
  split; [exact F|]. split.
  - intros pre r1 r2 post -> H2 Hs.
    apply (neighbours_sorted_pair _ pre r1 r2 post _ _ N H2).
    exact Hs.
  - intros pre mid post -> Hm.
    now apply (neighbours_sorted_segment _ pre mid post _ _ N).
Qed.

Lemma check_sequence_accepts_sorted_witness :
  sorted_nonoverlapping
    (map block_of [mkRecord 0 None [x41; x42] 2 None;
                   mkRecord 2 None [x43] 1 None]).
Proof.
  destruct (check_sequence_accepts_sorted MosTech
              [mkRecord 0 None [x41; x42] 2 None;
               mkRecord 2 None [x43] 1 None;
               mkRecord 2 None [] 0 (Some 2)]) as (_ & _ & H);
    [reflexivity|].
  apply (H [] [mkRecord 0 None [x41; x42] 2 None;
               mkRecord 2 None [x43] 1 None]
           [mkRecord 2 None [] 0 (Some 2)]); reflexivity.
Defined.

(** ** Motorola: fitting tags *)

(** X5: for [0 <= endex <= 2^32], [fit_data_tag] returns the data tag with
    the fewest address bytes [n] such that [endex <= 2^(8n)], so that
    every address below [endex] fits the address field; outside this range
    it raises an address overflow. *)
Theorem fit_data_tag_smallest (endex : Z) :
  (0 <= endex <= 2 ^ 32 ->
   exists t n,
     Motorola.fit_data_tag endex = Ok t
     /\ Motorola.is_data (mkRecord 0 (Some t) [] 0 None) = true
     /\ tuple_get Motorola.TAG_TO_ADDRESS_LENGTH t = Ok (Some n)
     /\ endex <= 2 ^ (8 * n)
     /\ (forall t' n',
            Motorola.is_data (mkRecord 0 (Some t') [] 0 None) = true ->
            tuple_get Motorola.TAG_TO_ADDRESS_LENGTH t' = Ok (Some n') ->
            endex <= 2 ^ (8 * n') -> n <= n'))
  /\ (~ 0 <= endex <= 2 ^ 32 ->
      Motorola.fit_data_tag endex = Raise (ValueError "address overflow")).
Proof.
  assert (Tags : forall t' n',
             Motorola.is_data (mkRecord 0 (Some t') [] 0 None) = true ->
             tuple_get Motorola.TAG_TO_ADDRESS_LENGTH t' = Ok (Some n') ->
             (t' = 1 /\ n' = 2) \/ (t' = 2 /\ n' = 3) \/ (t' = 3 /\ n' = 4)).
  { intros t' n' Hd Hn. rewrite motorola_is_data_mk in Hd.
    apply orb_true_iff in Hd. destruct Hd as [Hd|Hd];
      [apply orb_true_iff in Hd; destruct Hd as [Hd|Hd]|];
      apply Z.eqb_eq in Hd; subst t'; cbn in Hn; injection Hn as <-; lia. }
  split.
  - intro H. unfold Motorola.fit_data_tag, between. ztest.
    cbn [andb negb].
    destruct (endex <=? 2 ^ 16) eqn:E16; [|destruct (endex <=? 2 ^ 24) eqn:E24].
    + apply Z.leb_le in E16. exists 1, 2.
      repeat split; try reflexivity; [exact E16|].
      intros t' n' Hd Hn _. destruct (Tags t' n' Hd Hn) as [K|[K|K]]; lia.
    + apply Z.leb_gt in E16. apply Z.leb_le in E24. exists 2, 3.
      repeat split; try reflexivity; [exact E24|].
      intros t' n' Hd Hn Hle. destruct (Tags t' n' Hd Hn) as [K|[K|K]];
        destruct K as [-> ->]; [|lia|lia].
      change (2 ^ (8 * 2)) with (2 ^ 16) in Hle. lia.
    + apply Z.leb_gt in E16. apply Z.leb_gt in E24. exists 3, 4.
      repeat split; try reflexivity; [apply H|].
      intros t' n' Hd Hn Hle. destruct (Tags t' n' Hd Hn) as [K|[K|K]];
        destruct K as [-> ->]; [| |lia].
      * change (2 ^ (8 * 2)) with (2 ^ 16) in Hle. lia.
      * change (2 ^ (8 * 3)) with (2 ^ 24) in Hle. lia.
  - intro H. unfold Motorola.fit_data_tag, between.
    destruct (Z.lt_ge_cases endex 0); ztest; cbn [andb negb];
      [reflexivity|].
    ztest. reflexivity.
Qed.

Lemma fit_data_tag_smallest_witness :
  exists t n,
    Motorola.fit_data_tag 65536 = Ok t
    /\ Motorola.is_data (mkRecord 0 (Some t) [] 0 None) = true
    /\ tuple_get Motorola.TAG_TO_ADDRESS_LENGTH t = Ok (Some n)
    /\ 65536 <= 2 ^ (8 * n)
    /\ (forall t' n',
           Motorola.is_data (mkRecord 0 (Some t') [] 0 None) = true ->
           tuple_get Motorola.TAG_TO_ADDRESS_LENGTH t' = Ok (Some n') ->
           65536 <= 2 ^ (8 * n') -> n <= n').
Proof.
  apply (proj1 (fit_data_tag_smallest 65536)). lia.
Defined.

(** ** Motorola: the count record *)

Lemma byte_val_of_Z (z : Z) : 0 <= z < 256 -> byte_val (byte_of_Z z) = z.
Proof.
  intro H. unfold byte_val, byte_of_Z.
  destruct (Byte.of_N (Z.to_N z)) as [b|] eqn:E.
  - apply Byte.to_of_N in E. rewrite E. lia.
  - apply Byte.of_N_None_iff in E. lia.
Qed.

Lemma motorola_check_built (a t : Z) (d : list byte) (r : record) :
  Motorola.init a (Some t) d Ellipsis = Ok r ->
  0 <= a -> len d <= 250 ->
  (existsb (Z.eqb t) [0; 4; 5; 6] = true -> a = 0) ->
  Motorola.check r = Ok tt.
Proof.
  intros H Ha Hd Hz. unfold Motorola.init in H.
  apply bind_ok in H. destruct H as (t' & Ht & H).
  assert (Hr : 0 <= t <= 9).
  { unfold Motorola.TAG_TYPE in Ht. destruct (between 0 t 9) eqn:B;
      [|discriminate]. now apply between_spec in B. }
  rewrite motorola_tag_type_ok in Ht by exact Hr. injection Ht as <-.
  unfold Record_init in H.
  apply bind_ok in H. destruct H as (c & Hc & H).
  apply bind_ok in H. destruct H as (s & Hs & H). injection H as <-.
  pose proof (motorola_compute_checksum_range _ _ Hs) as Rs.
  change (Motorola.compute_count (mkRecord a (Some t) d 0 None))
    with (Motorola.compute_count (mkRecord a (Some t) d c (Some s))) in Hc.
  change (Motorola.compute_checksum (mkRecord a (Some t) d c None))
    with (Motorola.compute_checksum (mkRecord a (Some t) d c (Some s))) in Hs.
  assert (Rc : 0 <= c <= 255).
  { unfold Motorola.compute_count in Hc. cbn [tag data] in Hc.
    apply bind_ok in Hc. destruct Hc as (al & Hal & Hc). injection Hc as <-.
    destruct (motorola_tag_facts t Hr) as (al' & ch & Eal & Cases & _).
    rewrite Eal in Hal. injection Hal as <-. pose proof (len_nonneg d).
    destruct Cases as [->|[->|[->| ->]]]; cbn [Motorola.or_zero]; lia. }
  unfold Motorola.check, Record_check. cbn [address tag count checksum].
  rewrite Hs. unfold between. ztest. cbn [andb unless bind].
  rewrite motorola_tag_type_ok by exact Hr. cbn [bind].
  rewrite Hc. cbn [bind]. ztest. cbn [unless].
  destruct (existsb (Z.eqb t) [0; 4; 5; 6]) eqn:E.
  - rewrite (Hz eq_refl). reflexivity.
  - reflexivity.
Qed.

(** The count record: where the count is stored, and that it is read
    back. *)
Lemma motorola_build_count_spec (n : Z) :
  (0 <= n < 2 ^ 16 ->
   exists r,
     Motorola.build_count n = Ok r
     /\ tag r = Some Motorola.COUNT_16 /\ address r = 0
     /\ unpack_be 2 (data r) = Ok n
     /\ Motorola.check r = Ok tt)
  /\ (2 ^ 16 <= n < 2 ^ 24 ->
      exists r u hl,
        Motorola.build_count n = Ok r
        /\ tag r = Some Motorola.COUNT_24 /\ address r = 0
        /\ unpack_BH (data r) = Ok (u, hl)
        /\ Z.lor (Z.shiftl u 16) hl = n
        /\ Motorola.check r = Ok tt)
  /\ (~ 0 <= n < 2 ^ 24 ->
      Motorola.build_count n = Raise (ValueError "count overflow")).
Proof.
  split; [|split].
  - intro H. unfold Motorola.build_count, Motorola.fit_count_tag, within.
    ztest. cbn [andb negb bind]. unfold pack_be, within.
    change (256 ^ Z.of_nat 4) with (2 ^ 32). ztest. cbn [andb unless bind].
    change (drop (7 - Motorola.COUNT_16) (be_bytes 4 n))
      with (be_bytes 2 n).
    destruct (motorola_init_ok 0 5 (be_bytes 2 n)) as (al & s & _ & _ & E);
      [lia|lia|rewrite len_be_bytes; lia|].
    unfold Motorola.COUNT_16. rewrite E. eexists.
    split; [reflexivity|]. split; [reflexivity|]. split; [reflexivity|].
    split.
    + cbn [data be_bytes app unpack_be List.length Nat.eqb unless bind
           fold_left].
      pose proof (Z.mod_pos_bound n 256 ltac:(lia)).
      pose proof (Z.mod_pos_bound (n / 256) 256 ltac:(lia)).
      rewrite !byte_val_of_Z by lia. f_equal.
      assert (n / 256 < 256) by (apply Z.div_lt_upper_bound; lia).
      rewrite (Z.mod_small (n / 256)) by
        (split; [apply Z.div_pos; lia|lia]).
      pose proof (Z.div_mod n 256 ltac:(lia)). lia.
    + apply (motorola_check_built 0 5 (be_bytes 2 n)); [exact E|lia| |auto].
      rewrite len_be_bytes. lia.
  - intro H. unfold Motorola.build_count, Motorola.fit_count_tag, within.
    ztest. cbn [andb negb bind]. unfold pack_be, within.
    change (256 ^ Z.of_nat 4) with (2 ^ 32). ztest. cbn [andb unless bind].
    change (drop (7 - Motorola.COUNT_24) (be_bytes 4 n))
      with (be_bytes 3 n).
    destruct (motorola_init_ok 0 6 (be_bytes 3 n)) as (al & s & _ & _ & E);
      [lia|lia|rewrite len_be_bytes; lia|].
    unfold Motorola.COUNT_24. rewrite E.
    pose proof (Z.mod_pos_bound n 256 ltac:(lia)).
    pose proof (Z.mod_pos_bound (n / 256) 256 ltac:(lia)).
    pose proof (Z.mod_pos_bound (n / 256 / 256) 256 ltac:(lia)).
    eexists. exists ((n / 256 / 256) mod 256).
    exists (256 * ((n / 256) mod 256) + n mod 256).
    split; [reflexivity|]. split; [reflexivity|]. split; [reflexivity|].
    split; [|split].
    + cbn [data be_bytes app unpack_BH].
      rewrite !byte_val_of_Z by lia. reflexivity.
    + assert (n / 256 / 256 < 256).
      { apply Z.div_lt_upper_bound; [lia|].
        apply Z.div_lt_upper_bound; lia. }
      rewrite (Z.mod_small (n / 256 / 256)) by
        (split; [apply Z.div_pos; [apply Z.div_pos|]; lia|lia]).
      rewrite Z.shiftl_mul_pow2 by lia.
      assert (L : Z.land (n / 256 / 256 * 2 ^ 16)
                         (256 * ((n / 256) mod 256) + n mod 256) = 0).
      { apply Z.bits_inj'. intros k Hk. rewrite Z.land_spec, Z.bits_0.
        destruct (Z.lt_ge_cases k 16).
        - rewrite Z.mul_pow2_bits_low by lia. reflexivity.
        - rewrite andb_comm.
          replace (Z.testbit (256 * ((n / 256) mod 256) + n mod 256) k)
            with false; [reflexivity|].
          symmetry.
          destruct (Z.eq_dec (256 * ((n / 256) mod 256) + n mod 256) 0)
            as [->|Hnz]; [apply Z.bits_0|].
          apply Z.bits_above_log2; [lia|].
          apply Z.log2_lt_pow2; [lia|].
          assert (2 ^ 16 <= 2 ^ k) by (apply Z.pow_le_mono_r; lia).
          lia. }
      rewrite <- Z.lxor_lor by exact L.
      rewrite <- Z.add_nocarry_lxor by exact L.
      pose proof (Z.div_mod n 256 ltac:(lia)).
      pose proof (Z.div_mod (n / 256) 256 ltac:(lia)). lia.
    + apply (motorola_check_built 0 6 (be_bytes 3 n)); [exact E|lia| |auto].
      rewrite len_be_bytes. lia.
  - intro H. unfold Motorola.build_count, Motorola.fit_count_tag, within.
    destruct (Z.lt_ge_cases n 0); ztest; cbn [andb negb bind];
      [reflexivity|].
    ztest. reflexivity.
Qed.

(** X6: [build_count] stores the record count big-endian in the data of
    a count record at address 0 that passes [check()]: in two bytes under
    tag [COUNT_16] below 2^16, in three bytes under tag [COUNT_24] below
    2^24, from where [check_sequence] reads it back; a negative count or
    one of 2^24 or more raises a count overflow. *)
Theorem build_count_encodes (n : Z) :
  (0 <= n < 2 ^ 16 ->
   exists r,
     Motorola.build_count n = Ok r
     /\ tag r = Some Motorola.COUNT_16 /\ address r = 0
     /\ unpack_be 2 (data r) = Ok n
     /\ Motorola.check r = Ok tt)
  /\ (2 ^ 16 <= n < 2 ^ 24 ->
      exists r u hl,
        Motorola.build_count n = Ok r
        /\ tag r = Some Motorola.COUNT_24 /\ address r = 0
        /\ unpack_BH (data r) = Ok (u, hl)
        /\ Z.lor (Z.shiftl u 16) hl = n
        /\ Motorola.check r = Ok tt)
  /\ (~ 0 <= n < 2 ^ 24 ->
      Motorola.build_count n = Raise (ValueError "count overflow")).
Proof. exact (motorola_build_count_spec n). Qed.

Lemma build_count_encodes_witness :
  exists r,
    Motorola.build_count 4660 = Ok r
    /\ tag r = Some Motorola.COUNT_16 /\ address r = 0
    /\ unpack_be 2 (data r) = Ok 4660
    /\ Motorola.check r = Ok tt.
Proof.
  apply (proj1 (build_count_encodes 4660)). lia.
Defined.

(** ** Intel: [readdress] *)

Lemma readdress_loop_plain (records : list record) (base : Z) :
  forallb (fun r => negb (sets_base r)) records = true ->
  Intel.readdress_loop records base
  = Ok (map (fun r => with_address r (base + address r)) records).
Proof.
  induction records as [|r rest IH]; intro H; [reflexivity|].
  cbn [forallb] in H. apply andb_true_iff in H. destruct H as [Hr H].
  apply negb_true_iff in Hr. unfold sets_base in Hr.
  apply orb_false_iff in Hr. destruct Hr as [H2 H4].
  cbn [Intel.readdress_loop map]. rewrite H2, H4. cbn [bind fst snd].
  rewrite (IH H). reflexivity.
Qed.

Lemma readdress_loop_fields (records : list record) :
  forall (base : Z) (out : list record),
    Intel.readdress_loop records base = Ok out ->
    map tag out = map tag records
    /\ map data out = map data records
    /\ map count out = map count records
    /\ map checksum out = map checksum records.
Proof.
  induction records as [|r rest IH]; intros base out H.
  - injection H as <-. repeat split.
  - cbn [Intel.readdress_loop] in H.
    apply bind_ok in H. destruct H as (ab & _ & H).
    apply bind_ok in H. destruct H as (rs & Hrs & H). injection H as <-.
    destruct (IH _ _ Hrs) as (I1 & I2 & I3 & I4). cbn [map].
    cbn [tag data count checksum]. now rewrite I1, I2, I3, I4.
Qed.

Lemma readdress_loop_returns (records : list record) :
  forall (base : Z),
    (exists out, Intel.readdress_loop records base = Ok out)
    <-> Forall (fun r => sets_base r = true -> len (data r) = 2) records.
Proof.
  induction records as [|r rest IH]; intro base.
  - split; [constructor|]. intros _. now exists [].
  - cbn [Intel.readdress_loop]. unfold sets_base.
    assert (U : forall d : list byte,
               (exists v, unpack_be 2 d = Ok v) <-> len d = 2).
    { intro d. unfold unpack_be. split.
      - intros [v Hv]. apply unless_bind_ok in Hv. destruct Hv as [Hv _].
        apply Nat.eqb_eq in Hv. unfold len. lia.
      - intro Hd. replace (List.length d =? 2)%nat with true
          by (symmetry; apply Nat.eqb_eq; unfold len in Hd; lia).
        cbn [unless bind]. eauto. }
    split.
    + intros [out H].
      apply bind_ok in H. destruct H as (ab & Hab & H).
      apply bind_ok in H. destruct H as (rs & Hrs & H).
      constructor; [|apply (IH (snd ab)); eauto].
      intro Hs. apply U.
      destruct (option_Z_eqb (tag r) (Some Intel.EXTENDED_SEGMENT_ADDRESS)).
      * apply bind_ok in Hab. destruct Hab as (v & Hv & _). eauto.
      * cbn [orb] in Hs. rewrite Hs in Hab.
        apply bind_ok in Hab. destruct Hab as (v & Hv & _). eauto.
    + intro F. inversion F as [|? ? Hr Hrest]; subst.
      destruct (option_Z_eqb (tag r) (Some Intel.EXTENDED_SEGMENT_ADDRESS))
        eqn:E2.
      * destruct (proj2 (U (data r)) (Hr eq_refl)) as [v Hv].
        rewrite Hv. cbn [bind snd].
        destruct (proj2 (IH (Z.shiftl v 4)) Hrest) as [rs Hrs].
        rewrite Hrs. cbn [bind]. eauto.
      * destruct (option_Z_eqb (tag r) (Some Intel.EXTENDED_LINEAR_ADDRESS))
          eqn:E4.
        -- destruct (proj2 (U (data r)) (Hr eq_refl)) as [v Hv].
           rewrite Hv. cbn [bind snd].
           destruct (proj2 (IH (Z.shiftl v 16)) Hrest) as [rs Hrs].
           rewrite Hrs. cbn [bind]. eauto.
        -- cbn [bind snd].
           destruct (proj2 (IH base) Hrest) as [rs Hrs].
           rewrite Hrs. cbn [bind]. eauto.
Qed.

Lemma readdress_loop_app (pre rest : list record) :
  forall (base : Z) (out : list record),
    Intel.readdress_loop (pre ++ rest) base = Ok out ->
    exists base' out1 out2,
      out = out1 ++ out2
      /\ List.length out1 = List.length pre
      /\ Intel.readdress_loop rest base' = Ok out2.
Proof.
  induction pre as [|p pre IH]; intros base out H.
  - exists base, [], out. repeat split. exact H.
  - cbn [app Intel.readdress_loop] in H.
    apply bind_ok in H. destruct H as (ab & _ & H).
    apply bind_ok in H. destruct H as (rs & Hrs & H). injection H as <-.
    destruct (IH _ _ Hrs) as (base' & out1 & out2 & -> & Hl & Ho).
    eexists base', (_ :: out1), out2. repeat split; [|exact Ho].
    cbn [List.length]. now rewrite Hl.
Qed.

Lemma readdress_loop_run (mid rest : list record) (base : Z) :
  forallb (fun r => negb (sets_base r)) mid = true ->
  Intel.readdress_loop (mid ++ rest) base
  = (o <- Intel.readdress_loop rest base ;;
     Ok (map (fun r => with_address r (base + address r)) mid ++ o)).
Proof.
  induction mid as [|r mid IH]; intro H.
  - cbn [app map]. now destruct (Intel.readdress_loop rest base).
  - cbn [forallb] in H. apply andb_true_iff in H. destruct H as [Hr H].
    apply negb_true_iff in Hr. unfold sets_base in Hr.
    apply orb_false_iff in Hr. destruct Hr as [H2 H4].
    cbn [app Intel.readdress_loop map]. rewrite H2, H4. cbn [bind fst snd].
    rewrite (IH H). now destruct (Intel.readdress_loop rest base).
Qed.

(** X7: Intel [readdress] returns exactly when every extended segment
    or linear address record has two data bytes (a [struct.error]
    otherwise); it keeps the number of records and their tag, data, count
    and checksum; without such records it changes nothing; the records
    before the first extended address record keep their address; and the
    records that follow an extended linear (segment) address record of
    value [v], up to the next such record, get their address increased by
    [v << 16] ([v << 4]), whatever came before and whatever follows, the
    record itself getting that base as its address. *)
Theorem readdress_bases (records : list record) :
  ((exists out, Intel.readdress records = Ok out)
   <-> Forall (fun r => sets_base r = true -> len (data r) = 2) records)
  /\ (forall out,
         Intel.readdress records = Ok out ->
         map tag out = map tag records
         /\ map data out = map data records
         /\ map count out = map count records
         /\ map checksum out = map checksum records)
  /\ (forallb (fun r => negb (sets_base r)) records = true ->
      Intel.readdress records = Ok records)
  /\ (forall mid rest out,
         records = mid ++ rest ->
         Intel.readdress records = Ok out ->
         forallb (fun r => negb (sets_base r)) mid = true ->
         firstn (List.length mid) out = mid)
  /\ (forall pre x mid rest out v,
         records = pre ++ x :: mid ++ rest ->
         Intel.readdress records = Ok out ->
         sets_base x = true ->
         unpack_be 2 (data x) = Ok v ->
         forallb (fun r => negb (sets_base r)) mid = true ->
         let base :=
           if option_Z_eqb (tag x) (Some Intel.EXTENDED_SEGMENT_ADDRESS)
           then Z.shiftl v 4 else Z.shiftl v 16 in
         firstn (S (List.length mid)) (skipn (List.length pre) out)
         = with_address x base
             :: map (fun r => with_address r (base + address r)) mid).
Proof.
  assert (Hid : forall l : list record,
             map (fun r => with_address r (0 + address r)) l = l).
  { intro l. rewrite <- (map_id l) at 2. apply map_ext.
    intro r. unfold with_address. now destruct r. }
  unfold Intel.readdress. split; [apply readdress_loop_returns|].
  split; [apply readdress_loop_fields|]. split; [|split].
  - intro H. rewrite (readdress_loop_plain _ _ H). f_equal. apply Hid.
  - intros mid rest out -> H Hmid.
    rewrite (readdress_loop_run mid rest 0 Hmid) in H.
    apply bind_ok in H. destruct H as (o & _ & H). injection H as <-.
    rewrite Hid. apply firstn_length_app.
  - intros pre x mid rest out v -> H Hx Hv Hmid.
    destruct (readdress_loop_app _ _ _ _ H)
      as (base' & out1 & out2 & -> & Hl & Ho).
    rewrite <- Hl, skipn_length_app.
    cbn [Intel.readdress_loop] in Ho. rewrite Hv in Ho. cbn [bind] in Ho.
    unfold sets_base in Hx.
    destruct (option_Z_eqb (tag x) (Some Intel.EXTENDED_SEGMENT_ADDRESS)).
    + cbn [bind fst snd] in Ho.
      rewrite (readdress_loop_run mid rest _ Hmid) in Ho.
      apply bind_ok in Ho. destruct Ho as (rs & Hrs & Ho).
      apply bind_ok in Hrs. destruct Hrs as (o & _ & Hrs).
      injection Hrs as <-. injection Ho as <-.
      cbn [firstn]. f_equal.
      rewrite <- (length_map (fun r => with_address r (Z.shiftl v 4 + address r))
                    mid).
      apply firstn_length_app.
    + cbn [orb] in Hx. rewrite Hx in Ho. cbn [bind fst snd] in Ho.
      rewrite (readdress_loop_run mid rest _ Hmid) in Ho.
      apply bind_ok in Ho. destruct Ho as (rs & Hrs & Ho).
      apply bind_ok in Hrs. destruct Hrs as (o & _ & Hrs).
      injection Hrs as <-. injection Ho as <-.
      cbn [firstn]. f_equal.
      rewrite <- (length_map (fun r => with_address r (Z.shiftl v 16 + address r))
                    mid).
      apply firstn_length_app.
Qed.

Lemma readdress_bases_witness :
  exists out,
    Intel.readdress
      [mkRecord 0 (Some 4) [x00; x01] 2 None;
       mkRecord 16 (Some 0) [x41] 1 None;
       mkRecord 0 (Some 4) [x00; x02] 2 None;
       mkRecord 32 (Some 0) [x42] 1 None] = Ok out
    /\ firstn 2 (skipn 0 out)
       = [mkRecord 65536 (Some 4) [x00; x01] 2 None;
          mkRecord 65552 (Some 0) [x41] 1 None]
    /\ firstn 2 (skipn 2 out)
       = [mkRecord 131072 (Some 4) [x00; x02] 2 None;
          mkRecord 131104 (Some 0) [x42] 1 None].
Proof.
  eexists. split; [reflexivity|].
  destruct (readdress_bases
              [mkRecord 0 (Some 4) [x00; x01] 2 None;
               mkRecord 16 (Some 0) [x41] 1 None;
               mkRecord 0 (Some 4) [x00; x02] 2 None;
               mkRecord 32 (Some 0) [x42] 1 None]) as (_ & _ & _ & _ & H).
  split.
  - apply (H [] (mkRecord 0 (Some 4) [x00; x01] 2 None)
             [mkRecord 16 (Some 0) [x41] 1 None]
             [mkRecord 0 (Some 4) [x00; x02] 2 None;
              mkRecord 32 (Some 0) [x42] 1 None] _ 1); reflexivity.
  - apply (H [mkRecord 0 (Some 4) [x00; x01] 2 None;
              mkRecord 16 (Some 0) [x41] 1 None]
             (mkRecord 0 (Some 4) [x00; x02] 2 None)
             [mkRecord 32 (Some 0) [x42] 1 None] [] _ 2); reflexivity.
Defined.


(** ** Lines with white space around them *)

Lemma lstrip_spaces (ws s : text) :
  forallb is_space ws = true -> lstrip (ws ++ s) = lstrip s.
Proof.
  induction ws as [|c ws IH]; intro H; [reflexivity|].
  cbn [forallb] in H. apply andb_true_iff in H. destruct H as [Hc H].
  cbn [app lstrip]. rewrite Hc. now apply IH.
Qed.

Lemma lstrip_app (s w : text) :
  lstrip s <> [] -> lstrip (s ++ w) = lstrip s ++ w.
Proof.
  induction s as [|c s IH]; intro H; [now contradiction H|].
  cbn [app lstrip] in *. destruct (is_space c); [now apply IH|reflexivity].
Qed.

Lemma forallb_rev {A : Type} (p : A -> bool) (l : list A) :
  forallb p (rev l) = forallb p l.
Proof.
  induction l as [|x l IH]; [reflexivity|].
  cbn [rev forallb]. rewrite forallb_app, IH. cbn [forallb].
  rewrite andb_true_r. apply andb_comm.
Qed.

Lemma strip_spaces (ws1 s ws2 : text) :
  forallb is_space ws1 = true -> forallb is_space ws2 = true ->
  strip (ws1 ++ s ++ ws2) = strip s.
Proof.
  intros H1 H2. unfold strip. rewrite (lstrip_spaces ws1 _ H1).
  destruct (lstrip s) as [|c t] eqn:E.
  - assert (K : lstrip (s ++ ws2) = []).
    { clear H1. induction s as [|x s IH].
      - cbn [app]. rewrite <- (app_nil_r ws2). now rewrite lstrip_spaces.
      - cbn [app lstrip] in *. destruct (is_space x); [now apply IH|].
        discriminate. }
    now rewrite K.
  - rewrite lstrip_app by (rewrite E; discriminate). rewrite E.
    rewrite rev_app_distr. rewrite lstrip_spaces; [reflexivity|].
    now rewrite forallb_rev.
Qed.

Lemma parse_record_strip_eq (f : Format) (l1 l2 : text) :
  strip l1 = strip l2 ->
  @rt_parse_record (record_type f) l1 = @rt_parse_record (record_type f) l2.
Proof.
  intro H. destruct f; cbn [record_type rt_parse_record IntelRecord
                            MotorolaRecord MosRecord].
  - unfold Intel.parse_record. now rewrite H.
  - unfold Motorola.parse_record. now rewrite H.
  - unfold Mos.parse_record. now rewrite H.
Qed.

(** X8: [parse_record] of every format ignores the white space around a
    line (blanks, tabs, the line end that iterating over a file leaves):
    the line with white space before and after it parses to what the line
    itself parses to, be it a record or an exception. *)
Theorem parse_record_ignores_spaces (f : Format) (ws1 line ws2 : text) :
  forallb is_space ws1 = true -> forallb is_space ws2 = true ->
  @rt_parse_record (record_type f) (ws1 ++ line ++ ws2)
  = @rt_parse_record (record_type f) line.
Proof.
  intros H1 H2. apply parse_record_strip_eq. now apply strip_spaces.
Qed.

Lemma parse_record_ignores_spaces_witness :
  @rt_parse_record (record_type IntelHex)
    (lit "  " ++ lit ":00000001FF" ++ LINE_SEP)
  = @rt_parse_record (record_type IntelHex) (lit ":00000001FF").
Proof.
  apply (parse_record_ignores_spaces IntelHex); reflexivity.
Defined.

(** ** Records written to a stream and read back *)

Lemma is_hex_no_newline (c : ascii) :
  is_hex c = true -> negb (code c =? 10) = true.
Proof.
  destruct c as [[|] [|] [|] [|] [|] [|] [|] [|]]; intro H;
    first [reflexivity | discriminate H].
Qed.

Lemma forallb_impl {A : Type} (p q : A -> bool) (l : list A) :
  (forall x, p x = true -> q x = true) ->
  forallb p l = true -> forallb q l = true.
Proof.
  intros Hpq H. rewrite forallb_forall in *. auto.
Qed.

Lemma hex_fixed_no_newline (k : nat) (n : Z) :
  forallb (fun c => negb (code c =? 10)) (hex_fixed k n) = true.
Proof.
  apply (forallb_impl is_hex); [apply is_hex_no_newline|].
  apply hex_fixed_all_hex.
Qed.

Lemma format_X_no_newline (w : nat) (n : Z) :
  forallb (fun c => negb (code c =? 10)) (format_X w n) = true.
Proof.
  unfold format_X. destruct (n <? 0); [cbn [forallb]|];
    now rewrite hex_fixed_no_newline.
Qed.

Lemma hexlify_no_newline (d : list byte) :
  forallb (fun c => negb (code c =? 10)) (hexlify d) = true.
Proof.
  apply (forallb_impl is_hex); [apply is_hex_no_newline|].
  apply hexlify_all_hex.
Qed.

Ltac ok_inj H :=
  match type of H with
  | Ok ?l = Ok ?x =>
      let E := fresh "E" in
      assert (E : l = x) by congruence; clear H; subst x
  end.

Lemma marshal_no_newline (f : Format) (r : record) (line : text) :
  @rt_marshal (record_type f) r = Ok line ->
  forallb (fun c => negb (code c =? 10)) line = true.
Proof.
  destruct f; cbn [record_type rt_marshal IntelRecord MotorolaRecord
                   MosRecord]; intro H.
  - unfold Intel.marshal in H.
    apply bind_ok in H. destruct H as ([] & _ & H).
    destruct (tag r) as [t|]; [|discriminate].
    apply bind_ok in H. destruct H as (s & _ & H). ok_inj H.
    rewrite !forallb_app, !format_X_no_newline, hexlify_no_newline.
    reflexivity.
  - unfold Motorola.marshal in H.
    apply bind_ok in H. destruct H as ([] & Hc & H).
    destruct (motorola_check_facts r Hc) as (_ & t & al & Et & Rt & Eal & _).
    rewrite Et in H.
    apply bind_ok in H. destruct H as (al' & Hal & H).
    destruct (motorola_tag_facts t Rt) as (al'' & c & _ & _ & Ed & _ & Hd).
    rewrite Ed in H.
    assert (Hc10 : negb (code c =? 10) = true).
    { unfold is_digit in Hd. apply between_spec in Hd.
      apply negb_true_iff, Z.eqb_neq. lia. }
    assert (Hdrop : forall k w n,
               forallb (fun c => negb (code c =? 10))
                       (drop k (format_X w n)) = true).
    { intros k w n. unfold drop.
      pose proof (format_X_no_newline w n) as K.
      rewrite <- (firstn_skipn (norm_index (format_X w n) k)) in K at 1.
      rewrite forallb_app in K. now apply andb_true_iff in K. }
    destruct al' as [x|].
    + apply bind_ok in H. destruct H as (s & _ & H). ok_inj H.
      rewrite !forallb_app, !format_X_no_newline, hexlify_no_newline, Hdrop.
      cbn [lit list_ascii_of_string forallb]. now rewrite Hc10.
    + apply bind_ok in H. destruct H as (s & _ & H). ok_inj H.
      rewrite !forallb_app, !format_X_no_newline, hexlify_no_newline.
      cbn [lit list_ascii_of_string forallb]. now rewrite Hc10.
  - unfold Mos.marshal in H.
    apply bind_ok in H. destruct H as (s & _ & H). ok_inj H.
    rewrite !forallb_app, !format_X_no_newline, hexlify_no_newline.
    reflexivity.
Qed.

Lemma is_hex_no_cr (c : ascii) :
  is_hex c = true -> negb (code c =? 13) = true.
Proof.
  destruct c as [[|] [|] [|] [|] [|] [|] [|] [|]]; intro H;
    first [reflexivity | discriminate H].
Qed.

Lemma hex_fixed_no_cr (k : nat) (n : Z) :
  forallb (fun c => negb (code c =? 13)) (hex_fixed k n) = true.
Proof.
  apply (forallb_impl is_hex); [apply is_hex_no_cr|].
  apply hex_fixed_all_hex.
Qed.

Lemma format_X_no_cr (w : nat) (n : Z) :
  forallb (fun c => negb (code c =? 13)) (format_X w n) = true.
Proof.
  unfold format_X. destruct (n <? 0); [cbn [forallb]|];
    now rewrite hex_fixed_no_cr.
Qed.

Lemma hexlify_no_cr (d : list byte) :
  forallb (fun c => negb (code c =? 13)) (hexlify d) = true.
Proof.
  apply (forallb_impl is_hex); [apply is_hex_no_cr|].
  apply hexlify_all_hex.
Qed.

Lemma marshal_no_cr (f : Format) (r : record) (line : text) :
  @rt_marshal (record_type f) r = Ok line ->
  forallb (fun c => negb (code c =? 13)) line = true.
Proof.
  destruct f; cbn [record_type rt_marshal IntelRecord MotorolaRecord
                   MosRecord]; intro H.
  - unfold Intel.marshal in H.
    apply bind_ok in H. destruct H as ([] & _ & H).
    destruct (tag r) as [t|]; [|discriminate].
    apply bind_ok in H. destruct H as (s & _ & H). ok_inj H.
    rewrite !forallb_app, !format_X_no_cr, hexlify_no_cr.
    reflexivity.
  - unfold Motorola.marshal in H.
    apply bind_ok in H. destruct H as ([] & Hc & H).
    destruct (motorola_check_facts r Hc) as (_ & t & al & Et & Rt & Eal & _).
    rewrite Et in H.
    apply bind_ok in H. destruct H as (al' & Hal & H).
    destruct (motorola_tag_facts t Rt) as (al'' & c & _ & _ & Ed & _ & Hd).
    rewrite Ed in H.
    assert (Hc13 : negb (code c =? 13) = true).
    { unfold is_digit in Hd. apply between_spec in Hd.
      apply negb_true_iff, Z.eqb_neq. lia. }
    assert (Hdrop : forall k w n,
               forallb (fun c => negb (code c =? 13))
                       (drop k (format_X w n)) = true).
    { intros k w n. unfold drop.
      pose proof (format_X_no_cr w n) as K.
      rewrite <- (firstn_skipn (norm_index (format_X w n) k)) in K at 1.
      rewrite forallb_app in K. now apply andb_true_iff in K. }
    destruct al' as [x|].
    + apply bind_ok in H. destruct H as (s & _ & H). ok_inj H.
      rewrite !forallb_app, !format_X_no_cr, hexlify_no_cr, Hdrop.
      cbn [lit list_ascii_of_string forallb]. now rewrite Hc13.
    + apply bind_ok in H. destruct H as (s & _ & H). ok_inj H.
      rewrite !forallb_app, !format_X_no_cr, hexlify_no_cr.
      cbn [lit list_ascii_of_string forallb]. now rewrite Hc13.
  - unfold Mos.marshal in H.
    apply bind_ok in H. destruct H as (s & _ & H). ok_inj H.
    rewrite !forallb_app, !format_X_no_cr, hexlify_no_cr.
    reflexivity.
Qed.

Lemma universal_newlines_plain (s : text) :
  forallb (fun c => negb (code c =? 13)) s = true ->
  universal_newlines s = s.
Proof.
  induction s as [|c s IH]; intro H; [reflexivity|].
  cbn [forallb] in H. apply andb_true_iff in H. destruct H as [Hc H].
  apply negb_true_iff in Hc. cbn [universal_newlines]. rewrite Hc.
  now rewrite (IH H).
Qed.

Lemma write_records_no_cr (f : Format) (records : list record) :
  forall stream,
    @write_records (record_type f) records = Ok stream ->
    forallb (fun c => negb (code c =? 13)) stream = true.
Proof.
  induction records as [|r rest IH]; intros stream H.
  - injection H as <-. reflexivity.
  - cbn [write_records] in H.
    apply bind_ok in H. destruct H as (line & Hl & H).
    apply bind_ok in H. destruct H as (more & Hm & H). injection H as <-.
    rewrite forallb_app, (marshal_no_cr f r line Hl).
    unfold LINE_SEP. cbn [app forallb]. now rewrite (IH more Hm).
Qed.

(** Loading what was written: the text holds no carriage return, so the
    file read in text mode is the text written. *)
Lemma load_written_records (f : Format) (records : list record)
  (stream : text) :
  @write_records (record_type f) records = Ok stream ->
  load_blocks f stream = read_blocks f stream.
Proof.
  intro H. unfold load_blocks.
  now rewrite (universal_newlines_plain _ (write_records_no_cr f _ _ H)).
Qed.

Lemma load_written_blocks (f : Format) (blocks : list block) (stream : text) :
  write_blocks f blocks = Ok stream ->
  load_blocks f stream = read_blocks f stream.
Proof.
  unfold write_blocks. intro H.
  apply bind_ok in H. destruct H as (records & _ & H).
  now apply (load_written_records f records).
Qed.

Lemma stream_lines_line (line more : text) :
  forallb (fun c => negb (code c =? 10)) line = true ->
  stream_lines (line ++ LINE_SEP ++ more)
  = (line ++ LINE_SEP) :: stream_lines more.
Proof.
  induction line as [|c line IH]; intro H; [reflexivity|].
  cbn [forallb] in H. apply andb_true_iff in H. destruct H as [Hc H].
  apply negb_true_iff in Hc. cbn [app stream_lines]. rewrite Hc.
  now rewrite (IH H).
Qed.

Lemma Record_init_count (cc cs : record -> result Z) (a : Z) (t : option Z)
  (d : list byte) (c : checksum_arg) (r : record) :
  Record_init cc cs a t d c = Ok r ->
  cc (mkRecord a t d 0 None) = Ok (count r).
Proof.
  unfold Record_init. intro H. apply bind_ok in H. destruct H as (x & Hx & H).
  destruct c as [|s].
  - apply bind_ok in H. destruct H as (s & _ & H). now injection H as <-.
  - now injection H as <-.
Qed.

Lemma mos_parse_count (line : text) (r : record) :
  Mos.parse_record line = Ok r -> count r = len (data r).
Proof.
  unfold Mos.parse_record. intro H.
  destruct (Mos.regex_match (strip line)) as [[[[g1 g2] g3] g4]|];
    [|discriminate].
  apply bind_ok in H. destruct H as (a & _ & H).
  apply bind_ok in H. destruct H as (c & _ & H).
  apply bind_ok in H. destruct H as (d & _ & H).
  apply bind_ok in H. destruct H as (s & _ & H).
  apply unless_bind_ok in H. destruct H as [_ H].
  unfold Mos.init in H. pose proof (Record_init_fields _ _ _ _ _ _ _ H) as F.
  apply Record_init_count in H. unfold Mos.compute_count in H.
  cbn [data] in H. destruct F as (_ & _ & ->). congruence.
Qed.

(** A record that passes [check()] and fits a line comes back from its
    line with its address, tag and data, and as a data record or not as
    before. *)
Lemma format_roundtrip (f : Format) (r : record) :
  @rt_check (record_type f) r = Ok tt -> fits_line f r ->
  exists line r',
    @rt_marshal (record_type f) r = Ok line
    /\ @rt_parse_record (record_type f) line = Ok r'
    /\ address r' = address r /\ tag r' = tag r /\ data r' = data r
    /\ @rt_is_data (record_type f) r' = @rt_is_data (record_type f) r.
Proof.
  intros Hc Hf.
  destruct f; cbn [record_type rt_check rt_marshal rt_parse_record rt_is_data
                   IntelRecord MotorolaRecord MosRecord fits_line] in *.
  - destruct (intel_roundtrip r Hc) as (line & r' & Em & Ep & Ea & Et & Ed).
    exists line, r'. split; [exact Em|]. split; [exact Ep|].
    split; [|split; [exact Et|split; [exact Ed|]]].
    + rewrite Ea. apply Z.mod_small.
      destruct (intel_check_facts r Hc) as (Ha & _). lia.
    + unfold Intel.is_data. now rewrite Et.
  - destruct Hf as [Hf1 Hf2].
    destruct (motorola_roundtrip r Hc Hf1 Hf2)
      as (line & r' & Em & Ep & Ea & Et & Ed).
    exists line, r'. split; [exact Em|]. split; [exact Ep|].
    split; [exact Ea|split; [exact Et|split; [exact Ed|]]].
    unfold Motorola.is_data. now rewrite Et.
  - destruct (mos_roundtrip r Hc) as (line & r' & Em & Ep & Ea & Et & Ed).
    exists line, r'. split; [exact Em|]. split; [exact Ep|].
    split; [exact Ea|split; [exact Et|split; [exact Ed|]]].
    unfold Mos.is_data. rewrite (mos_parse_count line r' Ep), Ed.
    destruct (mos_check_facts r Hc) as (_ & _ & -> & _). reflexivity.
Qed.

(** What is read back from the stream that [write_records] fills. *)
Lemma read_write_fields (f : Format) (records : list record) :
  Forall (fun r => @rt_check (record_type f) r = Ok tt /\ fits_line f r)
         records ->
  exists stream records',
    @write_records (record_type f) records = Ok stream
    /\ @read_records (record_type f) stream = Ok records'
    /\ Forall2 (fun r' r =>
                  address r' = address r /\ tag r' = tag r
                  /\ data r' = data r
                  /\ @rt_is_data (record_type f) r'
                     = @rt_is_data (record_type f) r) records' records.
Proof.
  induction 1 as [|r rest [Hc Hf] Hrest IH].
  - exists [], []. repeat split. constructor.
  - destruct IH as (more & rest' & Ew & Er & F).
    destruct (format_roundtrip f r Hc Hf) as (line & r' & Em & Ep & K).
    cbn [write_records]. rewrite Em, Ew. cbn [bind].
    eexists. exists (r' :: rest'). split; [reflexivity|]. split.
    + unfold read_records in *.
      rewrite stream_lines_line by now apply (marshal_no_newline f r).
      cbn [mapM]. unfold unmarshal at 1.
      rewrite (parse_record_strip_eq f (line ++ LINE_SEP) line)
        by (now apply (strip_spaces [] line LINE_SEP)).
      rewrite Ep, Er. reflexivity.
    + now constructor.
Qed.

(** X9: records that pass [check()] and fit a line can be written to a
    stream with [write_records], and [read_records] reads from that stream
    as many records, each equal to the one written (as the docstring of
    [load_records] has it: [load_records(path) == records] after
    [save_records(path, records)]). *)
Theorem read_write_records (f : Format) (records : list record) :
  Forall (fun r => @rt_check (record_type f) r = Ok tt /\ fits_line f r)
         records ->
  exists stream records',
    @write_records (record_type f) records = Ok stream
    /\ @read_records (record_type f) stream = Ok records'
    /\ Forall2 (fun r' r => Record_eq r' r = true) records' records.
Proof.
  intro H. destruct (read_write_fields f records H)
    as (stream & records' & Ew & Er & F).
  exists stream, records'. split; [exact Ew|]. split; [exact Er|].
  eapply Forall2_impl; [|exact F]. intros r' r (Ha & Et & Ed & _).
  now apply Record_eq_fields.
Qed.

Lemma read_write_records_witness :
  exists stream records',
    @write_records (record_type MotorolaSrec)
      [mkRecord 4660 (Some 1) (list_byte_of_string "Hello, World!")
         16 (Some 64);
       mkRecord 4660 (Some 9) [] 3 (Some 182)] = Ok stream
    /\ @read_records (record_type MotorolaSrec) stream = Ok records'
    /\ Forall2 (fun r' r => Record_eq r' r = true) records'
         [mkRecord 4660 (Some 1) (list_byte_of_string "Hello, World!")
            16 (Some 64);
          mkRecord 4660 (Some 9) [] 3 (Some 182)].
Proof.
  apply (read_write_records MotorolaSrec).
  repeat constructor; try reflexivity; vm_compute; congruence.
Defined.


(** ** Blocks written to a stream and read back *)

Lemma pack_be_inv (n : nat) (v : Z) (d : list byte) :
  pack_be n v = Ok d -> d = be_bytes n v /\ 0 <= v < 256 ^ Z.of_nat n.
Proof.
  unfold pack_be. intro H. apply unless_bind_ok in H. destruct H as [R H].
  apply within_spec in R. now injection H as <-.
Qed.

Lemma unpack_be_2 (v : Z) :
  0 <= v < 65536 -> unpack_be 2 (be_bytes 2 v) = Ok v.
Proof.
  intro H.
  cbn [be_bytes app unpack_be List.length Nat.eqb unless bind fold_left].
  pose proof (Z.mod_pos_bound v 256 ltac:(lia)).
  pose proof (Z.mod_pos_bound (v / 256) 256 ltac:(lia)).
  rewrite !byte_val_of_Z by lia. f_equal.
  assert (v / 256 < 256) by (apply Z.div_lt_upper_bound; lia).
  rewrite (Z.mod_small (v / 256)) by (split; [apply Z.div_pos; lia|lia]).
  pose proof (Z.div_mod v 256 ltac:(lia)). lia.
Qed.

(** *** Intel: the records that [split] builds *)

Lemma intel_init_inv (a t : Z) (d : list byte) (r : record) :
  Intel.init a (Some t) d Ellipsis = Ok r ->
  address r = a /\ tag r = Some t /\ data r = d
  /\ 0 <= a < 2 ^ 32 /\ a + len d <= 2 ^ 32
  /\ (len d <= 255 -> Intel.check r = Ok tt).
Proof.
  unfold Intel.init. intro H.
  apply unless_bind_ok in H. destruct H as [Ha H]. apply within_spec in Ha.
  apply unless_bind_ok in H. destruct H as [He H]. apply between_spec in He.
  apply bind_ok in H. destruct H as (t' & Ht & H).
  unfold Intel.TAG_TYPE in Ht. destruct (between 0 t 5) eqn:Bt; [|discriminate].
  injection Ht as <-. apply between_spec in Bt.
  unfold Record_init in H.
  apply bind_ok in H. destruct H as (c & Hc & H).
  unfold Intel.compute_count in Hc. injection Hc as <-. cbn [data] in H.
  apply bind_ok in H. destruct H as (s & Hs & H). injection H as <-.
  cbn [address tag data]. repeat split; try lia.
  intro Hl. pose proof (len_nonneg d).
  destruct (intel_compute_checksum_range
              (mkRecord a (Some t) d (len d) None) t eq_refl)
    as (s' & Es & Rs).
  rewrite Hs in Es. injection Es as <-.
  unfold Intel.check, Record_check, Intel.compute_count.
  cbn [address tag data count checksum].
  change (Intel.compute_checksum (mkRecord a (Some t) d (len d) (Some s)))
    with (Intel.compute_checksum (mkRecord a (Some t) d (len d) None)).
  rewrite Hs. unfold between. ztest. cbn [andb unless bind].
  rewrite intel_tag_type_ok by lia. rewrite !Z.eqb_refl. reflexivity.
Qed.

Lemma intel_build_data_inv (a : Z) (d : list byte) (r : record) :
  Intel.build_data a d = Ok r ->
  address r = a /\ tag r = Some 0 /\ data r = d
  /\ (len d <= 255 -> Intel.check r = Ok tt).
Proof.
  unfold Intel.build_data, Intel.DATA. intro H.
  apply intel_init_inv in H. tauto.
Qed.

Lemma intel_build_ela_inv (a : Z) (r : record) :
  Intel.build_extended_linear_address a = Ok r ->
  address r = 0 /\ tag r = Some 4 /\ data r = be_bytes 2 (a / 65536)
  /\ 0 <= a / 65536 < 65536
  /\ Intel.check r = Ok tt.
Proof.
  unfold Intel.build_extended_linear_address. intro H.
  apply unless_bind_ok in H. destruct H as [_ H].
  apply bind_ok in H. destruct H as (d & Hd & H).
  apply pack_be_inv in Hd. destruct Hd as [-> R].
  rewrite Z.shiftr_div_pow2 in * by lia. change (2 ^ 16) with 65536 in *.
  change (256 ^ Z.of_nat 2) with 65536 in R.
  apply intel_init_inv in H. destruct H as (H1 & H2 & H3 & _ & _ & H6).
  repeat split; try assumption; try lia.
  apply H6. rewrite len_be_bytes. lia.
Qed.

Lemma readdress_step_plain (p : record) (l : list record) (base : Z) :
  sets_base p = false ->
  Intel.readdress_loop (p :: l) base
  = (rs <- Intel.readdress_loop l base ;;
     Ok (with_address p (base + address p) :: rs)).
Proof.
  intro H. unfold sets_base in H. apply orb_false_iff in H.
  destruct H as [H2 H4]. cbn [Intel.readdress_loop]. rewrite H2, H4.
  reflexivity.
Qed.

Lemma readdress_step_ela (p : record) (l : list record) (base v : Z) :
  tag p = Some 4 -> unpack_be 2 (data p) = Ok v ->
  Intel.readdress_loop (p :: l) base
  = (rs <- Intel.readdress_loop l (Z.shiftl v 16) ;;
     Ok (with_address p (Z.shiftl v 16) :: rs)).
Proof.
  intros Ht Hv. destruct p as [pa pt pd pc ps]. cbn [tag data] in Ht, Hv.
  subst pt. cbn [Intel.readdress_loop tag data]. rewrite Hv. reflexivity.
Qed.

Lemma bind_cons_app {A : Type} (c : result (list A)) (q : A) (out : list A) :
  (rs <- (o2 <- c ;; Ok (out ++ o2)) ;; Ok (q :: rs))
  = (o2 <- c ;; Ok ((q :: out) ++ o2)).
Proof. now destruct c. Qed.

Lemma sets_base_tag (p : record) (t : Z) :
  tag p = Some t -> t <> 2 -> t <> 4 -> sets_base p = false.
Proof.
  intros Ht H2 H4. unfold sets_base. rewrite Ht.
  cbn [option_Z_eqb]. unfold Intel.EXTENDED_SEGMENT_ADDRESS,
    Intel.EXTENDED_LINEAR_ADDRESS. ztest. reflexivity.
Qed.

Lemma intel_is_data_tag (r : record) (t : Z) :
  tag r = Some t -> Intel.is_data r = (t =? 0).
Proof. intro H. unfold Intel.is_data. now rewrite H. Qed.

Lemma Forall2_cons_r {A B : Type} (R : A -> B -> Prop) (l : list A) (y : B)
  (ys : list B) :
  Forall2 R l (y :: ys) ->
  exists x xs, l = x :: xs /\ R x y /\ Forall2 R xs ys.
Proof. intro H. inversion H; subst. eauto. Qed.

(** Reading back the records of the loop of [split]: with the right base
    when the loop starts, or with a first chunk that stays in its page and
    gets its extended linear address record, [readdress] gives the data
    records their addresses back. *)
Lemma intel_split_loop_reload (chunks : list (list byte)) :
  forall (a old base : Z) (recs : list record),
    0 <= a -> (chunks <> [] -> a < 2 ^ 32) ->
    a + len (List.concat chunks) <= 2 ^ 32 ->
    0 <= old < 2 ^ 32 ->
    Forall (fun c => c <> [] /\ len c <= 255) chunks ->
    (base = a / 65536 * 65536
     \/ (a / 65536 <> old / 65536
         /\ match chunks with
            | c :: _ => a / 65536 = (a + len c - 1) / 65536
            | [] => True
            end)) ->
    Intel.split_loop chunks a old = Ok recs ->
    Forall (fun r => Intel.check r = Ok tt) recs
    /\ forall parsed tail,
         Forall2 line_image parsed recs ->
         exists out1 base',
           Intel.readdress_loop (parsed ++ tail) base
           = (o2 <- Intel.readdress_loop tail base' ;; Ok (out1 ++ o2))
           /\ map block_of (filter Intel.is_data out1)
              = map block_of (filter Intel.is_data recs).
Proof.
  induction chunks as [|c rest IH];
    intros a old base recs Ha Ha32 Hend Hold Hch Hbase H.
  - injection H as <-. split; [constructor|].
    intros parsed tail F. inversion F; subst. exists [], base.
    split; [|reflexivity]. cbn [app]. now destruct (Intel.readdress_loop _ _).
  - specialize (Ha32 ltac:(discriminate)).
    rewrite len_concat_cons in Hend.
    pose proof (len_nonneg (List.concat rest)) as Hr0.
    inversion Hch as [|? ? [Hcne Hc] Hrest]; subst.
    apply len_pos in Hcne.
    assert (Hnext : rest <> [] -> a + len c < 2 ^ 32).
    { destruct rest as [|c' rest']; [congruence|intros _].
      inversion Hrest as [|? ? [Hc' _] _]; subst.
      apply len_pos in Hc'. rewrite len_concat_cons in Hend.
      pose proof (len_nonneg (List.concat rest')). lia. }
    assert (Hpa : (a / 65536) mod 65536 = a / 65536).
    { apply Z.mod_small. split; [apply Z.div_pos; lia|].
      apply Z.div_lt_upper_bound; lia. }
    assert (Hpo : (old / 65536) mod 65536 = old / 65536).
    { apply Z.mod_small. split; [apply Z.div_pos; lia|].
      apply Z.div_lt_upper_bound; lia. }
    cbn [Intel.split_loop] in H. rewrite land_ffff, !mask_pagesb in H.
    destruct (negb ((a + len c) mod 65536 =? 0)
              && negb ((a / 65536) mod 65536
                       =? ((a + len c) / 65536) mod 65536)) eqn:Hcross.
    + apply andb_true_iff in Hcross. destruct Hcross as [H1 H2].
      apply negb_true_iff, Z.eqb_neq in H1.
      apply negb_true_iff, Z.eqb_neq in H2.
      destruct (cross_arith a (len c) Ha ltac:(lia) ltac:(lia) H1 H2)
        as (Hp & Hpg1 & Hpg2 & Hp32).
      set (pivot := len c - (a + len c) mod 65536) in *.
      assert (Hb : base = a / 65536 * 65536).
      { destruct Hbase as [Hb|[_ Hb]]; [exact Hb|].
        exfalso. apply H2. rewrite Hpa.
        change (2 ^ 32) with 4294967296 in *.
        clear - Hb H1 Ha Ha32. Z.div_mod_to_equations. lia. }
      assert (Hlt : len (take pivot c) = pivot)
        by (rewrite len_take by lia; lia).
      assert (Hld : len (drop pivot c) = len c - pivot)
        by (rewrite len_drop by lia; lia).
      apply bind_ok in H. destruct H as (r1 & E1 & H).
      apply bind_ok in H. destruct H as (r2 & E2 & H).
      apply bind_ok in H. destruct H as (r3 & E3 & H).
      apply bind_ok in H. destruct H as (rs & Ers & H). injection H as <-.
      apply intel_build_data_inv in E1. destruct E1 as (A1 & T1 & D1 & C1).
      apply intel_build_ela_inv in E2.
      destruct E2 as (A2 & T2 & D2 & R2 & C2).
      apply intel_build_data_inv in E3. destruct E3 as (A3 & T3 & D3 & C3).
      assert (Hpb : (a + pivot) mod 65536 = 0).
      { unfold pivot.
        replace (a + (len c - (a + len c) mod 65536))
          with ((a + len c) / 65536 * 65536)
          by (clear; Z.div_mod_to_equations; lia).
        apply Z.mod_mul. lia. }
      destruct (IH (a + pivot + (a + len c) mod 65536) (a + pivot)
                  ((a + pivot) / 65536 * 65536) rs)
        as (Fc & Hre);
        [lia|intro K; specialize (Hnext K); lia|lia|lia|assumption| |exact Ers|].
      { left. f_equal.
        replace (a + pivot + (a + len c) mod 65536) with (a + len c)
          by (unfold pivot; lia).
        rewrite Hpg2. clear - H1. Z.div_mod_to_equations. lia. }
      split.
      { constructor; [apply C1; lia|]. constructor; [exact C2|].
        constructor; [apply C3; lia|exact Fc]. }
      intros parsed tail F.
      apply Forall2_cons_r in F. destruct F as (p1 & ps1 & -> & I1 & F1).
      apply Forall2_cons_r in F1. destruct F1 as (p2 & ps2 & -> & I2 & F2).
      apply Forall2_cons_r in F2. destruct F2 as (p3 & ps3 & -> & I3 & F3).
      destruct I1 as (PA1 & PT1 & PD1). destruct I2 as (PA2 & PT2 & PD2).
      destruct I3 as (PA3 & PT3 & PD3).
      destruct (Hre ps3 tail F3) as (out1 & base' & Eo & Eb).
      exists (with_address p1 (base + address p1)
              :: with_address p2 (Z.shiftl ((a + pivot) / 65536) 16)
              :: with_address p3 (Z.shiftl ((a + pivot) / 65536) 16
                                  + address p3)
              :: out1), base'.
      split.
      { cbn [app].
        rewrite readdress_step_plain
          by (apply (sets_base_tag _ 0); [congruence|lia|lia]).
        rewrite (readdress_step_ela p2 _ _ ((a + pivot) / 65536));
          [|congruence|rewrite PD2, D2; now apply unpack_be_2].
        rewrite readdress_step_plain
          by (apply (sets_base_tag _ 0); [congruence|lia|lia]).
        rewrite Z.shiftl_mul_pow2 by lia. change (2 ^ 16) with 65536.
        rewrite Eo. now rewrite !bind_cons_app. }
      cbn [filter].
      rewrite (intel_is_data_tag (with_address p1 _) 0) by (cbn; congruence).
      rewrite (intel_is_data_tag (with_address p2 _) 4) by (cbn; congruence).
      rewrite (intel_is_data_tag (with_address p3 _) 0) by (cbn; congruence).
      rewrite (intel_is_data_tag r1 0), (intel_is_data_tag r2 4),
        (intel_is_data_tag r3 0) by assumption.
      cbn [Z.eqb map]. rewrite Eb. f_equal; [|f_equal].
      * unfold block_of. cbn [with_address address data].
        rewrite PA1, PD1, A1, Hb.
        f_equal. clear. Z.div_mod_to_equations. lia.
      * unfold block_of. cbn [with_address address data].
        rewrite PA3, PD3, A3, Hpb, Z.shiftl_mul_pow2 by lia.
        change (2 ^ 16) with 65536.
        f_equal. clear - Hpb. Z.div_mod_to_equations. lia.
    + assert (Hsame : a / 65536 = (a + len c - 1) / 65536).
      { apply same_arith; [lia|lia|lia|].
        apply andb_false_iff in Hcross.
        destruct Hcross as [H1|H2].
        - left. apply negb_false_iff in H1. now apply Z.eqb_eq.
        - right. apply negb_false_iff in H2. now apply Z.eqb_eq. }
      rewrite Hpa, Hpo in H.
      apply bind_ok in H. destruct H as (ela & Eela & H).
      apply bind_ok in H. destruct H as (r1 & E1 & H).
      apply bind_ok in H. destruct H as (rs & Ers & H). injection H as <-.
      apply intel_build_data_inv in E1. destruct E1 as (A1 & T1 & D1 & C1).
      assert (Hnb : (a + len c) / 65536 * 65536 = a / 65536 * 65536
                    \/ ((a + len c) / 65536 <> a / 65536
                        /\ match rest with
                           | c' :: _ =>
                               (a + len c) / 65536
                               = (a + len c + len c' - 1) / 65536
                           | [] => True
                           end)).
      { destruct (Z.eq_dec ((a + len c) / 65536) (a / 65536)) as [E|N];
          [left; now rewrite E|right]. split; [exact N|].
        destruct rest as [|c' rest']; [exact I|].
        inversion Hrest as [|? ? [Hc'ne Hc'] _]; subst.
        apply len_pos in Hc'ne.
        clear - Hsame N Hc'ne Hc'. Z.div_mod_to_equations. lia. }
      destruct (IH (a + len c) a (a / 65536 * 65536) rs) as (Fc & Hre);
        [lia|assumption|lia|lia|assumption| |exact Ers|].
      { destruct Hnb as [E|N]; [left; now rewrite E|right; exact N]. }
      destruct (negb (a / 65536 =? old / 65536)) eqn:Hpg.
      * apply bind_ok in Eela. destruct Eela as (e & Ee & Eela).
        injection Eela as <-.
        apply intel_build_ela_inv in Ee.
        destruct Ee as (A2 & T2 & D2 & R2 & C2).
        split; [constructor; [exact C2|]; constructor; [apply C1; lia|exact Fc]|].
        intros parsed tail F. cbn [app] in F.
        apply Forall2_cons_r in F. destruct F as (p2 & ps2 & -> & I2 & F2).
        apply Forall2_cons_r in F2. destruct F2 as (p1 & ps1 & -> & I1 & F1).
        destruct I1 as (PA1 & PT1 & PD1). destruct I2 as (PA2 & PT2 & PD2).
        destruct (Hre ps1 tail F1) as (out1 & base' & Eo & Eb).
        exists (with_address p2 (Z.shiftl (a / 65536) 16)
                :: with_address p1 (Z.shiftl (a / 65536) 16 + address p1)
                :: out1), base'.
        split.
        { cbn [app].
          rewrite (readdress_step_ela p2 _ _ (a / 65536));
            [|congruence|rewrite PD2, D2; now apply unpack_be_2].
          rewrite readdress_step_plain
            by (apply (sets_base_tag _ 0); [congruence|lia|lia]).
          rewrite Z.shiftl_mul_pow2 by lia. change (2 ^ 16) with 65536.
          rewrite Eo. now rewrite !bind_cons_app. }
        cbn [app filter].
        rewrite (intel_is_data_tag (with_address p1 _) 0) by (cbn; congruence).
        rewrite (intel_is_data_tag (with_address p2 _) 4) by (cbn; congruence).
        rewrite (intel_is_data_tag r1 0), (intel_is_data_tag e 4)
          by assumption.
        cbn [Z.eqb map]. rewrite Eb. f_equal.
        unfold block_of. cbn [with_address address data].
        rewrite PA1, PD1, A1, Z.shiftl_mul_pow2 by lia.
        change (2 ^ 16) with 65536.
        f_equal. clear. Z.div_mod_to_equations. lia.
      * injection Eela as <-.
        apply negb_false_iff, Z.eqb_eq in Hpg.
        assert (Hb : base = a / 65536 * 65536).
        { destruct Hbase as [Hb|[N _]]; [exact Hb|congruence]. }
        split; [constructor; [apply C1; lia|exact Fc]|].
        intros parsed tail F. cbn [app] in F.
        apply Forall2_cons_r in F. destruct F as (p1 & ps1 & -> & I1 & F1).
        destruct I1 as (PA1 & PT1 & PD1).
        destruct (Hre ps1 tail F1) as (out1 & base' & Eo & Eb).
        exists (with_address p1 (a / 65536 * 65536 + address p1) :: out1),
          base'.
        split.
        { cbn [app]. rewrite Hb.
          rewrite readdress_step_plain
            by (apply (sets_base_tag _ 0); [congruence|lia|lia]).
          rewrite Eo. now rewrite !bind_cons_app. }
        cbn [app filter].
        rewrite (intel_is_data_tag (with_address p1 _) 0) by (cbn; congruence).
        rewrite (intel_is_data_tag r1 0) by assumption.
        cbn [Z.eqb map]. rewrite Eb. f_equal.
        unfold block_of. cbn [with_address address data].
        rewrite PA1, PD1, A1.
        f_equal. clear. Z.div_mod_to_equations. lia.
Qed.

Lemma chop_first {A : Type} (v : list A) (w ab : Z) (c : list A)
  (cs : list (list A)) :
  0 < w -> 0 <= ab < w -> chop v w ab = Ok (c :: cs) -> ab + len c <= w.
Proof.
  intros Hw Hab. unfold chop. ztest. cbn [unless bind].
  destruct (ab =? 0) eqn:E.
  - apply Z.eqb_eq in E. subst ab. intro H. injection H as H.
    pose proof (chop_from_bounded w Hw (List.length v) v) as F.
    rewrite H in F. inversion F as [|? ? Hc _]; subst. lia.
  - apply Z.eqb_neq in E. intro H. injection H as <- _.
    assert (Hoff : (- ab) mod w = w - ab)
      by (symmetry; apply (Z.mod_unique_pos _ _ (-1)); lia).
    rewrite Hoff, len_take by lia. lia.
Qed.

Lemma records_to_blocks_ext {T : RecordType} (r1 r2 : list record) :
  map block_of (filter rt_is_data r1) = map block_of (filter rt_is_data r2) ->
  records_to_blocks r1 = records_to_blocks r2.
Proof.
  intro H. unfold records_to_blocks, get_data_records. now rewrite H.
Qed.

Lemma data_blocks_fields {T : RecordType} (parsed records : list record) :
  Forall2 (fun r' r =>
             address r' = address r /\ tag r' = tag r /\ data r' = data r
             /\ rt_is_data r' = rt_is_data r) parsed records ->
  map block_of (filter rt_is_data parsed)
  = map block_of (filter rt_is_data records).
Proof.
  induction 1 as [|r' r ps rs (Ha & _ & Hd & Hi) _ IH]; [reflexivity|].
  cbn [filter]. rewrite Hi. destruct (rt_is_data r); [|exact IH].
  cbn [map]. rewrite IH. unfold block_of. now rewrite Ha, Hd.
Qed.

(** Records of a format with flat addresses, written and read back as
    blocks. *)
Lemma plain_reload (f : Format) (recs : list record) (blocks : list block) :
  f <> IntelHex ->
  Forall (fun r => @rt_check (record_type f) r = Ok tt /\ fits_line f r)
         recs ->
  @records_to_blocks (record_type f) recs = blocks ->
  exists stream,
    @write_records (record_type f) recs = Ok stream
    /\ read_blocks f stream = Ok blocks.
Proof.
  intros Hf Hv Hb.
  destruct (read_write_fields f recs Hv) as (stream & parsed & Ew & Er & F).
  exists stream. split; [exact Ew|]. unfold read_blocks. rewrite Er.
  cbn [bind].
  replace (readdress f parsed) with (Ok parsed)
    by (destruct f; [congruence|reflexivity|reflexivity]).
  cbn [bind]. f_equal. rewrite <- Hb.
  apply records_to_blocks_ext. now apply data_blocks_fields.
Qed.

(** *** MOS *)

Lemma mos_check_data (a : Z) (c : list byte) :
  0 <= a < 2 ^ 16 -> len c <= 255 ->
  Mos.check (mkRecord a None c (len c)
               (Some (Mos.compute_checksum (mkRecord a None c (len c) None))))
  = Ok tt.
Proof.
  intros Ha Hc. pose proof (len_nonneg c).
  apply (check_checksum_mos (mkRecord a None c (len c) None)); [|reflexivity].
  unfold Mos.check. cbn [with_checksum address tag count data checksum].
  unfold within. change (2 ^ 8) with 256. ztest. reflexivity.
Qed.

Lemma mos_split_loop_valid (chunks : list (list byte)) :
  forall a n,
    Forall (fun c => c <> [] /\ len c <= 255) chunks ->
    0 <= a -> a + len (List.concat chunks) <= 2 ^ 16 ->
    exists out,
      Mos.split_loop chunks a n = Ok (out, n + len chunks)
      /\ Forall (fun r => Mos.check r = Ok tt) out
      /\ map block_of (filter Mos.is_data out) = chain a chunks
      /\ len out = len chunks.
Proof.
  induction chunks as [|c rest IH]; intros a n F Ha He.
  - exists []. split; [cbn; now rewrite Z.add_0_r|].
    split; [constructor|]. split; reflexivity.
  - inversion F as [|? ? [Hne Hc] Fr]; subst. apply len_pos in Hne.
    rewrite len_concat_cons in He.
    pose proof (len_nonneg (List.concat rest)).
    destruct (IH (a + len c) (n + 1) Fr) as (out & E & V & B & L);
      [lia|lia|].
    cbn [Mos.split_loop]. rewrite E.
    change (Mos.build_data a c)
      with (Ok (mkRecord a None c (len c)
                  (Some (Mos.compute_checksum (mkRecord a None c (len c) None))))).
    cbn [bind fst snd]. eexists. split; [|split; [|split]].
    + rewrite len_cons. f_equal. f_equal. lia.
    + constructor; [|exact V]. apply mos_check_data; lia.
    + cbn [filter]. unfold Mos.is_data at 1. cbn [count]. ztest.
      cbn [map chain block_of address data]. now rewrite B.
    + rewrite !len_cons. lia.
Qed.

Lemma mos_blocks_to_records_valid (d : list byte) (a : Z) :
  d <> [] -> 0 <= a -> a + len d <= 2 ^ 16 ->
  exists recs,
    @blocks_to_records MosRecord [(a, d)] = Ok recs
    /\ Forall (fun r => Mos.check r = Ok tt) recs
    /\ @records_to_blocks MosRecord recs = [(a, d)].
Proof.
  intros Hd Ha He. apply len_pos in Hd as Hl.
  unfold blocks_to_records. cbn [split_blocks rt_split MosRecord].
  unfold default_columns, Mos.split, within, between. ztest.
  cbn [andb unless bind].
  destruct (chop_split d 16 (a mod 16))
    as (chunks & Ech & Hcat & Hle & _ & Hne & Hcnt);
    [lia|apply Z.mod_pos_bound; lia|].
  specialize (Hne Hd). specialize (Hcnt Hd). rewrite Ech. cbn [bind].
  assert (F : Forall (fun c : list byte => c <> [] /\ len c <= 255) chunks).
  { apply Forall_forall. intros c Hc.
    rewrite Forall_forall in Hle, Hne. specialize (Hle c Hc).
    specialize (Hne c Hc). cbv beta in *. split; [assumption|lia]. }
  destruct (mos_split_loop_valid chunks a 0 F Ha) as (out & E & V & B & L);
    [rewrite Hcat; lia|].
  rewrite E. cbn [bind fst snd rt_build_standalone]. rewrite app_nil_r.
  unfold Mos.build_standalone.
  change (Mos.build_terminator (len out))
    with (Ok (mkRecord (len out) None [] 0 (Some (len out)))).
  cbn [bind]. eexists. split; [reflexivity|]. split.
  - apply Forall_app. split; [exact V|]. constructor; [|constructor].
    assert (Hn : 0 <= len out < 2 ^ 16).
    { rewrite L, Hcnt. pose proof (Z.mod_pos_bound a 16 ltac:(lia)).
      change (2 ^ 16) with 65536 in *.
      split; [apply Z.div_pos; lia|apply Z.div_lt_upper_bound; lia]. }
    unfold Mos.check. cbn [address tag count data checksum].
    unfold within, Mos.compute_checksum. cbn [count address].
    change (len (@nil byte)) with 0. ztest.
    cbn [andb negb unless bind]. rewrite Z.eqb_refl. reflexivity.
  - apply (@records_to_blocks_chain MosRecord _ a chunks d);
      [|assumption..].
    cbn [rt_is_data MosRecord]. rewrite filter_app, map_app, B.
    cbn [filter]. unfold Mos.is_data at 1.
    cbn [count data len List.length Z.of_nat Z.ltb Z.compare map].
    now rewrite app_nil_r.
Qed.

(** *** Motorola *)

Lemma motorola_al_data (t : Z) :
  1 <= t <= 3 ->
  tuple_get Motorola.TAG_TO_ADDRESS_LENGTH t = Ok (Some (t + 1)).
Proof.
  intro H. assert (K : t = 1 \/ t = 2 \/ t = 3) by lia.
  destruct K as [->|[->| ->]]; reflexivity.
Qed.

Lemma motorola_al_start (t : Z) :
  1 <= t <= 3 ->
  tuple_get Motorola.TAG_TO_ADDRESS_LENGTH (10 - t) = Ok (Some (t + 1)).
Proof.
  intro H. assert (K : t = 1 \/ t = 2 \/ t = 3) by lia.
  destruct K as [->|[->| ->]]; reflexivity.
Qed.

Lemma motorola_fits_mk (a t al : Z) (d : list byte) (c : Z) (s : option Z) :
  tuple_get Motorola.TAG_TO_ADDRESS_LENGTH t = Ok (Some al) ->
  a < 2 ^ (8 * al) -> 2 <= al + len d <= 138 ->
  fits_line MotorolaSrec (mkRecord a (Some t) d c s).
Proof.
  intros E Ha Hd. cbn [fits_line]. unfold motorola_address_length.
  cbn [tag address data]. rewrite E. cbn [Motorola.or_zero]. split; assumption.
Qed.

Lemma motorola_data_valid (a t : Z) (c : list byte) :
  1 <= t <= 3 -> 0 <= a -> c <> [] -> len c <= 134 ->
  a + len c <= 2 ^ (8 * (t + 1)) ->
  exists r,
    Motorola.build_data a c (Some t) = Ok r
    /\ Motorola.check r = Ok tt
    /\ fits_line MotorolaSrec r
    /\ address r = a /\ tag r = Some t /\ data r = c.
Proof.
  intros Ht Ha Hc Hl He. apply len_pos in Hc.
  assert (K : t = 1 \/ t = 2 \/ t = 3) by lia.
  assert (Ha64 : a < 2 ^ 64).
  { destruct K as [->|[->| ->]];
      [change (2 ^ (8 * (1 + 1))) with 65536 in He
      |change (2 ^ (8 * (2 + 1))) with 16777216 in He
      |change (2 ^ (8 * (3 + 1))) with 4294967296 in He];
      change (2 ^ 64) with 18446744073709551616; lia. }
  destruct (motorola_init_ok a t c) as (al & s & Eal & Ral & Ei);
    [lia|lia|lia|].
  unfold Motorola.build_data. cbn [bind].
  replace (existsb (Z.eqb t) [1; 2; 3]) with true
    by (destruct K as [->|[->| ->]]; reflexivity).
  cbn [unless bind]. rewrite Ei. eexists. split; [reflexivity|].
  split; [|split; [|repeat split]].
  - apply (motorola_check_built a t c); [exact Ei|lia|lia|].
    destruct K as [->|[->| ->]]; discriminate.
  - apply (motorola_fits_mk a t (t + 1)); [now apply motorola_al_data|lia|lia].
Qed.

Lemma motorola_split_loop_valid (t : Z) (chunks : list (list byte)) :
  1 <= t <= 3 ->
  forall a n,
    0 <= a -> a + len (List.concat chunks) <= 2 ^ (8 * (t + 1)) ->
    Forall (fun c => c <> [] /\ len c <= 134) chunks ->
    exists out,
      Motorola.split_loop chunks a t n = Ok (out, n + len chunks)
      /\ Forall (fun r => Motorola.check r = Ok tt
                          /\ fits_line MotorolaSrec r
                          /\ tag r = Some t /\ a <= address r) out
      /\ map block_of (filter Motorola.is_data out) = chain a chunks
      /\ len out = len chunks
      /\ match out with r :: _ => address r = a | [] => True end.
Proof.
  intro Ht. induction chunks as [|c rest IH]; intros a n Ha He F.
  - exists []. split; [cbn; now rewrite Z.add_0_r|].
    split; [constructor|]. repeat split.
  - inversion F as [|? ? [Hne Hc] Fr]; subst.
    rewrite len_concat_cons in He. apply len_pos in Hne as Hl.
    pose proof (len_nonneg (List.concat rest)).
    destruct (IH (a + len c) (n + 1)) as (out & E & V & B & L & _);
      [lia|lia|assumption|].
    destruct (motorola_data_valid a t c Ht Ha Hne Hc)
      as (r & Er & Cr & Fr' & Ar & Tr & Dr); [lia|].
    cbn [Motorola.split_loop]. rewrite Er, E. cbn [bind fst snd].
    eexists. split; [|split; [|split; [|split]]].
    + rewrite len_cons. f_equal. f_equal. lia.
    + constructor; [split; [exact Cr|split; [exact Fr'|split; [exact Tr|lia]]]|].
      eapply Forall_impl; [|exact V]. intros x (X1 & X2 & X3 & X4).
      split; [exact X1|split; [exact X2|split; [exact X3|lia]]].
    + cbn [filter]. unfold Motorola.is_data at 1. rewrite Tr.
      replace ((t =? Motorola.DATA_16) || (t =? Motorola.DATA_24)
               || (t =? Motorola.DATA_32)) with true
        by (assert (K : t = 1 \/ t = 2 \/ t = 3) by lia;
            destruct K as [->|[->| ->]]; reflexivity).
      cbn [map chain]. rewrite B. unfold block_of. now rewrite Ar, Dr.
    + rewrite !len_cons. lia.
    + exact Ar.
Qed.

Lemma fold_max_const (t : Z) (l : list Z) :
  Forall (fun x => x = t) l -> fold_left Z.max l t = t.
Proof.
  induction 1 as [|x l -> _ IH]; [reflexivity|].
  cbn [fold_left]. now rewrite Z.max_id.
Qed.

Lemma fold_min_lower (a : Z) (l : list Z) :
  Forall (fun x => a <= x) l -> fold_left Z.min l a = a.
Proof.
  induction 1 as [|x l Hx _ IH]; [reflexivity|].
  cbn [fold_left]. now rewrite Z.min_l.
Qed.

Lemma motorola_count_valid (n : Z) :
  0 <= n < 2 ^ 24 ->
  exists r,
    Motorola.build_count n = Ok r
    /\ Motorola.check r = Ok tt
    /\ fits_line MotorolaSrec r
    /\ Motorola.is_data r = false.
Proof.
  intro H. unfold Motorola.build_count, Motorola.fit_count_tag, within.
  ztest. cbn [andb negb]. unfold pack_be, within.
  change (256 ^ Z.of_nat 4) with (2 ^ 32).
  destruct (n <? 2 ^ 16); cbn [bind]; ztest; cbn [andb unless bind].
  - change (drop (7 - Motorola.COUNT_16) (be_bytes 4 n)) with (be_bytes 2 n).
    destruct (motorola_init_ok 0 5 (be_bytes 2 n)) as (al & s & _ & _ & E);
      [lia|lia|rewrite len_be_bytes; lia|].
    unfold Motorola.COUNT_16. rewrite E. eexists. split; [reflexivity|].
    split; [|split; [|reflexivity]].
    + apply (motorola_check_built 0 5 (be_bytes 2 n)); [exact E|lia| |auto].
      rewrite len_be_bytes. lia.
    + cbn [fits_line]. unfold motorola_address_length.
      cbn [tag address data Motorola.or_zero].
      change (tuple_get Motorola.TAG_TO_ADDRESS_LENGTH 5) with (@Ok (option Z) None).
      cbn [Motorola.or_zero]. rewrite len_be_bytes.
      change (2 ^ (8 * 0)) with 1. lia.
  - change (drop (7 - Motorola.COUNT_24) (be_bytes 4 n)) with (be_bytes 3 n).
    destruct (motorola_init_ok 0 6 (be_bytes 3 n)) as (al & s & _ & _ & E);
      [lia|lia|rewrite len_be_bytes; lia|].
    unfold Motorola.COUNT_24. rewrite E. eexists. split; [reflexivity|].
    split; [|split; [|reflexivity]].
    + apply (motorola_check_built 0 6 (be_bytes 3 n)); [exact E|lia| |auto].
      rewrite len_be_bytes. lia.
    + cbn [fits_line]. unfold motorola_address_length.
      cbn [tag address data Motorola.or_zero].
      change (tuple_get Motorola.TAG_TO_ADDRESS_LENGTH 6) with (@Ok (option Z) None).
      cbn [Motorola.or_zero]. rewrite len_be_bytes.
      change (2 ^ (8 * 0)) with 1. lia.
Qed.

Lemma motorola_terminator_valid (start t : Z) :
  1 <= t <= 3 -> 0 <= start < 2 ^ (8 * (t + 1)) ->
  exists r,
    Motorola.build_terminator start t = Ok r
    /\ Motorola.check r = Ok tt
    /\ fits_line MotorolaSrec r
    /\ Motorola.is_data r = false
    /\ tag r = Some (10 - t) /\ address r = start.
Proof.
  intros Ht Hs. unfold Motorola.build_terminator.
  assert (K : t = 1 \/ t = 2 \/ t = 3) by lia.
  assert (Hs64 : start < 2 ^ 64).
  { destruct K as [->|[->| ->]];
      [change (2 ^ (8 * (1 + 1))) with 65536 in Hs
      |change (2 ^ (8 * (2 + 1))) with 16777216 in Hs
      |change (2 ^ (8 * (3 + 1))) with 4294967296 in Hs];
      change (2 ^ 64) with 18446744073709551616; lia. }
  assert (Ei : Motorola.tuple_index Motorola.MATCHING_TAG t 0 = Ok (10 - t))
    by (destruct K as [->|[->| ->]]; reflexivity).
  rewrite Ei. cbn [bind].
  destruct (motorola_init_ok start (10 - t) []) as (al & s & Eal & _ & E);
    [lia|lia|cbn; lia|].
  rewrite motorola_al_start in Eal by exact Ht. injection Eal as <-.
  rewrite E. eexists. split; [reflexivity|].
  split; [|split; [|split; [|split; reflexivity]]].
  - apply (motorola_check_built start (10 - t) []); [exact E|lia|cbn; lia|].
    destruct K as [->|[->| ->]]; discriminate.
  - apply (motorola_fits_mk start (10 - t) (t + 1));
      [now apply motorola_al_start|lia|].
    change (len (@nil byte)) with 0. lia.
  - rewrite motorola_is_data_mk.
    destruct K as [->|[->| ->]]; reflexivity.
Qed.

Lemma motorola_fit_data_tag_bound (endex : Z) :
  0 <= endex <= 2 ^ 32 ->
  exists t,
    Motorola.fit_data_tag endex = Ok t /\ 1 <= t <= 3
    /\ endex <= 2 ^ (8 * (t + 1)).
Proof.
  intro H. unfold Motorola.fit_data_tag, between. ztest. cbn [andb negb].
  destruct (endex <=? 2 ^ 16) eqn:E16; [|destruct (endex <=? 2 ^ 24) eqn:E24].
  - apply Z.leb_le in E16. exists 1.
    split; [reflexivity|split; [lia|exact E16]].
  - apply Z.leb_le in E24. exists 2.
    split; [reflexivity|split; [lia|exact E24]].
  - exists 3. split; [reflexivity|split; [lia|apply H]].
Qed.

Lemma mapM_tags (t : Z) (l : list record) :
  Forall (fun r => tag r = Some t) l ->
  mapM (fun r => match tag r with
                 | Some t => Ok t
                 | None => Raise TypeError
                 end) l = Ok (map (fun _ => t) l).
Proof.
  induction 1 as [|r l Hr _ IH]; [reflexivity|].
  cbn [mapM map]. rewrite Hr, IH. reflexivity.
Qed.

Lemma motorola_standalone_valid (out : list record) (a t : Z) :
  1 <= t <= 3 -> out <> [] ->
  Forall (fun r => Motorola.check r = Ok tt /\ fits_line MotorolaSrec r
                   /\ tag r = Some t /\ a <= address r) out ->
  match out with r :: _ => address r = a | [] => True end ->
  0 <= a < 2 ^ (8 * (t + 1)) -> len out < 2 ^ 24 ->
  exists h c tm,
    Motorola.build_standalone out None None [] = Ok (h :: out ++ [c; tm])
    /\ Forall (fun r => Motorola.check r = Ok tt /\ fits_line MotorolaSrec r)
              (h :: out ++ [c; tm])
    /\ Motorola.build_header [] = Ok h
    /\ Motorola.build_count (len out) = Ok c
    /\ Motorola.build_terminator a t = Ok tm.
Proof.
  intros Ht Hne V Hhd Ha Hn. unfold Motorola.build_standalone.
  change (Motorola.build_data 0 [] None)
    with (Ok (mkRecord 0 (Some 1) [] 3 (Some 252))).
  cbn [bind]. destruct out as [|r0 rs]; [congruence|]. clear Hne.
  assert (Vt : Forall (fun r => tag r = Some t) (r0 :: rs))
    by (eapply Forall_impl; [|exact V]; intros x K; apply K).
  rewrite (mapM_tags t _ Vt). cbn [bind].
  change (Motorola.build_header [])
    with (Ok (mkRecord 0 (Some 0) [] 3 (Some 252))).
  cbn [bind map hd].
  assert (Em : fold_left Z.max (t :: map (fun _ : record => t) rs) t = t).
  { apply fold_max_const. constructor; [reflexivity|].
    apply Forall_forall. intros x Hx. apply in_map_iff in Hx.
    now destruct Hx as (y & <- & _). }
  rewrite !Em.
  pose proof (len_nonneg (r0 :: rs)) as Hl0.
  destruct (motorola_count_valid (len (r0 :: rs))) as (c & Ec & Cc & Fc & Dc);
    [lia|].
  rewrite Ec. cbn [bind].
  inversion V as [|? ? (_ & _ & _ & _) Vrs]; subst.
  assert (Es : fold_left Z.min (map address rs) (address r0) = address r0).
  { apply fold_min_lower. apply Forall_forall. intros x Hx.
    apply in_map_iff in Hx. destruct Hx as (y & <- & Hy).
    rewrite Forall_forall in Vrs. now apply Vrs. }
  rewrite Es.
  destruct (motorola_terminator_valid (address r0) t Ht Ha)
    as (tm & Et & Ct & Ft & Dt & Tt & At).
  rewrite Et. cbn [bind]. exists (mkRecord 0 (Some 0) [] 3 (Some 252)), c, tm.
  split; [reflexivity|].
  split; [|split; [reflexivity|split; [first [reflexivity|exact Ec]|]]].
  - constructor.
    + split; [reflexivity|].
      apply (motorola_fits_mk 0 0 2); [reflexivity|lia|].
      change (len (@nil byte)) with 0. lia.
    + apply Forall_app. split.
      * eapply Forall_impl; [|exact V]. intros x K. split; apply K.
      * constructor; [now split|]. constructor; [now split|constructor].
  - first [reflexivity|exact Et].
Qed.

Lemma motorola_blocks_to_records_valid (d : list byte) (a : Z) :
  d <> [] -> 0 <= a -> a + len d <= 2 ^ 32 ->
  (a mod 16 + len d + 15) / 16 < 2 ^ 24 ->
  exists recs,
    @blocks_to_records MotorolaRecord [(a, d)] = Ok recs
    /\ Forall (fun r => Motorola.check r = Ok tt /\ fits_line MotorolaSrec r)
              recs
    /\ @records_to_blocks MotorolaRecord recs = [(a, d)].
Proof.
  intros Hd Ha He Hm. apply len_pos in Hd as Hl.
  destruct (motorola_fit_data_tag_bound (a + len d)) as (t & Et & Ht & Hb);
    [lia|].
  destruct (chop_split d 16 (a mod 16))
    as (chunks & Ech & Hcat & Hle & _ & Hne & Hcnt);
    [lia|apply Z.mod_pos_bound; lia|].
  specialize (Hne Hd). specialize (Hcnt Hd).
  assert (F : Forall (fun c : list byte => c <> [] /\ len c <= 134) chunks).
  { apply Forall_forall. intros c Hc.
    rewrite Forall_forall in Hle, Hne. specialize (Hle c Hc).
    specialize (Hne c Hc). cbv beta in *. split; [assumption|lia]. }
  destruct (motorola_split_loop_valid t chunks Ht a 0 Ha)
    as (out & E & V & B & L & Hhd); [rewrite Hcat; lia|exact F|].
  assert (Hout : out <> []).
  { intro K. subst out. change (len (@nil record)) with 0 in L.
    destruct chunks; [cbn in Hcat; congruence|].
    rewrite len_cons in L. pose proof (len_nonneg chunks). lia. }
  destruct (motorola_standalone_valid out a t Ht Hout V Hhd)
    as (h & c & tm & Eb & Vb & _); [lia| |].
  { rewrite L, Hcnt.
    now replace (a mod 16 + len d + 16 - 1) with (a mod 16 + len d + 15)
      by lia. }
  assert (Es : @split_blocks MotorolaRecord [(a, d)] = Ok out).
  { cbn [split_blocks rt_split MotorolaRecord].
    unfold default_columns, Motorola.split, within, between. ztest.
    cbn [andb unless bind]. rewrite Et. cbn [bind]. rewrite Ech.
    cbn [bind]. rewrite E. cbn [bind fst snd app]. now rewrite app_nil_r. }
  exists (h :: out ++ [c; tm]).
  assert (Eq : @blocks_to_records MotorolaRecord [(a, d)]
               = Ok (h :: out ++ [c; tm])).
  { unfold blocks_to_records. rewrite Es. cbn [bind rt_build_standalone
                                                 MotorolaRecord]. exact Eb. }
  split; [exact Eq|]. split; [exact Vb|].
  transitivity (@records_to_blocks MotorolaRecord out);
    [exact (build_standalone_blocks MotorolaSrec out _ Eb)|].
  now apply (@records_to_blocks_chain MotorolaRecord out a chunks d).
Qed.

(** *** Intel *)

Lemma intel_read_write (records : list record) :
  Forall (fun r => Intel.check r = Ok tt) records ->
  exists stream parsed,
    @write_records IntelRecord records = Ok stream
    /\ @read_records IntelRecord stream = Ok parsed
    /\ Forall2 line_image parsed records.
Proof.
  induction 1 as [|r rest Hc Hrest IH].
  - exists [], []. repeat split. constructor.
  - destruct IH as (more & rest' & Ew & Er & F).
    destruct (intel_roundtrip r Hc) as (line & r' & Em & Ep & Ea & Et & Ed).
    cbn [write_records rt_marshal IntelRecord]. rewrite Em.
    cbn [bind]. rewrite Ew. cbn [bind].
    eexists. exists (r' :: rest'). split; [reflexivity|]. split.
    + unfold read_records in *.
      rewrite stream_lines_line
        by now apply (marshal_no_newline IntelHex r).
      cbn [mapM]. unfold unmarshal at 1.
      pose proof (parse_record_strip_eq IntelHex (line ++ LINE_SEP) line
                    (strip_spaces [] line LINE_SEP eq_refl eq_refl)) as K.
      cbn [record_type] in K. rewrite K.
      cbn [rt_parse_record IntelRecord].
      rewrite Ep. cbn [bind]. rewrite Er. reflexivity.
    + constructor; [|exact F]. split; [exact Ea|]. now split.
Qed.

Lemma intel_split_loop_addr (chunks : list (list byte)) :
  forall (a old : Z) (recs : list record),
    Intel.split_loop chunks a old = Ok recs ->
    Forall (fun r => 0 <= address r < 2 ^ 32) recs.
Proof.
  assert (D : forall a d r, Intel.build_data a d = Ok r ->
                            0 <= address r < 2 ^ 32).
  { intros a d r H. unfold Intel.build_data, Intel.DATA in H.
    apply intel_init_inv in H. destruct H as (-> & _ & _ & H & _). exact H. }
  assert (E : forall a r, Intel.build_extended_linear_address a = Ok r ->
                          0 <= address r < 2 ^ 32).
  { intros a r H. apply intel_build_ela_inv in H. destruct H as (-> & _).
    lia. }
  induction chunks as [|c rest IH]; intros a old recs H.
  - injection H as <-. constructor.
  - cbn [Intel.split_loop] in H.
    destruct (negb (Z.land (a + len c) 65535 =? 0)
              && negb (Z.land (Z.lxor a (a + len c)) 4294901760 =? 0)).
    + apply bind_ok in H. destruct H as (r1 & E1 & H).
      apply bind_ok in H. destruct H as (r2 & E2 & H).
      apply bind_ok in H. destruct H as (r3 & E3 & H).
      apply bind_ok in H. destruct H as (rs & Ers & H). injection H as <-.
      constructor; [now apply (D _ _ _ E1)|].
      constructor; [now apply (E _ _ E2)|].
      constructor; [now apply (D _ _ _ E3)|]. now apply (IH _ _ _ Ers).
    + apply bind_ok in H. destruct H as (ela & Eela & H).
      apply bind_ok in H. destruct H as (r1 & E1 & H).
      apply bind_ok in H. destruct H as (rs & Ers & H). injection H as <-.
      apply Forall_app. split.
      * destruct (negb (Z.land (Z.lxor a old) 4294901760 =? 0)).
        -- apply bind_ok in Eela. destruct Eela as (e & Ee & Eela).
           injection Eela as <-. constructor; [now apply (E _ _ Ee)|constructor].
        -- injection Eela as <-. constructor.
      * constructor; [now apply (D _ _ _ E1)|]. now apply (IH _ _ _ Ers).
Qed.

Lemma fold_min_bounds (B : Z) (l : list Z) :
  forall x,
    0 <= x < B -> Forall (fun y => 0 <= y < B) l ->
    0 <= fold_left Z.min l x < B.
Proof.
  induction l as [|y l IH]; intros x Hx F; [exact Hx|].
  inversion F; subst. cbn [fold_left]. apply IH; [lia|assumption].
Qed.

Lemma intel_terminate_valid (start : Z) (t : list record) :
  Intel.terminate start = Ok t ->
  Forall (fun r => Intel.check r = Ok tt) t
  /\ Forall (fun r => Intel.is_data r = false) t
  /\ Forall (fun r => sets_base r = true -> len (data r) = 2) t.
Proof.
  intro H. pose proof (intel_terminate_inv start t H) as N.
  unfold Intel.terminate in H.
  apply bind_ok in H. destruct H as (r1 & H1 & H).
  apply bind_ok in H. destruct H as (r2 & H2 & H).
  apply bind_ok in H. destruct H as (r3 & H3 & H). injection H as <-.
  apply intel_build_ela_inv in H1. destruct H1 as (_ & T1 & D1 & _ & C1).
  unfold Intel.build_start_linear_address in H2.
  apply unless_bind_ok in H2. destruct H2 as [_ H2].
  apply bind_ok in H2. destruct H2 as (d2 & Hd2 & H2).
  apply pack_be_inv in Hd2. destruct Hd2 as [-> _].
  apply intel_init_inv in H2. destruct H2 as (_ & T2 & _ & _ & _ & C2).
  unfold Intel.build_end_of_file in H3.
  apply intel_init_inv in H3. destruct H3 as (_ & T3 & _ & _ & _ & C3).
  split; [|split; [exact N|]].
  - constructor; [exact C1|]. constructor.
    + apply C2. rewrite len_be_bytes. lia.
    + constructor; [|constructor]. apply C3. cbn. lia.
  - constructor; [intros _; rewrite D1; now rewrite len_be_bytes|].
    constructor; [unfold sets_base; rewrite T2; discriminate|].
    constructor; [unfold sets_base; rewrite T3; discriminate|constructor].
Qed.

Lemma line_image_no_data (parsed t out : list record) (base : Z) :
  Forall2 line_image parsed t ->
  Forall (fun r => Intel.is_data r = false) t ->
  Forall (fun r => sets_base r = true -> len (data r) = 2) t ->
  exists o2,
    Intel.readdress_loop parsed base = Ok o2
    /\ filter Intel.is_data o2 = [].
Proof.
  intros F N S.
  assert (S' : Forall (fun r => sets_base r = true -> len (data r) = 2)
                      parsed).
  { clear N. induction F as [|p r ps rs (_ & Tp & Dp) _ IH]; [constructor|].
    inversion S; subst. constructor; [|now apply IH].
    unfold sets_base in *. rewrite Tp, Dp. assumption. }
  assert (N' : Forall (fun r => Intel.is_data r = false) parsed).
  { clear S S'. induction F as [|p r ps rs (_ & Tp & _) _ IH]; [constructor|].
    inversion N; subst. constructor; [|now apply IH].
    unfold Intel.is_data in *. now rewrite Tp. }
  destruct (proj2 (readdress_loop_returns parsed base) S') as [o2 Eo].
  exists o2. split; [exact Eo|].
  apply readdress_loop_fields in Eo. destruct Eo as (Et & _).
  clear - Et N'. revert o2 Et.
  induction N' as [|p ps Hp _ IH]; intros o2 Et.
  - destruct o2; [reflexivity|discriminate].
  - destruct o2 as [|o os]; [reflexivity|]. cbn [map] in Et.
    injection Et as E1 E2. cbn [filter].
    unfold Intel.is_data in *. rewrite E1, Hp. now apply IH.
Qed.

Lemma intel_chunk_reload (d : list byte) (a : Z) :
  d <> [] -> 0 <= a -> a + len d <= 2 ^ 32 ->
  exists stream,
    write_blocks IntelHex [(a, d)] = Ok stream
    /\ read_blocks IntelHex stream = Ok [(a, d)].
Proof.
  intros Hd Ha He. apply len_pos in Hd as Hl.
  destruct (chop_split d 16 (a mod 16))
    as (chunks & Ech & Hcat & Hle & Htl & Hne & _);
    [lia|apply Z.mod_pos_bound; lia|].
  specialize (Hne Hd).
  assert (F : Forall (fun c : list byte => c <> [] /\ len c <= 255) chunks).
  { apply Forall_forall. intros c Hc.
    rewrite Forall_forall in Hle, Hne. specialize (Hle c Hc).
    specialize (Hne c Hc). cbv beta in *. split; [assumption|lia]. }
  destruct (intel_split_loop_ok chunks a 0)
    as (out & pieces & Eo & Hmap & Hpc & Hpn & _);
    [lia|lia|rewrite Hcat; lia| |exact Htl|].
  { eapply Forall_impl; [|exact Hle]. intros c K. cbv beta in K. lia. }
  specialize (Hpn Hne).
  destruct (intel_split_loop_reload chunks a 0 0 out) as (Fc & Hre);
    [lia|lia|rewrite Hcat; lia|change (2 ^ 32) with 4294967296; lia|exact F|
    |exact Eo|].
  { destruct (Z.eq_dec (a / 65536) 0) as [E|N]; [left; rewrite E; lia|right].
    split; [exact N|].
    destruct chunks as [|c cs]; [exact I|].
    pose proof (chop_first d 16 (a mod 16) c cs ltac:(lia)
                  (Z.mod_pos_bound a 16 ltac:(lia)) Ech) as K.
    inversion F as [|? ? [Hcne _] _]; subst. apply len_pos in Hcne.
    clear - K Hcne Ha. Z.div_mod_to_equations. lia. }
  pose proof (intel_split_loop_addr chunks a 0 out Eo) as Hadd.
  assert (Es : @split_blocks IntelRecord [(a, d)] = Ok out).
  { cbn [split_blocks rt_split IntelRecord].
    unfold default_columns, Intel.split, within, between. ztest.
    cbn [andb unless bind]. rewrite Ech. cbn [bind]. rewrite Eo.
    cbn [bind]. now rewrite app_nil_r. }
  assert (Hstart : exists start,
             0 <= start < 2 ^ 32
             /\ Intel.build_standalone out None
                = (t <- Intel.terminate start ;; Ok (out ++ t))).
  { unfold Intel.build_standalone. destruct out as [|r rs].
    - exists 0. split; [lia|reflexivity].
    - inversion Hadd; subst. eexists. split; [|reflexivity].
      apply fold_min_bounds; [assumption|].
      apply Forall_forall. intros x Hx. apply in_map_iff in Hx.
      destruct Hx as (y & <- & Hy).
      match goal with
      | K : Forall _ rs |- _ => rewrite Forall_forall in K; now apply K
      end. }
  destruct Hstart as (start & Rs & Eb).
  destruct (intel_terminate_ok start Rs) as (t1 & t2 & t3 & Et & _).
  destruct (intel_terminate_valid start _ Et) as (Ct & Nt & St).
  rewrite Et in Eb. cbn [bind] in Eb.
  destruct (intel_read_write (out ++ [t1; t2; t3]))
    as (stream & parsed & Ew & Er & Fp);
    [apply Forall_app; now split|].
  exists stream. split.
  - unfold write_blocks, blocks_to_records.
    cbn [record_type]. rewrite Es. cbn [bind rt_build_standalone IntelRecord].
    rewrite Eb. cbn [bind]. exact Ew.
  - unfold read_blocks. cbn [record_type]. rewrite Er. cbn [bind readdress].
    apply Forall2_app_inv_r in Fp.
    destruct Fp as (p_out & p_t & Fo & Ft & ->).
    destruct (line_image_no_data p_t [t1; t2; t3] [] 0 Ft Nt St) as (_ & _).
    destruct (Hre p_out p_t Fo) as (out1 & base' & Erd & Eblk).
    destruct (line_image_no_data p_t [t1; t2; t3] [] base' Ft Nt St)
      as (o2 & Eo2 & Fo2).
    unfold Intel.readdress. rewrite Erd, Eo2. cbn [bind]. f_equal.
    apply (@records_to_blocks_chain IntelRecord _ a pieces d);
      [|congruence|assumption..].
    cbn [rt_is_data IntelRecord].
    rewrite filter_app, Fo2, app_nil_r, Eblk. exact Hmap.
Qed.

(** X10: a non-empty chunk saved with [save_chunk] at an address within
    the address width of the format is what [load_blocks] loads from the
    stream: the one block [(address, chunk)] (for Motorola, when the data
    records are fewer than 2^24).  The stream is written by
    [write_blocks] ([blocks_to_records], [marshal] and the line separator)
    and read by [read_blocks] (the lines, [parse_record], [readdress] and
    [records_to_blocks]). *)
Theorem save_chunk_load_blocks (f : Format) (chunk : list byte) (a : Z) :
  chunk <> [] -> 0 <= a -> a + len chunk <= 2 ^ address_bits f ->
  (f = MotorolaSrec -> (a mod 16 + len chunk + 15) / 16 < 2 ^ 24) ->
  exists stream,
    save_chunk f chunk a = Ok stream
    /\ load_blocks f stream = Ok [(a, chunk)].
Proof.
  intros Hd Ha He Hm. unfold save_chunk.
  assert (K : exists stream,
             write_blocks f [(a, chunk)] = Ok stream
             /\ read_blocks f stream = Ok [(a, chunk)]);
    [|destruct K as (stream & Ew & Er); exists stream;
      split; [exact Ew|];
      now rewrite (load_written_blocks f _ _ Ew)].
  destruct f; cbn [address_bits] in He.
  - now apply intel_chunk_reload.
  - destruct (motorola_blocks_to_records_valid chunk a Hd Ha He (Hm eq_refl))
      as (recs & Eb & V & B).
    destruct (plain_reload MotorolaSrec recs [(a, chunk)]) as (stream & Ew & Er);
      [discriminate|exact V|exact B|].
    exists stream. split; [|exact Er].
    unfold write_blocks. cbn [record_type]. rewrite Eb. exact Ew.
  - destruct (mos_blocks_to_records_valid chunk a Hd Ha He)
      as (recs & Eb & V & B).
    destruct (plain_reload MosTech recs [(a, chunk)]) as (stream & Ew & Er);
      [discriminate| |exact B|].
    { eapply Forall_impl; [|exact V]. intros r K. split; [exact K|exact I]. }
    exists stream. split; [|exact Er].
    unfold write_blocks. cbn [record_type]. rewrite Eb. exact Ew.
Qed.

Lemma save_chunk_load_blocks_witness :
  exists stream,
    save_chunk IntelHex (list_byte_of_string "Hello, World!") 305419896
    = Ok stream
    /\ load_blocks IntelHex stream
       = Ok [(305419896, list_byte_of_string "Hello, World!")].
Proof.
  apply (save_chunk_load_blocks IntelHex).
  - discriminate.
  - lia.
  - vm_compute. discriminate.
  - discriminate.
Defined.


(** ** The sequences that [split] builds pass [check_sequence] *)

Lemma overlaps_apart (r l : record) :
  address l + len (data l) <= address r -> overlaps r l = false.
Proof.
  intro H. unfold overlaps, do_overlap.
  pose proof (len_nonneg (data r)). pose proof (len_nonneg (data l)).
  rewrite (Z.min_l (address r)), (Z.max_r (address l)) by lia.
  apply andb_false_iff. right. apply Z.ltb_ge. exact H.
Qed.

Section SequenceLoop.

Variable check : record -> result unit.
Variable is_data : record -> bool.

Lemma loop_step_data (r : record) (rest : list record)
  (last : option record) (e : Z) :
  check r = Ok tt -> is_data r = true ->
  match last with
  | None => True
  | Some l => address l + len (data l) <= address r /\ e <= address r
  end ->
  check_sequence_loop check is_data (r :: rest) last e
  = check_sequence_loop check is_data rest (Some r)
      (address r + len (data r)).
Proof.
  intros Hc Hd Hl. cbn [check_sequence_loop]. rewrite Hc, Hd. cbn [bind].
  destruct last as [l|]; [|reflexivity]. destruct Hl as [H1 H2].
  rewrite (overlaps_apart r l H1). ztest. reflexivity.
Qed.

Lemma loop_step_other (r : record) (rest : list record)
  (last : option record) (e : Z) :
  check r = Ok tt -> is_data r = false ->
  check_sequence_loop check is_data (r :: rest) last e
  = check_sequence_loop check is_data rest last (address r + len (data r)).
Proof.
  intros Hc Hd. cbn [check_sequence_loop]. now rewrite Hc, Hd.
Qed.

Lemma loop_others (tail : list record) :
  forall (last : option record) (e : Z),
    Forall (fun r => check r = Ok tt /\ is_data r = false) tail ->
    check_sequence_loop check is_data tail last e = Ok tt.
Proof.
  induction tail as [|r tail IH]; intros last e F; [reflexivity|].
  inversion F as [|? ? [Hc Hd] Ft]; subst.
  rewrite loop_step_other by assumption. now apply IH.
Qed.

End SequenceLoop.

(** *** MOS *)

Lemma mos_split_loop_sequence (chunks : list (list byte)) :
  forall a n out k last e tail,
    Forall (fun c => c <> [] /\ len c <= 255) chunks ->
    0 <= a -> a + len (List.concat chunks) <= 2 ^ 16 ->
    Mos.split_loop chunks a n = Ok (out, k) ->
    Forall (fun r => Mos.check r = Ok tt /\ Mos.is_data r = false) tail ->
    match last with
    | None => True
    | Some l => address l + len (data l) <= a /\ e <= a
    end ->
    check_sequence_loop Mos.check Mos.is_data (out ++ tail) last e = Ok tt.
Proof.
  induction chunks as [|c rest IH]; intros a n out k last e tail F Ha He H Ft Hl.
  - injection H as <- _. now apply loop_others.
  - inversion F as [|? ? [Hne Hc] Fr]; subst. apply len_pos in Hne.
    rewrite len_concat_cons in He.
    pose proof (len_nonneg (List.concat rest)).
    cbn [Mos.split_loop] in H.
    change (Mos.build_data a c)
      with (Ok (mkRecord a None c (len c)
                  (Some (Mos.compute_checksum (mkRecord a None c (len c) None)))))
      in H.
    cbn [bind] in H.
    apply bind_ok in H. destruct H as ([out' k'] & E & H).
    injection H as <- _. cbn [fst app].
    rewrite loop_step_data;
      [|apply mos_check_data; lia
       |unfold Mos.is_data; cbn [count]; now apply Z.ltb_lt
       |destruct last; [cbn [address]; lia|exact I]].
    cbn [address data].
    apply (IH (a + len c) (n + 1) out' k'); try assumption; try lia.
    cbn [address data]. lia.
Qed.

Lemma mos_split_check_sequence (d : list byte) (a : Z) :
  d <> [] -> 0 <= a -> a + len d <= 2 ^ 16 ->
  exists records,
    Mos.split d a 16 true true = Ok records
    /\ Mos.check_sequence records = Ok tt.
Proof.
  intros Hd Ha He. apply len_pos in Hd as Hl.
  destruct (chop_split d 16 (a mod 16))
    as (chunks & Ech & Hcat & Hle & _ & Hne & Hcnt);
    [lia|apply Z.mod_pos_bound; lia|].
  specialize (Hne Hd). specialize (Hcnt Hd).
  assert (F : Forall (fun c : list byte => c <> [] /\ len c <= 255) chunks).
  { apply Forall_forall. intros c Hc.
    rewrite Forall_forall in Hle, Hne. specialize (Hle c Hc).
    specialize (Hne c Hc). cbv beta in *. split; [assumption|lia]. }
  destruct (mos_split_loop_valid chunks a 0 F Ha) as (out & E & V & B & L);
    [rewrite Hcat; lia|].
  assert (Hn : 0 <= len chunks < 2 ^ 16).
  { rewrite Hcnt. pose proof (Z.mod_pos_bound a 16 ltac:(lia)).
    change (2 ^ 16) with 65536 in *.
    split; [apply Z.div_pos; lia|apply Z.div_lt_upper_bound; lia]. }
  set (t := mkRecord (len chunks) None [] 0 (Some (len chunks))).
  assert (Ct : Mos.check t = Ok tt).
  { unfold Mos.check, t. cbn [address tag count data checksum].
    unfold within, Mos.compute_checksum. cbn [count address].
    change (len (@nil byte)) with 0. ztest.
    cbn [andb negb unless bind]. rewrite Z.eqb_refl. reflexivity. }
  exists (out ++ [t]). split.
  - unfold Mos.split, within, between. ztest. cbn [andb unless bind].
    rewrite Ech. cbn [bind]. rewrite E. cbn [bind fst snd].
    rewrite Z.add_0_l. reflexivity.
  - unfold Mos.check_sequence, Record_check_sequence.
    rewrite (mos_split_loop_sequence chunks a 0 out (0 + len chunks) None 0
               [t] F Ha);
      [|rewrite Hcat; lia|exact E|repeat constructor; exact Ct|exact I].
    cbn [bind]. rewrite len_app, len_cons.
    change (len (@nil record)) with 0. pose proof (len_nonneg out).
    ztest. cbn [negb unless bind]. rewrite tuple_get_last. cbn [bind].
    unfold t. cbn [address checksum option_Z_eqb].
    replace (len out + (1 + 0) - 1) with (len chunks) by lia.
    rewrite Z.eqb_refl. reflexivity.
Qed.

(** *** Intel *)

Lemma intel_split_loop_sequence (chunks : list (list byte)) :
  forall (a old : Z) (recs : list record) (last : option record) (e : Z)
         (tail : list record),
    0 <= a -> (chunks <> [] -> a < 2 ^ 32) ->
    a + len (List.concat chunks) <= 2 ^ 32 ->
    0 <= old <= a ->
    Forall (fun c => c <> [] /\ len c <= 255) chunks ->
    Intel.split_loop chunks a old = Ok recs ->
    Forall (fun r => Intel.check r = Ok tt /\ Intel.is_data r = false) tail ->
    match last with
    | None => True
    | Some l => address l + len (data l) <= a /\ e <= a
    end ->
    check_sequence_loop Intel.check Intel.is_data (recs ++ tail) last e
    = Ok tt.
Proof.
  induction chunks as [|c rest IH];
    intros a old recs last e tail Ha Ha32 Hend Hold Hch H Ft Hl.
  - injection H as <-. now apply loop_others.
  - specialize (Ha32 ltac:(discriminate)).
    rewrite len_concat_cons in Hend.
    pose proof (len_nonneg (List.concat rest)) as Hr0.
    inversion Hch as [|? ? [Hcne Hc] Hrest]; subst.
    apply len_pos in Hcne.
    assert (Hnext : rest <> [] -> a + len c < 2 ^ 32).
    { destruct rest as [|c' rest']; [congruence|intros _].
      inversion Hrest as [|? ? [Hc' _] _]; subst.
      apply len_pos in Hc'. rewrite len_concat_cons in Hend.
      pose proof (len_nonneg (List.concat rest')). lia. }
    assert (Hpa : (a / 65536) mod 65536 = a / 65536).
    { apply Z.mod_small. split; [apply Z.div_pos; lia|].
      apply Z.div_lt_upper_bound; lia. }
    assert (Hpo : (old / 65536) mod 65536 = old / 65536).
    { apply Z.mod_small. split; [apply Z.div_pos; lia|].
      apply Z.div_lt_upper_bound; lia. }
    cbn [Intel.split_loop] in H. rewrite land_ffff, !mask_pagesb in H.
    destruct (negb ((a + len c) mod 65536 =? 0)
              && negb ((a / 65536) mod 65536
                       =? ((a + len c) / 65536) mod 65536)) eqn:Hcross.
    + apply andb_true_iff in Hcross. destruct Hcross as [H1 H2].
      apply negb_true_iff, Z.eqb_neq in H1.
      apply negb_true_iff, Z.eqb_neq in H2.
      destruct (cross_arith a (len c) Ha ltac:(lia) ltac:(lia) H1 H2)
        as (Hp & Hpg1 & Hpg2 & Hp32).
      set (pivot := len c - (a + len c) mod 65536) in *.
      assert (Hlt : len (take pivot c) = pivot)
        by (rewrite len_take by lia; lia).
      assert (Hld : len (drop pivot c) = len c - pivot)
        by (rewrite len_drop by lia; lia).
      assert (Hpb : 65536 <= a + pivot).
      { unfold pivot in *. clear - Ha Hp. Z.div_mod_to_equations. lia. }
      apply bind_ok in H. destruct H as (r1 & E1 & H).
      apply bind_ok in H. destruct H as (r2 & E2 & H).
      apply bind_ok in H. destruct H as (r3 & E3 & H).
      apply bind_ok in H. destruct H as (rs & Ers & H). injection H as <-.
      apply intel_build_data_inv in E1. destruct E1 as (A1 & T1 & D1 & C1).
      apply intel_build_ela_inv in E2.
      destruct E2 as (A2 & T2 & D2 & R2 & C2).
      apply intel_build_data_inv in E3. destruct E3 as (A3 & T3 & D3 & C3).
      cbn [app].
      rewrite loop_step_data;
        [|apply C1; lia|now rewrite (intel_is_data_tag r1 0)
         |destruct last; [rewrite A1; exact Hl|exact I]].
      rewrite loop_step_other;
        [|exact C2|now rewrite (intel_is_data_tag r2 4)].
      rewrite loop_step_data;
        [|apply C3; lia|now rewrite (intel_is_data_tag r3 0)
         |rewrite A1, D1, A2, D2, A3, Hlt, len_be_bytes; cbn; lia].
      apply (IH (a + pivot + (a + len c) mod 65536) (a + pivot) rs);
        try assumption; try lia.
      * intro K. specialize (Hnext K). lia.
      * rewrite A3, D3, Hld. unfold pivot. lia.
    + rewrite Hpa, Hpo in H.
      apply bind_ok in H. destruct H as (ela & Eela & H).
      apply bind_ok in H. destruct H as (r1 & E1 & H).
      apply bind_ok in H. destruct H as (rs & Ers & H). injection H as <-.
      apply intel_build_data_inv in E1. destruct E1 as (A1 & T1 & D1 & C1).
      assert (Hrest' :
          check_sequence_loop Intel.check Intel.is_data (rs ++ tail)
            (Some r1) (address r1 + len (data r1)) = Ok tt).
      { apply (IH (a + len c) a rs); try assumption; try lia.
        rewrite A1, D1. lia. }
      destruct (negb (a / 65536 =? old / 65536)) eqn:Hpg.
      * apply bind_ok in Eela. destruct Eela as (el & Ee & Eela).
        injection Eela as <-.
        apply intel_build_ela_inv in Ee.
        destruct Ee as (A2 & T2 & D2 & R2 & C2).
        apply negb_true_iff, Z.eqb_neq in Hpg.
        assert (Hbig : 65536 <= a).
        { clear - Hpg Hold. Z.div_mod_to_equations. lia. }
        cbn [app].
        rewrite loop_step_other;
          [|exact C2|now rewrite (intel_is_data_tag el 4)].
        rewrite loop_step_data;
          [exact Hrest'|apply C1; lia|now rewrite (intel_is_data_tag r1 0)|].
        destruct last as [l|]; [|exact I].
        rewrite A1, A2, D2, len_be_bytes. cbn. lia.
      * injection Eela as <-. cbn [app].
        rewrite loop_step_data;
          [exact Hrest'|apply C1; lia|now rewrite (intel_is_data_tag r1 0)|].
        destruct last as [l|]; [|exact I]. rewrite A1. exact Hl.
Qed.

Lemma intel_split_check_sequence (d : list byte) (a : Z) :
  d <> [] -> 0 <= a -> a + len d <= 2 ^ 32 ->
  exists records,
    Intel.split d a 16 true true None = Ok records
    /\ intel_check_sequence records = Ok tt.
Proof.
  intros Hd Ha He. apply len_pos in Hd as Hl.
  destruct (chop_split d 16 (a mod 16))
    as (chunks & Ech & Hcat & Hle & Htl & Hne & _);
    [lia|apply Z.mod_pos_bound; lia|].
  specialize (Hne Hd).
  assert (F : Forall (fun c : list byte => c <> [] /\ len c <= 255) chunks).
  { apply Forall_forall. intros c Hc.
    rewrite Forall_forall in Hle, Hne. specialize (Hle c Hc).
    specialize (Hne c Hc). cbv beta in *. split; [assumption|lia]. }
  destruct (intel_split_loop_ok chunks a 0)
    as (out & pieces & Eo & _);
    [lia|lia|rewrite Hcat; lia| |exact Htl|].
  { eapply Forall_impl; [|exact Hle]. intros c K. cbv beta in K. lia. }
  destruct (intel_terminate_ok a ltac:(lia)) as (t1 & t2 & t3 & Et & _).
  destruct (intel_terminate_valid a _ Et) as (Ct & Nt & _).
  exists (out ++ [t1; t2; t3]). split.
  - unfold Intel.split, within, between. ztest. cbn [andb unless bind].
    rewrite Ech. cbn [bind]. rewrite Eo. cbn [bind]. rewrite Et. reflexivity.
  - unfold intel_check_sequence, Record_check_sequence.
    apply (intel_split_loop_sequence chunks a 0 out None 0 [t1; t2; t3]);
      try assumption; try lia.
    + rewrite Hcat. lia.
    + clear - Ct Nt. induction Ct as [|r l Hr _ IH]; [constructor|].
      inversion Nt; subst. constructor; [now split|now apply IH].
Qed.

(** *** Motorola *)

Lemma motorola_split_loop_sequence (t : Z) (chunks : list (list byte)) :
  1 <= t <= 3 ->
  forall a n out k last e tail,
    0 <= a -> a + len (List.concat chunks) <= 2 ^ (8 * (t + 1)) ->
    Forall (fun c => c <> [] /\ len c <= 134) chunks ->
    Motorola.split_loop chunks a t n = Ok (out, k) ->
    Forall (fun r => Motorola.check r = Ok tt /\ Motorola.is_data r = false)
           tail ->
    match last with
    | None => True
    | Some l => address l + len (data l) <= a /\ e <= a
    end ->
    check_sequence_loop Motorola.check Motorola.is_data (out ++ tail) last e
    = Ok tt.
Proof.
  intro Ht. induction chunks as [|c rest IH];
    intros a n out k last e tail Ha He F H Ft Hl.
  - injection H as <- _. now apply loop_others.
  - inversion F as [|? ? [Hne Hc] Fr]; subst.
    rewrite len_concat_cons in He. apply len_pos in Hne as Hlc.
    pose proof (len_nonneg (List.concat rest)).
    destruct (motorola_data_valid a t c Ht Ha Hne Hc)
      as (r & Er & Cr & _ & Ar & Tr & Dr); [lia|].
    cbn [Motorola.split_loop] in H. rewrite Er in H. cbn [bind] in H.
    apply bind_ok in H. destruct H as ([out' k'] & E & H).
    injection H as <- _. cbn [fst app].
    rewrite loop_step_data;
      [|exact Cr
       |unfold Motorola.is_data; rewrite Tr;
        assert (K : t = 1 \/ t = 2 \/ t = 3) by lia;
        destruct K as [->|[->| ->]]; reflexivity
       |destruct last; [rewrite Ar; exact Hl|exact I]].
    apply (IH (a + len c) (n + 1) out' k'); try assumption; try lia.
    rewrite Ar, Dr. lia.
Qed.

Lemma motorola_scan_data (t : Z) (out : list record) :
  1 <= t <= 3 ->
  Forall (fun r => tag r = Some t) out ->
  forall ft n hf cf tail,
    ft = None \/ ft = Some t ->
    motorola_scan (out ++ tail) ft n hf cf
    = motorola_scan tail (match out with [] => ft | _ :: _ => Some t end)
                    (n + len out) hf cf.
Proof.
  intros Ht F. induction F as [|r out Hr _ IH]; intros ft n hf cf tail Hft.
  - cbn [app]. now rewrite Z.add_0_r.
  - cbn [app motorola_scan]. rewrite Hr.
    replace (t =? 0) with false by (symmetry; apply Z.eqb_neq; lia).
    replace (existsb (Z.eqb t) [1; 2; 3]) with true
      by (assert (K : t = 1 \/ t = 2 \/ t = 3) by lia;
          destruct K as [->|[->| ->]]; reflexivity).
    rewrite len_cons.
    replace (n + (1 + len out)) with (n + 1 + len out) by lia.
    destruct Hft as [->| ->].
    + rewrite IH by (now right). now destruct out.
    + rewrite Z.eqb_refl. cbn [negb].
      rewrite IH by (now right). now destruct out.
Qed.

Lemma motorola_split_check_sequence (d : list byte) (a : Z) :
  d <> [] -> 0 <= a -> a + len d <= 2 ^ 32 ->
  (a mod 16 + len d + 15) / 16 < 2 ^ 24 ->
  exists records,
    Motorola.split d a 16 true true None None [] = Ok records
    /\ motorola_check_sequence records = Ok tt.
Proof.
  intros Hd Ha He Hm. apply len_pos in Hd as Hl.
  destruct (motorola_fit_data_tag_bound (a + len d)) as (t & Et & Ht & Hb);
    [lia|].
  destruct (chop_split d 16 (a mod 16))
    as (chunks & Ech & Hcat & Hle & _ & Hne & Hcnt);
    [lia|apply Z.mod_pos_bound; lia|].
  specialize (Hne Hd). specialize (Hcnt Hd).
  assert (F : Forall (fun c : list byte => c <> [] /\ len c <= 134) chunks).
  { apply Forall_forall. intros c Hc.
    rewrite Forall_forall in Hle, Hne. specialize (Hle c Hc).
    specialize (Hne c Hc). cbv beta in *. split; [assumption|lia]. }
  destruct (motorola_split_loop_valid t chunks Ht a 0 Ha)
    as (out & E & V & B & L & Hhd); [rewrite Hcat; lia|exact F|].
  assert (Hout : out <> []).
  { intro K. subst out. change (len (@nil record)) with 0 in L.
    destruct chunks; [cbn in Hcat; congruence|].
    rewrite len_cons in L. pose proof (len_nonneg chunks). lia. }
  assert (Hn : 0 <= len chunks < 2 ^ 24).
  { pose proof (len_nonneg chunks). rewrite Hcnt.
    replace (a mod 16 + len d + 16 - 1) with (a mod 16 + len d + 15) by lia.
    split; [|exact Hm]. apply Z.div_pos; [|lia].
    pose proof (Z.mod_pos_bound a 16 ltac:(lia)). lia. }
  destruct (motorola_count_valid (len chunks) Hn) as (c & Ec & Cc & _ & Dc).
  destruct (motorola_terminator_valid a t Ht) as (tm & Etm & Ct & _ & Dt & Tt & _);
    [lia|].
  set (h := mkRecord 0 (Some 0) [] 3 (Some 252)).
  assert (Es : Motorola.split d a 16 true true None None []
               = Ok (h :: out ++ [c; tm])).
  { unfold Motorola.split, within, between. ztest. cbn [andb unless bind].
    rewrite Et. cbn [bind].
    change (Motorola.build_header []) with (Ok h).
    cbn [bind]. rewrite Ech. cbn [bind]. rewrite E. cbn [bind fst snd].
    rewrite Z.add_0_l, Ec. cbn [bind]. rewrite Etm. reflexivity. }
  exists (h :: out ++ [c; tm]). split; [exact Es|].
  assert (Vt : Forall (fun r => tag r = Some t) out)
    by (eapply Forall_impl; [|exact V]; intros x K; apply K).
  unfold motorola_check_sequence, Record_check_sequence.
  rewrite loop_step_other by reflexivity.
  rewrite (motorola_split_loop_sequence t chunks Ht a 0 out (0 + len chunks)
             None _ [c; tm]);
    [|exact Ha|rewrite Hcat; lia|exact F|exact E
     |repeat constructor; assumption|exact I].
  cbn [bind]. cbn [motorola_scan]. change (tag h) with (Some 0).
  cbn [Z.eqb]. rewrite (motorola_scan_data t out Ht Vt) by now left.
  rewrite Z.add_0_l, L.
  assert (Escan : motorola_scan [c; tm]
                    (match out with [] => None | _ :: _ => Some t end)
                    (len chunks) true false
                  = Ok (Some tm, [], Some t, true, true)).
  { destruct out as [|r0 out']; [congruence|].
    assert (Htm : motorola_scan [tm] (Some t) (len chunks) true true
                  = Ok (Some tm, [], Some t, true, true)).
    { cbn [motorola_scan]. rewrite Tt.
      assert (K : t = 1 \/ t = 2 \/ t = 3) by lia.
      destruct K as [->|[->| ->]]; reflexivity. }
    destruct (motorola_build_count_spec (len chunks)) as (S16 & S24 & _).
    destruct (Z.lt_ge_cases (len chunks) (2 ^ 16)) as [Lt|Ge].
    - destruct (S16 ltac:(lia)) as (c' & Ec' & Tc & _ & Uc & _).
      rewrite Ec in Ec'. injection Ec' as <-.
      cbn [motorola_scan]. rewrite Tc. unfold Motorola.COUNT_16.
      cbn [Z.eqb existsb orb Pos.eqb]. rewrite Uc. cbn [bind].
      rewrite Z.eqb_refl. cbn [negb]. exact Htm.
    - destruct (S24 ltac:(lia)) as (c' & u & hl & Ec' & Tc & _ & Uc & Lc & _).
      rewrite Ec in Ec'. injection Ec' as <-.
      cbn [motorola_scan]. rewrite Tc. unfold Motorola.COUNT_24.
      cbn [Z.eqb existsb orb Pos.eqb]. rewrite Uc. cbn [bind fst snd].
      rewrite Lc, Z.eqb_refl. cbn [negb]. exact Htm. }
  rewrite Escan. cbn [bind unless]. rewrite Tt.
  assert (K : t = 1 \/ t = 2 \/ t = 3) by lia.
  destruct K as [->|[->| ->]]; reflexivity.
Qed.

(** X11: the sequence that [split] builds from a non-empty buffer, with
    its default columns, alignment and framing records, passes the
    [check_sequence] of its own format: in each of the three formats
    (for Motorola, when the data records are fewer than 2^24, as the count
    record needs). *)
Theorem split_passes_check_sequence (f : Format) (d : list byte) (a : Z) :
  d <> [] -> 0 <= a -> a + len d <= 2 ^ address_bits f ->
  (f = MotorolaSrec -> (a mod 16 + len d + 15) / 16 < 2 ^ 24) ->
  exists records,
    @rt_split (record_type f) d a default_columns true true = Ok records
    /\ check_sequence f records = Ok tt.
Proof.
  intros Hd Ha He Hm.
  destruct f; cbn [record_type rt_split IntelRecord MotorolaRecord MosRecord
                   address_bits check_sequence] in *; unfold default_columns.
  - now apply intel_split_check_sequence.
  - apply motorola_split_check_sequence; auto.
  - now apply mos_split_check_sequence.
Qed.

Lemma split_passes_check_sequence_witness :
  exists records,
    @rt_split (record_type MotorolaSrec)
      (list_byte_of_string "Hello, World!") 4660 default_columns true true
    = Ok records
    /\ check_sequence MotorolaSrec records = Ok tt.
Proof.
  apply (split_passes_check_sequence MotorolaSrec).
  - discriminate.
  - lia.
  - vm_compute. discriminate.
  - intros _. vm_compute. reflexivity.
Defined.


(** ** Conversion between formats *)

(** X12: the records that [convert_records] returns hold the blocks of
    the records it was given: [records_to_blocks] in the output type gives
    what [records_to_blocks] in the input type gives for the input. *)
Theorem convert_records_keeps_blocks (fin fout : Format)
  (records out : list record) :
  @convert_records (record_type fin) (record_type fout) records = Ok out ->
  @records_to_blocks (record_type fout) out
  = @records_to_blocks (record_type fin) records.
Proof.
  unfold convert_records. intro H.
  rewrite (merge_records_blocks fout _ out H). reflexivity.
Qed.

Lemma convert_records_keeps_blocks_witness :
  @records_to_blocks (record_type MosTech)
    [mkRecord 16 None [x41; x42] 2 (Some 149); mkRecord 1 None [] 0 (Some 1)]
  = @records_to_blocks (record_type IntelHex)
      [mkRecord 16 (Some 0) [x41; x42] 2 None].
Proof.
  apply (convert_records_keeps_blocks IntelHex MosTech). vm_compute.
  reflexivity.
Defined.

(** [split] of a non-empty buffer, with the defaults: it returns as long
    as the address range fits, and its records hold the one block. *)
Lemma split_default_blocks (f : Format) (d : list byte) (a : Z) :
  d <> [] -> 0 <= a -> a + len d <= 2 ^ address_bits f ->
  (f = MotorolaSrec -> (a mod 16 + len d + 15) / 16 < 2 ^ 24) ->
  exists records,
    @rt_split (record_type f) d a default_columns true true = Ok records
    /\ @records_to_blocks (record_type f) records = [(a, d)].
Proof.
  intros Hd Ha He Hm.
  destruct f; cbn [record_type rt_split IntelRecord MotorolaRecord MosRecord
                   address_bits] in *; unfold default_columns.
  - destruct (intel_split_ok d a 16 true true Hd Ha He ltac:(lia))
      as (out & pieces & Es & Hmap & Hcat & Hne).
    exists out. split; [exact Es|].
    now apply (@records_to_blocks_chain IntelRecord out a pieces d).
  - destruct (motorola_split_cases d a 16 true Hd Ha He ltac:(lia))
      as [Hok _].
    destruct Hok as (out & pieces & Es & Hmap & Hcat & Hne).
    { replace (a mod 16 + len d + 16 - 1) with (a mod 16 + len d + 15) by lia.
      now apply Hm. }
    exists out. split; [exact Es|].
    now apply (@records_to_blocks_chain MotorolaRecord out a pieces d).
  - destruct (mos_split_ok d a 16 true true Hd Ha He ltac:(lia))
      as (out & pieces & Es & Hmap & Hcat & Hne).
    exists out. split; [exact Es|].
    now apply (@records_to_blocks_chain MosRecord out a pieces d).
Qed.

Lemma chunks_bounded (d : list byte) (a : Z) (bound : Z) :
  d <> [] -> 16 <= bound ->
  exists chunks,
    chop d 16 (a mod 16) = Ok chunks
    /\ List.concat chunks = d
    /\ Forall (fun c : list byte => c <> [] /\ len c <= bound) chunks
    /\ len chunks = (a mod 16 + len d + 15) / 16.
Proof.
  intros Hd Hb.
  destruct (chop_split d 16 (a mod 16))
    as (chunks & Ech & Hcat & Hle & _ & Hne & Hcnt);
    [lia|apply Z.mod_pos_bound; lia|].
  specialize (Hne Hd). specialize (Hcnt Hd). exists chunks.
  split; [exact Ech|]. split; [exact Hcat|]. split.
  - apply Forall_forall. intros c Hc.
    rewrite Forall_forall in Hle, Hne. specialize (Hle c Hc).
    specialize (Hne c Hc). cbv beta in *. split; [assumption|lia].
  - rewrite Hcnt. f_equal. lia.
Qed.

(** *** [blocks_to_records] of one block against [split] *)

Lemma mos_blocks_split (d : list byte) (a : Z) :
  d <> [] -> 0 <= a -> a + len d <= 2 ^ 16 ->
  @blocks_to_records MosRecord [(a, d)] = Mos.split d a 16 true true.
Proof.
  intros Hd Ha He. apply len_pos in Hd as Hl.
  destruct (chunks_bounded d a 255 Hd ltac:(lia))
    as (chunks & Ech & Hcat & F & _).
  destruct (mos_split_loop_valid chunks a 0 F Ha) as (out & E & _ & _ & L);
    [rewrite Hcat; lia|].
  unfold blocks_to_records. cbn [split_blocks rt_split MosRecord].
  unfold default_columns, Mos.split, within, between. ztest.
  cbn [andb unless bind]. rewrite Ech. cbn [bind]. rewrite E.
  cbn [bind fst snd]. rewrite app_nil_r. cbn [rt_build_standalone MosRecord].
  unfold Mos.build_standalone. now rewrite Z.add_0_l, L.
Qed.

Lemma motorola_blocks_split (d : list byte) (a : Z) :
  d <> [] -> 0 <= a -> a + len d <= 2 ^ 32 ->
  (a mod 16 + len d + 15) / 16 < 2 ^ 24 ->
  @blocks_to_records MotorolaRecord [(a, d)]
  = Motorola.split d a 16 true true None None [].
Proof.
  intros Hd Ha He Hm. apply len_pos in Hd as Hl.
  destruct (motorola_fit_data_tag_bound (a + len d)) as (t & Et & Ht & Hb);
    [lia|].
  destruct (chunks_bounded d a 134 Hd ltac:(lia))
    as (chunks & Ech & Hcat & F & Hcnt).
  destruct (motorola_split_loop_valid t chunks Ht a 0 Ha)
    as (out & E & V & B & L & Hhd); [rewrite Hcat; lia|exact F|].
  assert (Hout : out <> []).
  { intro K. subst out. change (len (@nil record)) with 0 in L.
    destruct chunks; [cbn in Hcat; congruence|].
    rewrite len_cons in L. pose proof (len_nonneg chunks). lia. }
  destruct (motorola_standalone_valid out a t Ht Hout V Hhd)
    as (h & c & tm & Eb & _ & Eh & Ec & Etm); [lia|rewrite L, Hcnt; exact Hm|].
  unfold blocks_to_records. cbn [split_blocks rt_split MotorolaRecord].
  unfold default_columns, Motorola.split, within, between. ztest.
  cbn [andb unless bind]. rewrite Et. cbn [bind]. rewrite Eh.
  cbn [bind]. rewrite Ech. cbn [bind]. rewrite E. cbn [bind fst snd app].
  rewrite app_nil_r. cbn [rt_build_standalone MotorolaRecord]. rewrite Eb.
  rewrite Z.add_0_l, <- L, Ec. cbn [bind]. rewrite Etm. reflexivity.
Qed.

Lemma intel_split_loop_page0 (chunks : list (list byte)) :
  forall (a old : Z) (recs : list record),
    0 <= a -> a + len (List.concat chunks) <= 65536 -> 0 <= old < 65536 ->
    Forall (fun c => c <> [] /\ len c <= 255) chunks ->
    Intel.split_loop chunks a old = Ok recs ->
    Forall (fun r => a <= address r) recs
    /\ match recs with r :: _ => address r = a | [] => True end.
Proof.
  induction chunks as [|c rest IH]; intros a old recs Ha He Hold F H.
  - injection H as <-. split; [constructor|exact I].
  - inversion F as [|? ? [Hne Hc] Fr]; subst. apply len_pos in Hne.
    rewrite len_concat_cons in He.
    pose proof (len_nonneg (List.concat rest)).
    cbn [Intel.split_loop] in H. rewrite land_ffff, !mask_pagesb in H.
    replace (negb ((a + len c) mod 65536 =? 0)
             && negb ((a / 65536) mod 65536
                      =? ((a + len c) / 65536) mod 65536)) with false in H.
    2:{ symmetry. apply andb_false_iff.
        destruct (Z.eq_dec (a + len c) 65536) as [E|N].
        - left. rewrite E. reflexivity.
        - right. apply negb_false_iff, Z.eqb_eq.
          rewrite !Z.div_small by lia. reflexivity. }
    replace (negb ((a / 65536) mod 65536 =? (old / 65536) mod 65536))
      with false in H
      by (symmetry; apply negb_false_iff, Z.eqb_eq;
          rewrite !Z.div_small by lia; reflexivity).
    cbn [bind] in H.
    apply bind_ok in H. destruct H as (r1 & E1 & H).
    apply bind_ok in H. destruct H as (rs & Ers & H). injection H as <-.
    apply intel_build_data_inv in E1. destruct E1 as (A1 & _).
    destruct (IH (a + len c) a rs) as (Frs & _); try assumption; try lia.
    cbn [app]. split; [|exact A1].
    constructor; [lia|]. eapply Forall_impl; [|exact Frs].
    intros x K. cbv beta in K. lia.
Qed.

Lemma intel_blocks_split_page0 (d : list byte) (a : Z) :
  d <> [] -> 0 <= a -> a + len d <= 2 ^ 16 ->
  @blocks_to_records IntelRecord [(a, d)] = Intel.split d a 16 true true None.
Proof.
  intros Hd Ha He. apply len_pos in Hd as Hl.
  change (2 ^ 16) with 65536 in He.
  destruct (chunks_bounded d a 255 Hd ltac:(lia))
    as (chunks & Ech & Hcat & F & _).
  destruct (intel_split_loop_ok chunks a 0) as (out & pieces & Eo & _);
    [lia|change (2 ^ 32) with 4294967296; lia
    |rewrite Hcat; change (2 ^ 32) with 4294967296; lia| | |].
  { eapply Forall_impl; [|exact F]. intros c K. cbv beta in K. lia. }
  { destruct chunks as [|c cs]; [constructor|]. inversion F; subst. cbn [tl].
    eapply Forall_impl; [|eassumption]. intros x K. apply K. }
  destruct (intel_split_loop_page0 chunks a 0 out Ha) as (Fa & Hhd);
    [rewrite Hcat; lia|lia|exact F|exact Eo|].
  unfold blocks_to_records. cbn [split_blocks rt_split IntelRecord].
  unfold default_columns, Intel.split, within, between.
  change (2 ^ 32) with 4294967296. ztest.
  cbn [andb unless bind]. rewrite Ech. cbn [bind]. rewrite Eo.
  cbn [bind]. rewrite app_nil_r. cbn [rt_build_standalone IntelRecord].
  unfold Intel.build_standalone.
  destruct out as [|r rs].
  - destruct chunks as [|c cs]; [cbn in Hcat; congruence|].
    exfalso. inversion F as [|? ? [Hne Hc] _]; subst. apply len_pos in Hne.
    cbn [Intel.split_loop] in Eo.
    destruct (negb (Z.land (a + len c) 65535 =? 0)
              && negb (Z.land (Z.lxor a (a + len c)) 4294901760 =? 0)).
    + apply bind_ok in Eo. destruct Eo as (r1 & _ & Eo).
      apply bind_ok in Eo. destruct Eo as (r2 & _ & Eo).
      apply bind_ok in Eo. destruct Eo as (r3 & _ & Eo).
      apply bind_ok in Eo. destruct Eo as (rs & _ & Eo). discriminate.
    + apply bind_ok in Eo. destruct Eo as (ela & _ & Eo).
      apply bind_ok in Eo. destruct Eo as (r1 & _ & Eo).
      apply bind_ok in Eo. destruct Eo as (rs & _ & Eo).
      injection Eo as Eo. now destruct ela.
  - cbn [bind]. apply Forall_inv_tail in Fa. rewrite fold_min_lower.
    + now rewrite Hhd.
    + apply Forall_forall. intros x Hx. apply in_map_iff in Hx.
      destruct Hx as (y & <- & Hy). rewrite Forall_forall in Fa.
      rewrite Hhd. now apply Fa.
Qed.

(** X13: converting the records that [split] builds from a non-empty
    buffer gives the records that the [split] of the output type builds
    from the same buffer at the same address (the docstring of
    [convert_records]: [convert_records(motorola, output_type=IntelRecord)
    == intel]), for every pair of formats, as long as the buffer fits the
    address width of both, its data records are fewer than 2^24 where
    Motorola takes part, and it ends within the first 64 KiB where the
    output is Intel. *)
Theorem convert_records_of_split (fin fout : Format) (d : list byte) (a : Z) :
  d <> [] -> 0 <= a ->
  a + len d <= 2 ^ address_bits fin -> a + len d <= 2 ^ address_bits fout ->
  (fin = MotorolaSrec \/ fout = MotorolaSrec ->
   (a mod 16 + len d + 15) / 16 < 2 ^ 24) ->
  (fout = IntelHex -> a + len d <= 2 ^ 16) ->
  exists records_in records_out,
    @rt_split (record_type fin) d a default_columns true true = Ok records_in
    /\ @rt_split (record_type fout) d a default_columns true true
       = Ok records_out
    /\ @convert_records (record_type fin) (record_type fout) records_in
       = Ok records_out.
Proof.
  intros Hd Ha Hin Hout Hm Hi.
  destruct (split_default_blocks fin d a Hd Ha Hin) as (rin & Ein & Bin);
    [intro K; apply Hm; now left|].
  destruct (split_default_blocks fout d a Hd Ha Hout) as (rout & Eout & _);
    [intro K; apply Hm; now right|].
  exists rin, rout. split; [exact Ein|]. split; [exact Eout|].
  unfold convert_records, merge_records.
  change (merged_blocks [filter (@rt_is_data (record_type fin)) rin])
    with (@records_to_blocks (record_type fin) rin).
  rewrite Bin, <- Eout.
  destruct fout; cbn [record_type rt_split IntelRecord MotorolaRecord
                      MosRecord address_bits] in *; unfold default_columns.
  - apply intel_blocks_split_page0; auto.
  - apply motorola_blocks_split; auto.
  - apply mos_blocks_split; auto.
Qed.

Lemma convert_records_of_split_witness :
  exists records_in records_out,
    @rt_split (record_type MotorolaSrec) (list_byte_of_string "Hello, World!")
      4660 default_columns true true = Ok records_in
    /\ @rt_split (record_type IntelHex) (list_byte_of_string "Hello, World!")
         4660 default_columns true true = Ok records_out
    /\ @convert_records (record_type MotorolaSrec) (record_type IntelHex)
         records_in = Ok records_out.
Proof.
  apply (convert_records_of_split MotorolaSrec IntelHex).
  - discriminate.
  - lia.
  - vm_compute. discriminate.
  - vm_compute. discriminate.
  - intros _. vm_compute. reflexivity.
  - intros _. vm_compute. discriminate.
Defined.

(** ** Intel: the start address and the first page record *)

Lemma unpack_fold_be (n : nat) :
  forall (v acc : Z),
    fold_left (fun acc b => 256 * acc + byte_val b) (be_bytes n v) acc
    = acc * 256 ^ Z.of_nat n + v mod 256 ^ Z.of_nat n.
Proof.
  induction n as [|n IH]; intros v acc.
  - cbn [be_bytes fold_left]. change (256 ^ Z.of_nat 0) with 1.
    rewrite Z.mod_1_r. lia.
  - cbn [be_bytes]. rewrite fold_left_app, IH. cbn [fold_left].
    pose proof (Z.mod_pos_bound v 256 ltac:(lia)).
    rewrite byte_val_of_Z by lia.
    rewrite Nat2Z.inj_succ, Z.pow_succ_r by lia.
    assert (P : 0 < 256 ^ Z.of_nat n) by (apply Z.pow_pos_nonneg; lia).
    rewrite (Z.rem_mul_r v 256 (256 ^ Z.of_nat n)) by lia. ring.
Qed.

Lemma be_bytes_4_inj (v w : Z) :
  0 <= v < 2 ^ 32 -> 0 <= w < 2 ^ 32 ->
  be_bytes 4 v = be_bytes 4 w -> v = w.
Proof.
  intros Hv Hw E.
  pose proof (unpack_fold_be 4 v 0) as Fv.
  pose proof (unpack_fold_be 4 w 0) as Fw.
  rewrite E in Fv. rewrite Fv in Fw.
  change (256 ^ Z.of_nat 4) with (2 ^ 32) in Fw.
  rewrite !Z.mod_small in Fw by lia. lia.
Qed.

Lemma intel_terminate_start (start : Z) (t : list record) :
  Intel.terminate start = Ok t ->
  exists r1 r2 r3, t = [r1; r2; r3] /\ data r2 = be_bytes 4 start.
Proof.
  unfold Intel.terminate. intro H.
  apply bind_ok in H. destruct H as (r1 & _ & H).
  apply bind_ok in H. destruct H as (r2 & H2 & H).
  apply bind_ok in H. destruct H as (r3 & _ & H). injection H as <-.
  exists r1, r2, r3. split; [reflexivity|].
  unfold Intel.build_start_linear_address in H2.
  apply unless_bind_ok in H2. destruct H2 as [_ H2].
  apply bind_ok in H2. destruct H2 as (d2 & Hd2 & H2).
  apply pack_be_inv in Hd2. destruct Hd2 as [-> _].
  apply intel_init_inv in H2. now destruct H2 as (_ & _ & -> & _).
Qed.

(** X14: for a non-empty block at or above 0x10000, [blocks_to_records]
    in the Intel format returns the data and extended linear address
    records of [split], but ends them with the termination records for the
    start address 0, where [split] has those for the address of the data:
    [build_standalone] takes the minimum of the addresses of all the
    records it is given, and the extended linear address records among
    them are at address 0. *)
Theorem intel_blocks_start_address (d : list byte) (a : Z) :
  d <> [] -> 65536 <= a -> a + len d <= 2 ^ 32 ->
  exists out ta t0,
    Intel.split d a 16 true true None = Ok (out ++ ta)
    /\ Intel.terminate a = Ok ta
    /\ @blocks_to_records IntelRecord [(a, d)] = Ok (out ++ t0)
    /\ Intel.terminate 0 = Ok t0
    /\ t0 <> ta.
Proof.
  intros Hd Ha He. apply len_pos in Hd as Hl.
  destruct (chunks_bounded d a 255 Hd ltac:(lia))
    as (chunks & Ech & Hcat & F & _).
  destruct (intel_split_loop_ok chunks a 0) as (out & pieces & Eo & _);
    [lia|lia|rewrite Hcat; lia| | |].
  { eapply Forall_impl; [|exact F]. intros c K. cbv beta in K. lia. }
  { destruct chunks as [|c cs]; [constructor|]. inversion F; subst. cbn [tl].
    eapply Forall_impl; [|eassumption]. intros x K. apply K. }
  pose proof (intel_split_loop_addr chunks a 0 out Eo) as Hadd.
  destruct (intel_terminate_ok a ltac:(lia)) as (a1 & a2 & a3 & Eta & _).
  destruct (intel_terminate_ok 0 ltac:(lia)) as (z1 & z2 & z3 & Etz & _).
  assert (Hmin : exists r rs, out = r :: rs /\ address r = 0).
  { destruct chunks as [|c cs]; [cbn in Hcat; congruence|].
    pose proof (chop_first d 16 (a mod 16) c cs ltac:(lia)
                  (Z.mod_pos_bound a 16 ltac:(lia)) Ech) as K.
    inversion F as [|? ? [Hcne _] _]; subst. apply len_pos in Hcne.
    cbn [Intel.split_loop] in Eo. rewrite land_ffff, !mask_pagesb in Eo.
    rewrite len_concat_cons in He.
    pose proof (len_nonneg (List.concat cs)).
    assert (Hpa : (a / 65536) mod 65536 = a / 65536).
    { apply Z.mod_small. split; [apply Z.div_pos; lia|].
      apply Z.div_lt_upper_bound; lia. }
    replace (negb ((a + len c) mod 65536 =? 0)
             && negb ((a / 65536) mod 65536
                      =? ((a + len c) / 65536) mod 65536)) with false in Eo.
    2:{ symmetry. apply andb_false_iff.
        destruct (Z.eq_dec ((a + len c) mod 65536) 0) as [E|N].
        - left. now rewrite E.
        - right. apply negb_false_iff, Z.eqb_eq. f_equal.
          clear - K Hcne N Ha. Z.div_mod_to_equations. lia. }
    replace (negb ((a / 65536) mod 65536 =? (0 / 65536) mod 65536))
      with true in Eo.
    2:{ symmetry. apply negb_true_iff, Z.eqb_neq. rewrite Hpa.
        change ((0 / 65536) mod 65536) with 0.
        clear - Ha. Z.div_mod_to_equations. lia. }
    apply bind_ok in Eo. destruct Eo as (ela & Eela & Eo).
    apply bind_ok in Eo. destruct Eo as (r1 & _ & Eo).
    apply bind_ok in Eo. destruct Eo as (rs & _ & Eo). injection Eo as <-.
    apply bind_ok in Eela. destruct Eela as (e & Ee & Eela).
    injection Eela as <-. apply intel_build_ela_inv in Ee.
    destruct Ee as (A0 & _). exists e, (r1 :: rs). now split. }
  destruct Hmin as (r & rs & -> & A0).
  exists (r :: rs), [a1; a2; a3], [z1; z2; z3].
  split; [|split; [exact Eta|split; [|split; [exact Etz|]]]].
  - unfold Intel.split, within, between. ztest. cbn [andb unless bind].
    rewrite Ech. cbn [bind]. rewrite Eo. cbn [bind]. now rewrite Eta.
  - unfold blocks_to_records. cbn [split_blocks rt_split IntelRecord].
    unfold default_columns, Intel.split, within, between. ztest.
    cbn [andb unless bind]. rewrite Ech. cbn [bind]. rewrite Eo.
    cbn [bind]. rewrite app_nil_r. cbn [rt_build_standalone IntelRecord].
    unfold Intel.build_standalone. cbn [bind]. rewrite A0.
    rewrite fold_min_lower.
    + now rewrite Etz.
    + apply Forall_inv_tail in Hadd. apply Forall_forall. intros x Hx.
      apply in_map_iff in Hx. destruct Hx as (y & <- & Hy).
      rewrite Forall_forall in Hadd. now apply Hadd.
  - intro E.
    destruct (intel_terminate_start _ _ Eta) as (p1 & p2 & p3 & Ep & Dp).
    destruct (intel_terminate_start _ _ Etz) as (q1 & q2 & q3 & Eq & Dq).
    injection Ep as -> -> ->. injection Eq as -> -> ->.
    injection E as _ E2 _. rewrite E2 in Dq. rewrite Dq in Dp.
    apply be_bytes_4_inj in Dp; lia.
Qed.

Lemma intel_blocks_start_address_witness :
  exists out ta t0,
    Intel.split (list_byte_of_string "Hello, World!") 65536 16 true true None
    = Ok (out ++ ta)
    /\ Intel.terminate 65536 = Ok ta
    /\ @blocks_to_records IntelRecord
         [(65536, list_byte_of_string "Hello, World!")] = Ok (out ++ t0)
    /\ Intel.terminate 0 = Ok t0
    /\ t0 <> ta.
Proof.
  apply (intel_blocks_start_address (list_byte_of_string "Hello, World!")
           65536).
  - discriminate.
  - lia.
  - vm_compute. discriminate.
Defined.


(** ** Intel: a first chunk across a page boundary *)

Lemma intel_split_loop_sets_base (chunks : list (list byte)) :
  forall (a old : Z) (recs : list record),
    Intel.split_loop chunks a old = Ok recs ->
    Forall (fun r => sets_base r = true -> len (data r) = 2) recs.
Proof.
  assert (D : forall a d r, Intel.build_data a d = Ok r ->
                            sets_base r = true -> len (data r) = 2).
  { intros a d r H. apply intel_build_data_inv in H.
    destruct H as (_ & T & _). unfold sets_base. rewrite T. discriminate. }
  assert (E : forall a r, Intel.build_extended_linear_address a = Ok r ->
                          sets_base r = true -> len (data r) = 2).
  { intros a r H _. apply intel_build_ela_inv in H.
    destruct H as (_ & _ & -> & _). apply len_be_bytes. }
  induction chunks as [|c rest IH]; intros a old recs H.
  - injection H as <-. constructor.
  - cbn [Intel.split_loop] in H.
    match type of H with
    | (if ?b then _ else _) = _ => destruct b
    end.
    + apply bind_ok in H. destruct H as (r1 & H1 & H).
      apply bind_ok in H. destruct H as (r2 & H2 & H).
      apply bind_ok in H. destruct H as (r3 & H3 & H).
      apply bind_ok in H. destruct H as (rs & Hrs & H). injection H as <-.
      repeat constructor; eauto.
    + apply bind_ok in H. destruct H as (ela & He & H).
      apply bind_ok in H. destruct H as (r & Hr & H).
      apply bind_ok in H. destruct H as (rs & Hrs & H). injection H as <-.
      apply Forall_app. split.
      * match type of He with
        | (if ?b then _ else _) = _ => destruct b
        end.
        -- apply bind_ok in He. destruct He as (e & Ee & He).
           injection He as <-. constructor; [eauto|constructor].
        -- injection He as <-. constructor.
      * constructor; eauto.
Qed.

Lemma line_image_sets_base (parsed recs : list record) :
  Forall2 line_image parsed recs ->
  Forall (fun r => sets_base r = true -> len (data r) = 2) recs ->
  Forall (fun r => sets_base r = true -> len (data r) = 2) parsed.
Proof.
  induction 1 as [|p r ps rs (_ & Tp & Dp) _ IH]; intro S; [constructor|].
  inversion S; subst. constructor; [|now apply IH].
  unfold sets_base in *. rewrite Tp, Dp. assumption.
Qed.

Lemma last_writer_head (s : Z) (items : list byte) (rest : list block) :
  items <> [] -> last_writer ((s, items) :: rest) s <> None.
Proof.
  intro Hi. cbn [last_writer].
  destruct (last_writer rest s); [discriminate|].
  apply len_pos in Hi. ztest. cbn [andb]. rewrite Z.sub_diag.
  destruct items; [cbn in Hi; lia|discriminate].
Qed.

(** X15: when the first chunk that [split] of the Intel format cuts from
    the data starts at or above 0x10000 and reaches beyond the next multiple
    of 0x10000, the first record of the result is the data record at the
    address of the data, with no extended linear address record before it.
    Written to a stream with [write_records] and loaded with [load_blocks],
    the blocks hold a byte at the address modulo 0x10000, below the data,
    and are not the block that was split. *)
Theorem intel_split_first_chunk_across_page (d : list byte)
  (a columns : Z) (align : bool) (c : list byte) (cs : list (list byte)) :
  0 < columns < 255 -> 65536 <= a -> a + len d <= 2 ^ 32 ->
  chop d columns (if align then a mod columns else 0) = Ok (c :: cs) ->
  65536 < a mod 65536 + len c ->
  exists r rest stream blocks,
    Intel.split d a columns align true None = Ok (r :: rest)
    /\ Intel.is_data r = true /\ address r = a
    /\ data r = take (65536 - a mod 65536) c
    /\ @write_records IntelRecord (r :: rest) = Ok stream
    /\ load_blocks IntelHex stream = Ok blocks
    /\ byte_at blocks (a mod 65536) <> None
    /\ blocks <> [(a, d)].
Proof.
  intros Hc Ha He Hch Hx.
  set (ab := if align then a mod columns else 0) in *.
  assert (Hab : 0 <= ab < columns).
  { subst ab. destruct align; [apply Z.mod_pos_bound|]; lia. }
  destruct (chop_split d columns ab)
    as (chunks & Ech & Hcat & Hle & Htl & _ & _); [lia|exact Hab|].
  rewrite Hch in Ech. injection Ech as <-. cbn [tl] in Htl.
  pose proof (Z.mod_pos_bound a 65536 ltac:(lia)) as Hm.
  assert (Hlc : 0 < len c <= columns).
  { apply Forall_inv in Hle as K. cbv beta in K. lia. }
  assert (Hld : len c <= len d).
  { rewrite <- Hcat, len_concat_cons.
    pose proof (len_nonneg (List.concat cs)). lia. }
  assert (F : Forall (fun c : list byte => c <> [] /\ len c <= 255) (c :: cs)).
  { constructor; [split; [apply len_pos|]; lia|].
    apply Forall_inv_tail in Hle. apply Forall_forall. intros x Hin.
    rewrite Forall_forall in Hle, Htl. specialize (Hle x Hin).
    specialize (Htl x Hin). cbv beta in *. split; [assumption|lia]. }
  destruct (intel_split_loop_ok (c :: cs) a 0) as (out & pieces & Eo & _);
    [lia|lia|rewrite Hcat; lia| |exact Htl|].
  { eapply Forall_impl; [|exact Hle]. intros x K. cbv beta in K. lia. }
  destruct (intel_split_loop_reload (c :: cs) a 0 (a / 65536 * 65536) out)
    as (Fc & _);
    [lia|lia|rewrite Hcat; lia|change (2 ^ 32) with 4294967296; lia|exact F
    |now left|exact Eo|].
  pose proof (intel_split_loop_sets_base _ _ _ _ Eo) as So.
  destruct (intel_terminate_ok a ltac:(lia)) as (t1 & t2 & t3 & Et & _).
  destruct (intel_terminate_valid a _ Et) as (Ct & Nt & St).
  assert (Hout : exists r1 rs,
             out = r1 :: rs /\ tag r1 = Some 0 /\ address r1 = a
             /\ data r1 = take (65536 - a mod 65536) c).
  { cbn [Intel.split_loop] in Eo. rewrite land_ffff, mask_pagesb in Eo.
    assert (Ho : (a + len c) mod 65536 = a mod 65536 + len c - 65536).
    { clear - Hx Hlc Hc Hm. Z.div_mod_to_equations. lia. }
    assert (Hp : (a + len c) / 65536 = a / 65536 + 1).
    { clear - Hx Hlc Hc Hm. Z.div_mod_to_equations. lia. }
    assert (Hpa : 0 <= a / 65536 /\ a / 65536 + 1 < 65536).
    { rewrite <- Hp. split; [apply Z.div_pos; lia|].
      apply Z.div_lt_upper_bound; [lia|].
      rewrite <- Hcat, len_concat_cons in He.
      pose proof (len_nonneg (List.concat cs)).
      assert ((a + len c) mod 65536 <> 0) by lia.
      clear - He H H0 Hlc. change (2 ^ 32) with 4294967296 in He.
      Z.div_mod_to_equations. lia. }
    replace (negb ((a + len c) mod 65536 =? 0)
             && negb ((a / 65536) mod 65536
                      =? ((a + len c) / 65536) mod 65536)) with true in Eo.
    2:{ symmetry. apply andb_true_iff. split; apply negb_true_iff, Z.eqb_neq.
        - lia.
        - rewrite Hp, !Z.mod_small by lia. lia. }
    apply bind_ok in Eo. destruct Eo as (r1 & E1 & Eo).
    apply bind_ok in Eo. destruct Eo as (r2 & _ & Eo).
    apply bind_ok in Eo. destruct Eo as (r3 & _ & Eo).
    apply bind_ok in Eo. destruct Eo as (rs & _ & Eo). injection Eo as <-.
    apply intel_build_data_inv in E1. destruct E1 as (A1 & T1 & D1 & _).
    exists r1, (r2 :: r3 :: rs). repeat split; try assumption.
    rewrite D1. f_equal. lia. }
  destruct Hout as (r1 & rs & -> & T1 & A1 & D1).
  destruct (intel_read_write ((r1 :: rs) ++ [t1; t2; t3]))
    as (stream & parsed & Ew & Er & Fp); [apply Forall_app; now split|].
  pose proof (line_image_sets_base _ _ Fp
                ltac:(apply Forall_app; now split)) as Sp.
  cbn [app] in Fp. apply Forall2_cons_r in Fp.
  destruct Fp as (p1 & ps & -> & (Ap & Tp & Dp) & _).
  apply (readdress_loop_returns (p1 :: ps) 0) in Sp. destruct Sp as [o Eo'].
  assert (Sb : sets_base p1 = false).
  { unfold sets_base. rewrite Tp, T1. reflexivity. }
  pose proof Eo' as Eo2. rewrite (readdress_step_plain p1 ps 0 Sb) in Eo2.
  apply bind_ok in Eo2. destruct Eo2 as (os & _ & Eo2). injection Eo2 as <-.
  assert (Hd1 : data p1 <> []).
  { rewrite Dp, D1. apply len_pos. rewrite len_take by lia. lia. }
  assert (Hb : byte_at (@records_to_blocks IntelRecord
                          (with_address p1 (0 + address p1) :: os))
                       (a mod 65536) <> None).
  { unfold records_to_blocks, get_data_records.
    destruct (merge_union_spec
                [map block_of
                   (filter Intel.is_data
                      (with_address p1 (0 + address p1) :: os))])
      as (Hb & _).
    cbn [rt_is_data IntelRecord]. rewrite Hb. cbn [List.concat].
    rewrite app_nil_r. cbn [filter].
    replace (Intel.is_data (with_address p1 (0 + address p1))) with true
      by (unfold Intel.is_data, with_address; cbn [tag];
          now rewrite Tp, T1).
    cbn [map]. unfold block_of at 1, with_address. cbn [address data].
    rewrite Ap, A1, Z.add_0_l. now apply last_writer_head. }
  exists r1, (rs ++ [t1; t2; t3]), stream,
    (@records_to_blocks IntelRecord (with_address p1 (0 + address p1) :: os)).
  split; [|split; [|split; [exact A1|split; [exact D1|split;
    [exact Ew|split; [|split]]]]]].
  - unfold Intel.split, within, between. ztest. cbn [andb unless bind].
    fold ab. rewrite Hch. cbn [bind]. rewrite Eo. cbn [bind].
    now rewrite Et.
  - unfold Intel.is_data. now rewrite T1.
  - pose proof (load_written_records IntelHex _ _ Ew) as Lw.
    cbn [record_type] in Lw. rewrite Lw.
    unfold read_blocks. cbn [record_type]. rewrite Er.
    cbn [bind readdress]. unfold Intel.readdress. rewrite Eo'. reflexivity.
  - exact Hb.
  - intro E. rewrite E in Hb. apply Hb. cbn [byte_at].
    replace (a <=? a mod 65536) with false
      by (symmetry; apply Z.leb_gt; lia).
    reflexivity.
Qed.

Lemma intel_split_first_chunk_across_page_witness :
  exists r rest stream blocks,
    Intel.split (list_byte_of_string "Hello, World! Hello") 131064 16 false
                true None = Ok (r :: rest)
    /\ Intel.is_data r = true /\ address r = 131064
    /\ data r = take (65536 - 131064 mod 65536)
                     (list_byte_of_string "Hello, World! He")
    /\ @write_records IntelRecord (r :: rest) = Ok stream
    /\ load_blocks IntelHex stream = Ok blocks
    /\ byte_at blocks (131064 mod 65536) <> None
    /\ blocks <> [(131064, list_byte_of_string "Hello, World! Hello")].
Proof.
  apply (intel_split_first_chunk_across_page
           (list_byte_of_string "Hello, World! Hello") 131064 16 false
           (list_byte_of_string "Hello, World! He")
           [list_byte_of_string "llo"]).
  - lia.
  - lia.
  - vm_compute. discriminate.
  - vm_compute. reflexivity.
  - vm_compute. reflexivity.
Defined.

(** ** Motorola: what [check_sequence] accepts *)

Lemma tag_in_some (ts : list Z) (r : record) (t : Z) :
  tag r = Some t -> tag_in ts r = existsb (Z.eqb t) ts.
Proof. intro H. unfold tag_in. now rewrite H. Qed.

Lemma motorola_is_data_some (r : record) (t : Z) :
  tag r = Some t -> Motorola.is_data r = existsb (Z.eqb t) [1; 2; 3].
Proof.
  intro H. unfold Motorola.is_data. rewrite H. cbn [existsb].
  now rewrite orb_false_r, orb_assoc.
Qed.

Lemma motorola_scan_spec (it : list record) :
  forall ft dc hf cf rec it' ft' hf' cf',
    motorola_scan it ft dc hf cf = Ok (rec, it', ft', hf', cf') ->
    exists body,
      it = body ++ match rec with Some r => r :: it' | None => [] end
      /\ (rec = None -> it' = [])
      /\ (forall r, rec = Some r ->
                    exists t, tag r = Some t
                              /\ existsb (Z.eqb t) [0; 1; 2; 3; 5; 6] = false)
      /\ Forall (fun r => tag_in [0; 1; 2; 3; 5; 6] r = true) body
      /\ Z.b2z hf + len (filter (tag_in [0]) body) = Z.b2z hf'
      /\ Z.b2z cf + len (filter (tag_in [5; 6]) body) = Z.b2z cf'
      /\ (forall pre c post,
             body = pre ++ c :: post -> tag_in [5; 6] c = true ->
             count_value c = Ok (dc + len (filter Motorola.is_data pre)))
      /\ (forall f, ft = Some f -> ft' = Some f)
      /\ (ft' = None -> filter Motorola.is_data body = [])
      /\ (filter Motorola.is_data body = [] -> ft' = ft)
      /\ Forall (fun r => Motorola.is_data r = true -> tag r = ft') body.
Proof.
  induction it as [|r it IH]; intros ft dc hf cf rec it' ft' hf' cf' H.
  - injection H as <- <- <- <- <-. exists [].
    repeat split; try constructor; try discriminate; try (cbn; lia).
    + intros pre c post E. now destruct pre.
    + congruence.
  - cbn [motorola_scan] in H. destruct (tag r) as [t|] eqn:Et; [|discriminate].
    pose proof (tag_in_some [0; 1; 2; 3; 5; 6] r t Et) as I6.
    pose proof (tag_in_some [0] r t Et) as I0.
    pose proof (tag_in_some [5; 6] r t Et) as I5.
    pose proof (motorola_is_data_some r t Et) as Id.
    assert (Step : forall ft1 dc1 hf1 cf1,
               motorola_scan it ft1 dc1 hf1 cf1
               = Ok (rec, it', ft', hf', cf') ->
               tag_in [0; 1; 2; 3; 5; 6] r = true ->
               Z.b2z hf + Z.b2z (tag_in [0] r) = Z.b2z hf1 ->
               Z.b2z cf + Z.b2z (tag_in [5; 6] r) = Z.b2z cf1 ->
               dc1 = dc + Z.b2z (Motorola.is_data r) ->
               (tag_in [5; 6] r = true -> count_value r = Ok dc) ->
               (forall f, ft = Some f -> ft1 = Some f) ->
               (Motorola.is_data r = true -> ft1 = tag r) ->
               (Motorola.is_data r = false -> ft1 = ft) ->
               exists body,
                 r :: it
                 = body ++ match rec with Some r => r :: it' | None => [] end
                 /\ (rec = None -> it' = [])
                 /\ (forall r, rec = Some r ->
                       exists t, tag r = Some t
                         /\ existsb (Z.eqb t) [0; 1; 2; 3; 5; 6] = false)
                 /\ Forall (fun r => tag_in [0; 1; 2; 3; 5; 6] r = true) body
                 /\ Z.b2z hf + len (filter (tag_in [0]) body) = Z.b2z hf'
                 /\ Z.b2z cf + len (filter (tag_in [5; 6]) body) = Z.b2z cf'
                 /\ (forall pre c post,
                        body = pre ++ c :: post -> tag_in [5; 6] c = true ->
                        count_value c
                        = Ok (dc + len (filter Motorola.is_data pre)))
                 /\ (forall f, ft = Some f -> ft' = Some f)
                 /\ (ft' = None -> filter Motorola.is_data body = [])
                 /\ (filter Motorola.is_data body = [] -> ft' = ft)
                 /\ Forall (fun r => Motorola.is_data r = true -> tag r = ft')
                           body).
    { intros ft1 dc1 hf1 cf1 Hs J6 J0 J5 Jd Jc Jf Jt Jn.
      destruct (IH _ _ _ _ _ _ _ _ _ Hs)
        as (body & E & N & S & F & H0 & H5 & Hc & Hf & Hn & He & Hd).
      exists (r :: body).
      split; [cbn [app]; now rewrite <- E|].
      split; [exact N|]. split; [exact S|].
      split; [now constructor|].
      split.
      { cbn [filter]. destruct (tag_in [0] r); cbn [Z.b2z] in J0;
          [rewrite len_cons|]; lia. }
      split.
      { cbn [filter]. destruct (tag_in [5; 6] r); cbn [Z.b2z] in J5;
          [rewrite len_cons|]; lia. }
      split.
      { intros pre c post Eb Tc. destruct pre as [|p pre].
        - cbn [app] in Eb. injection Eb as <- _. cbn [filter].
          rewrite (Jc Tc). f_equal. cbn. lia.
        - cbn [app] in Eb. injection Eb as <- Eb.
          rewrite (Hc pre c post Eb Tc). f_equal. cbn [filter].
          destruct (Motorola.is_data r); cbn [Z.b2z] in Jd;
            [rewrite len_cons|]; lia. }
      split; [intros f Ef; apply Hf; now apply Jf|].
      split.
      { intro En. cbn [filter]. rewrite (Hn En).
        destruct (Motorola.is_data r) eqn:Dr; [|reflexivity].
        specialize (Jt eq_refl). rewrite Et in Jt.
        rewrite (Hf t Jt) in En. discriminate. }
      split.
      { cbn [filter]. destruct (Motorola.is_data r); [discriminate|].
        intro Eb. rewrite (He Eb). now apply Jn. }
      constructor; [|exact Hd].
      intro Dr. specialize (Jt Dr). rewrite Et in Jt.
      rewrite Et. symmetry. now apply Hf. }
    destruct (t =? 0) eqn:E0.
    { apply Z.eqb_eq in E0. subst t. destruct hf; [discriminate|].
      apply (Step _ _ _ _ H); rewrite ?I6, ?I0, ?I5, ?Id;
        cbn; try reflexivity; try lia; try discriminate; auto. }
    destruct (existsb (Z.eqb t) [1; 2; 3]) eqn:E123.
    { assert (T6 : existsb (Z.eqb t) [0; 1; 2; 3; 5; 6] = true).
      { cbn [existsb] in *. rewrite E0. cbn [orb].
        rewrite !orb_assoc in *. rewrite orb_false_r in E123.
        now rewrite E123. }
      assert (T0 : existsb (Z.eqb t) [0] = false)
        by (cbn [existsb]; now rewrite E0).
      assert (T5 : existsb (Z.eqb t) [5; 6] = false).
      { cbn [existsb] in *. rewrite !orb_false_r in *.
        apply orb_true_iff in E123. destruct E123 as [K|K].
        - apply Z.eqb_eq in K. now subst t.
        - apply orb_true_iff in K. destruct K as [K|K];
            apply Z.eqb_eq in K; now subst t. }
      destruct ft as [f|].
      - destruct (t =? f) eqn:Etf; cbn [negb] in H; [|discriminate].
        apply Z.eqb_eq in Etf. subst f.
        apply (Step _ _ _ _ H); rewrite ?I6, ?I0, ?I5, ?Id, ?T6, ?T0, ?T5;
          cbn [Z.b2z]; try reflexivity; try lia; try discriminate; auto.
      - apply (Step _ _ _ _ H); rewrite ?I6, ?I0, ?I5, ?Id, ?T6, ?T0, ?T5;
          cbn [Z.b2z]; try reflexivity; try lia; try discriminate; auto. }
    assert (Count : forall v,
               count_value r = Ok v ->
               (t = 5 \/ t = 6) -> cf = false ->
               (if negb (v =? dc)
                then Raise (ValueError (expmsg "record count error"))
                else motorola_scan it ft dc hf true)
               = Ok (rec, it', ft', hf', cf') ->
               exists body,
                 r :: it
                 = body ++ match rec with Some r => r :: it' | None => [] end
                 /\ (rec = None -> it' = [])
                 /\ (forall r, rec = Some r ->
                       exists t, tag r = Some t
                         /\ existsb (Z.eqb t) [0; 1; 2; 3; 5; 6] = false)
                 /\ Forall (fun r => tag_in [0; 1; 2; 3; 5; 6] r = true) body
                 /\ Z.b2z hf + len (filter (tag_in [0]) body) = Z.b2z hf'
                 /\ Z.b2z cf + len (filter (tag_in [5; 6]) body) = Z.b2z cf'
                 /\ (forall pre c post,
                        body = pre ++ c :: post -> tag_in [5; 6] c = true ->
                        count_value c
                        = Ok (dc + len (filter Motorola.is_data pre)))
                 /\ (forall f, ft = Some f -> ft' = Some f)
                 /\ (ft' = None -> filter Motorola.is_data body = [])
                 /\ (filter Motorola.is_data body = [] -> ft' = ft)
                 /\ Forall (fun r => Motorola.is_data r = true -> tag r = ft')
                           body).
    { intros v Ev Ht Hcf Hs. destruct (v =? dc) eqn:Evd;
        cbn [negb] in Hs; [|discriminate].
      apply Z.eqb_eq in Evd. subst v cf.
      apply (Step _ _ _ _ Hs); rewrite ?I6, ?I0, ?I5, ?Id;
        destruct Ht; subst t; cbn; try reflexivity; try lia;
        try discriminate; auto. }
    destruct (t =? 5) eqn:E5.
    { apply Z.eqb_eq in E5. destruct cf; [discriminate|].
      apply bind_ok in H. destruct H as (v & Ev & H).
      apply (Count v); auto.
      unfold count_value. rewrite Et. subst t. exact Ev. }
    destruct (t =? 6) eqn:E6.
    { apply Z.eqb_eq in E6. destruct cf; [discriminate|].
      apply bind_ok in H. destruct H as (uh & Eu & H).
      apply (Count (Z.lor (Z.shiftl (fst uh) 16) (snd uh))); auto.
      unfold count_value. rewrite Et. subst t. cbn [option_Z_eqb Z.eqb].
      now rewrite Eu. }
    injection H as <- <- <- <- <-. exists [].
    split; [reflexivity|]. split; [discriminate|].
    split.
    { intros r' Er. injection Er as <-. exists t. split; [exact Et|].
      cbn [existsb] in *. rewrite E0, E5, E6. cbn [orb].
      rewrite !orb_false_r in *. exact E123. }
    split; [constructor|]. split; [cbn; lia|]. split; [cbn; lia|].
    split; [intros pre c post E; now destruct pre|].
    split; [auto|]. split; [reflexivity|]. split; [reflexivity|constructor].
Qed.

Lemma filter_one {A : Type} (p : A -> bool) (l : list A) :
  len (filter p l) = 1 ->
  exists pre x post,
    l = pre ++ x :: post /\ p x = true
    /\ filter p pre = [] /\ filter p post = [].
Proof.
  induction l as [|y l IH]; [discriminate|]. cbn [filter].
  destruct (p y) eqn:Ey.
  - rewrite len_cons. intro H. exists [], y, l.
    repeat split; [exact Ey|]. apply len_zero_nil. lia.
  - intro H. destruct (IH H) as (pre & x & post & -> & Px & F1 & F2).
    exists (y :: pre), x, post. repeat split; try assumption.
    cbn [filter]. now rewrite Ey.
Qed.

Lemma tag_in_split (r : record) :
  tag_in [0; 1; 2; 3; 5; 6] r = true -> tag_in [5; 6] r = false ->
  tag_in [0; 1; 2; 3] r = true.
Proof.
  unfold tag_in. destruct (tag r) as [t|]; [|discriminate].
  change [0; 1; 2; 3; 5; 6] with ([0; 1; 2; 3] ++ [5; 6]).
  rewrite existsb_app. intros H1 H2. rewrite H2, orb_false_r in H1.
  exact H1.
Qed.

Lemma filter_nil_forall {A : Type} (p : A -> bool) (l : list A) :
  filter p l = [] -> Forall (fun x => p x = false) l.
Proof.
  induction l as [|y l IH]; [constructor|]. cbn [filter].
  destruct (p y) eqn:Ey; [discriminate|]. intro H.
  constructor; [exact Ey|now apply IH].
Qed.

Lemma motorola_sequence_shape (records : list record) :
  check_sequence MotorolaSrec records = Ok tt ->
  exists pre cnt post last t,
    records = pre ++ cnt :: post ++ [last]
    /\ tag_in [5; 6] cnt = true
    /\ count_value cnt = Ok (len (filter Motorola.is_data pre))
    /\ tag last = Some t /\ In t [7; 8; 9]
    /\ Forall (fun r => tag_in [0; 1; 2; 3] r = true) (pre ++ post)
    /\ len (filter (tag_in [0]) (pre ++ post)) = 1
    /\ filter Motorola.is_data (pre ++ post) <> []
    /\ Forall (fun r => Motorola.is_data r = true -> tag r = Some (10 - t))
              (pre ++ post).
Proof.
  cbn [check_sequence]. unfold motorola_check_sequence. intro H.
  apply bind_ok in H. destruct H as ([] & _ & H).
  apply bind_ok in H. destruct H as (st & Hs & H).
  destruct st as [[[[rec it] ft] hf] cf].
  apply unless_bind_ok in H. destruct H as [Hcf H].
  apply unless_bind_ok in H. destruct H as [Hhf H].
  destruct rec as [last|]; [|discriminate].
  destruct (tag last) as [t|] eqn:Et; [|discriminate].
  apply unless_bind_ok in H. destruct H as [H789 H].
  apply bind_ok in H. destruct H as (mt & Hmt & H).
  apply unless_bind_ok in H. destruct H as [Hm H].
  destruct it as [|x it]; [clear H|discriminate].
  subst cf hf.
  apply motorola_scan_spec in Hs.
  destruct Hs as (body & E & _ & _ & F & H0 & H5 & Hc & _ & _ & He & Hd).
  cbn [Z.b2z] in H0, H5. rewrite Z.add_0_l in H0, H5.
  destruct (filter_one _ _ H5) as (pre & cnt & post & -> & Pc & F1 & F2).
  assert (T : In t [7; 8; 9] /\ mt = Some (10 - t)).
  { cbn [existsb] in H789. rewrite orb_false_r in H789.
    apply orb_true_iff in H789. destruct H789 as [K|K].
    - apply Z.eqb_eq in K. subst t. injection Hmt as <-. cbn. auto.
    - apply orb_true_iff in K. destruct K as [K|K];
        apply Z.eqb_eq in K; subst t; injection Hmt as <-; cbn; auto. }
  destruct T as [T Emt]. subst mt.
  apply option_Z_eqb_eq in Hm. subst ft.
  assert (C0 : tag_in [0] cnt = false /\ Motorola.is_data cnt = false).
  { unfold tag_in, Motorola.is_data in *.
    destruct (tag cnt) as [c|]; [|discriminate].
    cbn [existsb] in *. rewrite orb_false_r in *.
    apply orb_true_iff in Pc. destruct Pc as [K|K];
      apply Z.eqb_eq in K; subst c; split; reflexivity. }
  destruct C0 as [C0 Cd].
  exists pre, cnt, post, last, t.
  split; [rewrite E, <- app_assoc; reflexivity|].
  split; [exact Pc|].
  split; [rewrite (Hc pre cnt post eq_refl Pc); f_equal; lia|].
  split; [exact Et|]. split; [exact T|].
  apply Forall_app in F. destruct F as [Fp Fq].
  apply Forall_inv_tail in Fq as Fq'.
  apply Forall_app in Hd. destruct Hd as [Dp Dq].
  apply Forall_inv_tail in Dq.
  split.
  { apply Forall_app. split.
    - apply filter_nil_forall in F1. clear - Fp F1.
      induction Fp as [|x l Hx _ IH]; [constructor|].
      inversion F1; subst. constructor; [now apply tag_in_split|now apply IH].
    - apply filter_nil_forall in F2. clear - Fq' F2.
      induction Fq' as [|x l Hx _ IH]; [constructor|].
      inversion F2; subst.
      constructor; [now apply tag_in_split|now apply IH]. }
  split.
  { rewrite filter_app in *. cbn [filter] in H0. rewrite C0 in H0.
    exact H0. }
  split.
  { intro En.
    assert (K : filter Motorola.is_data (pre ++ cnt :: post) = []).
    { rewrite filter_app in *. cbn [filter]. now rewrite Cd. }
    specialize (He K). discriminate. }
  apply Forall_app. now split.
Qed.

(** X16: a sequence that Motorola's [check_sequence] accepts ends with a
    start record (tag 7, 8 or 9), which is its only one, and has exactly one
    count record (tag 5 or 6), whose value is the number of the data
    records that come before it.  All the other records are header or data
    records: exactly one header record, at least one data record, and every
    data record has the tag that matches the start record (1 with 9, 2 with
    8, 3 with 7). *)
Theorem motorola_check_sequence_shape (records : list record) :
  check_sequence MotorolaSrec records = Ok tt ->
  exists pre cnt post last t,
    records = pre ++ cnt :: post ++ [last]
    /\ tag_in [5; 6] cnt = true
    /\ count_value cnt = Ok (len (filter Motorola.is_data pre))
    /\ tag last = Some t /\ In t [7; 8; 9]
    /\ Forall (fun r => tag_in [0; 1; 2; 3] r = true) (pre ++ post)
    /\ len (filter (tag_in [0]) (pre ++ post)) = 1
    /\ filter Motorola.is_data (pre ++ post) <> []
    /\ Forall (fun r => Motorola.is_data r = true -> tag r = Some (10 - t))
              (pre ++ post).
Proof. exact (motorola_sequence_shape records). Qed.

Lemma motorola_check_sequence_shape_witness :
  exists pre cnt post last t,
    match Motorola.split (list_byte_of_string "Hello, World!") 4660 16 true
                         true None None [] with
    | Ok records => records
    | Raise _ => []
    end = pre ++ cnt :: post ++ [last]
    /\ tag_in [5; 6] cnt = true
    /\ count_value cnt = Ok (len (filter Motorola.is_data pre))
    /\ tag last = Some t /\ In t [7; 8; 9]
    /\ Forall (fun r => tag_in [0; 1; 2; 3] r = true) (pre ++ post)
    /\ len (filter (tag_in [0]) (pre ++ post)) = 1
    /\ filter Motorola.is_data (pre ++ post) <> []
    /\ Forall (fun r => Motorola.is_data r = true -> tag r = Some (10 - t))
              (pre ++ post).
Proof.
  apply (motorola_check_sequence_shape
           match Motorola.split (list_byte_of_string "Hello, World!") 4660 16
                                true true None None [] with
           | Ok records => records
           | Raise _ => []
           end).
  vm_compute. reflexivity.
Defined.

(** ** Motorola: several blocks *)

Lemma motorola_sequence_data_tags (records : list record) :
  check_sequence MotorolaSrec records = Ok tt ->
  exists t, Forall (fun r => Motorola.is_data r = true -> tag r = Some t)
                   records.
Proof.
  intro H. destruct (motorola_sequence_shape records H)
    as (pre & cnt & post & last & t & -> & Pc & _ & Tl & Ht & _ & _ & _ & D).
  exists (10 - t). apply Forall_app in D. destruct D as [Dp Dq].
  apply Forall_app. split; [exact Dp|]. constructor.
  - unfold tag_in, Motorola.is_data in *.
    destruct (tag cnt) as [c|]; [|discriminate].
    cbn [existsb] in Pc. rewrite orb_false_r in Pc.
    apply orb_true_iff in Pc. destruct Pc as [K|K];
      apply Z.eqb_eq in K; subst c; discriminate.
  - apply Forall_app. split; [exact Dq|]. constructor; [|constructor].
    unfold Motorola.is_data. rewrite Tl.
    cbn [In] in Ht. destruct Ht as [<-|[<-|[<-|[]]]]; discriminate.
Qed.

Lemma mapM_tags_bounded (l : list record) :
  Forall (fun r => exists t, tag r = Some t /\ 1 <= t <= 3) l ->
  exists tags,
    mapM (fun r => match tag r with
                   | Some t => Ok t
                   | None => Raise TypeError
                   end) l = Ok tags
    /\ Forall (fun x => 1 <= x <= 3) tags
    /\ len tags = len l.
Proof.
  induction 1 as [|r l (t & Hr & Ht) _ (tags & E & F & L)].
  - exists []. repeat split. constructor.
  - exists (t :: tags). cbn [mapM]. rewrite Hr, E.
    repeat split; [now constructor|]. rewrite !len_cons. lia.
Qed.

Lemma fold_max_bounds (l : list Z) :
  forall x,
    1 <= x <= 3 -> Forall (fun y => 1 <= y <= 3) l ->
    1 <= fold_left Z.max l x <= 3.
Proof.
  induction l as [|y l IH]; intros x Hx F; [exact Hx|].
  inversion F; subst. cbn [fold_left]. apply IH; [lia|assumption].
Qed.

Lemma motorola_split_data (d : list byte) (a : Z) :
  d <> [] -> 0 <= a -> a + len d <= 2 ^ 32 ->
  exists t out,
    Motorola.fit_data_tag (a + len d) = Ok t /\ 1 <= t <= 3
    /\ Motorola.split d a 16 true false None None [] = Ok out
    /\ Forall (fun r => Motorola.check r = Ok tt
                        /\ fits_line MotorolaSrec r
                        /\ tag r = Some t /\ a <= address r) out
    /\ len out = (a mod 16 + len d + 15) / 16
    /\ exists r rs, out = r :: rs /\ address r = a.
Proof.
  intros Hd Ha He. apply len_pos in Hd as Hl.
  destruct (motorola_fit_data_tag_bound (a + len d)) as (t & Et & Ht & Hb);
    [lia|].
  destruct (chunks_bounded d a 134 Hd ltac:(lia))
    as (chunks & Ech & Hcat & F & Hcnt).
  destruct (motorola_split_loop_valid t chunks Ht a 0 Ha)
    as (out & E & V & B & L & Hhd); [rewrite Hcat; lia|exact F|].
  exists t, out. split; [exact Et|]. split; [exact Ht|].
  split.
  { unfold Motorola.split, within, between. ztest.
    cbn [andb unless bind]. rewrite Et. cbn [bind]. rewrite Ech.
    cbn [bind]. rewrite E. reflexivity. }
  split; [exact V|]. split; [now rewrite L|].
  destruct out as [|r rs]; [|now exists r, rs].
  change (len (@nil record)) with 0 in L.
  destruct chunks; [cbn in Hcat; congruence|].
  rewrite len_cons in L. pose proof (len_nonneg chunks). lia.
Qed.

(** X17: for two non-empty blocks in address order, the first one ending
    at or below 0x10000 and the second one ending above it,
    [blocks_to_records] in the Motorola format returns records that each
    pass [check()], but the sequence is one that Motorola's
    [check_sequence] refuses: the data records of each block carry the tag
    that fits that block alone. *)
Theorem motorola_blocks_mixed_tags (d1 d2 : list byte) (a1 a2 : Z) :
  d1 <> [] -> d2 <> [] -> 0 <= a1 -> a1 + len d1 <= a2 ->
  a1 + len d1 <= 2 ^ 16 -> 2 ^ 16 < a2 + len d2 -> a2 + len d2 <= 2 ^ 32 ->
  (a1 mod 16 + len d1 + 15) / 16 + (a2 mod 16 + len d2 + 15) / 16 < 2 ^ 24 ->
  exists records,
    @blocks_to_records MotorolaRecord [(a1, d1); (a2, d2)] = Ok records
    /\ Forall (fun r => Motorola.check r = Ok tt) records
    /\ check_sequence MotorolaSrec records <> Ok tt.
Proof.
  intros Hd1 Hd2 Ha1 Ho H1 H2 He Hn.
  apply len_pos in Hd1 as Hl1. apply len_pos in Hd2 as Hl2.
  destruct (motorola_split_data d1 a1 Hd1 Ha1 ltac:(lia))
    as (t1 & out1 & Et1 & Ht1 & Es1 & V1 & L1 & r1 & rs1 & -> & A1).
  destruct (motorola_split_data d2 a2 Hd2 ltac:(lia) He)
    as (t2 & out2 & Et2 & Ht2 & Es2 & V2 & L2 & r2 & rs2 & -> & A2).
  assert (T1 : t1 = 1).
  { unfold Motorola.fit_data_tag, between in Et1. revert Et1. ztest.
    cbn [andb negb]. intro K. now injection K as <-. }
  assert (T2 : 2 <= t2).
  { unfold Motorola.fit_data_tag, between in Et2. revert Et2. ztest.
    cbn [andb negb].
    replace (a2 + len d2 <=? 2 ^ 16) with false
      by (symmetry; apply Z.leb_gt; lia).
    destruct (a2 + len d2 <=? 2 ^ 24); intro K; injection K as <-;
      unfold Motorola.DATA_24, Motorola.DATA_32; lia. }
  subst t1.
  set (out := (r1 :: rs1) ++ (r2 :: rs2) ++ []).
  assert (V : Forall (fun r => Motorola.check r = Ok tt
                               /\ (exists t, tag r = Some t /\ 1 <= t <= 3)
                               /\ a1 <= address r) out).
  { subst out. rewrite app_nil_r. apply Forall_app. split.
    - eapply Forall_impl; [|exact V1]. intros x (C & _ & T & A).
      split; [exact C|]. split; [exists 1; split; [exact T|lia]|exact A].
    - eapply Forall_impl; [|exact V2]. intros x (C & _ & T & A).
      split; [exact C|]. split; [exists t2; split; [exact T|lia]|lia]. }
  assert (Lo : len out = len (r1 :: rs1) + len (r2 :: rs2)).
  { subst out. now rewrite app_nil_r, len_app. }
  destruct (mapM_tags_bounded out) as (tags & Em & Ft & Lt).
  { eapply Forall_impl; [|exact V]. intros x K. apply K. }
  destruct (motorola_count_valid (len out)) as (c & Ec & Cc & _ & _).
  { pose proof (len_nonneg out). lia. }
  assert (Hh : 1 <= hd 0 tags <= 3).
  { destruct tags as [|x tags].
    - rewrite Lo, len_cons in Lt. change (len (@nil Z)) with 0 in Lt.
      pose proof (len_nonneg rs1). pose proof (len_nonneg (r2 :: rs2)). lia.
    - cbn [hd]. now apply Forall_inv in Ft. }
  pose proof (fold_max_bounds tags _ Hh Ft) as Hg0.
  pose proof (fold_max_bounds tags _ Hg0 Ft) as Hg.
  assert (Emin : fold_left Z.min (map address (rs1 ++ (r2 :: rs2) ++ []))
                           (address r1) = a1).
  { rewrite A1. apply fold_min_lower.
    apply Forall_inv_tail in V. apply Forall_forall. intros x Hx.
    apply in_map_iff in Hx. destruct Hx as (y & <- & Hy).
    rewrite Forall_forall in V. now apply V. }
  destruct (motorola_terminator_valid a1
              (fold_left Z.max tags (fold_left Z.max tags (hd 0 tags))))
    as (tm & Etm & Ctm & _); [exact Hg| |].
  { split; [lia|]. apply Z.lt_le_trans with (2 ^ 16); [lia|].
    apply Z.pow_le_mono_r; lia. }
  exists (mkRecord 0 (Some 0) [] 3 (Some 252) :: out ++ [c; tm]).
  assert (Eb : @blocks_to_records MotorolaRecord [(a1, d1); (a2, d2)]
               = Ok (mkRecord 0 (Some 0) [] 3 (Some 252) :: out ++ [c; tm])).
  { unfold blocks_to_records. cbn [split_blocks rt_split MotorolaRecord].
    unfold default_columns. rewrite Es1, Es2. cbn [bind].
    fold out. cbn [rt_build_standalone MotorolaRecord].
    unfold Motorola.build_standalone.
    change (Motorola.build_data 0 [] None)
      with (Ok (mkRecord 0 (Some 1) [] 3 (Some 252))).
    cbn [bind].
    change (match out with [] => _ | _ :: _ => out end) with out.
    rewrite Em. cbn [bind].
    change (Motorola.build_header [])
      with (Ok (mkRecord 0 (Some 0) [] 3 (Some 252))).
    cbn [bind]. rewrite Ec. cbn [bind].
    change (match out with
            | [] => address (mkRecord 0 (Some 1) [] 3 (Some 252))
            | r :: rs => fold_left Z.min (map address rs) (address r)
            end)
      with (fold_left Z.min (map address (rs1 ++ (r2 :: rs2) ++ []))
                      (address r1)).
    rewrite Emin, Etm. reflexivity. }
  split; [exact Eb|]. split.
  - constructor; [reflexivity|]. apply Forall_app. split.
    + eapply Forall_impl; [|exact V]. intros x K. apply K.
    + constructor; [exact Cc|]. constructor; [exact Ctm|constructor].
  - intro Hs. apply motorola_sequence_data_tags in Hs.
    destruct Hs as [t Hs]. apply Forall_inv_tail in Hs.
    apply Forall_app in Hs. destruct Hs as [Hs _]. subst out.
    apply Forall_app in Hs. destruct Hs as [Hs1 Hs2].
    apply Forall_inv in Hs1. apply Forall_app in Hs2.
    destruct Hs2 as [Hs2 _]. apply Forall_inv in Hs2.
    apply Forall_inv in V1. destruct V1 as (_ & _ & Tg1 & _).
    apply Forall_inv in V2. destruct V2 as (_ & _ & Tg2 & _).
    rewrite Tg1 in Hs1. rewrite Tg2 in Hs2.
    assert (D1 : Motorola.is_data r1 = true)
      by (unfold Motorola.is_data; now rewrite Tg1).
    assert (D2 : Motorola.is_data r2 = true).
    { unfold Motorola.is_data. rewrite Tg2.
      assert (K : t2 = 2 \/ t2 = 3) by lia.
      destruct K as [->| ->]; reflexivity. }
    specialize (Hs1 D1). specialize (Hs2 D2). injection Hs1 as <-.
    injection Hs2 as ->. lia.
Qed.

Lemma motorola_blocks_mixed_tags_witness :
  exists records,
    @blocks_to_records MotorolaRecord
      [(0, list_byte_of_string "Hello");
       (65536, list_byte_of_string "World")] = Ok records
    /\ Forall (fun r => Motorola.check r = Ok tt) records
    /\ check_sequence MotorolaSrec records <> Ok tt.
Proof.
  apply (motorola_blocks_mixed_tags (list_byte_of_string "Hello")
           (list_byte_of_string "World") 0 65536).
  - discriminate.
  - discriminate.
  - lia.
  - vm_compute. discriminate.
  - vm_compute. discriminate.
  - vm_compute. reflexivity.
  - vm_compute. discriminate.
  - vm_compute. reflexivity.
Defined.


(** ** What [check] enforces on the address, and what enforces the width *)

Lemma intel_check_page_shift (r : record) (k : Z) :
  Intel.check r = Ok tt -> 0 <= k ->
  Intel.check (with_address r (address r + 2 ^ 16 * k)) = Ok tt.
Proof.
  intros H Hk.
  assert (Ha : 0 <= address r).
  { unfold Intel.check, Record_check in H.
    destruct (0 <=? address r) eqn:E; [now apply Z.leb_le in E|discriminate]. }
  assert (Ec : Intel.compute_checksum (with_address r (address r + 2 ^ 16 * k))
               = Intel.compute_checksum r).
  { unfold Intel.compute_checksum, with_address. cbn [address tag count data].
    rewrite !land_ffff. change (2 ^ 16) with 65536.
    rewrite Z.mul_comm, Z.mod_add by lia. reflexivity. }
  unfold Intel.check, Record_check in *. rewrite Ec.
  unfold Intel.compute_count in *. unfold with_address at 1 2 3 4 5 6 7.
  cbn [address tag count data checksum] in *.
  replace (0 <=? address r + 2 ^ 16 * k) with true
    by (symmetry; apply Z.leb_le; nia).
  replace (0 <=? address r) with true in H by (symmetry; apply Z.leb_le; lia).
  exact H.
Qed.

Lemma motorola_check_any_address (r : record) (a : Z) :
  Motorola.check r = Ok tt -> Motorola.is_data r = true ->
  checksum r = None -> 0 <= a ->
  Motorola.check (with_address r a) = Ok tt.
Proof.
  intros H Hd Hs Ha.
  unfold Motorola.check, Record_check, Motorola.compute_count in *.
  unfold with_address. cbn [address tag count data checksum] in *.
  rewrite Hs in *. unfold Motorola.is_data in Hd.
  destruct (tag r) as [t|]; [|discriminate].
  replace (0 <=? a) with true by (symmetry; apply Z.leb_le; lia).
  destruct (0 <=? address r); [|discriminate].
  cbn [unless bind] in *.
  destruct (between 0 t 255); [|discriminate]. cbn [unless bind] in *.
  destruct (between 0 (count r) 255); [|discriminate]. cbn [unless bind] in *.
  destruct (Motorola.TAG_TYPE (Some t)) as [t'|e] eqn:Et; [|discriminate].
  cbn [bind] in *.
  assert (t' = t).
  { unfold Motorola.TAG_TYPE in Et. destruct (between 0 t 9); congruence. }
  subst t'.
  replace (existsb (Z.eqb t) [0; 4; 5; 6]) with false in *.
  - exact H.
  - unfold Motorola.DATA_16, Motorola.DATA_24, Motorola.DATA_32 in Hd.
    apply orb_true_iff in Hd. destruct Hd as [Hd|Hd];
      [apply orb_true_iff in Hd; destruct Hd as [Hd|Hd]|];
      apply Z.eqb_eq in Hd; subst t; reflexivity.
Qed.

Lemma mos_check_any_address (r : record) (a : Z) :
  Mos.check r = Ok tt -> checksum r = None -> 0 <= a < 2 ^ 16 ->
  Mos.check (with_address r a) = Ok tt.
Proof.
  intros H Hs Ha. unfold Mos.check, within in *. unfold with_address.
  cbn [address tag count data checksum] in *. rewrite Hs in *.
  replace ((0 <=? a) && (a <? 2 ^ 16)) with true
    by (symmetry; apply andb_true_iff; split;
        [apply Z.leb_le|apply Z.ltb_lt]; lia).
  destruct ((0 <=? address r) && (address r <? 2 ^ 16)); [|discriminate].
  exact H.
Qed.

Lemma motorola_check_stored_bound (r : record) :
  Motorola.check r = Ok tt -> checksum r <> None -> address r < 2 ^ 64.
Proof.
  intros H Hs. unfold Motorola.check in H.
  apply bind_ok in H. destruct H as ([] & H & _).
  unfold Record_check in H.
  apply unless_bind_ok in H. destruct H as [_ H].
  destruct (tag r) as [t|]; [|discriminate].
  apply unless_bind_ok in H. destruct H as [_ H].
  apply unless_bind_ok in H. destruct H as [_ H].
  destruct (checksum r) as [s|]; [|congruence].
  apply unless_bind_ok in H. destruct H as [_ H].
  apply bind_ok in H. destruct H as (c & Hc & _).
  unfold Motorola.compute_checksum in Hc.
  apply bind_ok in Hc. destruct Hc as (p & Hp & _).
  unfold Motorola.pack_BL in Hp.
  apply bind_ok in Hp. destruct Hp as (b & _ & Hp).
  apply bind_ok in Hp. destruct Hp as (l & Hl & _).
  unfold pack_be in Hl. apply unless_bind_ok in Hl. destruct Hl as [Hl _].
  apply within_spec in Hl. change (256 ^ Z.of_nat 8) with (2 ^ 64) in Hl. lia.
Qed.

Lemma split_address_guard (f : Format) (d : list byte) (a columns : Z)
  (align standalone : bool) :
  ~ (0 <= a < 2 ^ address_bits f) ->
  @rt_split (record_type f) d a columns align standalone
  = Raise (ValueError "address overflow").
Proof.
  intro H.
  assert (E : within 0 a (2 ^ address_bits f) = false).
  { destruct (within 0 a (2 ^ address_bits f)) eqn:E; [|reflexivity].
    apply within_spec in E. tauto. }
  destruct f; cbn [record_type rt_split IntelRecord MotorolaRecord MosRecord
                   address_bits] in *;
    unfold Intel.split, Motorola.split, Mos.split; now rewrite E.
Qed.

Lemma split_size_guard (f : Format) (d : list byte) (a columns : Z)
  (align standalone : bool) :
  0 <= a < 2 ^ address_bits f -> 2 ^ address_bits f < a + len d ->
  @rt_split (record_type f) d a columns align standalone
  = Raise (ValueError "size overflow").
Proof.
  intros Ha H.
  assert (E : within 0 a (2 ^ address_bits f) = true)
    by now apply within_spec.
  assert (E' : between 0 (a + len d) (2 ^ address_bits f) = false).
  { destruct (between 0 (a + len d) (2 ^ address_bits f)) eqn:B;
      [|reflexivity]. apply between_spec in B. lia. }
  destruct f; cbn [record_type rt_split IntelRecord MotorolaRecord MosRecord
                   address_bits] in *;
    unfold Intel.split, Motorola.split, Mos.split; now rewrite E, E'.
Qed.

(** C7 (amended): in every format [check] refuses a negative address, and
    the MOS [check] an address of 2^16 or more.  It enforces no other
    width: a valid Intel record stays valid with its address raised by any
    multiple of 2^16; a valid Motorola data record with no stored checksum
    stays valid at any address from 0 on, and a valid MOS record with no
    stored checksum at any address below 2^16, whatever the end of the
    data; a Motorola record with a stored checksum is valid below 2^64
    only.  The width is enforced by the Intel constructor and at the entry
    of every [split]: an address outside the width is an address overflow,
    data that end beyond it a size overflow. *)
Theorem check_address_bounds :
  (forall (f : Format) (r : record),
      address r < 0 ->
      @rt_check (record_type f) r = Raise (ValueError "address overflow"))
  /\ (forall r : record,
         2 ^ 16 <= address r ->
         Mos.check r = Raise (ValueError "address overflow"))
  /\ (forall (r : record) (k : Z),
         Intel.check r = Ok tt -> 0 <= k ->
         Intel.check (with_address r (address r + 2 ^ 16 * k)) = Ok tt)
  /\ (forall (r : record) (a : Z),
         Motorola.check r = Ok tt -> Motorola.is_data r = true ->
         checksum r = None -> 0 <= a ->
         Motorola.check (with_address r a) = Ok tt)
  /\ (forall (r : record) (a : Z),
         Mos.check r = Ok tt -> checksum r = None -> 0 <= a < 2 ^ 16 ->
         Mos.check (with_address r a) = Ok tt)
  /\ (forall r : record,
         Motorola.check r = Ok tt -> checksum r <> None ->
         address r < 2 ^ 64)
  /\ (forall (a : Z) (t : option Z) (d : list byte) (c : checksum_arg),
         ~ (0 <= a < 2 ^ 32) ->
         Intel.init a t d c = Raise (ValueError "address overflow"))
  /\ (forall (a : Z) (t : option Z) (d : list byte) (c : checksum_arg),
         0 <= a < 2 ^ 32 -> 2 ^ 32 < a + len d ->
         Intel.init a t d c = Raise (ValueError "size overflow"))
  /\ (forall (f : Format) (d : list byte) (a columns : Z)
             (align standalone : bool),
         ~ (0 <= a < 2 ^ address_bits f) ->
         @rt_split (record_type f) d a columns align standalone
         = Raise (ValueError "address overflow"))
  /\ (forall (f : Format) (d : list byte) (a columns : Z)
             (align standalone : bool),
         0 <= a < 2 ^ address_bits f -> 2 ^ address_bits f < a + len d ->
         @rt_split (record_type f) d a columns align standalone
         = Raise (ValueError "size overflow")).
Proof.
  split; [|split; [|split; [exact intel_check_page_shift
    |split; [exact motorola_check_any_address
    |split; [exact mos_check_any_address
    |split; [exact motorola_check_stored_bound
    |split; [|split; [|split; [exact split_address_guard
                              |exact split_size_guard]]]]]]]]].
  - intros f r H. destruct f; simpl.
    + unfold Intel.check. now rewrite Record_check_negative.
    + unfold Motorola.check. now rewrite Record_check_negative.
    + unfold Mos.check, within.
      replace (0 <=? address r) with false by (symmetry; apply Z.leb_gt; lia).
      reflexivity.
  - intros r H. unfold Mos.check, within.
    replace (address r <? 2 ^ 16) with false by (symmetry; apply Z.ltb_ge; lia).
    now rewrite andb_false_r.
  - intros a t d c H. unfold Intel.init, within.
    destruct (0 <=? a) eqn:E1; [|reflexivity].
    destruct (a <? 2 ^ 32) eqn:E2; [|reflexivity].
    apply Z.leb_le in E1. apply Z.ltb_lt in E2. lia.
  - intros a t d c H1 H2. unfold Intel.init, within, between.
    replace (0 <=? a) with true by (symmetry; apply Z.leb_le; lia).
    replace (a <? 2 ^ 32) with true by (symmetry; apply Z.ltb_lt; lia).
    replace (a + len d <=? 2 ^ 32) with false
      by (symmetry; apply Z.leb_gt; lia).
    now rewrite andb_false_r.
Qed.

Lemma check_address_bounds_witness :
  @rt_check (record_type MotorolaSrec) (mkRecord (-1) (Some 1) [] 3 None)
    = Raise (ValueError "address overflow")
  /\ Mos.check (mkRecord 65536 None [] 0 None)
     = Raise (ValueError "address overflow")
  /\ Intel.check (with_address (mkRecord 4660 (Some 0) [x41] 1 (Some 120))
                               (4660 + 2 ^ 16 * 65536)) = Ok tt
  /\ Motorola.check (with_address (mkRecord 0 (Some 3) [x41] 6 None)
                                  (2 ^ 40)) = Ok tt
  /\ Mos.check (with_address (mkRecord 0 None [x41; x42] 2 None) 65535)
     = Ok tt
  /\ Intel.init 4294967296 (Some 0) [] Ellipsis
     = Raise (ValueError "address overflow")
  /\ Intel.init 4294967295 (Some 0) [x41; x42] Ellipsis
     = Raise (ValueError "size overflow")
  /\ @rt_split (record_type MosTech) [x41] 65536 16 true true
     = Raise (ValueError "address overflow")
  /\ @rt_split (record_type MotorolaSrec) [x41; x42] 4294967295 16 true true
     = Raise (ValueError "size overflow").
Proof.
  destruct check_address_bounds
    as (H1 & H2 & H3 & H4 & H5 & _ & H7 & H8 & H9 & H10).
  split; [apply (H1 MotorolaSrec); simpl; lia|].
  split; [apply H2; simpl; lia|].
  split; [apply (H3 (mkRecord 4660 (Some 0) [x41] 1 (Some 120)) 65536);
          [reflexivity|lia]|].
  split; [apply H4; [reflexivity|reflexivity|reflexivity|lia]|].
  split; [apply H5; [reflexivity|reflexivity|lia]|].
  split; [apply H7; lia|].
  split; [apply H8; simpl; lia|].
  split; [apply (H9 MosTech); simpl; lia|].
  apply (H10 MotorolaSrec); simpl; lia.
Defined.

(** C7 (counterexample): [check] passes records that reach beyond the
    address width: a MOS data record at 0xFFFF with two bytes; an Intel
    data record readdressed to 0xFFFFFFFF with two bytes; an Intel data
    record at address 2^32, with its checksum stored; a Motorola record at
    address 2^32, with and without a stored checksum. *)
Lemma check_accepts_beyond_width :
  (exists r,
      Mos.build_data 65535 [x41; x42] = Ok r
      /\ 2 ^ 16 < address r + len (data r)
      /\ Mos.check r = Ok tt)
  /\ (exists ela d ela' r,
         Intel.build_extended_linear_address 4294901760 = Ok ela
         /\ Intel.build_data 65535 [x41; x42] = Ok d
         /\ Intel.readdress [ela; d] = Ok [ela'; r]
         /\ 2 ^ 32 < address r + len (data r)
         /\ Intel.check r = Ok tt)
  /\ Intel.check (mkRecord (2 ^ 32) (Some 0) [x41] 1 (Some 190)) = Ok tt
  /\ (exists r,
         Motorola.init (2 ^ 32) (Some Motorola.DATA_32) [] (Stored None) = Ok r
         /\ 2 ^ 32 <= address r
         /\ Motorola.check r = Ok tt)
  /\ (exists r,
         Motorola.init (2 ^ 32) (Some Motorola.DATA_32) [x41] Ellipsis = Ok r
         /\ 2 ^ 32 <= address r
         /\ checksum r <> None
         /\ Motorola.check r = Ok tt).
Proof.
  split; [|split; [|split; [|split]]].
  - eexists. split; [reflexivity|]. split; [vm_compute|]; reflexivity.
  - do 4 eexists. split; [reflexivity|]. split; [reflexivity|].
    split; [reflexivity|]. split; [vm_compute|]; reflexivity.
  - vm_compute. reflexivity.
  - eexists. split; [reflexivity|]. split; [vm_compute; congruence|].
    reflexivity.
  - eexists. split; [vm_compute; reflexivity|].
    split; [vm_compute; congruence|]. split; [discriminate|].
    vm_compute. reflexivity.
Qed.

(** ** What the sequence checks accept *)

Section SequenceLoopExact.

Variable check : record -> result unit.
Variable is_data : record -> bool.

Lemma check_sequence_loop_iff (records : list record) :
  forall (last : option record) (e : Z),
    check_sequence_loop check is_data records last e = Ok tt
    <-> Forall (fun r => check r = Ok tt) records
        /\ (forall mid r post l,
               records = mid ++ r :: post ->
               forallb (fun x => negb (is_data x)) mid = true ->
               is_data r = true -> last = Some l ->
               overlaps r l = false)
        /\ (forall r post,
               records = r :: post -> is_data r = true -> last <> None ->
               e <= address r)
        /\ (forall pre l mid r post,
               records = pre ++ l :: mid ++ r :: post ->
               is_data l = true ->
               forallb (fun x => negb (is_data x)) mid = true ->
               is_data r = true ->
               overlaps r l = false)
        /\ (forall pre p r post,
               records = pre ++ p :: r :: post ->
               is_data r = true ->
               last <> None \/ existsb is_data (pre ++ [p]) = true ->
               address p + len (data p) <= address r).
Proof.
  induction records as [|r rest IH]; intros last e.
  - split; [intros _|reflexivity].
    split; [constructor|].
    split; [intros mid r post l E; destruct mid; discriminate|].
    split; [intros r post E; discriminate|].
    split; [intros pre l mid r post E; destruct pre; discriminate|].
    intros pre p r post E; destruct pre; discriminate.
  - cbn [check_sequence_loop]. split.
    + intro H. apply bind_ok in H. destruct H as ([] & Hc & H).
      apply bind_ok in H. destruct H as (last' & Hl & H).
      apply IH in H. destruct H as (F & A & B & Q1 & Q2).
      assert (Hstep :
                (is_data r = true ->
                 last' = Some r
                 /\ forall l, last = Some l ->
                              overlaps r l = false /\ e <= address r)
                /\ (is_data r = false -> last' = last)).
      { destruct (is_data r).
        - split; [intros _|discriminate]. destruct last as [l|].
          + apply unless_bind_ok in Hl. destruct Hl as [Ho Hl].
            apply unless_bind_ok in Hl. destruct Hl as [Hs Hl].
            injection Hl as <-. split; [reflexivity|].
            intros l' E. injection E as <-.
            apply negb_true_iff in Ho. apply negb_true_iff, Z.ltb_ge in Hs.
            now split.
          + injection Hl as <-. split; [reflexivity|discriminate].
        - split; [discriminate|intros _]. now injection Hl as <-. }
      destruct Hstep as [Sd Sn].
      split; [now constructor|]. split; [|split; [|split]].
      * intros mid r0 post l E Hmid Hr0 Hlast. destruct mid as [|m mid].
        -- cbn [app] in E. injection E as <- <-.
           now apply (proj2 (Sd Hr0) l).
        -- cbn [app] in E. injection E as <- ->.
           cbn [forallb] in Hmid. apply andb_true_iff in Hmid.
           destruct Hmid as [Hr Hmid]. apply negb_true_iff in Hr.
           apply (A mid r0 post l eq_refl Hmid Hr0).
           now rewrite (Sn Hr).
      * intros r0 post E Hr0 Hne. injection E as <- <-.
        destruct last as [l|]; [|congruence].
        now apply (proj2 (Sd Hr0) l).
      * intros pre l mid r0 post E Hl0 Hmid Hr0. destruct pre as [|p pre].
        -- cbn [app] in E. injection E as <- ->.
           apply (A mid r0 post r eq_refl Hmid Hr0).
           now apply (proj1 (Sd Hl0)).
        -- cbn [app] in E. injection E as <- ->.
           now apply (Q1 pre l mid r0 post).
      * intros pre p r0 post E Hr0 Hor.
        assert (Hseen : last <> None \/ is_data r = true -> last' <> None).
        { intros [K|K].
          - destruct (is_data r) eqn:Ed.
            + rewrite (proj1 (Sd eq_refl)). discriminate.
            + now rewrite (Sn eq_refl).
          - rewrite (proj1 (Sd K)). discriminate. }
        destruct pre as [|q pre].
        -- cbn [app] in E. injection E as <- ->.
           apply (B r0 post eq_refl Hr0). apply Hseen.
           destruct Hor as [K|K]; [now left|right].
           cbn [app existsb] in K. now rewrite orb_false_r in K.
        -- cbn [app] in E. injection E as <- ->.
           apply (Q2 pre p r0 post eq_refl Hr0).
           destruct Hor as [K|K]; [left; apply Hseen; now left|].
           cbn [app existsb] in K. apply orb_true_iff in K.
           destruct K as [K|K]; [left; apply Hseen; now right|now right].
    + intros (F & A & B & Q1 & Q2).
      inversion F as [|? ? Hc Frest]; subst. rewrite Hc. cbn [bind].
      assert (Hgo : forall last',
                 (is_data r = true -> last' = Some r) ->
                 (is_data r = false -> last' = last) ->
                 check_sequence_loop check is_data rest last'
                                     (address r + len (data r)) = Ok tt).
      { intros last' Sd Sn. apply IH. split; [exact Frest|].
        split; [|split; [|split]].
        - intros mid r0 post l -> Hmid Hr0 Hl.
          destruct (is_data r) eqn:Ed.
          + rewrite (Sd eq_refl) in Hl. injection Hl as <-.
            now apply (Q1 [] r mid r0 post).
          + rewrite (Sn eq_refl) in Hl.
            apply (A (r :: mid) r0 post l eq_refl); [|exact Hr0|exact Hl].
            cbn [forallb]. now rewrite Ed.
        - intros r0 post -> Hr0 Hne.
          apply (Q2 [] r r0 post eq_refl Hr0).
          destruct (is_data r) eqn:Ed.
          + right. cbn [app existsb]. now rewrite Ed.
          + left. now rewrite <- (Sn eq_refl).
        - intros pre l mid r0 post -> Hl0 Hmid Hr0.
          now apply (Q1 (r :: pre) l mid r0 post).
        - intros pre p r0 post -> Hr0 Hor.
          apply (Q2 (r :: pre) p r0 post eq_refl Hr0).
          destruct Hor as [K|K].
          + destruct (is_data r) eqn:Ed.
            * right. cbn [app existsb]. now rewrite Ed.
            * left. now rewrite <- (Sn eq_refl).
          + right. cbn [app existsb]. rewrite K. apply orb_true_r. }
      destruct (is_data r) eqn:Ed.
      * destruct last as [l|].
        -- rewrite (A [] r rest l eq_refl eq_refl Ed eq_refl).
           cbn [negb unless bind].
           replace (address r <? e) with false.
           2:{ symmetry. apply Z.ltb_ge.
               apply (B r rest eq_refl Ed). discriminate. }
           cbn [negb unless bind]. apply Hgo; [reflexivity|discriminate].
        -- cbn [bind]. apply Hgo; [reflexivity|discriminate].
      * cbn [bind]. apply Hgo; [discriminate|reflexivity].
Qed.

Lemma check_sequence_loop_value_error (records : list record) :
  (forall r, check r = Ok tt \/ exists msg, check r = Raise (ValueError msg)) ->
  forall (last : option record) (e : Z),
    check_sequence_loop check is_data records last e = Ok tt
    \/ exists msg,
         check_sequence_loop check is_data records last e
         = Raise (ValueError msg).
Proof.
  intro Hc. induction records as [|r rest IH]; intros last e; [now left|].
  cbn [check_sequence_loop].
  destruct (Hc r) as [K|[msg K]]; rewrite K; cbn [bind];
    [|right; now exists msg].
  destruct (is_data r); [destruct last as [l|]|]; cbn [bind]; try apply IH.
  destruct (overlaps r l); cbn [negb unless bind];
    [right; eexists; reflexivity|].
  destruct (address r <? e); cbn [negb unless bind];
    [right; eexists; reflexivity|]. apply IH.
Qed.

End SequenceLoopExact.

Lemma record_check_sequence_iff (check : record -> result unit)
  (is_data : record -> bool) (records : list record) :
  Record_check_sequence check is_data records = Ok tt
  <-> sequence_conditions check is_data records.
Proof.
  unfold Record_check_sequence, sequence_conditions.
  rewrite check_sequence_loop_iff. split.
  - intros (F & _ & _ & Q1 & Q2). split; [exact F|]. split; [exact Q1|].
    intros pre p r post E Hr Hs. apply (Q2 pre p r post E Hr). now right.
  - intros (F & Q1 & Q2). split; [exact F|].
    split; [intros mid r post l _ _ _ K; discriminate|].
    split; [intros r post _ _ K; congruence|]. split; [exact Q1|].
    intros pre p r post E Hr [K|K]; [congruence|].
    now apply (Q2 pre p r post).
Qed.

(** ** MOS: [check_sequence] *)

Lemma mos_check_sequence_last (body : list record) (t : record) :
  Record_check_sequence Mos.check Mos.is_data (body ++ [t]) = Ok tt ->
  Mos.check_sequence (body ++ [t])
  = unless ((address t =? len body)
            && option_Z_eqb (checksum t) (Some (len body)))
           (ValueError "wrong terminator").
Proof.
  intro Hb. unfold Mos.check_sequence. rewrite Hb. simpl bind.
  rewrite len_app, len_cons, len_nil. pose proof (len_nonneg body).
  replace (len body + (1 + 0) <? 1) with false
    by (symmetry; apply Z.ltb_ge; lia).
  simpl bind. rewrite tuple_get_last. simpl bind.
  replace (len body + 1 - 1) with (len body) by lia.
  now rewrite <- negb_andb, negb_involutive.
Qed.

(** C8: the MOS [check_sequence] accepts exactly the sequences that meet
    the conditions of the base class and whose last record has the number
    of records before it as address and as stored checksum.  Every other
    sequence raises a [ValueError]: an empty one a missing terminator, one
    that meets the conditions of the base class with another last record a
    wrong terminator.  Whether the last record is a terminator
    ([count == 0]), and whether it is the only one, is not tested: two
    terminators in a row are accepted, and so are 256 data records
    followed by a data record with address and checksum 256. *)
Theorem mos_check_sequence_accepts (records : list record) :
  (Mos.check_sequence records = Ok tt
   <-> sequence_conditions Mos.check Mos.is_data records
       /\ exists body t,
            records = body ++ [t]
            /\ address t = len body
            /\ checksum t = Some (len body))
  /\ (Mos.check_sequence records = Ok tt
      \/ exists msg, Mos.check_sequence records = Raise (ValueError msg))
  /\ (Mos.check_sequence [] = Raise (ValueError "missing terminator"))
  /\ (forall body t,
         records = body ++ [t] ->
         sequence_conditions Mos.check Mos.is_data records ->
         address t <> len body \/ checksum t <> Some (len body) ->
         Mos.check_sequence records = Raise (ValueError "wrong terminator"))
  /\ (exists t0 t1,
         Mos.build_terminator 0 = Ok t0
         /\ Mos.build_terminator 1 = Ok t1
         /\ Mos.check_sequence [t0; t1] = Ok tt
         /\ documented_mos_sequence [t0; t1] = false)
  /\ (exists body d,
         mapM (fun i => Mos.build_data (Z.of_nat i) [x00]) (seq 0 256) = Ok body
         /\ Mos.init 256 None [xff] (Stored (Some 256)) = Ok d
         /\ Mos.is_data d = true
         /\ Mos.check_sequence (body ++ [d]) = Ok tt
         /\ documented_mos_sequence (body ++ [d]) = false).
Proof.
  split; [|split; [|split; [|split; [|split]]]].
  - rewrite <- record_check_sequence_iff. split.
    + intro H.
      destruct (Record_check_sequence Mos.check Mos.is_data records)
        as [[]|e] eqn:Hb;
        [|unfold Mos.check_sequence in H; rewrite Hb in H; discriminate].
      split; [reflexivity|].
      destruct (list_snoc_cases records) as [->|(body & t & ->)];
        [discriminate|].
      rewrite mos_check_sequence_last in H by exact Hb.
      apply unless_ok in H. apply andb_true_iff in H. destruct H as [K1 K2].
      apply Z.eqb_eq in K1. apply option_Z_eqb_eq in K2.
      exists body, t. now repeat split.
    + intros (Hb & body & t & -> & Ha & Hc).
      rewrite mos_check_sequence_last by assumption. apply unless_ok.
      apply andb_true_iff. split; [now apply Z.eqb_eq|].
      now apply option_Z_eqb_eq.
  - destruct (check_sequence_loop_value_error Mos.check Mos.is_data records
                mos_check_value_error None 0) as [Hb|[msg Hb]].
    + fold (Record_check_sequence Mos.check Mos.is_data records) in Hb.
      destruct (list_snoc_cases records) as [->|(body & t & ->)].
      * right. eexists. reflexivity.
      * rewrite mos_check_sequence_last by exact Hb.
        destruct ((address t =? len body)
                  && option_Z_eqb (checksum t) (Some (len body)));
          [now left|right; eexists; reflexivity].
    + fold (Record_check_sequence Mos.check Mos.is_data records) in Hb.
      right. exists msg. unfold Mos.check_sequence. now rewrite Hb.
  - reflexivity.
  - intros body t -> Hb Hne. apply record_check_sequence_iff in Hb.
    rewrite mos_check_sequence_last by assumption.
    destruct ((address t =? len body)
              && option_Z_eqb (checksum t) (Some (len body))) eqn:E;
      [|reflexivity].
    apply andb_true_iff in E. destruct E as [E1 E2].
    apply Z.eqb_eq in E1. apply option_Z_eqb_eq in E2. tauto.
  - do 2 eexists. repeat split.
  - do 2 eexists. split; [vm_compute; reflexivity|].
    split; [reflexivity|]. split; [reflexivity|].
    split; vm_compute; reflexivity.
Qed.

(** ** [merge_records]: last writer wins *)









